(* ===== verification/_CoqProject ===== *)
-Q . S2P
Prelude.v
Dpdk.v
Clock.v
LossModel.v
Float.v
Binary64.v
Moonem.v
CrcRate.v
LaunchTimestamp.v
Pipeline.v
MoonemSw.v
Histogram.v
SoftRate.v
MoonsniffLive.v
MoonsniffStats.v
Capture.v
Pcap.v
Snmp.v
SnmpLua.v
