(* ===== verification/Prelude.v ===== *)
(** * MoonGen: a verification development of the C/C++ core

    MoonGen is a packet generator: Lua scripts configure loops written in C and
    C++ (src/src) that receive, delay, shape, drop, stamp, count and send
    packets through libmoon and DPDK.  This library models those loops and
    proves what they promise.  libmoon, DPDK, the Lua runtime and net-snmp are
    not part of the repository: what the code uses of them are parameters with
    laws.

    ** The parts of the program and the files that model them

    - Prelude: results that can be undefined behaviour, machine integers at
      their width, sums over lists, tactics, hint databases.
    - Dpdk: the fields of [struct rte_mbuf] the sources touch, the effects a loop
      requests (free, enqueue, transmit) as a trace, polling loops ([run_loop]),
      conservation of packets along a trace; the classes [TimestampDynfield]
      (libmoon's accessors), [RteRing], [RteRingBurst] and [MbufPool], each with a
      concrete instance for evaluation.
    - Clock: busy waiting on the time-stamp counter, given as the sequence of its
      readings.
    - LossModel: src/moonem_common.h and .c.  The wyhash64 generator, the uniform,
      Gilbert-Elliott and netem loss models and [applyLoss].
    - Float, Binary64: double arithmetic as a class of operations ([FloatOps])
      and of laws ([FloatLaws]: exact result followed by one monotone rounding with
      an error of at most half a unit in the last place).
      Two instances: exact rationals, and IEEE 754 binary64 as defined by the
      standard library's SpecFloat, for which Binary64 proves the laws.
    - Moonem: src/moonem.cpp.  The delay, leaky bucket and token bucket receivers
      that use hardware timestamps.
    - CrcRate: src/crc-ratecontrol.cpp and .hpp.  Gaps in bytes, filled with
      frames the receiver discards.
    - LaunchTimestamp: src/launch-timestamp.cpp and .hpp.  Absolute launch times on
      top of CrcRate; the class [LaunchClock] is what its arithmetic promises.
    - Pipeline: a receiver of Moonem and the transmitter of LaunchTimestamp as two
      threads with the ring between them; the class [DelayedSource] is what the
      receivers promise.
    - MoonemSw: src/moonem_sw.cpp.  Receivers with software timestamps and the
      transmitter; the class [TaggedSource] is what the receivers promise it.
    - Histogram: src/histogram.cpp.
    - SoftRate: src/software-rate-limiter.cpp.  Per-packet, constant rate and Poisson
      limiters.
    - MoonsniffLive: the live mode of src/moonsniff.cpp; module [Live] is the code,
      module [Threads] its locking protocol as a step relation.
    - MoonsniffStats: the same with the accesses to the statistics, which no mutex
      guards, as steps of their own, and a scheduler to run examples.
    - Capture: the log of src/moonsniff.cpp and src/software-timestamping.c.
    - Pcap: the pcap writer of src/moonsniff.cpp; the class [Posix] is the answers
      of the system calls.
    - Snmp: rfc2544/utils/snmpc.c.  Requests to a device under test, object
      identifiers as text.
    - SnmpLua: the Lua side of the same file: registration of the module, argument
      checks, life of a session; the classes [LuaApi] and [SnmpSessions].

    ** How code becomes definitions

    One definition per function, and one per loop body where the loop has a state
    of its own, under the source's names.  A loop [while (is_running(0))] is a fold
    of its body over the inputs of its iterations (the burst received, the counter
    read).  Local variables that survive an iteration are the state.  Unsigned
    arithmetic is [Z] reduced with [u16], [u32], [u64]; signed overflow, conversions
    of doubles out of range, reads and writes out of bounds, null dereferences,
    division by zero and uses after free are the value [UB _] of the result type.
    NULL array entries are [None].  Code that runs on [double] is generic in
    [FloatOps], so each theorem says which arithmetic it is about: none in
    particular, any that satisfies the laws, or exact.

    ** What the theorems show

    - Conservation: no receiver loop loses, duplicates or reorders packets
      (receiver_loops_conserve, sw_receiver_loops_conserve, applyLoss_conserves).
    - Path emulation: receiver, ring and transmitter together deliver every packet
      within its delay bounds, in every interleaving and in double arithmetic
      (path_emulation_end_to_end).
    - Loss: [applyLoss] refines the two-state channel; the netem automaton's drops,
      monotonicity of uniform loss, full period of the generator.
    - Rates: token and leaky buckets keep their rate, their tokens and their
      backlog in bounds, hardware and software variants; the forwarding and the
      queueing token bucket agree.
    - Pacing: CrcRate refines the specification [pace], errors do not accumulate,
      line time is accounted for over any sequence of calls; LaunchTimestamp's byte
      counter follows the line and launch times are met up to rounding;
      MoonemSw's transmitter and SoftRate's loops never send early and terminate.
    - Statistics: Welford's recurrence is the mean and the variance, buckets count
      every value once; live mode refines look-back matching, keeps its types, and is
      linearizable; with one testing thread its statistics are the sequential ones.
    - Files: the log and the pcap file round-trip and, in trailer mode, the mapping
      is never overrun; a packet with a software timestamp carries the right one.
    - SNMP: addresses are encoded without loss, deleting a route addresses the
      row that adding it created, and no script that leaves finalisers alone uses a
      closed session.
    - Faults: the inputs on which the code leaves defined behaviour, leaks packets
      or contradicts its comments (names ending in _out_of_bounds, _loses_tail,
      _null_pool, _leaks_when_full, _ignores_threshold, _overrun, _wraps,
      _failure_fatal, _use_after_free, _lose_a_hit, _clock_stalls).

    ** Bounds and fuel

    The filler loop of CrcRate runs on fuel [fill_fuel], one more than the gap
    divided by the smallest filler, and [fill_loop_spec] shows that it never runs
    out for the configurations [limiter_wf] describes.  Busy waits run on
    [wait_fuel], the distance to the awaited time, enough for a counter that
    advances between two readings ([wait_until_spec]).  The transmitter's inner
    loop runs on the number of packets dequeued, enough because the receivers tag
    every packet with a burst size of at least one ([tx_chunk_spec]).  The retry
    loop of SoftRate runs on a bound of the driver's refusals, a hypothesis of
    cbr_iter_paced.  Bounds on times and lengths in the theorems keep 64-bit sums
    from wrapping; each is far beyond what a run can reach.

    ** What is not modelled

    The main program (it calls libmoon's), the Lua scripts, and the DPDK, libmoon,
    Lua and net-snmp functions behind the parameters.  Pauses at start-up and
    messages on the terminal.  Memory orders weaker than sequential consistency:
    threads are interleavings of single accesses. *)
From Stdlib Require Import ZArith Lia List.
From stdpp Require Export base tactics numbers option list sets.
From stdpp Require Import gmap.

#[global] Open Scope Z_scope.

(** ** Undefined behaviour and results *)

(** The ways in which the C and C++ sources can leave defined behaviour. *)
Inductive ub :=
| OutOfBounds
| NullDeref
| SignedOverflow
| BadConversion
| DivByZero
| UseAfterFree
| Uninitialised
| BusError (* access to a mapping beyond the end of its file *)
| OutOfFuel (* not a fault of the source: the bound given to a loop was too small *).

#[global] Instance ub_eq_dec : EqDecision ub.
Proof. solve_decision. Defined.

(** A computation either returns or runs into undefined behaviour. *)
Inductive res (A : Type) : Type :=
| Ok (a : A)
| UB (u : ub).
Arguments Ok {A} a.
Arguments UB {A} u.

#[global] Instance res_ret : MRet res := fun A a => Ok a.
#[global] Instance res_bind : MBind res := fun A B k m =>
  match m with Ok a => k a | UB u => UB u end.

(** ** Machine integers, at their width *)

Definition u16 (z : Z) : Z := z mod 2 ^ 16.
Definition u32 (z : Z) : Z := z mod 2 ^ 32.
Definition u64 (z : Z) : Z := z mod 2 ^ 64.

(** Two's complement reading of the low 32 and 64 bits. *)
Definition s32 (z : Z) : Z := (z + 2 ^ 31) mod 2 ^ 32 - 2 ^ 31.
Definition s64 (z : Z) : Z := (z + 2 ^ 63) mod 2 ^ 64 - 2 ^ 63.

Definition is_u32 (z : Z) : Prop := 0 <= z < 2 ^ 32.
Definition is_u64 (z : Z) : Prop := 0 <= z < 2 ^ 64.
Definition is_s64 (z : Z) : Prop := - 2 ^ 63 <= z < 2 ^ 63.

Arguments u16 : simpl never.
Arguments u32 : simpl never.
Arguments u64 : simpl never.
Arguments s32 : simpl never.
Arguments s64 : simpl never.

(** Signed 64-bit arithmetic: overflow is undefined. *)
Definition chk_s64 (z : Z) : res Z :=
  if bool_decide (- 2 ^ 63 <= z < 2 ^ 63) then Ok z else UB SignedOverflow.

(** ** Automation *)

Create HintDb moon discriminated.
Create Rewrite HintDb moon_rw.

Ltac zmod := Z.div_mod_to_equations; lia.

(** Splits every boolean test on integers that the goal or a hypothesis
    branches on, turning it into the order fact it decides. *)
Ltac case_zbool :=
  repeat match goal with
  | |- context [if ?a <? ?b then _ else _] => destruct (Z.ltb_spec a b)
  | |- context [if ?a <=? ?b then _ else _] => destruct (Z.leb_spec a b)
  | |- context [if ?a =? ?b then _ else _] => destruct (Z.eqb_spec a b)
  | H : context [if ?a <? ?b then _ else _] |- _ => destruct (Z.ltb_spec a b)
  | H : context [if ?a <=? ?b then _ else _] |- _ => destruct (Z.leb_spec a b)
  | H : context [if ?a =? ?b then _ else _] |- _ => destruct (Z.eqb_spec a b)
  end.

(** Runs through the binds of a [res] computation known to return [Ok]. *)
Ltac res_inv :=
  repeat match goal with
  | H : Ok _ = Ok _ |- _ => injection H; clear H; intros; subst
  | H : UB _ = Ok _ |- _ => discriminate H
  | H : mret _ = Ok _ |- _ => unfold mret, res_ret in H
  | H : mbind _ _ = Ok _ |- _ => unfold mbind, res_bind in H
  | H : match ?m with Ok _ => _ | UB _ => _ end = Ok _ |- _ =>
      let E := fresh "E" in destruct m eqn:E; [|discriminate H]
  | H : match ?p with (_, _) => _ end = Ok _ |- _ => destruct p eqn:?
  end.

(** ** Integer lemmas *)

Lemma u64_range z : 0 <= u64 z < 2 ^ 64.
Proof. apply Z.mod_pos_bound; lia. Qed.
Lemma u32_range z : 0 <= u32 z < 2 ^ 32.
Proof. apply Z.mod_pos_bound; lia. Qed.
Lemma u64_id z : is_u64 z -> u64 z = z.
Proof. apply Z.mod_small. Qed.
Lemma u32_id z : is_u32 z -> u32 z = z.
Proof. apply Z.mod_small. Qed.
Lemma u64_add_l a b : u64 (u64 a + b) = u64 (a + b).
Proof. apply Zplus_mod_idemp_l. Qed.
Lemma u64_add_r a b : u64 (a + u64 b) = u64 (a + b).
Proof. apply Zplus_mod_idemp_r. Qed.
Lemma u32_add_l a b : u32 (u32 a + b) = u32 (a + b).
Proof. apply Zplus_mod_idemp_l. Qed.
Lemma u64_u64 a : u64 (u64 a) = u64 a.
Proof. apply Zmod_mod. Qed.
Lemma s64_range z : is_s64 (s64 z).
Proof. unfold is_s64, s64. pose proof (Z.mod_pos_bound (z + 2 ^ 63) (2 ^ 64)). lia. Qed.
Lemma s64_id z : is_s64 z -> s64 z = z.
Proof. unfold is_s64, s64. intros. rewrite Z.mod_small; lia. Qed.
Lemma chk_s64_ok z : is_s64 z -> chk_s64 z = Ok z.
Proof. intros H. unfold chk_s64. by rewrite bool_decide_true. Qed.

#[export] Hint Resolve u64_range u32_range s64_range : moon.
#[export] Hint Rewrite u64_add_l u64_add_r u64_u64 : moon_rw.

Lemma bind_UB {A B} (m : res A) (k : A -> res B) u :
  mbind k m = UB u -> m = UB u \/ exists a, m = Ok a /\ k a = UB u.
Proof. destruct m as [a|]; cbn; [by right; exists a|intros [= <-]; by left]. Qed.

Lemma bind_Ok {A B} (m : res A) (k : A -> res B) b :
  m ≫= k = Ok b -> exists a, m = Ok a /\ k a = Ok b.
Proof. destruct m as [a|u]; [by exists a|done]. Qed.

(** ** Sums over lists *)

Fixpoint zsum {A} (f : A -> Z) (l : list A) : Z :=
  match l with [] => 0 | x :: l => f x + zsum f l end.

Lemma zsum_app {A} (f : A -> Z) l k : zsum f (l ++ k) = zsum f l + zsum f k.
Proof. induction l; simpl; lia. Qed.

Lemma zsum_nonneg {A} (f : A -> Z) l : Forall (fun x => 0 <= f x) l -> 0 <= zsum f l.
Proof. induction 1; simpl; lia. Qed.

Lemma zsum_perm {A} (f : A -> Z) l k : l ≡ₚ k -> zsum f l = zsum f k.
Proof. induction 1; simpl; lia. Qed.

Lemma zsum_concat {A} (f : A -> Z) (l : list (list A)) :
  zsum f (concat l) = zsum id (zsum f <$> l).
Proof. induction l as [|k l IH]; cbn; [done|]. by rewrite zsum_app, IH. Qed.

Lemma zsum_sub_const {A} (f : A -> Z) c l :
  zsum (fun x => f x - c) l = zsum f l - c * Z.of_nat (length l).
Proof. induction l; cbn [zsum length]; lia. Qed.

#[export] Hint Rewrite @zsum_app : moon_rw.


(** ** Sublists *)

Lemma Forall_sublist_of {A} (P : A -> Prop) (l k : list A) :
  k `sublist_of` l -> Forall P l -> Forall P k.
Proof. induction 1; intros HF; [done|..]; inversion_clear HF; auto. Qed.
