(* ===== verification/Dpdk.v ===== *)
(** * The environment: packet buffers, dynamic fields, effects

    DPDK and libmoon are not part of the repository.  What the code uses of
    them appears here: the fields of [struct rte_mbuf] the sources read or
    write, the effects they request (free, enqueue, transmit), and the
    interface of libmoon's timestamp dynfield accessors as a class with the
    laws the code relies on. *)
From S2P Require Import Prelude.
From stdpp Require Import gmap.

#[local] Open Scope Z_scope.

(** The fields of [struct rte_mbuf] the sources touch.  [buf] is the memory
    of the data buffer from its start ([buf_addr]); packet data starts at
    [data_off].  [dynfields] maps the offset of a registered 32-bit dynamic
    field to its value.  [timestamp_cell] is the storage behind libmoon's
    timestamp dynfield. *)
Record mbuf := Mbuf {
  m_addr : Z;
  pkt_len : Z;
  data_len : Z;
  ol_flags : Z;
  data_off : Z;
  buf : list Z;
  dynfields : gmap Z Z;
  timestamp_cell : Z
}.

Definition set_lens (m : mbuf) (dl pl : Z) : mbuf :=
  Mbuf (m_addr m) pl dl (ol_flags m) (data_off m) (buf m) (dynfields m) (timestamp_cell m).
Definition set_flags (m : mbuf) (fl : Z) : mbuf :=
  Mbuf (m_addr m) (pkt_len m) (data_len m) fl (data_off m) (buf m) (dynfields m) (timestamp_cell m).
Definition set_dynfield (m : mbuf) (off v : Z) : mbuf :=
  Mbuf (m_addr m) (pkt_len m) (data_len m) (ol_flags m) (data_off m) (buf m)
    (<[off := v]> (dynfields m)) (timestamp_cell m).
Definition set_cell (m : mbuf) (v : Z) : mbuf :=
  Mbuf (m_addr m) (pkt_len m) (data_len m) (ol_flags m) (data_off m) (buf m)
    (dynfields m) v.

(** What a packet is, apart from the bookkeeping in its dynamic fields. *)
Definition same_packet (m m' : mbuf) : Prop :=
  m_addr m = m_addr m' /\ pkt_len m = pkt_len m' /\ data_len m = data_len m' /\
  ol_flags m = ol_flags m' /\ data_off m = data_off m' /\ buf m = buf m'.

(** libmoon's [get_timestamp_dynfield] and [set_timestamp_dynfield]: a 64-bit
    cell of the buffer, independent of every other field. *)
Class TimestampDynfield := {
  get_timestamp_dynfield : mbuf -> Z;
  set_timestamp_dynfield : mbuf -> Z -> mbuf;
  get_timestamp_u64 : forall m, is_u64 (get_timestamp_dynfield m);
  get_set_timestamp : forall m v,
    is_u64 v -> get_timestamp_dynfield (set_timestamp_dynfield m v) = v;
  set_timestamp_same : forall m v, same_packet (set_timestamp_dynfield m v) m;
  set_timestamp_dyn : forall m v, dynfields (set_timestamp_dynfield m v) = dynfields m;
  get_timestamp_set_dynfield : forall m off v,
    get_timestamp_dynfield (set_dynfield m off v) = get_timestamp_dynfield m
}.

(** A concrete dynfield, for evaluation. *)
#[refine] Definition cell_dynfield : TimestampDynfield := {|
  get_timestamp_dynfield m := u64 (timestamp_cell m);
  set_timestamp_dynfield m v := set_cell m v |}.
Proof.
  - intros m. apply u64_range.
  - intros m v Hv. by apply u64_id.
  - intros m v. repeat split.
  - reflexivity.
  - reflexivity.
Defined.

(** The effects a loop requests from its environment, in order. *)
Inductive event :=
| Free (m : mbuf)
| EnqueueBulk (ring : Z) (ms : list mbuf)
| SendAll (port queue : Z) (ms : list mbuf).

#[global] Instance same_packet_equiv : Equivalence same_packet.
Proof.
  split.
  - intros m. repeat split.
  - intros m m'. unfold same_packet. intuition congruence.
  - intros m1 m2 m3. unfold same_packet. intuition congruence.
Qed.

Lemma same_packet_len m m' : same_packet m m' -> pkt_len m = pkt_len m'.
Proof. unfold same_packet. tauto. Qed.

Lemma set_timestamp_len `{TimestampDynfield} m v :
  pkt_len (set_timestamp_dynfield m v) = pkt_len m.
Proof. apply same_packet_len, set_timestamp_same. Qed.

#[export] Hint Resolve get_timestamp_u64 set_timestamp_same : moon.
#[export] Hint Rewrite @set_timestamp_len : moon_rw.

(** A buffer for evaluation: address, length and timestamp. *)
Definition sample_mbuf (addr len ts : Z) : mbuf := Mbuf addr len len 0 128 [] ∅ ts.

(** A polling loop [while (is_running(0)) body]: one input per iteration that
    [is_running] allows, the effects of the iterations in order. *)
Fixpoint run_loop {S I} (body : S -> I -> res (S * list event)) (s : S) (ins : list I)
    : res (S * list event) :=
  match ins with
  | [] => mret (s, [])
  | i :: ins =>
      '(s, ev) ← body s i;
      '(s, evs) ← run_loop body s ins;
      mret (s, ev ++ evs)
  end.

(** What a trace hands on, what it frees. *)
Definition handed_on (ev : list event) : list mbuf :=
  concat ((fun e => match e with Free _ => [] | EnqueueBulk _ ms | SendAll _ _ ms => ms end) <$> ev).
Definition freed (ev : list event) : list mbuf :=
  concat ((fun e => match e with Free m => [m] | _ => [] end) <$> ev).

Lemma handed_on_app ev1 ev2 : handed_on (ev1 ++ ev2) = handed_on ev1 ++ handed_on ev2.
Proof. unfold handed_on. by rewrite fmap_app, concat_app. Qed.
Lemma freed_app ev1 ev2 : freed (ev1 ++ ev2) = freed ev1 ++ freed ev2.
Proof. unfold freed. by rewrite fmap_app, concat_app. Qed.
Lemma handed_on_free ms : handed_on (Free <$> ms) = [].
Proof. by induction ms. Qed.
Lemma freed_free ms : freed (Free <$> ms) = ms.
Proof. unfold freed. induction ms as [|m ms IH]; [done|]. cbn. by f_equal. Qed.

#[export] Hint Rewrite handed_on_app freed_app handed_on_free freed_free : moon_rw.

(** The identity of a packet: everything but its dynamic fields. *)
Definition ident (m : mbuf) : Z * Z * Z * Z * Z * list Z :=
  (m_addr m, pkt_len m, data_len m, ol_flags m, data_off m, buf m).

(** A trace accounts for the packets received: each is handed on or freed,
    once, and the ones handed on keep their order. *)
Definition conserves (ins : list mbuf) (ev : list event) : Prop :=
  ident <$> (handed_on ev ++ freed ev) ≡ₚ ident <$> ins /\
  (ident <$> handed_on ev) `sublist_of` (ident <$> ins).

Lemma same_packet_ident m m' : same_packet m m' <-> ident m = ident m'.
Proof. unfold same_packet, ident. split; [intuition congruence|by intros [=]]. Qed.

Lemma ident_set_timestamp `{TimestampDynfield} m v :
  ident (set_timestamp_dynfield m v) = ident m.
Proof. apply same_packet_ident, set_timestamp_same. Qed.

Lemma conserves_nil : conserves [] [].
Proof. done. Qed.

Lemma conserves_app ins1 ins2 ev1 ev2 :
  conserves ins1 ev1 -> conserves ins2 ev2 -> conserves (ins1 ++ ins2) (ev1 ++ ev2).
Proof.
  intros [P1 S1] [P2 S2]. split; autorewrite with moon_rw; rewrite !fmap_app.
  - rewrite fmap_app in P1, P2. rewrite <- P1, <- P2. solve_Permutation.
  - by apply sublist_app.
Qed.

(** An invariant of the iterations is one of the loop. *)
Lemma run_loop_ind {S I} (body : S -> I -> res (S * list event))
    (P : S -> list I -> S -> list event -> Prop) :
  (forall s, P s [] s []) ->
  (forall s i s1 ev ins s2 evs,
     body s i = Ok (s1, ev) -> P s1 ins s2 evs -> P s (i :: ins) s2 (ev ++ evs)) ->
  forall ins s s' ev, run_loop body s ins = Ok (s', ev) -> P s ins s' ev.
Proof.
  intros H0 Hs ins. induction ins as [|i ins IH]; intros s s' ev H; simpl in H; res_inv; eauto.
Qed.

Lemma run_loop_conserves {S} (body : S -> list mbuf -> res (S * list event)) :
  (forall s i s' ev, body s i = Ok (s', ev) -> conserves i ev) ->
  forall ins s s' ev, run_loop body s ins = Ok (s', ev) -> conserves (concat ins) ev.
Proof.
  intros Hb. apply (run_loop_ind body (fun s ins s' ev => conserves (concat ins) ev)).
  - intros; apply conserves_nil.
  - intros s i s1 ev ins s2 evs H1 H2. simpl. apply conserves_app; eauto.
Qed.

Lemma run_loop_total {S I} (Q : S -> Prop) (body : S -> I -> res (S * list event)) :
  (forall s i, Q s -> exists s' ev, body s i = Ok (s', ev) /\ Q s') ->
  forall ins s, Q s -> exists s' ev, run_loop body s ins = Ok (s', ev) /\ Q s'.
Proof.
  intros Hb ins. induction ins as [|i ins IH]; intros s Hs; simpl; [by eexists _, _|].
  destruct (Hb s i Hs) as (s1 & ev & -> & Hs1). simpl.
  destruct (IH s1 Hs1) as (s2 & evs & -> & Hs2). by eexists _, _.
Qed.

(** [rte_ring_sp_enqueue_bulk]: all of the packets or none of them. *)
Class RteRing (R : Type) := {
  ring_items : R -> list mbuf;
  ring_room : R -> nat;
  ring_enqueue_bulk : R -> list mbuf -> R * Z;
  ring_enqueue_fits : forall r ms, (length ms <= ring_room r)%nat ->
    snd (ring_enqueue_bulk r ms) = Z.of_nat (length ms) /\
    ring_items (fst (ring_enqueue_bulk r ms)) = ring_items r ++ ms;
  ring_enqueue_full : forall r ms, (ring_room r < length ms)%nat ->
    snd (ring_enqueue_bulk r ms) = 0 /\ fst (ring_enqueue_bulk r ms) = r
}.

(** The ring after a trace: the loops ignore the result of the call. *)
Fixpoint ring_after `{RteRing R} (r : R) (ev : list event) : R :=
  match ev with
  | [] => r
  | EnqueueBulk _ ms :: ev => ring_after (fst (ring_enqueue_bulk r ms)) ev
  | _ :: ev => ring_after r ev
  end.

(** The packets of a trace that found no room: the loops neither see nor free
    them. *)
Fixpoint ring_lost `{RteRing R} (r : R) (ev : list event) : list mbuf :=
  match ev with
  | [] => []
  | EnqueueBulk _ ms :: ev =>
      let '(r', n) := ring_enqueue_bulk r ms in
      (if n =? 0 then ms else []) ++ ring_lost r' ev
  | _ :: ev => ring_lost r ev
  end.

(** A receiver with a transmit thread frees and enqueues, it sends nothing. *)
Definition queues (e : event) : Prop := match e with SendAll _ _ _ => False | _ => True end.

(** What a ring holds after a trace: the batches that fitted, in order. *)
Lemma ring_after_spec `{RteRing R} ev : forall r : R, Forall queues ev ->
  exists kept, ring_items (ring_after r ev) = ring_items r ++ kept /\
    kept `sublist_of` handed_on ev /\ handed_on ev ≡ₚ kept ++ ring_lost r ev.
Proof.
  induction ev as [|e ev IH]; intros r Hq; [by exists []; rewrite app_nil_r|].
  apply Forall_cons in Hq as [He Hq]. destruct e as [m|g ms|]; [|..|done].
  - destruct (IH r Hq) as (kept & ? & ? & ?). by exists kept.
  - change (handed_on (EnqueueBulk g ms :: ev)) with (ms ++ handed_on ev). cbn [ring_after ring_lost].
    destruct (decide (length ms <= ring_room r)%nat) as [Hfit|Hfull].
    + destruct (ring_enqueue_fits r ms Hfit) as [E1 E2].
      destruct (ring_enqueue_bulk r ms) as [r' n]. cbn [fst snd] in *.
      destruct (IH r' Hq) as (kept & K1 & K2 & K3). exists (ms ++ kept).
      rewrite K1, E2, app_assoc. split; [done|]. split; [by apply sublist_app|].
      destruct (Z.eqb_spec n 0) as [->|]; [|rewrite K3; cbn; by rewrite app_assoc].
      destruct ms; [cbn; done|cbn in E1; lia].
    + destruct (ring_enqueue_full r ms ltac:(lia)) as [E1 E2].
      destruct (ring_enqueue_bulk r ms) as [r' n]. cbn [fst snd] in *. subst r' n.
      destruct (IH r Hq) as (kept & K1 & K2 & K3). exists kept. split; [done|].
      split; [by apply sublist_inserts_l|]. cbn [Z.eqb]. rewrite K3. solve_Permutation.
Qed.

(** [rte_ring_sc_dequeue_burst]: as many packets as there are, up to [n], in
    the order in which they were enqueued. *)
Class RteRingBurst (R : Type) `{RteRing R} := {
  ring_dequeue_burst : R -> nat -> list mbuf * R;
  ring_dequeue_spec : forall r n,
    fst (ring_dequeue_burst r n) = take n (ring_items r) /\
    ring_items (snd (ring_dequeue_burst r n)) = drop n (ring_items r)
}.

(** A bounded FIFO, for evaluation: its capacity and its contents. *)
#[refine] Definition list_ring : RteRing (nat * list mbuf) := {|
  ring_items r := snd r;
  ring_room r := (fst r - length (snd r))%nat;
  ring_enqueue_bulk r ms :=
    if decide (length ms <= fst r - length (snd r))%nat
    then ((fst r, snd r ++ ms), Z.of_nat (length ms)) else (r, 0) |}.
Proof.
  - intros r ms Hl. by rewrite decide_True.
  - intros r ms Hl. by rewrite decide_False by lia.
Defined.

#[refine] Definition list_ring_burst : @RteRingBurst _ list_ring := {|
  ring_dequeue_burst r n := (take n (snd r), (fst r, drop n (snd r))) |}.
Proof. done. Defined.

(** The packet pool behind the filler packets: what the [k]-th call of
    [rte_pktmbuf_alloc] returns ([None] for NULL), and the packets the [k]-th
    call of libmoon's [alloc_mbufs] fills an array with, all of the requested
    length.  [TX_IEEE1588_TMST] is DPDK's transmit timestamp flag. *)
Class MbufPool := {
  pktmbuf_alloc : nat -> option mbuf;
  alloc_mbufs : nat -> nat -> Z -> list mbuf;
  alloc_mbufs_spec : forall k n len,
    length (alloc_mbufs k n len) = n /\ Forall (fun m => pkt_len m = len) (alloc_mbufs k n len);
  TX_IEEE1588_TMST : Z
}.

(** A pool that never runs dry, for evaluation: buffer [k] has address [1000 + k]. *)
#[refine] Definition endless_pool : MbufPool := {|
  pktmbuf_alloc k := Some (sample_mbuf (1000 + Z.of_nat k) 0 0);
  alloc_mbufs k n len := replicate n (sample_mbuf (5000 + Z.of_nat k) len 0);
  TX_IEEE1588_TMST := 2 ^ 51 |}.
Proof.
  intros k n len. split; [apply length_replicate|]. by apply Forall_replicate.
Defined.
