(* ===== verification/Clock.v ===== *)
(** * Busy waiting on the time-stamp counter

    [while (rte_rdtsc() < t);] and its variants, shared by the software
    transmitter (MoonemSw) and the software rate limiters (SoftRate).  The
    counter is the sequence of its readings, one per call. *)
From S2P Require Import Prelude.

Section Clock.
Context (rdtsc : nat -> Z).

(** From reading [k] on: the reading that ends the wait for [ts]. *)
Fixpoint wait_until (fuel : nat) (k : nat) (ts : Z) : res nat :=
  if rdtsc k <? ts then
    match fuel with O => UB OutOfFuel | S fuel => wait_until fuel (S k) ts end
  else mret k.

(** Enough fuel for a counter that advances between two readings. *)
Definition wait_fuel (k : nat) (ts : Z) : nat := Z.to_nat (ts - rdtsc k).

Context (rdtsc_advances : forall k, rdtsc k < rdtsc (S k)).

(** The busy wait ends at the first reading that is due. *)
Lemma wait_until_first fuel k ts :
  ts - rdtsc k <= Z.of_nat fuel ->
  exists k', wait_until fuel k ts = Ok k' /\ (k <= k')%nat /\ ts <= rdtsc k' /\
    forall j, (k <= j < k')%nat -> rdtsc j < ts.
Proof.
  revert k. induction fuel as [|fuel IH]; intros k Hf; cbn [wait_until];
    destruct (Z.ltb_spec (rdtsc k) ts) as [Hlt|Hge].
  - lia.
  - exists k. split; [done|]. split; [lia|]. split; [done|lia].
  - pose proof (rdtsc_advances k).
    destruct (IH (S k)) as (k' & E & Hk & Ht & Hj); [lia|].
    exists k'. split; [done|]. split; [lia|]. split; [done|]. intros j Hjk.
    destruct (decide (j = k)) as [->|]; [done|]. apply Hj. lia.
  - exists k. split; [done|]. split; [lia|]. split; [done|lia].
Qed.

Lemma wait_until_spec k ts :
  exists k', wait_until (wait_fuel k ts) k ts = Ok k' /\ (k <= k')%nat /\ ts <= rdtsc k' /\
    forall j, (k <= j < k')%nat -> rdtsc j < ts.
Proof. apply wait_until_first. unfold wait_fuel. lia. Qed.

Lemma rdtsc_mono j k : (j <= k)%nat -> rdtsc j <= rdtsc k.
Proof. induction 1 as [|k Hk IH]; [lia|]. pose proof (rdtsc_advances k). lia. Qed.

End Clock.

(** A wait that ended has seen its time, whatever the counter does. *)
Lemma wait_until_due rdtsc fuel k ts k' :
  wait_until rdtsc fuel k ts = Ok k' -> (k <= k')%nat /\ ts <= rdtsc k'.
Proof.
  revert k. induction fuel as [|fuel IH]; intros k; cbn [wait_until];
    destruct (Z.ltb_spec (rdtsc k) ts); intros Hw; res_inv; [split; lia| |split; lia].
  apply IH in Hw. split; [lia|tauto].
Qed.
