(* ===== verification/LossModel.v ===== *)
(** * Packet loss models: src/moonem_common.h, src/moonem_common.c

    The configuration record, the wyhash64 generator, the Gilbert-Elliott and
    the four-state netem loss automata, and [applyLoss], which runs one of
    them over a burst.  Array reads of [loss_model_parameters] are bounds
    checked: reading past the declared five entries is undefined. *)
From S2P Require Import Prelude Dpdk.

(** ** Data *)

Inductive loss_type := NONE | UNIFORM | GE | NETEM.

#[global] Instance loss_type_eq_dec : EqDecision loss_type.
Proof. solve_decision. Defined.

Record moonem_config := MoonemConfig {
  delay : Z;
  rate : Z;
  capacity : Z;
  loss_seed : Z;
  cfg_loss_type : loss_type;
  loss : Z;
  loss_model_parameters : list Z
}.

(** The configuration as the type declares it: 64-bit fields, five
    parameters. *)
Definition config_wf (c : moonem_config) : Prop :=
  is_u64 (delay c) /\ is_u64 (rate c) /\ is_u64 (capacity c) /\
  is_u64 (loss_seed c) /\ is_u64 (loss c) /\
  length (loss_model_parameters c) = 5%nat /\
  Forall is_u64 (loss_model_parameters c).

Definition BURST_SIZE : Z := 64.

(** [uint64_t loss_state[2]]: the generator's state and the automaton's. *)
Record loss_state := LossState { random_state : Z; state : Z }.

(** ** wyhash64 *)

Definition wyhash64 (st : Z) : Z * Z :=
  let st := u64 (st + 0x60bee2bee120fc15) in
  let tmp := st * 0xa3b195354a39b70d in
  let m1 := u64 (Z.lxor (Z.shiftr tmp 64) tmp) in
  let tmp := m1 * 0x1b03738712fad5c9 in
  let m2 := u64 (Z.lxor (Z.shiftr tmp 64) tmp) in
  (st, m2).

Arguments wyhash64 : simpl never.

(** ** Parameter access *)

Definition ge_p : nat := 0.
Definition ge_r : nat := 1.
Definition ge_h_ : nat := 2.
Definition ge_k_ : nat := 3.

Definition q1 : Z := 0.
Definition q2 : Z := 1.
Definition q3 : Z := 2.
Definition q4 : Z := 3.
Definition p_stay : Z := 0.
Definition p_keep_link_state : Z := 1.

Definition param (c : moonem_config) (i : nat) : res Z :=
  match loss_model_parameters c !! i with
  | Some v => Ok v
  | None => UB OutOfBounds
  end.

(** ** Gilbert-Elliott *)

Definition ge_drop (ls : loss_state) (c : moonem_config) : res (loss_state * bool) :=
  let '(rnd, x) := wyhash64 (random_state ls) in
  p ← param c ge_p;
  r ← param c ge_r;
  if (negb (state ls =? 0) && (x <? p)) || ((state ls =? 0) && negb (x <? r))
  then
    let '(rnd, y) := wyhash64 rnd in
    h ← param c ge_h_;
    mret (LossState rnd 0, y <? h)
  else
    let '(rnd, y) := wyhash64 rnd in
    k ← param c ge_k_;
    mret (LossState rnd 1, y <? k).

(** ** The netem automaton *)

Definition netem_drop (ls : loss_state) (c : moonem_config) : res (loss_state * bool) :=
  let drop12_keep34 := state ls <? q3 in
  let '(rnd, x) := wyhash64 (random_state ls) in
  stay ← param c (Z.to_nat (u64 (u64 (state ls * 2) + p_stay)));
  if x <? stay then mret (LossState rnd (state ls), negb drop12_keep34)
  else
    keep ← param c (Z.to_nat (u64 (u64 (state ls * 2) + p_keep_link_state)));
    if x <? u64 (stay + keep)
    then mret (LossState rnd (Z.lxor (state ls) 3), drop12_keep34)
    else mret (LossState rnd (Z.lxor (state ls) 2), drop12_keep34).

(** ** applyLoss *)

Definition uniform_drop (ls : loss_state) (c : moonem_config) : res (loss_state * bool) :=
  let '(rnd, x) := wyhash64 (random_state ls) in
  mret (LossState rnd (state ls), x <? loss c).

(** The loop shared by the three cases of [applyLoss]: [drop] is called once
    per packet, a dropped packet is freed, a kept one is appended to
    [bufs_send]. *)
Fixpoint loss_loop (drop : loss_state -> moonem_config -> res (loss_state * bool))
    (c : moonem_config) (ls : loss_state) (bufs : list mbuf)
    : res (loss_state * list event * list mbuf) :=
  match bufs with
  | [] => mret (ls, [], [])
  | b :: bufs =>
      '(ls, d) ← drop ls c;
      '(ls, ev, sent) ← loss_loop drop c ls bufs;
      if (d : bool) then mret (ls, Free b :: ev, sent) else mret (ls, ev, b :: sent)
  end.

(** The result is the new state, the buffers freed and the first
    [accept_index] entries of [bufs_send]. *)
Definition applyLoss (bufs : list mbuf) (ls : loss_state) (c : moonem_config)
    : res (loss_state * list event * list mbuf) :=
  match cfg_loss_type c with
  | NONE => mret (ls, [], [])
  | UNIFORM => loss_loop uniform_drop c ls bufs
  | GE => loss_loop ge_drop c ls bufs
  | NETEM => loss_loop netem_drop c ls bufs
  end.

Definition applyLoss_export := applyLoss.

(** ** Specifications *)

(** The decisions [drop] takes on the next [n] packets: they depend on the
    state and the configuration alone, never on a packet. *)
Fixpoint decisions (drop : loss_state -> moonem_config -> res (loss_state * bool))
    (c : moonem_config) (ls : loss_state) (n : nat) : res (loss_state * list bool) :=
  match n with
  | O => mret (ls, [])
  | S n =>
      '(ls, d) ← drop ls c;
      '(ls, ds) ← decisions drop c ls n;
      mret (ls, d :: ds)
  end.

(** The elements of [l] whose flag is [b]. *)
Fixpoint select {A} (b : bool) (ds : list bool) (l : list A) : list A :=
  match ds, l with
  | d :: ds, x :: l => if Bool.eqb d b then x :: select b ds l else select b ds l
  | _, _ => []
  end.

(** The Gilbert-Elliott channel: a link that is good or bad, moved by a draw
    [x] and losing a packet on a draw [y].  [h_] and [k_] are the loss
    probabilities 1-h of the bad and 1-k of the good state. *)
Inductive ge_link := Good | Bad.

Definition ge_spec (p r h_ k_ : Z) (l : ge_link) (x y : Z) : ge_link * bool :=
  let l' := match l with
            | Good => if x <? p then Bad else Good
            | Bad => if x <? r then Good else Bad
            end in
  (l', y <? match l' with Good => k_ | Bad => h_ end).

Definition ge_link_of (ls : loss_state) : ge_link :=
  if state ls =? 0 then Bad else Good.

(** [n] packets through the channel, the draws taken from the generator. *)
Fixpoint ge_run (p r h_ k_ : Z) (l : ge_link) (rnd : Z) (n : nat) : list bool :=
  match n with
  | O => []
  | S n =>
      let '(rnd, x) := wyhash64 rnd in
      let '(rnd, y) := wyhash64 rnd in
      let '(l, d) := ge_spec p r h_ k_ l x y in
      d :: ge_run p r h_ k_ l rnd n
  end.

Definition netem_wf (ls : loss_state) : Prop := q1 <= state ls <= q4.

(** ** Lemmas *)

Lemma wyhash64_range s : is_u64 (fst (wyhash64 s)) /\ is_u64 (snd (wyhash64 s)).
Proof. split; apply u64_range. Qed.

Lemma wyhash64_iter n s :
  Nat.iter n (fun s => fst (wyhash64 s)) (u64 s)
  = u64 (s + Z.of_nat n * 0x60bee2bee120fc15).
Proof.
  induction n as [|n IH]; [simpl; f_equal; lia|].
  rewrite Nat.iter_succ, IH. unfold wyhash64, fst. autorewrite with moon_rw.
  f_equal. lia.
Qed.

(** The increment of the generator is invertible modulo 2^64. *)
Definition wyhash64_inv : Z := 0x4718c01ea76cf33d.

Lemma select_length {A} b ds (l : list A) :
  (length (select b ds l) <= length l)%nat.
Proof. revert l; induction ds as [|d ds IH]; intros [|x l]; simpl; try lia.
  specialize (IH l). destruct (Bool.eqb d b); simpl; lia. Qed.

Lemma select_sublist {A} b ds (l : list A) : select b ds l `sublist_of` l.
Proof.
  revert l; induction ds as [|d ds IH]; intros [|x l]; simpl;
    try apply sublist_nil_l.
  destruct (Bool.eqb d b); by constructor.
Qed.

Lemma select_split {A} ds (l : list A) :
  length ds = length l -> select false ds l ++ select true ds l ≡ₚ l.
Proof.
  revert l; induction ds as [|d ds IH]; intros [|x l]; simpl; try done.
  intros [= Hl]. destruct d; simpl.
  - rewrite <- Permutation_middle. by rewrite IH.
  - by rewrite IH.
Qed.

Lemma decisions_length drop c n ls ls' ds :
  decisions drop c ls n = Ok (ls', ds) -> length ds = n.
Proof.
  revert ls ls' ds; induction n as [|n IH]; simpl; intros ls ls' ds H; res_inv; [done|].
  simpl. f_equal. by eapply IH.
Qed.

(** The loop is the decisions followed by a selection, and fails exactly when
    the decisions do. *)
Lemma loss_loop_decisions drop c ls bufs :
  loss_loop drop c ls bufs =
  '(ls, ds) ← decisions drop c ls (length bufs);
  mret (ls, Free <$> select true ds bufs, select false ds bufs).
Proof.
  revert ls; induction bufs as [|b bufs IH]; intros ls; [done|].
  simpl. destruct (drop ls c) as [[ls1 d]|]; [|done]. simpl.
  rewrite IH. destruct (decisions drop c ls1 (length bufs)) as [[ls2 ds]|]; [|done].
  by destruct d.
Qed.

Lemma config_param c i : config_wf c -> (i < 5)%nat ->
  exists v, param c i = Ok v /\ loss_model_parameters c !! i = Some v /\ is_u64 v.
Proof.
  intros (_ & _ & _ & _ & _ & Hl & Hf) Hi. unfold param.
  destruct (lookup_lt_is_Some_2 (loss_model_parameters c) i) as [v Hv]; [lia|].
  exists v. rewrite Hv. split_and!; try done.
  by eapply Forall_lookup_1 in Hf.
Qed.

Lemma config_param_oob c i : config_wf c -> (5 <= i)%nat -> param c i = UB OutOfBounds.
Proof.
  intros (_ & _ & _ & _ & _ & Hl & _) Hi. unfold param.
  by rewrite lookup_ge_None_2 by lia.
Qed.

(** One call of [ge_drop] is one step of the channel. *)
Lemma ge_drop_step c ls p r h k :
  loss_model_parameters c !! ge_p = Some p -> loss_model_parameters c !! ge_r = Some r ->
  loss_model_parameters c !! ge_h_ = Some h -> loss_model_parameters c !! ge_k_ = Some k ->
  exists ls', 
    let '(rnd, x) := wyhash64 (random_state ls) in
    let '(rnd, y) := wyhash64 rnd in
    let '(l, d) := ge_spec p r h k (ge_link_of ls) x y in
    ge_drop ls c = Ok (ls', d) /\ random_state ls' = rnd /\ ge_link_of ls' = l.
Proof.
  intros Hp Hr Hh Hk. unfold ge_drop, ge_spec, ge_link_of, param.
  destruct (wyhash64 (random_state ls)) as [rnd x].
  destruct (wyhash64 rnd) as [rnd' y] eqn:E.
  rewrite Hp; simpl. rewrite Hr; simpl. rewrite ?Hh, ?Hk.
  destruct (state ls =? 0) eqn:Es, (x <? p) eqn:Ep, (x <? r) eqn:Er; simpl;
    eexists; split_and!; try done.
Qed.

Lemma ge_decisions c ls n p r h k :
  loss_model_parameters c !! ge_p = Some p -> loss_model_parameters c !! ge_r = Some r ->
  loss_model_parameters c !! ge_h_ = Some h -> loss_model_parameters c !! ge_k_ = Some k ->
  exists ls', decisions ge_drop c ls n
    = Ok (ls', ge_run p r h k (ge_link_of ls) (random_state ls) n).
Proof.
  intros Hp Hr Hh Hk. revert ls; induction n as [|n IH]; intros ls;
    cbn [decisions ge_run]; [by eexists|].
  destruct (ge_drop_step c ls p r h k) as [ls1 H1]; [done..|].
  destruct (wyhash64 (random_state ls)) as [rnd x].
  destruct (wyhash64 rnd) as [rnd' y].
  destruct (ge_spec p r h k (ge_link_of ls) x y) as [l d].
  destruct H1 as (-> & <- & <-). cbn [mbind res_bind].
  destruct (IH ls1) as [ls2 ->]. by eexists.
Qed.

Lemma uniform_drop_ok ls c :
  uniform_drop ls c = Ok (LossState (fst (wyhash64 (random_state ls))) (state ls),
                          snd (wyhash64 (random_state ls)) <? loss c).
Proof. unfold uniform_drop. by destruct (wyhash64 (random_state ls)). Qed.

Lemma uniform_decisions_mono c1 c2 ls n :
  loss c1 <= loss c2 ->
  exists ls' ds1 ds2,
    decisions uniform_drop c1 ls n = Ok (ls', ds1) /\
    decisions uniform_drop c2 ls n = Ok (ls', ds2) /\
    Forall2 (fun d1 d2 : bool => d1 -> d2) ds1 ds2.
Proof.
  intros Hle. revert ls; induction n as [|n IH]; intros ls; cbn [decisions];
    [by eexists _, [], []|].
  rewrite !uniform_drop_ok. cbn [mbind res_bind].
  destruct (wyhash64 (random_state ls)) as [rnd x]; cbn [fst snd].
  destruct (IH (LossState rnd (state ls))) as (ls' & ds1 & ds2 & -> & -> & HF).
  eexists _, _, _. split_and!; [done..|]. constructor; [|done].
  destruct (Z.ltb_spec x (loss c1)), (Z.ltb_spec x (loss c2)); simpl; try done. lia.
Qed.

Lemma select_false_mono {A} ds1 ds2 (l : list A) :
  Forall2 (fun d1 d2 : bool => d1 -> d2) ds1 ds2 ->
  select false ds2 l `sublist_of` select false ds1 l.
Proof.
  intros HF; revert l; induction HF as [|d1 d2 ds1 ds2 H HF IH]; intros [|x l]; try done.
  destruct d1, d2; simpl in *; try tauto; [apply IH|by constructor|by constructor].
Qed.

(** Both moves of the automaton change the link state. *)
Lemma netem_flip s : q1 <= s <= q4 ->
  q1 <= Z.lxor s 3 <= q4 /\ ((s <? q3) = true <-> q3 <= Z.lxor s 3) /\
  q1 <= Z.lxor s 2 <= q4 /\ ((s <? q3) = true <-> q3 <= Z.lxor s 2) /\
  (negb (s <? q3) = true <-> q3 <= s).
Proof.
  unfold q1, q3, q4. intros Hs.
  assert (s = 0 \/ s = 1 \/ s = 2 \/ s = 3) as [-> | [-> | [-> | ->]]] by lia;
    cbn; (split_and!; try split; intros; first [lia | done | discriminate]).
Qed.

(** [applyLoss] fails exactly when its decisions do, and otherwise selects
    with them; the drop function depends on the loss type only. *)
Definition drop_of (t : loss_type) : loss_state -> moonem_config -> res (loss_state * bool) :=
  match t with NONE | UNIFORM => uniform_drop | GE => ge_drop | NETEM => netem_drop end.

Lemma applyLoss_decisions bufs ls c :
  cfg_loss_type c <> NONE ->
  applyLoss bufs ls c =
  '(ls, ds) ← decisions (drop_of (cfg_loss_type c)) c ls (length bufs);
  mret (ls, Free <$> select true ds bufs, select false ds bufs).
Proof.
  intros Hn. unfold applyLoss. destruct (cfg_loss_type c); try done; apply loss_loop_decisions.
Qed.

Lemma applyLoss_partition bufs ls c ls' ev sent :
  cfg_loss_type c <> NONE -> applyLoss bufs ls c = Ok (ls', ev, sent) ->
  exists dropped, ev = Free <$> dropped /\
    sent `sublist_of` bufs /\ dropped `sublist_of` bufs /\ sent ++ dropped ≡ₚ bufs.
Proof.
  intros Hn H. rewrite applyLoss_decisions in H by done. res_inv. rename l0 into ds.
  exists (select true ds bufs).
  split_and!; [done|apply select_sublist|apply select_sublist|].
  apply select_split. by eapply decisions_length.
Qed.

Lemma decisions_total c ls n :
  config_wf c -> cfg_loss_type c <> NETEM ->
  exists r, decisions (drop_of (cfg_loss_type c)) c ls n = Ok r.
Proof.
  intros Hwf Hn. destruct (cfg_loss_type c); try done; simpl;
    try (destruct (uniform_decisions_mono c c ls n) as (? & ? & ? & -> & _); [lia|by eexists]).
  destruct (config_param c ge_p Hwf) as (p & _ & Hp & _); [unfold ge_p; lia|].
  destruct (config_param c ge_r Hwf) as (r & _ & Hr & _); [unfold ge_r; lia|].
  destruct (config_param c ge_h_ Hwf) as (h & _ & Hh & _); [unfold ge_h_; lia|].
  destruct (config_param c ge_k_ Hwf) as (k & _ & Hk & _); [unfold ge_k_; lia|].
  destruct (ge_decisions c ls n p r h k) as [ls' ->]; [done..|]. by eexists.
Qed.

Lemma applyLoss_total bufs ls c :
  config_wf c -> cfg_loss_type c <> NONE -> cfg_loss_type c <> NETEM ->
  exists r, applyLoss bufs ls c = Ok r.
Proof.
  intros Hwf Hn Hnn. rewrite applyLoss_decisions by done.
  destruct (decisions_total c ls (length bufs) Hwf Hnn) as [[ls' ds] ->]. by eexists.
Qed.

Lemma select_fmap {A B} (f : A -> B) b ds (l : list A) :
  select b ds (f <$> l) = f <$> select b ds l.
Proof.
  revert l; induction ds as [|d ds IH]; intros [|x l]; simpl; try done.
  rewrite IH. by destruct (Bool.eqb d b).
Qed.

(** ** Properties *)

(** C2: [applyLoss] neither loses nor duplicates a buffer.  Whatever the loss
    model decides, the buffers it lets through and the ones it frees are
    together exactly the burst, each group in arrival order; the uniform and
    the Gilbert-Elliott model return on every burst. *)
Theorem applyLoss_conserves bufs ls c :
  config_wf c -> cfg_loss_type c <> NONE ->
  (cfg_loss_type c <> NETEM -> exists r, applyLoss bufs ls c = Ok r) /\
  forall ls' ev sent, applyLoss bufs ls c = Ok (ls', ev, sent) ->
    exists freed, ev = Free <$> freed /\
      sent `sublist_of` bufs /\ freed `sublist_of` bufs /\ sent ++ freed ≡ₚ bufs.
Proof.
  intros Hwf Hn. split.
  - intros Hnn. by apply applyLoss_total.
  - intros ls' ev sent H. by eapply applyLoss_partition.
Qed.

(** C3: on every burst the Gilbert-Elliott branch of [applyLoss] behaves as
    the two-state channel specified by [ge_run]: the packets lost are the
    ones the channel loses when its draws come from the wyhash64 stream, with
    [p], [r], 1-h and 1-k read from the first four parameters. *)
Theorem applyLoss_ge_refines bufs ls c p r h k :
  cfg_loss_type c = GE -> take 4 (loss_model_parameters c) = [p; r; h; k] ->
  let ds := ge_run p r h k (ge_link_of ls) (random_state ls) (length bufs) in
  exists ls', applyLoss bufs ls c
    = Ok (ls', Free <$> select true ds bufs, select false ds bufs).
Proof.
  intros Ht Hp ds. unfold applyLoss. rewrite Ht, loss_loop_decisions.
  destruct (loss_model_parameters c) as [|? [|? [|? [|? l]]]] eqn:El; try done.
  simpl in Hp. simplify_eq.
  destruct (ge_decisions c ls (length bufs) p r h k) as [ls' Hd]; try (by rewrite El).
  rewrite Hd. by eexists.
Qed.

(** In the netem automaton a packet is dropped exactly when the state
    entered is one of the two loss states q3 and q4, and the automaton never
    leaves its four states: it stays, or moves to the state whose index
    differs in both bits or in the high bit. *)
Theorem netem_drop_link ls c ls' d :
  netem_wf ls -> netem_drop ls c = Ok (ls', d) ->
  netem_wf ls' /\ (d = true <-> q3 <= state ls') /\
  state ls' ∈ [state ls; Z.lxor (state ls) 3; Z.lxor (state ls) 2].
Proof.
  intros Hwf H. unfold netem_drop in H.
  destruct (wyhash64 (random_state ls)) as [rnd x].
  destruct (netem_flip (state ls) Hwf) as (H3 & Hl3 & H2 & Hl2 & Hl).
  res_inv. repeat (case_zbool; res_inv); cbn [state];
    (split; [done|split; [done|apply list_elem_of_In; simpl; tauto]]).
Qed.

(** C36: the parameter array has five entries, and the netem automaton reads
    up to index seven: in state q4 every call reads out of bounds, in state
    q3 every call whose draw is not below the stay probability does; only q1
    and q2 are safe. *)
Theorem netem_drop_out_of_bounds ls c :
  config_wf c ->
  (state ls = q4 -> netem_drop ls c = UB OutOfBounds) /\
  (state ls = q3 -> forall stay, loss_model_parameters c !! 4%nat = Some stay ->
     stay <= snd (wyhash64 (random_state ls)) -> netem_drop ls c = UB OutOfBounds) /\
  (state ls = q1 \/ state ls = q2 -> exists r, netem_drop ls c = Ok r).
Proof.
  intros Hwf. unfold netem_drop. destruct (wyhash64 (random_state ls)) as [rnd x].
  split_and!.
  - intros ->. change (Z.to_nat (u64 (u64 (q4 * 2) + p_stay))) with 6%nat.
    by rewrite (config_param_oob c 6 Hwf) by lia.
  - intros -> stay Hst Hx. simpl in Hx.
    change (Z.to_nat (u64 (u64 (q3 * 2) + p_stay))) with 4%nat.
    change (Z.to_nat (u64 (u64 (q3 * 2) + p_keep_link_state))) with 5%nat.
    assert (param c 4 = Ok stay) as -> by (unfold param; by rewrite Hst).
    cbn [mbind res_bind].
    case_zbool; [lia|]. by rewrite (config_param_oob c 5 Hwf) by lia.
  - intros Hs. assert (Z.to_nat (u64 (u64 (state ls * 2) + p_stay)) < 5
      /\ Z.to_nat (u64 (u64 (state ls * 2) + p_keep_link_state)) < 5)%nat as [H1 H2]
      by (destruct Hs as [-> | ->]; split; vm_compute; lia).
    destruct (config_param c _ Hwf H1) as (v & -> & _).
    destruct (config_param c _ Hwf H2) as (w & -> & _). cbn [mbind res_bind].
    case_zbool; by eexists.
Qed.

(** For one seed, raising the uniform loss probability only ever drops
    more: every packet that survives the higher loss survives the lower one. *)
Theorem applyLoss_uniform_monotone bufs ls c1 c2 :
  cfg_loss_type c1 = UNIFORM -> cfg_loss_type c2 = UNIFORM -> loss c1 <= loss c2 ->
  exists ls' ev1 ev2 sent1 sent2,
    applyLoss bufs ls c1 = Ok (ls', ev1, sent1) /\
    applyLoss bufs ls c2 = Ok (ls', ev2, sent2) /\
    sent2 `sublist_of` sent1.
Proof.
  intros H1 H2 Hle. unfold applyLoss. rewrite H1, H2, !loss_loop_decisions.
  destruct (uniform_decisions_mono c1 c2 ls (length bufs) Hle)
    as (ls' & ds1 & ds2 & -> & -> & HF).
  eexists _, _, _, _, _. split_and!; [done..|]. by apply select_false_mono.
Qed.

(** The generator's state has the full period: two numbers of draws from
    the same seed leave the same state exactly when they are equal modulo
    2^64. *)
Theorem wyhash64_period seed n m :
  is_u64 seed ->
  Nat.iter n (fun s => fst (wyhash64 s)) seed = Nat.iter m (fun s => fst (wyhash64 s)) seed
  <-> u64 (Z.of_nat n) = u64 (Z.of_nat m).
Proof.
  intros Hs. rewrite <- (u64_id seed Hs), !wyhash64_iter.
  unfold u64. rewrite !Z.cong_iff_0.
  set (K := 0x60bee2bee120fc15). set (d := Z.of_nat n - Z.of_nat m).
  replace (seed + Z.of_nat n * K - (seed + Z.of_nat m * K)) with (d * K)
    by (unfold d; lia).
  split; intros H.
  - replace d with (d * K * wyhash64_inv - d * (K * wyhash64_inv - 1)) by lia.
    change (K * wyhash64_inv - 1) with (0x1ade4b62f208ae97 * 2 ^ 64).
    rewrite Z.mul_assoc, Z.mul_comm, <- Zminus_mod_idemp_r.
    rewrite (Z.mul_comm _ (d * _)), Z_mod_mult, Z.sub_0_r.
    rewrite Z.mul_comm, Zmult_mod, H. done.
  - by rewrite Zmult_mod, H.
Qed.

(** ** The properties on concrete inputs *)

Definition sample_config (t : loss_type) : moonem_config :=
  MoonemConfig 10000000 1000 32768 12345 t (2 ^ 63) [2 ^ 62; 2 ^ 62; 2 ^ 63; 0; 0].

Definition sample_burst : list mbuf :=
  [sample_mbuf 1 60 100; sample_mbuf 2 60 200; sample_mbuf 3 1500 300; sample_mbuf 4 60 400].

Lemma sample_config_wf t : config_wf (sample_config t).
Proof. unfold config_wf, is_u64; simpl; split_and!; try lia; repeat constructor; lia. Qed.

Lemma applyLoss_conserves_witness :
  exists ls' ev sent freed,
    applyLoss sample_burst (LossState 12345 0) (sample_config GE) = Ok (ls', ev, sent) /\
    ev = Free <$> freed /\ sent ++ freed ≡ₚ sample_burst.
Proof.
  destruct (applyLoss_conserves sample_burst (LossState 12345 0) (sample_config GE))
    as [Hex Hcons]; [apply sample_config_wf|discriminate|].
  destruct Hex as [[[ls' ev] sent] H]; [discriminate|].
  destruct (Hcons ls' ev sent H) as (freed & He & _ & _ & Hp).
  exists ls', ev, sent, freed. exact (conj H (conj He Hp)).
Defined.

Lemma applyLoss_ge_refines_witness :
  exists ls', applyLoss sample_burst (LossState 12345 0) (sample_config GE)
    = Ok (ls', [Free (sample_mbuf 2 60 200); Free (sample_mbuf 3 1500 300)],
          [sample_mbuf 1 60 100; sample_mbuf 4 60 400]).
Proof.
  apply (applyLoss_ge_refines sample_burst (LossState 12345 0) (sample_config GE)
    (2 ^ 62) (2 ^ 62) (2 ^ 63) 0); reflexivity.
Defined.

Lemma netem_drop_link_witness :
  exists ls' d, netem_drop (LossState 12345 0) (sample_config NETEM) = Ok (ls', d) /\
    netem_wf ls' /\ (d = true <-> q3 <= state ls').
Proof.
  destruct (netem_drop (LossState 12345 0) (sample_config NETEM)) as [[ls' d]|] eqn:E;
    [|vm_compute in E; discriminate].
  exists ls', d. split; [reflexivity|].
  destruct (netem_drop_link (LossState 12345 0) (sample_config NETEM) ls' d) as (H & H' & _);
    [split; discriminate|exact E|exact (conj H H')].
Defined.

Lemma netem_drop_out_of_bounds_witness :
  netem_drop (LossState 12345 3) (sample_config NETEM) = UB OutOfBounds /\
  netem_drop (LossState 12345 2) (sample_config NETEM) = UB OutOfBounds.
Proof.
  split.
  - apply (netem_drop_out_of_bounds (LossState 12345 3) (sample_config NETEM));
      [apply sample_config_wf|reflexivity].
  - eapply (netem_drop_out_of_bounds (LossState 12345 2) (sample_config NETEM));
      [apply sample_config_wf|reflexivity|reflexivity|vm_compute; discriminate].
Defined.

Lemma applyLoss_uniform_monotone_witness :
  exists ls' ev1 ev2 sent1 sent2,
    applyLoss sample_burst (LossState 1 0)
      (MoonemConfig 0 0 0 1 UNIFORM (2 ^ 60) []) = Ok (ls', ev1, sent1) /\
    applyLoss sample_burst (LossState 1 0)
      (MoonemConfig 0 0 0 1 UNIFORM (2 ^ 63) []) = Ok (ls', ev2, sent2) /\
    sent2 `sublist_of` sent1.
Proof. apply applyLoss_uniform_monotone; [reflexivity|reflexivity|simpl; lia]. Defined.

Lemma wyhash64_period_witness :
  ~ Nat.iter 3 (fun s => fst (wyhash64 s)) 12345 = Nat.iter 5 (fun s => fst (wyhash64 s)) 12345.
Proof.
  intros H. apply (wyhash64_period 12345 3 5) in H; [|by unfold is_u64; lia].
  vm_compute in H. discriminate.
Defined.
