(* ===== verification/Float.v ===== *)
(** * Double-precision arithmetic as an interface

    The rate limiters, the delay emulator and the statistics compute with
    [double].  [FloatOps] lists the operations the sources use; [FloatLaws]
    is the rounding model the theorems rely on: every operation is the exact
    rational result followed by one monotone rounding [rnd] that keeps
    representable numbers.  Two implementations discharge it: exact rational
    arithmetic, below, where [rnd] is the identity, and IEEE 754 binary64,
    in the file Binary64. *)
From S2P Require Import Prelude.
From Stdlib Require Import QArith Qpower Qabs Qround Lqa.

#[local] Open Scope Z_scope.

(** ** Operations *)

Class FloatOps (D : Type) := {
  dadd : D -> D -> D;
  dsub : D -> D -> D;
  dmul : D -> D -> D;
  ddiv : D -> D -> D;
  dltb : D -> D -> bool;
  (** conversion of a 64-bit integer, rounding to nearest *)
  d_of_Z : Z -> D;
  (** truncation toward zero; [None] for an infinity or a NaN *)
  dtrunc : D -> option Z
}.

Declare Scope float_scope.
Delimit Scope float_scope with D.
Infix "+" := dadd : float_scope.
Infix "-" := dsub : float_scope.
Infix "*" := dmul : float_scope.
Infix "/" := ddiv : float_scope.
Infix "<?" := dltb : float_scope.

(** The macros MIN and MAX of src/moonem_common.h at type double, with their
    behaviour on unordered arguments. *)
Definition dMIN `{FloatOps D} (a b : D) : D := if (a <? b)%D then a else b.
Definition dMAX `{FloatOps D} (a b : D) : D := if (b <? a)%D then a else b.

(** Conversion to an unsigned or signed 64-bit integer: undefined when the
    truncated value does not fit. *)
Definition d_to_u64 `{FloatOps D} (d : D) : res Z :=
  match dtrunc d with
  | Some z => if bool_decide (0 <= z < 2 ^ 64) then Ok z else UB BadConversion
  | None => UB BadConversion
  end.
Definition d_to_s64 `{FloatOps D} (d : D) : res Z :=
  match dtrunc d with
  | Some z => if bool_decide (- 2 ^ 63 <= z < 2 ^ 63) then Ok z else UB BadConversion
  | None => UB BadConversion
  end.

Lemma d_to_s64_range `{FloatOps D} (d : D) z : d_to_s64 d = Ok z -> is_s64 z.
Proof.
  unfold d_to_s64. destruct (dtrunc d); [|done]. case_bool_decide; [|done]. by intros [= <-].
Qed.

Lemma d_to_s64_UB `{FloatOps D} (d : D) u : d_to_s64 d = UB u -> u = BadConversion.
Proof.
  unfold d_to_s64. destruct (dtrunc d); [|by intros [= <-]]. case_bool_decide; [done|]. by intros [= <-].
Qed.

Lemma d_to_u64_range `{FloatOps D} (d : D) z : d_to_u64 d = Ok z -> is_u64 z.
Proof.
  unfold d_to_u64. destruct (dtrunc d); [|done]. case_bool_decide; [|done]. by intros [= <-].
Qed.

(** ** The rounding model *)

(** Truncation of a rational toward zero. *)
Definition Qtrunc (q : Q) : Z := Z.quot (Qnum q) (Z.pos (Qden q)).

(** A range well inside the finite range of binary64. *)
Definition dbig : Q := inject_Z (2 ^ 1000).

Class FloatLaws (D : Type) `{FloatOps D} := {
  dfin : D -> Prop;
  dval : D -> Q;
  rnd : Q -> Q;
  rnd_compat : forall p q, (p == q)%Q -> (rnd p == rnd q)%Q;
  rnd_mono : forall p q, (p <= q)%Q -> (rnd p <= rnd q)%Q;
  rnd_opp : forall q, (rnd (- q) == - rnd q)%Q;
  rnd_repr : forall x, dfin x -> (rnd (dval x) == dval x)%Q;
  rnd_int : forall z, Z.abs z <= 2 ^ 53 -> (rnd (inject_Z z) == inject_Z z)%Q;
  rnd_pow2 : forall k, -1000 <= k <= 1000 -> (rnd (2 ^ k) == 2 ^ k)%Q;
  (** half a unit in the last place *)
  rnd_err : forall q k, -900 <= k -> (Qabs q <= 2 ^ k)%Q ->
    (Qabs (rnd q - q) <= 2 ^ (k - 54))%Q;
  d_of_Z_spec : forall z, Z.abs z <= 2 ^ 64 ->
    dfin (d_of_Z z) /\ (dval (d_of_Z z) == rnd (inject_Z z))%Q;
  dltb_spec : forall x y, dfin x -> dfin y -> dltb x y = true <-> (dval x < dval y)%Q;
  dadd_spec : forall x y, dfin x -> dfin y -> (Qabs (dval x + dval y) <= dbig)%Q ->
    dfin (dadd x y) /\ (dval (dadd x y) == rnd (dval x + dval y))%Q;
  dsub_spec : forall x y, dfin x -> dfin y -> (Qabs (dval x - dval y) <= dbig)%Q ->
    dfin (dsub x y) /\ (dval (dsub x y) == rnd (dval x - dval y))%Q;
  dmul_spec : forall x y, dfin x -> dfin y -> (Qabs (dval x * dval y) <= dbig)%Q ->
    dfin (dmul x y) /\ (dval (dmul x y) == rnd (dval x * dval y))%Q;
  ddiv_spec : forall x y, dfin x -> dfin y -> ~ (dval y == 0)%Q ->
    (Qabs (dval x / dval y) <= dbig)%Q ->
    dfin (ddiv x y) /\ (dval (ddiv x y) == rnd (dval x / dval y))%Q;
  dtrunc_spec : forall x, dfin x -> dtrunc x = Some (Qtrunc (dval x))
}.

(** ** Exact rationals *)

#[refine] Definition exact_ops : FloatOps Q := {|
  dadd := Qplus; dsub := Qminus; dmul := Qmult; ddiv := Qdiv;
  dltb x y := negb (Qle_bool y x);
  d_of_Z := inject_Z;
  dtrunc x := Some (Qtrunc x) |}.
Defined.

Lemma exact_ltb_spec x y : @dltb Q exact_ops x y = true <-> (x < y)%Q.
Proof.
  simpl. rewrite negb_true_iff. split.
  - intros H. apply Qnot_le_lt. intros Hle. apply Qle_bool_iff in Hle. congruence.
  - intros H. apply not_true_is_false. rewrite Qle_bool_iff. by apply Qlt_not_le.
Qed.

#[refine] Definition exact_laws : @FloatLaws Q exact_ops := {|
  dfin := fun _ => True; dval := fun x => x; rnd := fun x => x |}.
Proof.
  all: try (simpl; intros; (done || (split; [done|reflexivity]))).
  - intros q k _ _. cbn beta. assert (q - q == 0)%Q as -> by ring. by apply Qpower_0_le.
  - intros x y _ _. apply exact_ltb_spec.
Defined.

(** ** Consequences of the rounding model *)

Section Laws.
Context `{FO : FloatOps D} {FL : FloatLaws D}.
#[local] Open Scope Q_scope.

#[global] Instance rnd_proper : Proper (Qeq ==> Qeq) rnd.
Proof. intros p q. apply rnd_compat. Qed.

Lemma rnd_0 : rnd 0 == 0.
Proof. apply (rnd_int 0). lia. Qed.

Lemma rnd_nonneg q : 0 <= q -> 0 <= rnd q.
Proof. intros Hq. rewrite <- rnd_0. by apply rnd_mono. Qed.

Lemma rnd_le_repr q x : dfin x -> q <= dval x -> rnd q <= dval x.
Proof. intros Hx Hq. rewrite <- (rnd_repr x Hx). by apply rnd_mono. Qed.

Lemma rnd_ge_repr q x : dfin x -> dval x <= q -> dval x <= rnd q.
Proof. intros Hx Hq. rewrite <- (rnd_repr x Hx) at 1. by apply rnd_mono. Qed.

Lemma dltb_false x y : dfin x -> dfin y -> dltb x y = false <-> dval y <= dval x.
Proof.
  intros Hx Hy. rewrite <- not_true_iff_false, dltb_spec by done. split.
  - apply Qnot_lt_le.
  - apply Qle_not_lt.
Qed.

Lemma d_of_Z_fin z : (Z.abs z <= 2 ^ 64)%Z -> dfin (d_of_Z z).
Proof. intros Hz. by apply d_of_Z_spec. Qed.

Lemma d_of_Z_exact z : (Z.abs z <= 2 ^ 53)%Z -> dval (d_of_Z z) == inject_Z z.
Proof.
  intros Hz. destruct (d_of_Z_spec z) as [_ ->]; [lia|]. by apply rnd_int.
Qed.

Lemma d_of_Z_mono z w :
  (Z.abs z <= 2 ^ 64)%Z -> (Z.abs w <= 2 ^ 64)%Z -> (z <= w)%Z ->
  dval (d_of_Z z) <= dval (d_of_Z w).
Proof.
  intros Hz Hw Hle. destruct (d_of_Z_spec z Hz) as [_ ->].
  destruct (d_of_Z_spec w Hw) as [_ ->]. apply rnd_mono. by rewrite <- Zle_Qle.
Qed.

Lemma d_of_Z_nonneg z : (0 <= z <= 2 ^ 64)%Z -> 0 <= dval (d_of_Z z).
Proof.
  intros Hz. destruct (d_of_Z_spec z) as [_ ->]; [lia|].
  apply rnd_nonneg. rewrite (Zle_Qle 0 z) in Hz. apply Hz.
Qed.

(** [MIN] never exceeds its second argument, even when the first is a NaN. *)
Lemma dMIN_cases (a b : D) : (dMIN a b = a /\ dltb a b = true) \/ dMIN a b = b.
Proof. unfold dMIN. destruct (a <? b)%D eqn:E; auto. Qed.

Lemma dMAX_fin (a b : D) : dfin a -> dfin b -> dfin (dMAX a b).
Proof. unfold dMAX. by destruct (b <? a)%D. Qed.

Lemma dMAX_ge (a b : D) : dfin a -> dfin b ->
  dval a <= dval (dMAX a b) /\ dval b <= dval (dMAX a b).
Proof.
  intros Ha Hb. unfold dMAX. destruct (b <? a)%D eqn:E.
  - apply dltb_spec in E; [|done..]. lra.
  - apply dltb_false in E; [|done..]. lra.
Qed.

Lemma dMIN_le (a b : D) : dfin a -> dfin b ->
  dval (dMIN a b) <= dval a /\ dval (dMIN a b) <= dval b.
Proof.
  intros Ha Hb. unfold dMIN. destruct (a <? b)%D eqn:E.
  - apply dltb_spec in E; [|done..]. lra.
  - apply dltb_false in E; [|done..]. lra.
Qed.

(** Floats bounded by a power of two: the side conditions of the operations
    follow from such bounds. *)
Definition dbnd (x : D) (k : Z) : Prop := dfin x /\ Qabs (dval x) <= inject_Z (2 ^ k).

Lemma Qpow2_Z k : (0 <= k)%Z -> 2 ^ k == inject_Z (2 ^ k).
Proof. intros Hk. symmetry. by apply (Zpower_Qpower 2 k). Qed.

Lemma pow2_dbig k : (k <= 1000)%Z -> inject_Z (2 ^ k) <= dbig.
Proof. intros Hk. unfold dbig. rewrite <- Zle_Qle. apply Z.pow_le_mono_r; lia. Qed.

Lemma rnd_abs_le q k :
  (0 <= k <= 1000)%Z -> Qabs q <= inject_Z (2 ^ k) -> Qabs (rnd q) <= inject_Z (2 ^ k).
Proof.
  intros Hk Hq. apply Qabs_Qle_condition in Hq as [Hl Hu]. apply Qabs_Qle_condition.
  assert (rnd (inject_Z (2 ^ k)) == inject_Z (2 ^ k)) as Hr.
  { rewrite <- Qpow2_Z by lia. apply rnd_pow2. lia. }
  split; [|rewrite <- Hr; by apply rnd_mono].
  rewrite <- Hr, <- rnd_opp. by apply rnd_mono.
Qed.

Lemma dbnd_weaken x a b : (0 <= a <= b)%Z -> dbnd x a -> dbnd x b.
Proof.
  intros Hab [Hf Hb]. split; [done|]. eapply Qle_trans; [exact Hb|].
  rewrite <- Zle_Qle. apply Z.pow_le_mono_r; lia.
Qed.

Lemma dbnd_of_u64 z : is_u64 z -> dbnd (d_of_Z z) 64.
Proof.
  intros Hz. unfold is_u64 in Hz. destruct (d_of_Z_spec z) as [Hf Hv]; [lia|].
  split; [done|]. rewrite Hv. apply rnd_abs_le; [lia|].
  rewrite Qabs_pos by (change 0 with (inject_Z 0); rewrite <- Zle_Qle; lia).
  rewrite <- Zle_Qle. lia.
Qed.

Lemma Qabs_sum_le x y k : (0 <= k)%Z ->
  Qabs x <= inject_Z (2 ^ k) -> Qabs y <= inject_Z (2 ^ k) ->
  Qabs (x + y) <= inject_Z (2 ^ (k + 1)).
Proof.
  intros Hk Hx Hy. eapply Qle_trans; [apply Qabs_triangle|].
  rewrite Z.pow_add_r, inject_Z_mult by lia. change (inject_Z (2 ^ 1)) with 2. lra.
Qed.

Lemma dbnd_add x y k : (0 <= k < 1000)%Z -> dbnd x k -> dbnd y k ->
  dbnd (x + y)%D (k + 1) /\ dval (x + y)%D == rnd (dval x + dval y).
Proof.
  intros Hk [Hx Bx] [Hy By].
  pose proof (Qabs_sum_le (dval x) (dval y) k ltac:(lia) Bx By) as Hs.
  destruct (dadd_spec x y) as [Hf Hv]; [done..| |].
  { eapply Qle_trans; [exact Hs|]. apply pow2_dbig; lia. }
  split; [split; [done|]|done]. rewrite Hv. apply rnd_abs_le; [lia|done].
Qed.

Lemma dbnd_sub x y k : (0 <= k < 1000)%Z -> dbnd x k -> dbnd y k ->
  dbnd (x - y)%D (k + 1) /\ dval (x - y)%D == rnd (dval x - dval y).
Proof.
  intros Hk [Hx Bx] [Hy By].
  assert (Qabs (dval x - dval y) <= inject_Z (2 ^ (k + 1))) as Hs.
  { apply Qabs_sum_le; [lia|done|]. by rewrite Qabs_opp. }
  destruct (dsub_spec x y) as [Hf Hv]; [done..| |].
  { eapply Qle_trans; [exact Hs|]. apply pow2_dbig; lia. }
  split; [split; [done|]|done]. rewrite Hv. apply rnd_abs_le; [lia|done].
Qed.

Lemma dbnd_mul x y a b : (0 <= a)%Z -> (0 <= b)%Z -> (a + b <= 1000)%Z ->
  dbnd x a -> dbnd y b ->
  dbnd (x * y)%D (a + b) /\ dval (x * y)%D == rnd (dval x * dval y).
Proof.
  intros Ha Hb Hab [Hx Bx] [Hy By].
  assert (Qabs (dval x * dval y) <= inject_Z (2 ^ (a + b))) as Hs.
  { rewrite Qabs_Qmult, Z.pow_add_r, inject_Z_mult by lia.
    apply Qmult_le_compat_nonneg; split; (apply Qabs_nonneg || done). }
  destruct (dmul_spec x y) as [Hf Hv]; [done..| |].
  { eapply Qle_trans; [exact Hs|]. apply pow2_dbig; lia. }
  split; [split; [done|]|done]. rewrite Hv. apply rnd_abs_le; [lia|done].
Qed.

(** Division of a nonnegative number by one that is at least 2^-j. *)
Lemma dbnd_div x y a j : (0 <= a)%Z -> (0 <= j)%Z -> (a + j <= 1000)%Z ->
  dbnd x a -> dfin y -> 0 <= dval x -> 1 <= dval y * inject_Z (2 ^ j) ->
  dbnd (x / y)%D (a + j) /\ dval (x / y)%D == rnd (dval x / dval y) /\
  0 <= dval x / dval y.
Proof.
  intros Ha Hj Haj [Hx Bx] Hy Hpos Hy1.
  assert (0 < inject_Z (2 ^ j)) as Hp.
  { change 0 with (inject_Z 0). rewrite <- Zlt_Qlt. lia. }
  assert (0 < dval y) as Hy0 by nra.
  assert (0 <= dval x / dval y) as Hq0.
  { apply Qle_shift_div_l; [done|]. lra. }
  assert (dval x / dval y <= inject_Z (2 ^ (a + j))) as Hs.
  { apply Qle_shift_div_r; [done|]. rewrite Z.pow_add_r, inject_Z_mult by lia.
    rewrite Qabs_pos in Bx by done. nra. }
  destruct (ddiv_spec x y) as [Hf Hv]; [done..|lra| |].
  { rewrite Qabs_pos by done. eapply Qle_trans; [exact Hs|]. apply pow2_dbig; lia. }
  split; [split; [done|]|done]. rewrite Hv.
  apply rnd_abs_le; [lia|]. by rewrite Qabs_pos.
Qed.

End Laws.

(** ** Truncation *)

#[global] Instance Qtrunc_proper : Proper (Qeq ==> eq) Qtrunc.
Proof.
  intros [a b] [c d]. unfold Qeq, Qtrunc; simpl. intros E.
  transitivity (Z.quot (a * Zpos d) (Zpos b * Zpos d)).
  - symmetry. apply Z.quot_mul_cancel_r; lia.
  - rewrite E. rewrite (Z.mul_comm (Zpos b)). apply Z.quot_mul_cancel_r; lia.
Qed.

Lemma Qtrunc_Z z : Qtrunc (inject_Z z) = z.
Proof. unfold Qtrunc. simpl. apply Z.quot_1_r. Qed.

Lemma Qtrunc_floor q : (0 <= q)%Q -> Qtrunc q = Qfloor q.
Proof.
  intros Hq. unfold Qtrunc, Qfloor. destruct q as [n d]; simpl.
  rewrite Z.quot_div_nonneg; [done| |lia]. unfold Qle in Hq; simpl in Hq. lia.
Qed.

Lemma Qtrunc_mono p q : (0 <= p)%Q -> (p <= q)%Q -> Qtrunc p <= Qtrunc q.
Proof.
  intros Hp Hpq. rewrite !Qtrunc_floor; [by apply Qfloor_resp_le|lra|lra].
Qed.

(** A conversion to [uint64_t] of an in-range double is defined. *)
Lemma d_to_u64_ok `{FO : FloatOps D} {FL : FloatLaws D} (d : D) :
  dfin d -> (0 <= dval d)%Q -> (dval d < inject_Z (2 ^ 64))%Q ->
  d_to_u64 d = Ok (Qtrunc (dval d)).
Proof.
  intros Hf Hpos Hlt. unfold d_to_u64. rewrite dtrunc_spec by done.
  rewrite bool_decide_true; [done|]. rewrite Qtrunc_floor by done.
  split.
  - change 0 with (Qfloor 0). by apply Qfloor_resp_le.
  - rewrite Zlt_Qlt. eapply Qle_lt_trans; [apply Qfloor_le|done].
Qed.

(** The macros over exact rationals. *)
Lemma exact_MAX_ge a b :
  (a <= @dMAX Q exact_ops a b)%Q /\ (b <= @dMAX Q exact_ops a b)%Q.
Proof. exact (dMAX_ge (FL := exact_laws) a b I I). Qed.
Lemma exact_MIN_le a b :
  (@dMIN Q exact_ops a b <= a)%Q /\ (@dMIN Q exact_ops a b <= b)%Q.
Proof. exact (dMIN_le (FL := exact_laws) a b I I). Qed.
