(* ===== verification/Binary64.v ===== *)
(** * IEEE 754 binary64 satisfies the rounding model

    The [double] of the sources, as the standard library's specification of
    floating-point arithmetic ([SpecFloat] at precision 53 and exponent range
    1024, round to nearest, ties to even), and the proof that it implements
    the interface [FloatLaws]: each operation returns the exact result
    rounded by [rnd64]. *)
From S2P Require Import Prelude Float.
From Stdlib Require Import QArith Qpower Qabs Qround Lqa.
From Stdlib Require Import SpecFloat.

#[local] Open Scope Q_scope.

(** ** Powers of two *)

Definition pw (e : Z) : Q := 2 ^ e.

Lemma pw_pos e : 0 < pw e.
Proof. apply Qpower_0_lt. lra. Qed.
Lemma pw_add a b : pw (a + b) == pw a * pw b.
Proof. apply Qpower_plus. lra. Qed.
Lemma pw_0 : pw 0 == 1.
Proof. reflexivity. Qed.
Lemma pw_inv a : pw a * pw (- a) == 1.
Proof. rewrite <- pw_add, Z.add_opp_diag_r. reflexivity. Qed.
Lemma pw_le a b : (a <= b)%Z -> pw a <= pw b.
Proof. intros H. apply Qpower_le_compat_l; [done|lra]. Qed.
Lemma pw_lt a b : (a < b)%Z -> pw a < pw b.
Proof. intros H. apply Qpower_lt_compat_l; [done|lra]. Qed.
Lemma pw_lt_inv a b : pw a < pw b -> (a < b)%Z.
Proof.
  intros H. destruct (Z.lt_ge_cases a b) as [|Hge]; [done|].
  apply pw_le in Hge. lra.
Qed.
Lemma pw_Z k : (0 <= k)%Z -> pw k == inject_Z (2 ^ k).
Proof. apply Qpow2_Z. Qed.
Lemma pw_succ e : pw (e + 1) == 2 * pw e.
Proof. rewrite pw_add. change (pw 1) with 2. lra. Qed.

(** ** Nearest integer, ties to even *)

Definition is_rne (x : Q) (n : Z) : Prop :=
  - (1 # 2) <= x - inject_Z n <= 1 # 2 /\
  (x - inject_Z n == 1 # 2 \/ x - inject_Z n == - (1 # 2) -> Z.even n = true).

Definition rne (x : Q) : Z :=
  let f := Qfloor x in
  match Qcompare (x - inject_Z f) (1 # 2) with
  | Lt => f
  | Gt => (f + 1)%Z
  | Eq => if Z.even f then f else (f + 1)%Z
  end.

Lemma inject_Z_succ z : inject_Z (z + 1) == inject_Z z + 1.
Proof. by rewrite inject_Z_plus. Qed.

Lemma rne_spec x : is_rne x (rne x).
Proof.
  unfold rne. pose proof (Qfloor_le x) as H1. pose proof (Qlt_floor x) as H2.
  rewrite inject_Z_succ in H2. set (f := Qfloor x) in *.
  pose proof (Qcompare_spec (x - inject_Z f) (1 # 2)) as Hc.
  destruct Hc as [Hc|Hc|Hc]; unfold is_rne.
  - destruct (Z.even f) eqn:E; [split; [lra|done]|].
    rewrite inject_Z_succ. split; [lra|]. intros _.
    by rewrite Z.add_1_r, Z.even_succ, <- Z.negb_even, E.
  - split; [lra|]. intros [?|?]; lra.
  - rewrite inject_Z_succ. split; [lra|]. intros [?|?]; lra.
Qed.

Lemma inject_Z_lt_succ a b : (a < b)%Z -> inject_Z a + 1 <= inject_Z b.
Proof. intros H. rewrite <- inject_Z_succ, <- Zle_Qle. lia. Qed.

Lemma is_rne_mono x y n m : x <= y -> is_rne x n -> is_rne y m -> (n <= m)%Z.
Proof.
  intros Hxy [Hn En] [Hm Em]. destruct (Z.le_gt_cases n m) as [|Hlt]; [done|]. exfalso.
  destruct (Z.eq_dec n (m + 1)) as [->|Hne].
  - rewrite inject_Z_succ in *. rewrite Z.add_1_r, Z.even_succ, <- Z.negb_even in En.
    rewrite Em in En by (left; lra). discriminate En. right; lra.
  - assert (m + 1 < n)%Z as Hlt2 by lia. apply inject_Z_lt_succ in Hlt2.
    rewrite inject_Z_succ in Hlt2. lra.
Qed.

Lemma is_rne_unique x n : is_rne x n -> rne x = n.
Proof.
  intros H. pose proof (rne_spec x).
  apply Z.le_antisymm; eapply is_rne_mono; (apply Qle_refl || eassumption).
Qed.

Lemma rne_mono x y : x <= y -> (rne x <= rne y)%Z.
Proof. intros H. eapply is_rne_mono; [exact H|apply rne_spec..]. Qed.

#[global] Instance rne_proper : Proper (Qeq ==> eq) rne.
Proof.
  intros x y E. apply Z.le_antisymm; apply rne_mono; rewrite E; apply Qle_refl.
Qed.

Lemma rne_Z z : rne (inject_Z z) = z.
Proof. apply is_rne_unique. split; [lra|]. intros [?|?]; lra. Qed.

Lemma rne_opp x : rne (- x) = (- rne x)%Z.
Proof.
  apply is_rne_unique. destruct (rne_spec x) as [H E].
  unfold is_rne. rewrite inject_Z_opp, Z.even_opp. split; [lra|].
  intros [?|?]; apply E; lra.
Qed.

(** ** Magnitude *)

Definition mag (q : Q) : Z :=
  let k := (Z.log2 (Z.abs (Qnum q)) - Z.log2 (Z.pos (Qden q)))%Z in
  if Qle_bool (pw k) (Qabs q) then (k + 1)%Z else k.

Lemma log2_bounds a : (0 < a)%Z ->
  pw (Z.log2 a) <= inject_Z a /\ inject_Z a < pw (Z.log2 a + 1).
Proof.
  intros Ha. pose proof (Z.log2_spec a Ha) as [H1 H2]. pose proof (Z.log2_nonneg a).
  rewrite !pw_Z by lia. rewrite <- Zle_Qle, <- Zlt_Qlt. done.
Qed.

Lemma Qabs_scaled q : Qabs q * inject_Z (Z.pos (Qden q)) == inject_Z (Z.abs (Qnum q)).
Proof. destruct q as [n d]. unfold Qabs, Qeq, Qmult; simpl. lia. Qed.

Lemma mag_spec q : ~ q == 0 -> pw (mag q - 1) <= Qabs q < pw (mag q).
Proof.
  intros Hq. assert (0 < Z.abs (Qnum q))%Z as Hn.
  { destruct (Z.eq_dec (Qnum q) 0) as [E|]; [|lia].
    destruct Hq. unfold Qeq. simpl. lia. }
  destruct (log2_bounds _ Hn) as [A1 A2].
  destruct (log2_bounds (Z.pos (Qden q)) ltac:(lia)) as [D1 D2].
  pose proof (Qabs_scaled q) as E. unfold mag.
  set (la := Z.log2 (Z.abs (Qnum q))) in *. set (ld := Z.log2 (Z.pos (Qden q))) in *.
  set (x := Qabs q) in *. set (d := inject_Z (Z.pos (Qden q))) in *.
  assert (0 <= x) as Hx by apply Qabs_nonneg.
  pose proof (pw_pos ld). pose proof (pw_pos (ld + 1)).
  assert (x < pw (la - ld + 1)) as Hu.
  { apply (Qmult_lt_r _ _ (pw ld)); [done|]. rewrite <- pw_add.
    replace (la - ld + 1 + ld)%Z with (la + 1)%Z by lia.
    assert (x * pw ld <= x * d) by (apply Qmult_le_compat_nonneg; split; lra). lra. }
  assert (pw (la - ld - 1) <= x) as Hl.
  { apply (Qmult_le_r _ _ (pw (ld + 1))); [done|]. rewrite <- pw_add.
    replace (la - ld - 1 + (ld + 1))%Z with la by lia.
    assert (x * d <= x * pw (ld + 1)) by (apply Qmult_le_compat_nonneg; split; lra). lra. }
  destruct (Qle_bool (pw (la - ld)) x) eqn:Eb.
  - apply Qle_bool_iff in Eb. replace (la - ld + 1 - 1)%Z with (la - ld)%Z by lia. done.
  - split; [done|]. apply Qnot_le_lt. intros Hle. apply Qle_bool_iff in Hle. congruence.
Qed.

Lemma mag_unique q k : pw (k - 1) <= Qabs q < pw k -> mag q = k.
Proof.
  intros [H1 H2]. pose proof (pw_pos (k - 1)).
  assert (~ q == 0) as Hq.
  { intros E. rewrite E in H1. change (Qabs 0) with 0 in H1. lra. }
  destruct (mag_spec q Hq) as [M1 M2].
  assert (k - 1 < mag q)%Z by (apply pw_lt_inv; lra).
  assert (mag q - 1 < k)%Z by (apply pw_lt_inv; lra). lia.
Qed.

Lemma mag_le p q : ~ p == 0 -> Qabs p <= Qabs q -> (mag p <= mag q)%Z.
Proof.
  intros Hp Hle. assert (~ q == 0) as Hq.
  { intros E. rewrite E in Hle. change (Qabs 0) with 0 in Hle.
    destruct (mag_spec p Hp) as [M _]. pose proof (pw_pos (mag p - 1)). lra. }
  destruct (mag_spec p Hp) as [M1 _], (mag_spec q Hq) as [_ M2].
  assert (mag p - 1 < mag q)%Z by (apply pw_lt_inv; lra). lia.
Qed.

Lemma mag_compat p q : ~ p == 0 -> p == q -> mag p = mag q.
Proof.
  intros Hp E. apply Z.le_antisymm; apply mag_le; rewrite ?E; try apply Qle_refl; by rewrite <- ?E.
Qed.

(** ** Rounding *)

Abbreviation fexp64 := (fexp 53 1024).

Definition cexp (q : Q) : Z := fexp64 (mag q).

Definition rnd64 (q : Q) : Q :=
  if Qeq_bool q 0 then 0 else inject_Z (rne (q * pw (- cexp q))) * pw (cexp q).

Lemma fexp64_eq e : fexp64 e = Z.max (e - 53) (-1074).
Proof. reflexivity. Qed.

Lemma rnd64_0 q : q == 0 -> rnd64 q = 0.
Proof. intros H. unfold rnd64. apply Qeq_bool_iff in H. by rewrite H. Qed.

Lemma rnd64_n0 q : ~ q == 0 -> rnd64 q = inject_Z (rne (q * pw (- cexp q))) * pw (cexp q).
Proof.
  intros H. unfold rnd64. destruct (Qeq_bool q 0) eqn:E; [|done].
  by apply Qeq_bool_iff in E.
Qed.

Lemma scale_back q e : q * pw (- e) * pw e == q.
Proof.
  rewrite <- Qmult_assoc, <- pw_add, Z.add_opp_diag_l, pw_0. lra.
Qed.

Lemma pw_Z_scaled a b : (b <= a)%Z -> pw a == inject_Z (2 ^ (a - b)) * pw b.
Proof. intros H. rewrite <- pw_Z, <- pw_add by lia. by rewrite Z.sub_add. Qed.

#[global] Instance rnd64_proper : Proper (Qeq ==> Qeq) rnd64.
Proof.
  intros p q E. destruct (Qeq_dec p 0) as [H0|Hn0].
  - rewrite (rnd64_0 p H0). by rewrite rnd64_0 by (by rewrite <- E).
  - rewrite (rnd64_n0 p Hn0), (rnd64_n0 q) by (by rewrite <- E).
    unfold cexp. rewrite (mag_compat p q Hn0 E). by rewrite E.
Qed.

Lemma cexp_opp q : ~ q == 0 -> cexp (- q) = cexp q.
Proof.
  intros H. unfold cexp. f_equal. apply mag_unique. rewrite Qabs_opp. by apply mag_spec.
Qed.

Lemma rnd64_opp q : rnd64 (- q) == - rnd64 q.
Proof.
  destruct (Qeq_dec q 0) as [H0|Hn0].
  - rewrite (rnd64_0 q H0), rnd64_0; [done|]. by rewrite H0.
  - rewrite (rnd64_n0 q Hn0), rnd64_n0.
    + rewrite (cexp_opp q Hn0).
      assert (- q * pw (- cexp q) == - (q * pw (- cexp q))) as -> by lra.
      rewrite rne_opp, inject_Z_opp. lra.
    + intros E. apply Hn0. lra.
Qed.

Lemma rnd64_le_int q n : ~ q == 0 ->
  q <= inject_Z n * pw (cexp q) -> rnd64 q <= inject_Z n * pw (cexp q).
Proof.
  intros Hq Hle. rewrite (rnd64_n0 q Hq). apply Qmult_le_compat_r; [|apply Qlt_le_weak, pw_pos].
  rewrite <- Zle_Qle. rewrite <- (rne_Z n). apply rne_mono.
  apply (Qmult_le_r _ _ (pw (cexp q))); [apply pw_pos|]. by rewrite scale_back.
Qed.

Lemma rnd64_ge_int q n : ~ q == 0 ->
  inject_Z n * pw (cexp q) <= q -> inject_Z n * pw (cexp q) <= rnd64 q.
Proof.
  intros Hq Hle. rewrite (rnd64_n0 q Hq). apply Qmult_le_compat_r; [|apply Qlt_le_weak, pw_pos].
  rewrite <- Zle_Qle. rewrite <- (rne_Z n) at 1. apply rne_mono.
  apply (Qmult_le_r _ _ (pw (cexp q))); [apply pw_pos|]. by rewrite scale_back.
Qed.

(** A number on the grid of its own exponent is not changed. *)
Lemma rnd64_exact q n e : q == inject_Z n * pw e -> (cexp q <= e)%Z -> rnd64 q == q.
Proof.
  intros E He. destruct (Qeq_dec q 0) as [H0|Hn0]; [by rewrite (rnd64_0 q H0)|].
  rewrite (pw_Z_scaled e (cexp q) He), Qmult_assoc, <- inject_Z_mult in E.
  pose proof (rnd64_le_int q (n * 2 ^ (e - cexp q)) Hn0) as H1.
  pose proof (rnd64_ge_int q (n * 2 ^ (e - cexp q)) Hn0) as H2.
  rewrite <- E in H1, H2. apply Qle_antisym; [apply H1|apply H2]; apply Qle_refl.
Qed.

Lemma rnd64_nonneg q : 0 <= q -> 0 <= rnd64 q.
Proof.
  intros Hq. destruct (Qeq_dec q 0) as [H0|Hn0]; [rewrite (rnd64_0 q H0); apply Qle_refl|].
  pose proof (rnd64_ge_int q 0 Hn0) as H. change (inject_Z 0) with 0 in H.
  rewrite Qmult_0_l in H. by apply H.
Qed.

Lemma rnd64_mono_pos p q : 0 < p -> p <= q -> rnd64 p <= rnd64 q.
Proof.
  intros Hp Hpq. assert (~ p == 0) as Hp0 by lra. assert (~ q == 0) as Hq0 by lra.
  assert (mag p <= mag q)%Z as Hm by (apply mag_le; [done|]; rewrite !Qabs_pos; lra).
  destruct (Z.eq_dec (cexp p) (cexp q)) as [E|Hne].
  - rewrite (rnd64_n0 p Hp0), (rnd64_n0 q Hq0), E.
    apply Qmult_le_compat_r; [|apply Qlt_le_weak, pw_pos].
    rewrite <- Zle_Qle. apply rne_mono.
    apply Qmult_le_compat_r; [done|apply Qlt_le_weak, pw_pos].
  - assert (cexp p < cexp q)%Z as Hc by (unfold cexp in *; rewrite !fexp64_eq in *; lia).
    assert (mag p < mag q)%Z as Hm' by (unfold cexp in Hc; rewrite !fexp64_eq in Hc; lia).
    assert (cexp q <= mag q - 1)%Z as Hcq by (unfold cexp in *; rewrite !fexp64_eq in *; lia).
    destruct (mag_spec p Hp0) as [_ Mp], (mag_spec q Hq0) as [Mq _].
    rewrite Qabs_pos in Mp, Mq by lra.
    apply Qle_trans with (pw (mag q - 1)).
    + rewrite (pw_Z_scaled (mag q - 1) (cexp p)) by lia. apply rnd64_le_int; [done|].
      rewrite <- pw_Z_scaled by lia. pose proof (pw_le (mag p) (mag q - 1) ltac:(lia)). lra.
    + rewrite (pw_Z_scaled (mag q - 1) (cexp q)) by lia. apply rnd64_ge_int; [done|].
      by rewrite <- pw_Z_scaled by lia.
Qed.

Lemma rnd64_mono p q : p <= q -> rnd64 p <= rnd64 q.
Proof.
  intros H. destruct (Qlt_le_dec 0 p) as [Hp|Hp]; [by apply rnd64_mono_pos|].
  destruct (Qlt_le_dec q 0) as [Hq|Hq].
  - assert (rnd64 (- q) <= rnd64 (- p)) as Hr by (apply rnd64_mono_pos; lra).
    rewrite !rnd64_opp in Hr. lra.
  - apply Qle_trans with 0; [|by apply rnd64_nonneg].
    pose proof (rnd64_nonneg (- p) ltac:(lra)) as Hn. rewrite rnd64_opp in Hn. lra.
Qed.

Lemma mag_pw k : mag (pw k) = (k + 1)%Z.
Proof.
  apply mag_unique. pose proof (pw_pos k). rewrite Qabs_pos by lra.
  replace (k + 1 - 1)%Z with k by lia. split; [lra|]. apply pw_lt. lia.
Qed.

Lemma rnd64_pow2 k : (-1000 <= k <= 1000)%Z -> rnd64 (2 ^ k) == 2 ^ k.
Proof.
  intros Hk. apply (rnd64_exact _ 1 k).
  - change (2 ^ k) with (pw k). change (inject_Z 1) with 1. lra.
  - unfold cexp. change (2 ^ k) with (pw k). rewrite mag_pw, fexp64_eq. lia.
Qed.

Lemma rnd64_int z : (Z.abs z <= 2 ^ 53)%Z -> rnd64 (inject_Z z) == inject_Z z.
Proof.
  intros Hz. destruct (Z.eq_dec z 0) as [->|Hz0]; [by rewrite rnd64_0|].
  destruct (Z.eq_dec (Z.abs z) (2 ^ 53)) as [E|Hne].
  - assert (rnd64 (pw 53) == pw 53) as Hp by (apply (rnd64_pow2 53); lia).
    rewrite pw_Z in Hp by lia.
    destruct (Z.abs_eq_or_opp z) as [E2|E2]; rewrite E2 in E.
    + by rewrite E.
    + replace z with (- 2 ^ 53)%Z by lia. rewrite inject_Z_opp, rnd64_opp. by rewrite Hp.
  - apply (rnd64_exact _ z 0); [rewrite pw_0; lra|]. unfold cexp.
    assert (mag (inject_Z z) <= 53)%Z as Hm; [|rewrite fexp64_eq; lia].
    assert (~ inject_Z z == 0) as Hn0 by (change 0 with (inject_Z 0); rewrite inject_Z_injective; lia).
    destruct (mag_spec _ Hn0) as [M _].
    assert (Qabs (inject_Z z) < pw 53) as Hlt.
    { rewrite pw_Z by lia. unfold Qabs, inject_Z, Qlt; simpl Qnum; simpl Qden. lia. }
    assert (mag (inject_Z z) - 1 < 53)%Z by (apply pw_lt_inv; lra). lia.
Qed.

(** The error of a rounding is at most half a unit in the last place. *)
Lemma rne_err x : Qabs (inject_Z (rne x) - x) <= 1 # 2.
Proof.
  destruct (rne_spec x) as [[H1 H2] _]. apply Qabs_Qle_condition. lra.
Qed.

Lemma rnd64_err_cexp q : ~ q == 0 -> Qabs (rnd64 q - q) <= pw (cexp q - 1).
Proof.
  intros Hq. rewrite (rnd64_n0 q Hq). set (c := cexp q).
  assert (inject_Z (rne (q * pw (- c))) * pw c - q ==
    (inject_Z (rne (q * pw (- c))) - q * pw (- c)) * pw c) as ->.
  { pose proof (scale_back q c) as Hs. lra. }
  rewrite Qabs_Qmult, (Qabs_pos (pw c)) by (apply Qlt_le_weak, pw_pos).
  apply Qle_trans with ((1 # 2) * pw c).
  - apply Qmult_le_compat_r; [apply rne_err|apply Qlt_le_weak, pw_pos].
  - replace c with (c - 1 + 1)%Z at 1 by lia. rewrite pw_succ. lra.
Qed.

Lemma rnd64_err q k : (-900 <= k)%Z -> Qabs q <= 2 ^ k -> Qabs (rnd64 q - q) <= 2 ^ (k - 54).
Proof.
  intros Hk Hq. change (2 ^ k) with (pw k) in Hq. change (2 ^ (k - 54)) with (pw (k - 54)).
  pose proof (pw_pos (k - 54)) as Hp.
  destruct (Qeq_dec q 0) as [H0|Hn0].
  { rewrite (rnd64_0 q H0), H0. change (Qabs (0 - 0)) with 0. lra. }
  destruct (mag_spec q Hn0) as [M _].
  destruct (Z.le_gt_cases (mag q) k) as [Hm|Hm].
  - eapply Qle_trans; [by apply rnd64_err_cexp|]. apply pw_le. unfold cexp. rewrite fexp64_eq. lia.
  - assert (Qabs q == pw k) as Ha.
    { apply Qle_antisym; [done|]. eapply Qle_trans; [|exact M]. apply pw_le. lia. }
    assert (mag q = (k + 1)%Z) as Em.
    { apply mag_unique. replace (k + 1 - 1)%Z with k by lia. rewrite Ha.
      split; [lra|apply pw_lt; lia]. }
    assert (exists n, q == inject_Z n * pw k) as [n En].
    { destruct (Qlt_le_dec q 0) as [Hs|Hs].
      - exists (-1)%Z. change (inject_Z (-1)) with (-1). rewrite Qabs_neg in Ha by lra. lra.
      - exists 1%Z. change (inject_Z 1) with 1. rewrite Qabs_pos in Ha by lra. lra. }
    rewrite (rnd64_exact q n k En) by (unfold cexp; rewrite Em, fexp64_eq; lia).
    assert (q - q == 0) as -> by ring. change (Qabs 0) with 0. lra.
Qed.

(** ** Values of floats *)

Definition cond_opp (s : bool) (q : Q) : Q := if s then - q else q.

Definition SF2Q (x : spec_float) : Q :=
  match x with
  | S754_finite s m e => cond_opp s (inject_Z (Zpos m) * pw e)
  | _ => 0
  end.

Definition fin64 (x : spec_float) : Prop :=
  match x with
  | S754_zero _ => True
  | S754_finite _ m e => bounded 53 1024 m e = true
  | _ => False
  end.

Lemma digits2_log2 p : Zpos (digits2_pos p) = (Z.log2 (Zpos p) + 1)%Z.
Proof.
  assert (forall p, digits2_pos p = Pos.size p) as E
    by (induction p0 as [p0 IH|p0 IH|]; simpl; congruence).
  rewrite E. destruct p; simpl; lia.
Qed.

Lemma digits2_bounds p :
  pw (Zpos (digits2_pos p) - 1) <= inject_Z (Zpos p) < pw (Zpos (digits2_pos p)).
Proof.
  rewrite digits2_log2. replace (Z.log2 (Zpos p) + 1 - 1)%Z with (Z.log2 (Zpos p)) by lia.
  by apply log2_bounds.
Qed.

Lemma bounded_spec m e : bounded 53 1024 m e = true <->
  fexp64 (Zpos (digits2_pos m) + e) = e /\ (e <= 971)%Z.
Proof.
  unfold bounded, canonical_mantissa. rewrite andb_true_iff, Z.eqb_eq, Z.leb_le. done.
Qed.

Lemma pos_scaled_pos m e : 0 < inject_Z (Zpos m) * pw e.
Proof.
  apply Qmult_lt_0_compat; [|apply pw_pos]. change 0 with (inject_Z 0). by rewrite <- Zlt_Qlt.
Qed.

Lemma mag_scaled m e : mag (inject_Z (Zpos m) * pw e) = (Zpos (digits2_pos m) + e)%Z.
Proof.
  apply mag_unique. pose proof (pos_scaled_pos m e). rewrite Qabs_pos by lra.
  destruct (digits2_bounds m) as [H1 H2].
  replace (Zpos (digits2_pos m) + e - 1)%Z with (Zpos (digits2_pos m) - 1 + e)%Z by lia.
  rewrite !pw_add. split.
  - apply Qmult_le_compat_r; [done|apply Qlt_le_weak, pw_pos].
  - apply Qmult_lt_compat_r; [apply pw_pos|done].
Qed.

Lemma cond_opp_rnd s q : rnd64 (cond_opp s q) == cond_opp s (rnd64 q).
Proof. destruct s; simpl; [apply rnd64_opp|done]. Qed.

#[global] Instance cond_opp_proper s : Proper (Qeq ==> Qeq) (cond_opp s).
Proof. intros p q E. destruct s; simpl; by rewrite E. Qed.

Lemma rnd64_repr x : fin64 x -> rnd64 (SF2Q x) == SF2Q x.
Proof.
  destruct x as [| | |s m e]; try done. simpl. rewrite bounded_spec. intros [E _].
  rewrite cond_opp_rnd. apply cond_opp_proper. apply (rnd64_exact _ (Zpos m) e); [done|].
  unfold cexp. rewrite mag_scaled. lia.
Qed.

(** ** Rounding with a location *)

(** [x] lies in the unit interval above [m], where the location says. *)
Definition inb (m : Z) (l : location) (x : Q) : Prop :=
  match l with
  | loc_Exact => x == inject_Z m
  | loc_Inexact Lt => inject_Z m < x < inject_Z m + (1 # 2)
  | loc_Inexact Eq => x == inject_Z m + (1 # 2)
  | loc_Inexact Gt => inject_Z m + (1 # 2) < x < inject_Z m + 1
  end.

Definition inr (r : shr_record) (x : Q) : Prop := inb (shr_m r) (loc_of_shr_record r) x.

#[global] Instance inb_proper m l : Proper (Qeq ==> iff) (inb m l).
Proof. intros x y E. destruct l as [|[]]; simpl; by rewrite E. Qed.

Lemma inb_range m l x : inb m l x -> inject_Z m <= x < inject_Z m + 1.
Proof. destruct l as [|[]]; simpl; lra. Qed.

Lemma inb_rne m l x : inb m l x -> round_nearest_even m l = rne x.
Proof.
  intros H. symmetry. apply is_rne_unique. unfold is_rne.
  destruct l as [|[]]; simpl in *.
  - split; [lra|]. intros [?|?]; lra.
  - destruct (Z.even m) eqn:E; [split; [lra|done]|]. rewrite inject_Z_succ.
    split; [lra|]. intros _. by rewrite Z.add_1_r, Z.even_succ, <- Z.negb_even, E.
  - split; [lra|]. intros [?|?]; lra.
  - rewrite inject_Z_succ. split; [lra|]. intros [?|?]; lra.
Qed.

Lemma inject_xO p : inject_Z (Zpos p~0) == 2 * inject_Z (Zpos p).
Proof. by rewrite (Pos2Z.inj_xO p), inject_Z_mult. Qed.
Lemma inject_xI p : inject_Z (Zpos p~1) == 2 * inject_Z (Zpos p) + 1.
Proof. by rewrite (Pos2Z.inj_xI p), inject_Z_plus, inject_Z_mult. Qed.

Lemma shr_1_inr r x : (0 <= shr_m r)%Z -> inr r x ->
  (0 <= shr_m (shr_1 r))%Z /\ inr (shr_1 r) (x * (1 # 2)).
Proof.
  destruct r as [m r s]. unfold inr. simpl shr_m. intros Hm Hx.
  destruct m as [|[p|p|]|p]; try lia; destruct r, s; simpl in *;
    try rewrite inject_xI in Hx; try rewrite inject_xO in Hx;
    change (inject_Z 0) with 0 in *; change (inject_Z 1) with 1 in *; (split; [lia|lra]).
Qed.

Lemma iter_shr_1_inr n r x : (0 <= shr_m r)%Z -> inr r x ->
  (0 <= shr_m (iter_pos shr_1 n r))%Z /\ inr (iter_pos shr_1 n r) (x * pw (- Zpos n)).
Proof.
  revert r x; induction n as [n IH|n IH|]; intros r x Hm Hx; simpl iter_pos.
  - destruct (shr_1_inr r x Hm Hx) as [H1 H2].
    destruct (IH _ _ H1 H2) as [H3 H4]. destruct (IH _ _ H3 H4) as [H5 H6].
    split; [done|]. unfold inr in *. revert H6. apply inb_proper.
    change (1 # 2) with (pw (-1)). rewrite <- !Qmult_assoc, <- !pw_add.
    by replace (-1 + (- Zpos n + - Zpos n))%Z with (- Zpos n~1)%Z by lia.
  - destruct (IH _ _ Hm Hx) as [H3 H4]. destruct (IH _ _ H3 H4) as [H5 H6].
    split; [done|]. unfold inr in *. revert H6. apply inb_proper.
    rewrite <- !Qmult_assoc, <- !pw_add.
    by replace (- Zpos n + - Zpos n)%Z with (- Zpos n~0)%Z by lia.
  - by apply shr_1_inr.
Qed.

Lemma shr_inr r e n x : (0 <= shr_m r)%Z -> inr r (x * pw (- e)) ->
  (0 <= shr_m (fst (shr r e n)))%Z /\ snd (shr r e n) = Z.max e (e + n) /\
  inr (fst (shr r e n)) (x * pw (- snd (shr r e n))).
Proof.
  intros Hm Hx. destruct n as [|p|p]; simpl; [split_and!; [done|lia|done]| |split_and!; [done|lia|done]].
  destruct (iter_shr_1_inr p r _ Hm Hx) as [H1 H2]. split_and!; [done|lia|].
  unfold inr in *. revert H2. apply inb_proper.
  rewrite <- Qmult_assoc, <- pw_add. by replace (- e + - Zpos p)%Z with (- (e + Zpos p))%Z by lia.
Qed.

Lemma shr_record_of_loc_inr m l x : inb m l x -> inr (shr_record_of_loc m l) x.
Proof. by destruct l as [|[]]. Qed.
Lemma shr_record_of_loc_m m l : shr_m (shr_record_of_loc m l) = m.
Proof. by destruct l as [|[]]. Qed.

(** The exponent [shr_fexp] shifts to is that of the number itself. *)
Lemma fexp_digits m e l x :
  0 < x -> (0 <= m)%Z -> inb m l (x * pw (- e)) -> (e <= cexp x)%Z ->
  fexp64 (Zdigits2 m + e) = cexp x.
Proof.
  intros Hx Hm Hi He. apply inb_range in Hi as [H1 H2].
  assert (x * pw (- e) * pw e == x) as Hs by apply scale_back.
  pose proof (pw_pos e) as Hpe. assert (~ x == 0) as Hx0 by lra.
  destruct m as [|p|p]; [| |lia].
  - assert (x < pw e) as Hlt.
    { rewrite <- Hs. change (inject_Z 0) with 0 in H2.
      rewrite <- (Qmult_1_l (pw e)) at 2. apply Qmult_lt_compat_r; [done|lra]. }
    destruct (mag_spec x Hx0) as [M _]. rewrite Qabs_pos in M by lra.
    assert (mag x - 1 < e)%Z by (apply pw_lt_inv; lra).
    unfold cexp in *. simpl Zdigits2. rewrite !fexp64_eq in *. lia.
  - unfold cexp. f_equal. simpl Zdigits2. symmetry. apply mag_unique. rewrite Qabs_pos by lra.
    destruct (digits2_bounds p) as [D1 D2].
    assert (inject_Z (Zpos p) + 1 <= pw (Zpos (digits2_pos p))) as D3.
    { rewrite pw_Z in * by lia. rewrite <- Zlt_Qlt in D2.
      rewrite <- inject_Z_succ, <- Zle_Qle. lia. }
    replace (Zpos (digits2_pos p) + e - 1)%Z with (Zpos (digits2_pos p) - 1 + e)%Z by lia.
    rewrite !pw_add, <- Hs. split.
    + apply Qmult_le_compat_r; [lra|lra].
    + apply Qmult_lt_compat_r; [done|lra].
Qed.

(** The mantissa [rne] yields at the exponent of [x], and what is left to do
    to make the result canonical. *)
Lemma rounded_mantissa x : 0 < x -> 
  let c := cexp x in let m := rne (x * pw (- c)) in
  (0 <= m <= 2 ^ 53)%Z /\ (-1074 <= c)%Z /\ (c = -1074 \/ 2 ^ 52 <= m)%Z.
Proof.
  intros Hx c m. assert (~ x == 0) as Hx0 by lra.
  destruct (mag_spec x Hx0) as [M1 M2]. rewrite Qabs_pos in M1, M2 by lra.
  pose proof (pw_pos (- c)) as Hp.
  assert (c = Z.max (mag x - 53) (-1074)) as Hc by reflexivity.
  assert (m <= 2 ^ 53)%Z as Hm.
  { unfold m. rewrite <- (rne_Z (2 ^ 53)). apply rne_mono.
    rewrite <- pw_Z by lia. apply Qle_trans with (pw (mag x) * pw (- c)).
    - apply Qmult_le_compat_r; lra.
    - rewrite <- pw_add. apply pw_le. lia. }
  split_and!; [|done|lia|].
  - unfold m. rewrite <- (rne_Z 0). apply rne_mono. change (inject_Z 0) with 0.
    apply Qmult_le_0_compat; lra.
  - destruct (Z.eq_dec c (-1074)) as [|Hne]; [by left|right].
    unfold m. rewrite <- (rne_Z (2 ^ 52)). apply rne_mono.
    rewrite <- pw_Z by lia. apply Qle_trans with (pw (mag x - 1) * pw (- c)).
    + rewrite <- pw_add. apply pw_le. lia.
    + apply Qmult_le_compat_r; lra.
Qed.

(** Renormalisation of a mantissa of at most 2^53. *)
Lemma renormalize m c s :
  (0 <= m <= 2 ^ 53)%Z -> (-1074 <= c <= 960)%Z -> (c = -1074 \/ 2 ^ 52 <= m)%Z ->
  let '(r, e) := shr_fexp 53 1024 m c loc_Exact in
  let x := match shr_m r with
           | Z0 => S754_zero s
           | Zpos m => if Z.leb e (Z.sub 1024 53) then S754_finite s m e else S754_infinity s
           | _ => S754_nan
           end in
  fin64 x /\ SF2Q x == cond_opp s (inject_Z m * pw c).
Proof.
  intros Hm Hc Hn. unfold shr_fexp. rewrite fexp64_eq.
  destruct m as [|p|p]; [| |lia].
  - replace (Z.max (Zdigits2 0 + c - 53) (-1074) - c)%Z with
      (Z.max (-53) (-1074 - c)) by (simpl Zdigits2; lia).
    assert (Z.max (-53) (-1074 - c) <= 0)%Z as Hle by lia.
    destruct (Z.max (-53) (-1074 - c)) as [|q|q]; simpl; [|lia|];
      (split; [done|]; change (inject_Z 0) with 0; destruct s; simpl; lra).
  - destruct (digits2_bounds p) as [D1 D2]. simpl Zdigits2.
    destruct (Z.eq_dec (Zpos p) (2 ^ 53)) as [E|Hne].
    + assert (p = (2 ^ 53)%positive) as -> by lia.
      change (Z.pos (digits2_pos (2 ^ 53))) with 54%Z.
      replace (Z.max (54 + c - 53) (-1074) - c)%Z with 1%Z by lia.
      simpl shr. cbn [fst snd].
      assert ((c + 1 <=? 1024 - 53) = true)%Z as Hb by (apply Z.leb_le; lia).
      simpl shr_m. rewrite Hb. split.
      * apply bounded_spec. rewrite fexp64_eq.
        change (Z.pos (digits2_pos _)) with 53%Z. lia.
      * unfold SF2Q. apply cond_opp_proper. rewrite pw_succ.
        change (inject_Z (Zpos (2 ^ 53))) with 9007199254740992.
        change (inject_Z _) with 4503599627370496. lra.
    + assert (Zpos (digits2_pos p) <= 53)%Z as Hd.
      { assert (Zpos (digits2_pos p) - 1 < 53)%Z; [|lia]. apply pw_lt_inv.
        eapply Qle_lt_trans; [exact D1|]. rewrite pw_Z, <- Zlt_Qlt by lia. lia. }
      assert (c = -1074 \/ Zpos (digits2_pos p) = 53)%Z as Hd'.
      { destruct Hn as [|Hn]; [by left|right]. assert (52 < Zpos (digits2_pos p))%Z; [|lia].
        apply pw_lt_inv. eapply Qle_lt_trans; [|exact D2]. rewrite pw_Z, <- Zle_Qle by lia. done. }
      assert (Z.max (Zpos (digits2_pos p) + c - 53) (-1074) - c = 0)%Z as -> by lia.
      simpl shr. cbn [fst snd]. simpl shr_m.
      assert ((c <=? 1024 - 53) = true)%Z as -> by (apply Z.leb_le; lia).
      split; [|done]. apply bounded_spec. rewrite fexp64_eq. lia.
Qed.

(** Correct rounding: [binary_round_aux] returns the finite float whose value
    is the rounding of the number its arguments locate. *)
Lemma binary_round_aux_correct s m e l x :
  0 < x -> x <= pw 1000 -> (0 <= m)%Z -> inb m l (x * pw (- e)) -> (e <= cexp x)%Z ->
  fin64 (binary_round_aux 53 1024 s m e l) /\
  SF2Q (binary_round_aux 53 1024 s m e l) == cond_opp s (rnd64 x).
Proof.
  intros Hx Hb Hm Hi He. unfold binary_round_aux.
  pose proof (fexp_digits m e l x Hx Hm Hi He) as Hf. 
  assert (shr_fexp 53 1024 m e l = shr (shr_record_of_loc m l) e (cexp x - e)) as ->
    by (unfold shr_fexp; by rewrite Hf).
  destruct (shr_inr (shr_record_of_loc m l) e (cexp x - e) x) as (H1 & H2 & H3).
  { by rewrite shr_record_of_loc_m. }
  { by apply shr_record_of_loc_inr. }
  destruct (shr (shr_record_of_loc m l) e (cexp x - e)) as [r e'].
  cbn [fst snd] in *. replace (Z.max e (e + (cexp x - e))) with (cexp x) in H2 by lia. subst e'.
  rewrite (inb_rne _ _ _ H3).
  destruct (rounded_mantissa x Hx) as (M1 & M2 & M3).
  assert (cexp x <= 960)%Z as Hc.
  { unfold cexp. rewrite fexp64_eq. assert (~ x == 0) as Hx0 by lra.
    destruct (mag_spec x Hx0) as [M _]. rewrite Qabs_pos in M by lra.
    assert (mag x - 1 < 1001)%Z; [|lia]. apply pw_lt_inv.
    pose proof (pw_lt 1000 1001 ltac:(lia)). lra. }
  pose proof (renormalize _ (cexp x) s M1 (conj M2 Hc) M3) as Hr.
  destruct (shr_fexp 53 1024 (rne (x * pw (- cexp x))) (cexp x) loc_Exact) as [r2 e2].
  rewrite (rnd64_n0 x) by lra. exact Hr.
Qed.

Lemma shl_align_value m e e' :
  inject_Z (Zpos (fst (shl_align m e e'))) * pw (snd (shl_align m e e')) == inject_Z (Zpos m) * pw e
  /\ snd (shl_align m e e') = Z.min e e'.
Proof.
  unfold shl_align. destruct (e' - e)%Z as [|d|d] eqn:E; cbn [fst snd]; try (split; [done|lia]).
  split; [|lia].
  assert (forall d, Zpos (Pos.iter xO m d) = Zpos m * 2 ^ Zpos d)%Z as Hit.
  { intros k. induction k as [|k IH] using Pos.peano_ind; [simpl; lia|].
    rewrite Pos.iter_succ, Pos2Z.inj_xO, IH, Pos2Z.inj_succ, Z.pow_succ_r by lia. lia. }
  rewrite Hit, inject_Z_mult, <- pw_Z, <- Qmult_assoc, <- pw_add by lia.
  by replace (Zpos d + e')%Z with e by lia.
Qed.

Lemma binary_round_correct s m e :
  inject_Z (Zpos m) * pw e <= pw 1000 ->
  fin64 (binary_round 53 1024 s m e) /\
  SF2Q (binary_round 53 1024 s m e) == cond_opp s (rnd64 (inject_Z (Zpos m) * pw e)).
Proof.
  intros Hb. unfold binary_round.
  destruct (shl_align_value m e (fexp64 (Zpos (digits2_pos m) + e))) as [Hv He].
  destruct (shl_align m e (fexp64 (Zpos (digits2_pos m) + e))) as [mz ez]. cbn [fst snd] in *.
  apply binary_round_aux_correct; [apply pos_scaled_pos|done|lia| |].
  - simpl. rewrite <- Hv, <- Qmult_assoc, pw_inv. lra.
  - unfold cexp. rewrite mag_scaled. lia.
Qed.

Lemma binary_normalize_correct z e s :
  Qabs (inject_Z z * pw e) <= pw 1000 ->
  fin64 (binary_normalize 53 1024 z e s) /\
  SF2Q (binary_normalize 53 1024 z e s) == rnd64 (inject_Z z * pw e).
Proof.
  intros Hb. destruct z as [|m|m]; unfold binary_normalize.
  - split; [done|]. rewrite rnd64_0; [done|]. change (inject_Z 0) with 0. lra.
  - pose proof (pos_scaled_pos m e). rewrite Qabs_pos in Hb by lra.
    by apply binary_round_correct.
  - change (Zneg m) with (- Zpos m)%Z in *. rewrite inject_Z_opp in *.
    assert (- inject_Z (Zpos m) * pw e == - (inject_Z (Zpos m) * pw e)) as E by lra.
    rewrite E in *. rewrite Qabs_opp in Hb. pose proof (pos_scaled_pos m e).
    rewrite Qabs_pos in Hb by lra. rewrite rnd64_opp. by apply (binary_round_correct true).
Qed.

(** ** Operations *)

Lemma SF2Q_aligned s m e ez : (ez <= e)%Z ->
  inject_Z (cond_Zopp s (Zpos (fst (shl_align m e ez)))) * pw ez == SF2Q (S754_finite s m e).
Proof.
  intros Hle. destruct (shl_align_value m e ez) as [Hv He].
  replace (Z.min e ez) with ez in He by lia. rewrite He in Hv.
  destruct s; unfold cond_Zopp, SF2Q, cond_opp; rewrite ?inject_Z_opp, <- Hv; lra.
Qed.

Lemma rnd64_cond s m e : bounded 53 1024 m e = true ->
  rnd64 (cond_opp s (inject_Z (Zpos m) * pw e)) == cond_opp s (inject_Z (Zpos m) * pw e).
Proof. intros H. by apply (rnd64_repr (S754_finite s m e)). Qed.

Lemma SFadd_correct x y : fin64 x -> fin64 y -> Qabs (SF2Q x + SF2Q y) <= pw 1000 ->
  fin64 (SFadd 53 1024 x y) /\ SF2Q (SFadd 53 1024 x y) == rnd64 (SF2Q x + SF2Q y).
Proof.
  intros Hx Hy Hb. destruct x as [sx| | |sx mx ex], y as [sy| | |sy my ey]; try done.
  - split; [by destruct sx, sy|]. rewrite rnd64_0 by done. by destruct sx, sy.
  - split; [done|]. simpl in *. rewrite Qplus_0_l. by rewrite rnd64_cond.
  - split; [done|]. simpl in *. rewrite Qplus_0_r. by rewrite rnd64_cond.
  - unfold SFadd.
    pose proof (SF2Q_aligned sx mx ex (Z.min ex ey) ltac:(lia)) as Ex.
    pose proof (SF2Q_aligned sy my ey (Z.min ex ey) ltac:(lia)) as Ey.
    set (zx := cond_Zopp sx _) in *. set (zy := cond_Zopp sy _) in *.
    assert (inject_Z (zx + zy) * pw (Z.min ex ey)
      == SF2Q (S754_finite sx mx ex) + SF2Q (S754_finite sy my ey)) as E.
    { rewrite inject_Z_plus, <- Ex, <- Ey. lra. }
    rewrite <- E in *. by apply binary_normalize_correct.
Qed.

Lemma SFsub_correct x y : fin64 x -> fin64 y -> Qabs (SF2Q x - SF2Q y) <= pw 1000 ->
  fin64 (SFsub 53 1024 x y) /\ SF2Q (SFsub 53 1024 x y) == rnd64 (SF2Q x - SF2Q y).
Proof.
  intros Hx Hy Hb. destruct x as [sx| | |sx mx ex], y as [sy| | |sy my ey]; try done.
  - split; [by destruct sx, sy|]. rewrite rnd64_0 by done. by destruct sx, sy.
  - split; [done|]. simpl in *.
    assert (0 - cond_opp sy (inject_Z (Zpos my) * pw ey)
      == cond_opp (negb sy) (inject_Z (Zpos my) * pw ey)) as E by (destruct sy; simpl; lra).
    rewrite E. by rewrite rnd64_cond.
  - split; [done|]. simpl in *.
    assert (cond_opp sx (inject_Z (Zpos mx) * pw ex) - 0
      == cond_opp sx (inject_Z (Zpos mx) * pw ex)) as E by lra.
    rewrite E. by rewrite rnd64_cond.
  - unfold SFsub.
    pose proof (SF2Q_aligned sx mx ex (Z.min ex ey) ltac:(lia)) as Ex.
    pose proof (SF2Q_aligned sy my ey (Z.min ex ey) ltac:(lia)) as Ey.
    set (zx := cond_Zopp sx _) in *. set (zy := cond_Zopp sy _) in *.
    assert (inject_Z (zx - zy) * pw (Z.min ex ey)
      == SF2Q (S754_finite sx mx ex) - SF2Q (S754_finite sy my ey)) as E.
    { unfold Z.sub. rewrite inject_Z_plus, inject_Z_opp, <- Ex, <- Ey. lra. }
    rewrite <- E in *. by apply binary_normalize_correct.
Qed.

Lemma digits2_mul p q : (Zpos (digits2_pos p) <= Zpos (digits2_pos (p * q)))%Z.
Proof.
  rewrite !digits2_log2. assert (Z.log2 (Zpos p) <= Z.log2 (Zpos (p * q)))%Z; [|lia].
  apply Z.log2_le_mono. rewrite Pos2Z.inj_mul. nia.
Qed.

(** The exponent of an exact product is not above that of its rounding. *)
Lemma mul_exponent mx ex my ey :
  bounded 53 1024 mx ex = true -> bounded 53 1024 my ey = true ->
  (ex + ey <= fexp64 (Zpos (digits2_pos (mx * my)) + (ex + ey)))%Z.
Proof.
  rewrite !bounded_spec, !fexp64_eq. intros [Hx _] [Hy _].
  pose proof (digits2_mul mx my). pose proof (digits2_mul my mx).
  rewrite Pos.mul_comm in H0. lia.
Qed.

Lemma cond_opp_mul sx sy a b :
  cond_opp sx a * cond_opp sy b == cond_opp (xorb sx sy) (a * b).
Proof. destruct sx, sy; simpl; lra. Qed.

Lemma Qabs_cond_opp s a : Qabs (cond_opp s a) == Qabs a.
Proof. destruct s; simpl; [apply Qabs_opp|done]. Qed.

Lemma SFmul_correct x y : fin64 x -> fin64 y -> Qabs (SF2Q x * SF2Q y) <= pw 1000 ->
  fin64 (SFmul 53 1024 x y) /\ SF2Q (SFmul 53 1024 x y) == rnd64 (SF2Q x * SF2Q y).
Proof.
  intros Hx Hy Hb. destruct x as [sx| | |sx mx ex], y as [sy| | |sy my ey]; try done;
    try (split; [done|]; rewrite rnd64_0; [done|]; simpl; lra).
  unfold SFmul, SF2Q in *. rewrite cond_opp_mul in *. rewrite Qabs_cond_opp in Hb.
  rewrite cond_opp_rnd. simpl in Hx, Hy.
  assert (inject_Z (Zpos mx) * pw ex * (inject_Z (Zpos my) * pw ey)
    == inject_Z (Zpos (mx * my)) * pw (ex + ey)) as E.
  { rewrite Pos2Z.inj_mul, inject_Z_mult, pw_add. lra. }
  rewrite E in *. pose proof (pos_scaled_pos (mx * my) (ex + ey)) as Hp.
  rewrite Qabs_pos in Hb by lra.
  apply (binary_round_aux_correct (xorb sx sy)); [done|done|lia| |].
  - simpl inb. rewrite <- Qmult_assoc, pw_inv. lra.
  - unfold cexp. rewrite mag_scaled. by apply mul_exponent.
Qed.

Lemma new_location_inb q n k : (0 < n)%Z -> (0 <= k < n)%Z ->
  inb q (new_location n k) (inject_Z q + inject_Z k / inject_Z n).
Proof.
  intros Hn Hk. assert (0 < inject_Z n) as Hn' by (change 0 with (inject_Z 0); by rewrite <- Zlt_Qlt).
  unfold new_location.
  assert (new_location_even n k = new_location_odd n k \/ Z.even n = true) as Hcase.
  { destruct (Z.even n) eqn:E; [by right|left]. unfold new_location_even, new_location_odd.
    case_zbool; [done|]. do 2 f_equal.
    assert (Z.odd n = true) as Ho by (by rewrite <- Z.negb_even, E).
    apply Z.odd_spec in Ho as [j ->].
    destruct (Z.compare_spec (2 * k) (2 * j + 1)), (Z.compare_spec (2 * k + 1) (2 * j + 1));
      try done; lia. }
  assert (inb q (new_location_even n k) (inject_Z q + inject_Z k / inject_Z n)) as He.
  { unfold new_location_even. destruct (Z.eqb_spec k 0) as [->|H0]; [simpl; change (inject_Z 0) with 0|].
    - assert (0 / inject_Z n == 0) as -> by (field; lra). lra.
    - assert (0 < inject_Z k / inject_Z n) as L0.
      { apply Qlt_shift_div_l; [done|]. rewrite Qmult_0_l. change 0 with (inject_Z 0).
        rewrite <- Zlt_Qlt. lia. }
      assert (inject_Z k / inject_Z n < 1) as L1.
      { apply Qlt_shift_div_r; [done|]. rewrite Qmult_1_l, <- Zlt_Qlt. lia. }
      destruct (Z.compare_spec (2 * k) n) as [E|E|E]; simpl.
      + rewrite <- E, inject_Z_mult. change (inject_Z 2) with 2.
        assert (0 < inject_Z k) by (change 0 with (inject_Z 0); rewrite <- Zlt_Qlt; lia).
        assert (inject_Z k / (2 * inject_Z k) == 1 # 2) as -> by (field; lra). lra.
      + rewrite Zlt_Qlt, inject_Z_mult in E. change (inject_Z 2) with 2 in E.
        assert (inject_Z k / inject_Z n < 1 # 2) by (apply Qlt_shift_div_r; lra). lra.
      + rewrite Zlt_Qlt, inject_Z_mult in E. change (inject_Z 2) with 2 in E.
        assert (1 # 2 < inject_Z k / inject_Z n) by (apply Qlt_shift_div_l; lra). lra. }
  destruct (Z.even n) eqn:E; [done|]. destruct Hcase as [<-|]; [done|congruence].
Qed.

Lemma cond_opp_div sx sy a b : ~ b == 0 ->
  cond_opp sx a / cond_opp sy b == cond_opp (xorb sx sy) (a / b).
Proof. intros H. destruct sx, sy; simpl; field; try done; intros E; apply H; lra. Qed.

(** The quotient lies above 2^(k-1), k the difference of the magnitudes. *)
Lemma div_mag mx ex my ey :
  (Zpos (digits2_pos mx) + ex - (Zpos (digits2_pos my) + ey)
   <= mag (inject_Z (Zpos mx) * pw ex / (inject_Z (Zpos my) * pw ey)))%Z.
Proof.
  set (x := inject_Z (Zpos mx) * pw ex). set (y := inject_Z (Zpos my) * pw ey).
  assert (0 < x) as Hx by apply pos_scaled_pos. assert (0 < y) as Hy by apply pos_scaled_pos.
  assert (0 < x / y) as Hv by (apply Qlt_shift_div_l; lra).
  assert (~ x == 0) as Hx0 by lra. assert (~ y == 0) as Hy0 by lra.
  destruct (mag_spec x Hx0) as [Mx _], (mag_spec y Hy0) as [_ My].
  unfold x, y in Mx, My. rewrite mag_scaled in Mx, My. fold x in Mx. fold y in My.
  rewrite Qabs_pos in Mx, My by lra.
  assert (~ x / y == 0) as Hv0 by lra.
  destruct (mag_spec (x / y) Hv0) as [_ Mv]. rewrite Qabs_pos in Mv by lra.
  set (dx := (Zpos (digits2_pos mx) + ex)%Z) in *. set (dy := (Zpos (digits2_pos my) + ey)%Z) in *.
  assert (pw (dx - dy - 1) < x / y) as Hlt.
  { apply Qlt_shift_div_l; [done|]. eapply Qlt_le_trans; [|exact Mx].
    replace (dx - 1)%Z with (dx - dy - 1 + dy)%Z by lia. rewrite pw_add.
    apply Qmult_lt_l; [apply pw_pos|done]. }
  assert (dx - dy - 1 < mag (x / y))%Z by (apply pw_lt_inv; lra). lia.
Qed.

Lemma div_core_inb mx ex my ey :
  let '(q, e, l) := SFdiv_core_binary 53 1024 (Zpos mx) ex (Zpos my) ey in
  let v := inject_Z (Zpos mx) * pw ex / (inject_Z (Zpos my) * pw ey) in
  (0 <= q)%Z /\ inb q l (v * pw (- e)) /\ (e <= cexp v)%Z.
Proof.
  unfold SFdiv_core_binary. cbn zeta.
  set (e := Z.min (fexp64 _) (ex - ey)). 
  set (m := match (ex - ey - e)%Z with Zpos _ => _ | Z0 => _ | Zneg _ => _ end).
  assert (m = Zpos mx * 2 ^ (ex - ey - e))%Z as Hm.
  { unfold m. assert (0 <= ex - ey - e)%Z by lia. destruct (ex - ey - e)%Z eqn:E; [lia| |lia].
    by rewrite Z.shiftl_mul_pow2 by lia. }
  pose proof (Z_div_mod m (Zpos my) ltac:(lia)) as Hdm.
  destruct (Z.div_eucl m (Zpos my)) as [q r]. destruct Hdm as [Eq Hr].
  assert (0 < m)%Z as Hm0 by (rewrite Hm; apply Z.mul_pos_pos; lia).
  set (v := inject_Z (Zpos mx) * pw ex / (inject_Z (Zpos my) * pw ey)).
  assert (0 < inject_Z (Zpos my)) as Hy by (change 0 with (inject_Z 0); by rewrite <- Zlt_Qlt).
  split_and!.
  - nia.
  - assert (v * pw (- e) == inject_Z q + inject_Z r / inject_Z (Zpos my)) as ->;
      [|by apply new_location_inb].
    assert (inject_Z (Zpos mx) * pw ex * pw (- e)
      == (inject_Z q * inject_Z (Zpos my) + inject_Z r) * pw ey) as E.
    { rewrite (Qmult_comm (inject_Z q)), <- inject_Z_mult, <- inject_Z_plus, <- Eq, Hm.
      rewrite inject_Z_mult, <- pw_Z by lia. rewrite <- !Qmult_assoc, <- !pw_add.
      by replace (ex - ey - e + ey)%Z with (ex + - e)%Z by lia. }
    pose proof (pw_pos ey). unfold v.
    assert (inject_Z (Zpos mx) * pw ex / (inject_Z (Zpos my) * pw ey) * pw (- e)
      == inject_Z (Zpos mx) * pw ex * pw (- e) / (inject_Z (Zpos my) * pw ey)) as ->
      by (field; split; lra).
    rewrite E. field. split; lra.
  - pose proof (div_mag mx ex my ey) as Hg. fold v in Hg.
    unfold cexp, e. rewrite !fexp64_eq. simpl Zdigits2. lia.
Qed.

Lemma SFdiv_correct x y : fin64 x -> fin64 y -> ~ SF2Q y == 0 ->
  Qabs (SF2Q x / SF2Q y) <= pw 1000 ->
  fin64 (SFdiv 53 1024 x y) /\ SF2Q (SFdiv 53 1024 x y) == rnd64 (SF2Q x / SF2Q y).
Proof.
  intros Hx Hy Hn Hb. destruct x as [sx| | |sx mx ex], y as [sy| | |sy my ey]; try done;
    try (exfalso; apply Hn; reflexivity).
  unfold SFdiv. pose proof (div_core_inb mx ex my ey) as Hc.
  destruct (SFdiv_core_binary 53 1024 (Zpos mx) ex (Zpos my) ey) as [[q e] l].
  destruct Hc as (Hq & Hi & He). unfold SF2Q in *.
  pose proof (pos_scaled_pos mx ex) as Px. pose proof (pos_scaled_pos my ey) as Py.
  rewrite cond_opp_div in * by lra. rewrite Qabs_cond_opp in Hb. rewrite cond_opp_rnd.
  assert (0 < inject_Z (Zpos mx) * pw ex / (inject_Z (Zpos my) * pw ey)) as Hv
    by (apply Qlt_shift_div_l; lra).
  rewrite Qabs_pos in Hb by lra. by apply (binary_round_aux_correct (xorb sx sy)).
Qed.

Lemma pos_compare m1 e1 m2 e2 :
  bounded 53 1024 m1 e1 = true -> bounded 53 1024 m2 e2 = true ->
  CompareSpec (inject_Z (Zpos m1) * pw e1 == inject_Z (Zpos m2) * pw e2)
    (inject_Z (Zpos m1) * pw e1 < inject_Z (Zpos m2) * pw e2)
    (inject_Z (Zpos m2) * pw e2 < inject_Z (Zpos m1) * pw e1)
    (match Z.compare e1 e2 with Lt => Lt | Gt => Gt | Eq => Pos.compare_cont Eq m1 m2 end).
Proof.
  assert (forall m1 e1 m2 e2, bounded 53 1024 m1 e1 = true -> bounded 53 1024 m2 e2 = true ->
    (e1 < e2)%Z -> inject_Z (Zpos m1) * pw e1 < inject_Z (Zpos m2) * pw e2) as Hlt.
  { clear. intros m1 e1 m2 e2. rewrite !bounded_spec, !fexp64_eq. intros [H1 _] [H2 _] He.
    pose proof (pos_scaled_pos m1 e1) as P1. pose proof (pos_scaled_pos m2 e2) as P2.
    assert (~ inject_Z (Zpos m1) * pw e1 == 0) as N1 by lra.
    assert (~ inject_Z (Zpos m2) * pw e2 == 0) as N2 by lra.
    destruct (mag_spec _ N1) as [_ M1], (mag_spec _ N2) as [M2 _].
    rewrite mag_scaled in M1, M2. rewrite Qabs_pos in M1, M2 by lra.
    pose proof (pw_le (Zpos (digits2_pos m1) + e1) (Zpos (digits2_pos m2) + e2 - 1) ltac:(lia)).
    lra. }
  intros H1 H2. destruct (Z.compare_spec e1 e2) as [->|He|He].
  - change (Pos.compare_cont Eq m1 m2) with (Pos.compare m1 m2).
    destruct (Pos.compare_spec m1 m2) as [->|Hm|Hm]; constructor; [done|..];
      (apply Qmult_lt_compat_r; [apply pw_pos|]; rewrite <- Zlt_Qlt; lia).
  - constructor. by apply Hlt.
  - constructor. by apply Hlt.
Qed.

Lemma SFltb_correct x y : fin64 x -> fin64 y -> SFltb x y = true <-> SF2Q x < SF2Q y.
Proof.
  intros Hx Hy.
  destruct x as [sx| | |sx mx ex], y as [sy| | |sy my ey]; try (by destruct Hx); try (by destruct Hy).
  - pose proof (pos_scaled_pos my ey). destruct sy; unfold SFltb; simpl; split; (done || lra).
  - pose proof (pos_scaled_pos mx ex). destruct sx; unfold SFltb; simpl; split; (done || lra).
  - pose proof (pos_scaled_pos mx ex). pose proof (pos_scaled_pos my ey).
    unfold SFltb, SFcompare, SF2Q. simpl in Hx, Hy.
    pose proof (pos_compare mx ex my ey Hx Hy) as Hc.
    destruct sx, sy; cbn [cond_opp]; try (split; (done || lra));
      (destruct (Z.compare ex ey); [destruct (Pos.compare_cont Eq mx my)|..];
        inversion_clear Hc; simpl; split; (done || lra)).
Qed.

(** ** The instance *)

Lemma SF2Q_trunc s m e :
  Qtrunc (SF2Q (S754_finite s m e)) = cond_Zopp s (Z.shiftl (Zpos m) e).
Proof.
  assert (Qtrunc (inject_Z (Zpos m) * pw e) = Z.shiftl (Zpos m) e) as Hp.
  { destruct (Z.le_gt_cases 0 e) as [He|He].
    - rewrite pw_Z, <- inject_Z_mult, Qtrunc_Z, Z.shiftl_mul_pow2 by lia. done.
    - pose proof (pos_scaled_pos m e). rewrite Qtrunc_floor by lra.
      rewrite Z.shiftl_div_pow2 by lia. rewrite Zdiv_Qdiv. apply Qfloor_comp.
      rewrite <- pw_Z by lia. pose proof (pw_pos (- e)). pose proof (pw_inv e) as Hi.
      assert (pw e == / pw (- e)) as ->; [|done].
      apply (Qmult_inj_r _ _ (pw (- e))); [lra|]. rewrite Hi. field. lra. }
  destruct s; simpl; [|done]. rewrite <- Hp.
  unfold Qtrunc. simpl Qden. simpl Qnum. by rewrite Z.quot_opp_l by lia.
Qed.

Lemma pw_dbig q : Qabs q <= dbig -> Qabs q <= pw 1000.
Proof. intros H. by rewrite pw_Z by lia. Qed.

Definition binary64_ops : FloatOps spec_float := {|
  dadd := SFadd 53 1024;
  dsub := SFsub 53 1024;
  dmul := SFmul 53 1024;
  ddiv := SFdiv 53 1024;
  dltb := SFltb;
  d_of_Z z := binary_normalize 53 1024 z 0 false;
  dtrunc x := match x with
              | S754_zero _ => Some 0%Z
              | S754_finite s m e => Some (cond_Zopp s (Z.shiftl (Zpos m) e))
              | _ => None
              end |}.

#[refine] Definition binary64_laws : @FloatLaws spec_float binary64_ops := {|
  dfin := fin64; dval := SF2Q; rnd := rnd64 |}.
Proof.
  - intros p q E. by rewrite E.
  - apply rnd64_mono.
  - apply rnd64_opp.
  - apply rnd64_repr.
  - apply rnd64_int.
  - apply rnd64_pow2.
  - apply rnd64_err.
  - intros z Hz. destruct (binary_normalize_correct z 0 false) as [H1 H2].
    + rewrite pw_0, Qmult_1_r. apply Qle_trans with (inject_Z (2 ^ 64)).
      * apply Qabs_Qle_condition. rewrite <- inject_Z_opp, <- !Zle_Qle. lia.
      * rewrite <- pw_Z by lia. apply pw_le. lia.
    + split; [done|]. rewrite pw_0, Qmult_1_r in H2. exact H2.
  - apply SFltb_correct.
  - intros x y Hx Hy Hb. by apply SFadd_correct, pw_dbig.
  - intros x y Hx Hy Hb. by apply SFsub_correct, pw_dbig.
  - intros x y Hx Hy Hb. by apply SFmul_correct, pw_dbig.
  - intros x y Hx Hy Hn Hb. by apply SFdiv_correct, pw_dbig.
  - intros [| | |s m e] Hx; try done. simpl. by rewrite <- SF2Q_trunc.
Defined.

(** ** Relative error *)

Section Relative.
Context `{FO : FloatOps D} {FL : FloatLaws D}.

(** The error of one rounding, relative to the exact result. *)
Lemma rnd_rel q : pw (-800) <= Qabs q -> Qabs (rnd q - q) <= Qabs q * pw (-53).
Proof.
  intros Hq. pose proof (pw_pos (-800)) as Hp.
  assert (~ q == 0) as Hn0 by (intros E; rewrite E in Hq; change (Qabs 0) with 0 in Hq; lra).
  destruct (mag_spec q Hn0) as [M1 M2].
  assert (-800 < mag q)%Z as Hm by (apply pw_lt_inv; lra).
  eapply Qle_trans; [apply (rnd_err q (mag q)); [lia|apply Qlt_le_weak; exact M2]|].
  change (2 ^ (mag q - 54)) with (pw (mag q - 54)).
  replace (mag q - 54)%Z with (mag q - 1 + -53)%Z by lia. rewrite pw_add.
  apply Qmult_le_compat_r; [exact M1|apply Qlt_le_weak, pw_pos].
Qed.

(** A result of magnitude at most [2 ^ b] that is zero or not tiny. *)
Lemma rnd_rel_bound q b : q == 0 \/ pw (-800) <= Qabs q -> Qabs q <= pw b ->
  Qabs (rnd q - q) <= pw (b - 53).
Proof.
  intros [H0|Hq] Hb.
  - rewrite H0, rnd_0. change (Qabs (0 - 0)) with 0. apply Qlt_le_weak, pw_pos.
  - eapply Qle_trans; [by apply rnd_rel|]. replace (b - 53)%Z with (b + -53)%Z by lia. rewrite pw_add.
    apply Qmult_le_compat_r; [done|apply Qlt_le_weak, pw_pos].
Qed.

End Relative.
