(* ===== verification/Moonem.v ===== *)
(** * Path emulation with hardware timestamps: src/moonem.cpp

    The four receiver loops: pure delay, leaky bucket, and the token bucket
    with and without a transmit thread.  One iteration of a loop is a
    function of the loop's local state and the burst [rte_eth_rx_burst]
    delivered; the loop is [run_loop] over the bursts. *)
From S2P Require Import Prelude Dpdk LossModel Float Binary64.
From Stdlib Require Import QArith Qpower Qabs Qround Lqa Sorted.

#[local] Open Scope Z_scope.

Section Loops.
Context `{FO : FloatOps D} `{TS : TimestampDynfield}.

(** The end of every iteration: with a loss model the accepted packets pass
    [applyLoss] first, then they go out ([EnqueueBulk] or [SendAll]). *)
Definition pass_on (out : list mbuf -> event) (c : moonem_config) (ls : loss_state)
    (accepted : list mbuf) : res (loss_state * list event) :=
  if bool_decide (cfg_loss_type c = NONE) then mret (ls, [out accepted])
  else
    '(ls, ev, rx_loss) ← applyLoss accepted ls c;
    mret (ls, ev ++ [out rx_loss]).

Definition pass_on_nonempty (out : list mbuf -> event) (c : moonem_config) (ls : loss_state)
    (accepted : list mbuf) : res (loss_state * list event) :=
  match accepted with
  | [] => mret (ls, [])
  | _ :: _ => pass_on out c ls accepted
  end.

Definition loss_init (c : moonem_config) : loss_state := LossState (loss_seed c) 0.

(** ** Pure delay *)

Definition stamp_delay (c : moonem_config) (m : mbuf) : mbuf :=
  set_timestamp_dynfield m (u64 (get_timestamp_dynfield m + delay c)).

Definition delay_iter (ring : Z) (c : moonem_config) (ls : loss_state) (bufs : list mbuf)
    : res (loss_state * list event) :=
  pass_on_nonempty (EnqueueBulk ring) c ls (stamp_delay c <$> bufs).

Definition receiver_loop_delay (ring : Z) (c : moonem_config) (bursts : list (list mbuf))
    : res (loss_state * list event) :=
  run_loop (delay_iter ring c) (loss_init c) bursts.

(** ** Leaky bucket *)

Definition B_P_NS_TARGET (c : moonem_config) : D := (d_of_Z (rate c) / d_of_Z 1000)%D.
Definition BACKLOG_BOUND (c : moonem_config) : D :=
  (d_of_Z (capacity c) / (B_P_NS_TARGET c / d_of_Z 8))%D.

(** The per-packet loop: the new [next_at], the packets freed, [bufs_accept]. *)
Fixpoint leaky_burst (c : moonem_config) (next_at : D) (bufs : list mbuf)
    : res (D * list event * list mbuf) :=
  match bufs with
  | [] => mret (next_at, [], [])
  | b :: bufs =>
      let send_time := u64 (get_timestamp_dynfield b + delay c) in
      let real_send_time := dMAX (d_of_Z send_time) next_at in
      let backlog := (real_send_time - d_of_Z send_time)%D in
      if (BACKLOG_BOUND c <? backlog)%D then
        '(next_at, ev, acc) ← leaky_burst c next_at bufs;
        mret (next_at, Free b :: ev, acc)
      else
        ts ← d_to_u64 real_send_time;
        let b := set_timestamp_dynfield b ts in
        let next_at :=
          (real_send_time + d_of_Z (u32 ((pkt_len b + 24) * 8)) / B_P_NS_TARGET c)%D in
        '(next_at, ev, acc) ← leaky_burst c next_at bufs;
        mret (next_at, ev, b :: acc)
  end.

Definition leaky_iter (ring : Z) (c : moonem_config) (st : D * loss_state) (bufs : list mbuf)
    : res (D * loss_state * list event) :=
  '(next_at, ev, acc) ← leaky_burst c (fst st) bufs;
  '(ls, ev') ← pass_on_nonempty (EnqueueBulk ring) c (snd st) acc;
  mret (next_at, ls, ev ++ ev').

Definition receiver_loop_rate_leaky_bucket (ring : Z) (c : moonem_config)
    (bursts : list (list mbuf)) : res (D * loss_state * list event) :=
  run_loop (leaky_iter ring c) (d_of_Z 0, loss_init c) bursts.

(** ** Token bucket *)

Record bucket := Bucket { previous_timestamp : D; previous_tokens : D }.

Definition TOKEN_RATE (c : moonem_config) : D := (d_of_Z (rate c) / d_of_Z 8000)%D.

Definition current_tokens (c : moonem_config) (k : bucket) (recv_time : Z) : D :=
  dMIN (previous_tokens k
        + (d_of_Z recv_time - previous_timestamp k) * TOKEN_RATE c)%D
       (d_of_Z (capacity c)).

(** [stamp] is what the loop does to an accepted packet: nothing when
    forwarding directly, the delayed timestamp otherwise. *)
Fixpoint token_burst (stamp : mbuf -> mbuf) (c : moonem_config) (k : bucket)
    (bufs : list mbuf) : bucket * list event * list mbuf :=
  match bufs with
  | [] => (k, [], [])
  | b :: bufs =>
      let recv_time := get_timestamp_dynfield b in
      let cur := current_tokens c k recv_time in
      let size := d_of_Z (u32 (pkt_len b + 24)) in
      if (size <? cur)%D then
        let k := Bucket (d_of_Z recv_time) (cur - size)%D in
        let '(k, ev, acc) := token_burst stamp c k bufs in
        (k, ev, stamp b :: acc)
      else
        let '(k, ev, acc) := token_burst stamp c k bufs in
        (k, Free b :: ev, acc)
  end.

Definition token_iter (stamp : mbuf -> mbuf) (out : list mbuf -> event) (c : moonem_config)
    (st : bucket * loss_state) (bufs : list mbuf) : res (bucket * loss_state * list event) :=
  let '(k, ev, acc) := token_burst stamp c (fst st) bufs in
  '(ls, ev') ← pass_on_nonempty out c (snd st) acc;
  mret (k, ls, ev ++ ev').

Definition bucket_init : bucket := Bucket (d_of_Z 0) (d_of_Z 0).

Definition receiver_loop_rate_token_bucket_fwd (port_tx queue_tx : Z) (c : moonem_config)
    (bursts : list (list mbuf)) : res (bucket * loss_state * list event) :=
  run_loop (token_iter id (SendAll port_tx queue_tx) c) (bucket_init, loss_init c) bursts.

Definition receiver_loop_rate_token_bucket (ring : Z) (c : moonem_config)
    (bursts : list (list mbuf)) : res (bucket * loss_state * list event) :=
  run_loop (token_iter (stamp_delay c) (EnqueueBulk ring) c) (bucket_init, loss_init c) bursts.

End Loops.
Arguments bucket D : clear implicits.
Arguments Bucket {D}.

(** ** Conservation of packets *)

Lemma ident_stamp `{TS : TimestampDynfield} c m : ident (stamp_delay c m) = ident m.
Proof. apply ident_set_timestamp. Qed.

Lemma ident_stamp_all `{TS : TimestampDynfield} c (ms : list mbuf) :
  ident <$> (stamp_delay c <$> ms) = ident <$> ms.
Proof. rewrite <- list_fmap_compose. apply list_fmap_ext. intros; apply ident_stamp. Qed.

Lemma pass_on_conserves out c ls accepted ls' ev :
  (forall ms, handed_on [out ms] = ms /\ freed [out ms] = []) ->
  pass_on out c ls accepted = Ok (ls', ev) -> conserves accepted ev.
Proof.
  intros Hout H. unfold pass_on in H. case_bool_decide as Hn.
  - res_inv. destruct (Hout accepted) as [H1 H2]. split; [|by rewrite H1].
    by rewrite H1, H2, app_nil_r.
  - res_inv. destruct (applyLoss_partition accepted ls c ls' l1 l) as (dr & -> & Hs & _ & Hp);
      [done..|]. destruct (Hout l) as [H1 H2].
    unfold conserves. autorewrite with moon_rw. rewrite H1, H2, app_nil_r; simpl.
    split; [by rewrite Hp|]. by apply fmap_sublist.
Qed.

Lemma pass_on_nonempty_conserves out c ls accepted ls' ev :
  (forall ms, handed_on [out ms] = ms /\ freed [out ms] = []) ->
  pass_on_nonempty out c ls accepted = Ok (ls', ev) -> conserves accepted ev.
Proof.
  intros Hout. destruct accepted; [|by apply pass_on_conserves].
  intros H; simpl in H; res_inv. apply conserves_nil.
Qed.

Lemma pass_on_nonempty_sublist out c ls acc ls' ev :
  (forall ms, handed_on [out ms] = ms /\ freed [out ms] = []) ->
  pass_on_nonempty out c ls acc = Ok (ls', ev) -> handed_on ev `sublist_of` acc.
Proof.
  intros Hout H. destruct acc as [|b acc]; [simpl in H; by res_inv|].
  unfold pass_on_nonempty, pass_on in H. revert H; generalize (b :: acc); clear b acc.
  intros acc H. case_bool_decide as Hn; res_inv.
  - destruct (Hout acc) as [-> _]. done.
  - destruct (applyLoss_partition acc ls c ls' l1 l) as (dr & -> & Hs & _); [done..|].
    autorewrite with moon_rw. by destruct (Hout l) as [-> _].
Qed.

Lemma pass_on_nonempty_total out c ls acc :
  config_wf c -> cfg_loss_type c <> NETEM ->
  exists ls' ev, pass_on_nonempty out c ls acc = Ok (ls', ev).
Proof.
  intros Hwf Hn. destruct acc as [|b acc]; [by eexists _, _|].
  unfold pass_on_nonempty, pass_on. case_bool_decide; [by eexists _, _|].
  destruct (applyLoss_total (b :: acc) ls c) as [[[ls' ev] sent] ->]; [done..|].
  by eexists _, _.
Qed.

Lemma enqueue_out ring ms :
  handed_on [EnqueueBulk ring ms] = ms /\ freed [EnqueueBulk ring ms] = [].
Proof. split; [apply app_nil_r|done]. Qed.
Lemma send_out p q ms :
  handed_on [SendAll p q ms] = ms /\ freed [SendAll p q ms] = [].
Proof. split; [apply app_nil_r|done]. Qed.
#[export] Hint Resolve enqueue_out send_out : moon.

(** What the per-packet loops do to a burst: [ev] frees the rejected packets
    and [acc] are the accepted ones, in order. *)
Definition splits (bufs : list mbuf) (ev : list event) (acc : list mbuf) : Prop :=
  exists dr, ev = Free <$> dr /\ ident <$> (acc ++ dr) ≡ₚ ident <$> bufs /\
    (ident <$> acc) `sublist_of` (ident <$> bufs).

Lemma splits_nil : splits [] [] [].
Proof. by exists []. Qed.

Lemma splits_free b bufs ev acc : splits bufs ev acc -> splits (b :: bufs) (Free b :: ev) acc.
Proof.
  intros (dr & -> & Hp & Hs). exists (b :: dr). split; [done|]. split.
  - rewrite fmap_app in *. csimpl. rewrite <- Hp. solve_Permutation.
  - by apply sublist_cons.
Qed.

Lemma splits_accept b b' bufs ev acc :
  ident b' = ident b -> splits bufs ev acc -> splits (b :: bufs) ev (b' :: acc).
Proof.
  intros Hi (dr & -> & Hp & Hs). exists dr. split; [done|]. csimpl. rewrite Hi. split.
  - by rewrite Hp.
  - by apply sublist_skip.
Qed.

Lemma splits_conserves bufs ev acc ev' :
  splits bufs ev acc -> conserves acc ev' -> conserves bufs (ev ++ ev').
Proof.
  intros (dr & -> & Hp & Hs) [Hp' Hs']. unfold conserves. autorewrite with moon_rw. simpl.
  split; [|by transitivity (ident <$> acc)].
  rewrite <- Hp, !fmap_app in *. rewrite <- Hp'. solve_Permutation.
Qed.

Lemma leaky_burst_splits `{FO : FloatOps D} `{TS : TimestampDynfield} c bufs next_at next_at' ev acc :
  leaky_burst c next_at bufs = Ok (next_at', ev, acc) -> splits bufs ev acc.
Proof.
  revert next_at next_at' ev acc; induction bufs as [|b bufs IH];
    intros next_at next_at' ev acc H; cbn [leaky_burst] in H.
  - res_inv. apply splits_nil.
  - destruct (BACKLOG_BOUND c <? _)%D; res_inv.
    + apply splits_free. eauto.
    + apply splits_accept; [apply ident_set_timestamp|eauto].
Qed.

Lemma token_burst_splits `{FO : FloatOps D} `{TS : TimestampDynfield} stamp c bufs k k' ev acc :
  (forall m, ident (stamp m) = ident m) ->
  token_burst stamp c k bufs = (k', ev, acc) -> splits bufs ev acc.
Proof.
  intros Hst. revert k k' ev acc; induction bufs as [|b bufs IH];
    intros k k' ev acc H; cbn [token_burst] in H.
  - simplify_eq. apply splits_nil.
  - destruct (_ <? current_tokens _ _ _)%D;
      destruct (token_burst stamp c _ bufs) as [[k1 ev1] acc1] eqn:E; simplify_eq.
    + apply splits_accept; [done|eauto].
    + apply splits_free. eauto.
Qed.

Lemma delay_iter_conserves `{TS : TimestampDynfield} ring c ls bufs ls' ev :
  delay_iter ring c ls bufs = Ok (ls', ev) -> conserves bufs ev.
Proof.
  intros H0. apply pass_on_nonempty_conserves in H0; [|auto with moon].
  unfold conserves in *. by rewrite ident_stamp_all in H0.
Qed.

Lemma leaky_iter_conserves `{FO : FloatOps D} `{TS : TimestampDynfield} ring c st bufs st' ev :
  leaky_iter ring c st bufs = Ok (st', ev) -> conserves bufs ev.
Proof.
  unfold leaky_iter. intros Hi. res_inv. eapply splits_conserves.
  - by eapply leaky_burst_splits.
  - eapply pass_on_nonempty_conserves; [|done]. auto with moon.
Qed.

Lemma token_iter_conserves `{FO : FloatOps D} `{TS : TimestampDynfield} stamp out c st bufs st' ev :
  (forall m, ident (stamp m) = ident m) ->
  (forall ms, handed_on [out ms] = ms /\ freed [out ms] = []) ->
  token_iter stamp out c st bufs = Ok (st', ev) -> conserves bufs ev.
Proof.
  unfold token_iter. intros Hst Hout Hi.
  destruct (token_burst stamp c (fst st) bufs) as [[k ev1] acc] eqn:E.
  res_inv. eapply splits_conserves.
  - by eapply token_burst_splits.
  - by eapply pass_on_nonempty_conserves.
Qed.


(** ** The two token buckets *)

(** [ev2] does to the packets [f] of [ev1]'s packets what [ev1] does. *)
Definition trace_map (f : mbuf -> mbuf) (ev1 ev2 : list event) : Prop :=
  handed_on ev2 = f <$> handed_on ev1 /\ ident <$> freed ev2 = ident <$> freed ev1.

Lemma trace_map_app f ev1 ev1' ev2 ev2' :
  trace_map f ev1 ev2 -> trace_map f ev1' ev2' -> trace_map f (ev1 ++ ev1') (ev2 ++ ev2').
Proof.
  intros [H1 H2] [H3 H4]. unfold trace_map. autorewrite with moon_rw.
  rewrite !fmap_app. by rewrite H1, H2, H3, H4.
Qed.

(** Two computations return related results or fail alike. *)
Definition res_rel {A B} (R : A -> B -> Prop) (x : res A) (y : res B) : Prop :=
  match x, y with
  | Ok a, Ok b => R a b
  | UB u, UB v => u = v
  | _, _ => False
  end.

Definition same_state {S} (f : mbuf -> mbuf) (r1 r2 : S * list event) : Prop :=
  fst r1 = fst r2 /\ trace_map f (snd r1) (snd r2).

Lemma run_loop_same {S I} (f : mbuf -> mbuf) (b1 b2 : S -> I -> res (S * list event)) :
  (forall s i, res_rel (same_state f) (b1 s i) (b2 s i)) ->
  forall ins s, res_rel (same_state f) (run_loop b1 s ins) (run_loop b2 s ins).
Proof.
  intros Hb ins. induction ins as [|i ins IH]; intros s; simpl; [done|].
  specialize (Hb s i). destruct (b1 s i) as [[s1 ev1]|], (b2 s i) as [[s2 ev2]|]; try done.
  destruct Hb as [Hs Ht]. simpl in Hs, Ht. subst s2. simpl.
  specialize (IH s1). destruct (run_loop b1 s1 ins) as [[s1' ev1']|],
    (run_loop b2 s1 ins) as [[s2' ev2']|]; try done.
  destruct IH as [Hs' Ht']. split; [done|]. by apply trace_map_app.
Qed.

Lemma token_burst_stamp `{FO : FloatOps D} `{TS : TimestampDynfield} stamp c bufs k :
  token_burst stamp c k bufs =
  let '(k', ev, acc) := token_burst id c k bufs in (k', ev, stamp <$> acc).
Proof.
  revert k; induction bufs as [|b bufs IH]; intros k; [done|]. cbn [token_burst].
  destruct (_ <? current_tokens _ _ _)%D; rewrite IH;
    by destruct (token_burst id c _ bufs) as [[k1 ev1] acc1].
Qed.

Lemma pass_on_nonempty_map f out1 out2 c ls acc :
  (forall m, ident (f m) = ident m) ->
  (forall ms, handed_on [out1 ms] = ms /\ freed [out1 ms] = []) ->
  (forall ms, handed_on [out2 ms] = ms /\ freed [out2 ms] = []) ->
  res_rel (same_state f) (pass_on_nonempty out1 c ls acc) (pass_on_nonempty out2 c ls (f <$> acc)).
Proof.
  intros Hf H1 H2. destruct acc as [|b acc]; [done|].
  change (pass_on_nonempty out2 c ls (f <$> b :: acc)) with (pass_on out2 c ls (f <$> b :: acc)).
  unfold pass_on_nonempty, pass_on. generalize (b :: acc); clear b acc; intros acc.
  assert (forall l : list mbuf, ident <$> (f <$> l) = ident <$> l) as Hi.
  { intros l. rewrite <- list_fmap_compose. apply list_fmap_ext. intros; apply Hf. }
  case_bool_decide as Hn.
  - simpl. split; [done|]. unfold trace_map. cbn [snd].
    destruct (H1 acc) as [-> ->], (H2 (f <$> acc)) as [-> ->]. done.
  - rewrite !applyLoss_decisions, length_fmap by done.
    destruct (decisions (drop_of (cfg_loss_type c)) c ls (length acc)) as [[ls1 ds]|]; [|done].
    simpl. split; [done|]. unfold trace_map. cbn [snd]. autorewrite with moon_rw.
    rewrite !select_fmap, !fmap_app.
    destruct (H1 (select false ds acc)) as [-> ->], (H2 (f <$> select false ds acc)) as [-> ->].
    simpl. by rewrite Hi.
Qed.

Lemma token_iter_same `{FO : FloatOps D} `{TS : TimestampDynfield} f out1 out2 c st bufs :
  (forall m, ident (f m) = ident m) ->
  (forall ms, handed_on [out1 ms] = ms /\ freed [out1 ms] = []) ->
  (forall ms, handed_on [out2 ms] = ms /\ freed [out2 ms] = []) ->
  res_rel (same_state f) (token_iter id out1 c st bufs) (token_iter f out2 c st bufs).
Proof.
  intros Hf H1 H2. unfold token_iter. rewrite (token_burst_stamp f).
  destruct (token_burst id c (fst st) bufs) as [[k ev] acc] eqn:E.
  pose proof (pass_on_nonempty_map f out1 out2 c (snd st) acc Hf H1 H2) as Hp.
  destruct (pass_on_nonempty out1 c (snd st) acc) as [[ls1 ev1]|],
    (pass_on_nonempty out2 c (snd st) (f <$> acc)) as [[ls2 ev2]|]; try done.
  destruct Hp as [Hs Ht]; simpl in Hs, Ht |- *. subst ls2.
  split; [done|]. simpl. apply trace_map_app; [|done].
  destruct (token_burst_splits id c bufs _ _ _ _ ltac:(done) E) as (dr & -> & _).
  split; autorewrite with moon_rw; done.
Qed.


(** ** The token bucket *)

Section TokenBucket.
Context `{FO : FloatOps D} {FL : FloatLaws D} `{TS : TimestampDynfield}.
#[local] Open Scope Q_scope.

(** The bucket holds between zero and [capacity] tokens. *)
Definition bucket_inv (c : moonem_config) (k : bucket D) : Prop :=
  dbnd (previous_timestamp k) 64 /\ dfin (previous_tokens k) /\
  0 <= dval (previous_tokens k) <= dval (d_of_Z (capacity c)).

Lemma token_rate_bnd c : config_wf c -> dbnd (TOKEN_RATE c) 64.
Proof.
  intros (_ & Hr & _). unfold TOKEN_RATE.
  destruct (dbnd_div (d_of_Z (rate c)) (d_of_Z 8000) 64 0) as [H1 _]; try done.
  - by apply dbnd_of_u64.
  - apply d_of_Z_fin; lia.
  - apply d_of_Z_nonneg. unfold is_u64 in Hr; lia.
  - rewrite d_of_Z_exact by lia. done.
Qed.

Lemma current_tokens_spec c k t :
  config_wf c -> bucket_inv c k -> is_u64 t ->
  dfin (current_tokens c k t) /\
  dval (current_tokens c k t) <= dval (d_of_Z (capacity c)).
Proof.
  intros Hwf (Bt & Ft & H0 & H1) Ht. unfold current_tokens.
  pose proof (token_rate_bnd c Hwf) as Br. destruct Hwf as (_ & _ & Hc & _).
  pose proof (dbnd_of_u64 _ Hc) as Bc. pose proof (dbnd_of_u64 _ Ht) as Bn.
  destruct (dbnd_sub _ _ 64 ltac:(lia) Bn Bt) as [Bs _].
  destruct (dbnd_mul _ _ 65 64 ltac:(lia) ltac:(lia) ltac:(lia) Bs Br) as [Bm _].
  assert (dbnd (previous_tokens k) 129) as Bk.
  { apply (dbnd_weaken _ 64); [lia|]. split; [done|]. destruct Bc as [_ Bc].
    rewrite Qabs_pos in * by lra. lra. }
  destruct (dbnd_add _ _ 129 ltac:(lia) Bk Bm) as [[Fa _] _].
  destruct Bc as [Fc _]. split.
  - unfold dMIN. by destruct (_ <? _)%D.
  - by apply dMIN_le.
Qed.

Lemma token_burst_inv stamp c bufs k k' ev acc :
  config_wf c -> bucket_inv c k ->
  token_burst stamp c k bufs = (k', ev, acc) -> bucket_inv c k'.
Proof.
  intros Hwf. revert k k' ev acc; induction bufs as [|b bufs IH];
    intros k k' ev acc Hk H; cbn [token_burst] in H; [by simplify_eq|].
  pose proof (get_timestamp_u64 b) as Ht.
  destruct (current_tokens_spec c k (get_timestamp_dynfield b) Hwf Hk Ht) as [Fc Hc].
  destruct (_ <? current_tokens _ _ _)%D eqn:E;
    destruct (token_burst stamp c _ bufs) as [[k1 ev1] acc1] eqn:E1; simplify_eq;
    (eapply IH; [|exact E1]); [|done].
  pose proof (u32_range (pkt_len b + 24)) as Hs.
  pose proof (d_of_Z_nonneg (u32 (pkt_len b + 24)) ltac:(lia)) as Hs0.
  assert (dfin (d_of_Z (u32 (pkt_len b + 24)))) as Fs by (apply d_of_Z_fin; lia).
  apply dltb_spec in E; [|done..].
  destruct Hwf as (_ & _ & Hcap & _). destruct (dbnd_of_u64 _ Hcap) as [Fcap Bcap].
  set (cur := current_tokens c k (get_timestamp_dynfield b)) in *.
  set (sz := d_of_Z (u32 (pkt_len b + 24))) in *.
  destruct (dsub_spec cur sz) as [Fd Hd]; [done..| |].
  { rewrite Qabs_pos in Bcap by lra. apply Qabs_Qle_condition.
    pose proof (pow2_dbig 64 ltac:(lia)). split; lra. }
  split; [by apply dbnd_of_u64|]. split; [done|]. cbn [previous_tokens]. rewrite Hd. split.
  - apply rnd_nonneg. lra.
  - eapply Qle_trans; [|exact Hc]. apply rnd_le_repr; [done|lra].
Qed.

Lemma bucket_init_inv c : config_wf c -> bucket_inv c bucket_init.
Proof.
  intros (_ & _ & Hc & _). split; [|split].
  - by apply dbnd_of_u64.
  - apply d_of_Z_fin; lia.
  - simpl. rewrite (d_of_Z_exact 0) by lia. split; [apply Qle_refl|].
    apply d_of_Z_nonneg. unfold is_u64 in Hc; lia.
Qed.

Lemma token_iter_inv stamp out c st bufs st' ev :
  config_wf c -> bucket_inv c (fst st) ->
  token_iter stamp out c st bufs = Ok (st', ev) -> bucket_inv c (fst st').
Proof.
  intros Hwf Hk H. unfold token_iter in H.
  destruct (token_burst stamp c (fst st) bufs) as [[k1 ev1] acc1] eqn:E.
  res_inv. by eapply token_burst_inv.
Qed.

(** C4: at every point of a run of the token bucket loop the number of tokens
    is between zero and the configured capacity, whatever the packets, the
    timestamps (monotone or not) and the rounding of the arithmetic. *)
Theorem token_bucket_tokens_bounded ring c bursts k ls ev :
  config_wf c ->
  receiver_loop_rate_token_bucket ring c bursts = Ok (k, ls, ev) ->
  0 <= dval (previous_tokens k) <= dval (d_of_Z (capacity c)).
Proof.
  intros Hwf H.
  assert (forall st st' ev, 
    run_loop (token_iter (stamp_delay c) (EnqueueBulk ring) c) st bursts = Ok (st', ev) ->
    bucket_inv c (fst st) -> bucket_inv c (fst st')) as Hinv.
  { apply (run_loop_ind _ (fun st ins st' ev => bucket_inv c (fst st) -> bucket_inv c (fst st')));
      [done|].
    intros s i s1 ev1 ins s2 evs Hi IH Hs. eapply IH, token_iter_inv; done. }
  apply Hinv in H; [|by apply bucket_init_inv]. apply H.
Qed.

End TokenBucket.

(** ** Rate conformance, in exact arithmetic *)

(** A packet's size on the wire, as the limiters charge it. *)
Definition wire_size (m : mbuf) : Z := u32 (pkt_len m + 24).

Lemma wire_size_nonneg ms : 0 <= zsum wire_size ms.
Proof. apply zsum_nonneg, Forall_true. intros m. apply u32_range. Qed.

Lemma wire_size_ident m m' : ident m = ident m' -> wire_size m = wire_size m'.
Proof. unfold ident, wire_size. congruence. Qed.

(** Charges of the packets handed on are at most those of the packets received. *)
Lemma conserves_wire ins ev :
  conserves ins ev -> zsum wire_size (handed_on ev) <= zsum wire_size ins.
Proof.
  intros [Hp _]. pose proof (wire_size_nonneg (freed ev)).
  set (g := fun i : Z * Z * Z * Z * Z * list Z => let '(_, l, _, _, _, _) := i in u32 (l + 24)).
  assert (forall l, zsum wire_size l = zsum g (ident <$> l)) as Hg.
  { intros l. induction l as [|x l IH]; [done|]. simpl. by rewrite IH. }
  pose proof (zsum_perm g _ _ Hp) as E. rewrite <- !Hg, zsum_app in E. lia.
Qed.

Section TokenRate.
#[local] Existing Instances exact_ops exact_laws.
Context `{TS : TimestampDynfield}.
#[local] Open Scope Q_scope.

Definition rate_bytes_per_ns (c : moonem_config) : Q := inject_Z (rate c) / 8000.

Lemma token_burst_rate stamp c bufs k k' ev acc :
  (forall m, ident (stamp m) = ident m) ->
  token_burst stamp c k bufs = (k', ev, acc) ->
  inject_Z (zsum wire_size acc) + previous_tokens k' <=
  previous_tokens k
  + (previous_timestamp k' - previous_timestamp k) * rate_bytes_per_ns c.
Proof.
  intros Hst. revert k k' ev acc; induction bufs as [|b bufs IH];
    intros k k' ev acc H; cbn [token_burst] in H.
  { simplify_eq. simpl zsum. change (inject_Z 0) with 0. lra. }
  destruct (_ <? current_tokens _ _ _)%D eqn:E;
    destruct (token_burst stamp c _ bufs) as [[k1 ev1] acc1] eqn:E1; simplify_eq.
  - apply IH in E1. cbn [zsum]. rewrite inject_Z_plus, (wire_size_ident _ _ (Hst b)).
    cbn [previous_tokens previous_timestamp] in E1.
    set (cur := current_tokens c k (get_timestamp_dynfield b)) in *.
    assert (cur <= previous_tokens k + (inject_Z (get_timestamp_dynfield b)
      - previous_timestamp k) * rate_bytes_per_ns c) as Hcur.
    { apply exact_MIN_le. }
    unfold wire_size at 1. simpl dsub in E1. simpl d_of_Z in E1. lra.
  - apply IH in E1. lra.
Qed.

Lemma token_iter_rate stamp out c st bufs k' ls' ev :
  (forall m, ident (stamp m) = ident m) ->
  (forall ms, handed_on [out ms] = ms /\ freed [out ms] = []) ->
  token_iter stamp out c st bufs = Ok (k', ls', ev) ->
  inject_Z (zsum wire_size (handed_on ev)) + previous_tokens k' <=
  previous_tokens (fst st)
  + (previous_timestamp k' - previous_timestamp (fst st)) * rate_bytes_per_ns c.
Proof.
  intros Hst Hout H. unfold token_iter in H.
  destruct (token_burst stamp c (fst st) bufs) as [[k1 ev1] acc1] eqn:E. res_inv.
  destruct (token_burst_splits stamp c bufs _ _ _ _ Hst E) as (dr & -> & _).
  apply token_burst_rate in E; [|done].
  autorewrite with moon_rw.
  apply pass_on_nonempty_conserves, conserves_wire in E0; [|done].
  rewrite Zle_Qle in E0. rewrite inject_Z_plus. change (inject_Z (zsum _ [])) with 0. lra.
Qed.


End TokenRate.

(** ** The leaky bucket *)

(** Bits a packet occupies on the wire, as the shaper computes them. *)
Definition wire_bits (m : mbuf) : Z := u32 ((pkt_len m + 24) * 8).

(** The operating range in which the shaper's conversions are defined: a rate
    of at least 1 Mbit/s, a queue of at most 4 GiB, and send times below 2^62
    ns (146 years). *)
Definition leaky_config (c : moonem_config) : Prop :=
  config_wf c /\ 1 <= rate c /\ capacity c <= 2 ^ 32.
Definition send_time `{TS : TimestampDynfield} (c : moonem_config) (m : mbuf) : Z :=
  u64 (get_timestamp_dynfield m + delay c).
Definition early `{TS : TimestampDynfield} (c : moonem_config) (m : mbuf) : Prop :=
  send_time c m < 2 ^ 62.

Lemma wire_bits_ident m m' : ident m = ident m' -> wire_bits m = wire_bits m'.
Proof. unfold ident, wire_bits. congruence. Qed.

Section LeakyBucket.
Context `{FO : FloatOps D} {FL : FloatLaws D} `{TS : TimestampDynfield}.
#[local] Open Scope Q_scope.

Definition next_at_inv (x : D) : Prop := dbnd x 64 /\ 0 <= dval x.

(** A number at least 2^-j stays at least 2^-j when rounded. *)
Lemma rnd_ge_pow2 q j : (0 <= j <= 1000)%Z ->
  1 <= q * inject_Z (2 ^ j) -> 1 <= rnd q * inject_Z (2 ^ j).
Proof.
  intros Hj Hq. pose proof (Qpow2_Z j ltac:(lia)) as Hp.
  assert (0 < inject_Z (2 ^ j)) as H0 by (change 0 with (inject_Z 0); rewrite <- Zlt_Qlt; lia).
  assert (2 ^ (- j) * inject_Z (2 ^ j) == 1) as He.
  { rewrite <- Hp, <- Qpower_plus by lra. by rewrite Z.add_opp_diag_l. }
  assert (2 ^ (- j) <= q) as Hle.
  { apply (Qmult_le_r _ _ (inject_Z (2 ^ j))); [done|]. by rewrite He. }
  apply rnd_mono in Hle. rewrite rnd_pow2 in Hle by lia.
  rewrite <- He. by apply Qmult_le_compat_r; [|apply Qlt_le_weak].
Qed.

Lemma target_spec c : leaky_config c ->
  dbnd (B_P_NS_TARGET c) 64 /\ 1 <= dval (B_P_NS_TARGET c) * inject_Z (2 ^ 10).
Proof.
  intros [(_ & Hr & _) [H1 _]]. unfold B_P_NS_TARGET.
  pose proof (d_of_Z_exact 1000 ltac:(lia)) as E.
  destruct (dbnd_div (d_of_Z (rate c)) (d_of_Z 1000) 64 0) as (B & Hv & _); try done.
  - by apply dbnd_of_u64.
  - apply d_of_Z_fin; lia.
  - apply d_of_Z_nonneg. unfold is_u64 in Hr; lia.
  - rewrite E. done.
  - split; [done|]. rewrite Hv. apply rnd_ge_pow2; [lia|]. rewrite E.
    pose proof (d_of_Z_mono 1 (rate c) ltac:(lia) ltac:(unfold is_u64 in Hr; lia) H1) as Hm.
    rewrite (d_of_Z_exact 1) in Hm by lia.
    change (inject_Z (2 ^ 10)) with 1024. change (inject_Z 1000) with 1000.
    change (inject_Z 1) with 1 in Hm.
    assert (dval (d_of_Z (rate c)) / 1000 * 1024
      == dval (d_of_Z (rate c)) * (1024 # 1000)) as -> by field. lra.
Qed.

Lemma backlog_bound_spec c : leaky_config c ->
  dbnd (BACKLOG_BOUND c) 45 /\ 0 <= dval (BACKLOG_BOUND c).
Proof.
  intros Hc. destruct (target_spec c Hc) as [Bt Ht]. pose proof Hc as [(_ & _ & Hcap & _) [_ H32]].
  pose proof (d_of_Z_exact 8 ltac:(lia)) as E8. unfold BACKLOG_BOUND.
  assert (0 < dval (B_P_NS_TARGET c)) as Ht0.
  { change (inject_Z (2 ^ 10)) with 1024 in Ht. lra. }
  destruct (dbnd_div (B_P_NS_TARGET c) (d_of_Z 8) 64 0) as ([Fd _] & Hv & _); try done.
  - apply d_of_Z_fin; lia.
  - lra.
  - rewrite E8. done.
  - assert (dbnd (d_of_Z (capacity c)) 32) as Bc.
    { destruct (dbnd_of_u64 _ Hcap) as [Fc _]. split; [done|].
      unfold is_u64 in Hcap. rewrite Qabs_pos by (apply d_of_Z_nonneg; lia).
      rewrite d_of_Z_exact by lia. rewrite <- Zle_Qle. lia. }
    destruct (dbnd_div (d_of_Z (capacity c)) (B_P_NS_TARGET c / d_of_Z 8)%D 32 13)
      as (B & Hb & H0); try done.
    + apply d_of_Z_nonneg. unfold is_u64 in Hcap; lia.
    + rewrite Hv. apply rnd_ge_pow2; [lia|]. rewrite E8.
      change (inject_Z (2 ^ 10)) with 1024 in Ht. change (inject_Z (2 ^ 13)) with 8192.
      change (inject_Z 8) with 8.
      assert (dval (B_P_NS_TARGET c) / 8 * 8192
      == dval (B_P_NS_TARGET c) * 1024) as -> by field. done.
    + split; [done|]. rewrite Hb. by apply rnd_nonneg.
Qed.

Lemma gap_spec c m : leaky_config c ->
  dbnd (d_of_Z (wire_bits m) / B_P_NS_TARGET c)%D 42 /\
  0 <= dval (d_of_Z (wire_bits m) / B_P_NS_TARGET c)%D.
Proof.
  intros Hc. destruct (target_spec c Hc) as [[Ft _] Ht].
  pose proof (u32_range ((pkt_len m + 24) * 8)) as Hw. fold (wire_bits m) in Hw.
  assert (dbnd (d_of_Z (wire_bits m)) 32) as Bw.
  { split; [apply d_of_Z_fin; lia|]. rewrite Qabs_pos by (apply d_of_Z_nonneg; lia).
    rewrite d_of_Z_exact by lia. rewrite <- Zle_Qle. lia. }
  destruct (dbnd_div (d_of_Z (wire_bits m)) (B_P_NS_TARGET c) 32 10) as (B & Hb & H0); try done.
  - apply d_of_Z_nonneg. lia.
  - split; [done|]. rewrite Hb. by apply rnd_nonneg.
Qed.

(** One packet: the scheduled time is at least the send time and the end of
    the previous transmission; an accepted packet's time fits 64 bits and the
    next transmission starts no earlier. *)
Lemma leaky_packet c next_at b :
  leaky_config c -> next_at_inv next_at -> early c b ->
  let st := d_of_Z (send_time c b) in
  let real := dMAX st next_at in
  dbnd real 64 /\ dval st <= dval real /\ dval next_at <= dval real /\
  ((BACKLOG_BOUND c <? real - st)%D = false ->
   dval real < inject_Z (2 ^ 63) /\
   next_at_inv (real + d_of_Z (wire_bits b) / B_P_NS_TARGET c)%D /\
   dval real <= dval (real + d_of_Z (wire_bits b) / B_P_NS_TARGET c)%D).
Proof.
  intros Hc [Bn Hn] He st real.
  assert (is_u64 (send_time c b)) as Hst by apply u64_range.
  pose proof (dbnd_of_u64 _ Hst) as Bst. fold st in Bst.
  destruct (dMAX_ge st next_at) as [H1 H2]; [apply Bst|apply Bn|]. fold real in H1, H2.
  assert (dbnd real 64) as Br by (unfold real, dMAX; by destruct (_ <? _)%D).
  split_and!; try done. intros Hb.
  destruct (backlog_bound_spec c Hc) as [[Fb Bb] Hb0].
  destruct (dbnd_sub real st 64 ltac:(lia) Br Bst) as [[Fs _] Hs].
  apply dltb_false in Hb; [|done..]. rewrite Hs in Hb.
  rewrite Qabs_pos in Bb by done.
  assert (dval real - dval st < inject_Z (2 ^ 46)) as Hlt.
  { apply Qnot_le_lt. intros Hge. apply rnd_mono in Hge.
    rewrite <- Qpow2_Z, rnd_pow2, Qpow2_Z in Hge by lia.
    change (inject_Z (2 ^ 45)) with 35184372088832 in Bb.
    change (inject_Z (2 ^ 46)) with 70368744177664 in Hge. lra. }
  assert (dval st <= inject_Z (2 ^ 62)) as Hst62.
  { unfold st. unfold is_u64, early in *. destruct (d_of_Z_spec (send_time c b)) as [_ ->]; [lia|].
    rewrite <- (Qpow2_Z 62), <- rnd_pow2, Qpow2_Z by lia. apply rnd_mono.
    rewrite <- Zle_Qle. lia. }
  assert (0 <= dval st) as Hst0 by (apply d_of_Z_nonneg; unfold is_u64 in Hst; lia).
  change (inject_Z (2 ^ 46)) with 70368744177664 in Hlt.
  change (inject_Z (2 ^ 62)) with 4611686018427387904 in Hst62.
  assert (dval real < inject_Z (2 ^ 63)) as Hr63.
  { change (inject_Z (2 ^ 63)) with 9223372036854775808. lra. }
  destruct (gap_spec c b Hc) as [[Fg Bg] Hg0]. rewrite Qabs_pos in Bg by done.
  set (gap := (d_of_Z (wire_bits b) / B_P_NS_TARGET c)%D) in *.
  assert (dbnd real 63) as Br63.
  { split; [apply Br|]. rewrite Qabs_pos by lra. by apply Qlt_le_weak. }
  assert (dbnd gap 63) as Bg63.
  { apply (dbnd_weaken _ 42); [lia|]. split; [done|]. by rewrite Qabs_pos. }
  destruct (dbnd_add real gap 63 ltac:(lia) Br63 Bg63) as [Ba Ha].
  assert (dval real <= dval (real + gap)%D) as Hle.
  { rewrite Ha. apply rnd_ge_repr; [apply Br|]. lra. }
  split_and!; try done. split; [done|]. lra.
Qed.

(** The timestamps of [l], in order and within bounds. *)
Definition scheduled (lo hi : Z) (l : list mbuf) : Prop :=
  StronglySorted Z.le (get_timestamp_dynfield <$> l) /\
  Forall (fun m => (lo <= get_timestamp_dynfield m <= hi)%Z) l.

Lemma scheduled_app lo mid hi l k : (lo <= mid <= hi)%Z ->
  scheduled lo mid l -> scheduled mid hi k -> scheduled lo hi (l ++ k).
Proof.
  intros Hm [S1 F1] [S2 F2]. split.
  - rewrite fmap_app. induction l as [|m l IH]; [done|]. csimpl in *.
    inversion_clear S1. inversion_clear F1. constructor; [by apply IH|].
    rewrite Forall_app. split; [done|].
    rewrite Forall_fmap. eapply Forall_impl; [exact F2|]. simpl; lia.
  - rewrite Forall_app. split; (eapply Forall_impl; [eassumption|]); simpl; lia.
Qed.

Lemma scheduled_sublist lo hi l k : k `sublist_of` l -> scheduled lo hi l -> scheduled lo hi k.
Proof.
  intros Hs [S F]. split.
  - apply (fmap_sublist get_timestamp_dynfield) in Hs. revert S Hs.
    generalize (get_timestamp_dynfield <$> l), (get_timestamp_dynfield <$> k). clear.
    intros l k S Hs. induction Hs as [|x l1 l2 Hs IH|x l1 l2 Hs IH]; [done| |].
    + inversion_clear S. constructor; [by apply IH|]. by eapply Forall_sublist_of.
    + inversion_clear S. by apply IH.
  - by eapply Forall_sublist_of.
Qed.

Lemma leaky_burst_spec c bufs next_at :
  leaky_config c -> next_at_inv next_at -> Forall (early c) bufs ->
  exists next_at' ev acc,
    leaky_burst c next_at bufs = Ok (next_at', ev, acc) /\ next_at_inv next_at' /\
    dval next_at <= dval next_at' /\
    scheduled (Qtrunc (dval next_at)) (Qtrunc (dval next_at')) acc.
Proof.
  intros Hc Hn He. revert next_at Hn. induction He as [|b bufs Hb _ IH]; intros next_at Hn.
  { eexists _, _, _. split_and!; [done|done|apply Qle_refl|]. split; constructor. }
  cbn [leaky_burst]. fold (send_time c b).
  destruct (leaky_packet c next_at b Hc Hn Hb) as (Br & Hst & Hna & Hacc).
  set (real := dMAX (d_of_Z (send_time c b)) next_at) in *.
  destruct (BACKLOG_BOUND c <? _)%D eqn:E.
  - destruct (IH next_at Hn) as (n' & ev & acc & -> & Hn' & Hle & Hs). by eexists _, _, _.
  - destruct (Hacc eq_refl) as (H63 & Hn1 & Hle1). destruct Hn as [_ Hn0].
    assert (0 <= dval real) as Hr0 by lra.
    rewrite (d_to_u64_ok real); [|apply Br|lra|].
    2: { eapply Qlt_trans; [exact H63|]. by rewrite <- Zlt_Qlt. }
    cbn [mbind res_bind]. rewrite set_timestamp_len. fold (wire_bits b).
    destruct (IH _ Hn1) as (n' & ev & acc & -> & Hn' & Hle & Hs).
    eexists _, _, _. split_and!; [done|done|lra|].
    assert (is_u64 (Qtrunc (dval real))) as Hu.
    { split.
      - by apply (Qtrunc_mono 0).
      - rewrite (Qtrunc_floor _ Hr0). rewrite Zlt_Qlt.
        eapply Qle_lt_trans; [apply Qfloor_le|]. eapply Qlt_trans; [exact H63|].
        by rewrite <- Zlt_Qlt. }
    apply (scheduled_app _ (Qtrunc (dval real)) _ [_]).
    + split; apply Qtrunc_mono; lra.
    + split; [by repeat constructor|]. constructor; [|done].
      rewrite get_set_timestamp by done. split; [apply Qtrunc_mono; lra|lia].
    + destruct Hs as [S F]. split; [done|]. eapply Forall_impl; [exact F|]. simpl.
      intros m Hm. pose proof (Qtrunc_mono (dval real) _ Hr0 Hle1). lia.
Qed.

Lemma leaky_iter_spec ring c st bufs :
  leaky_config c -> cfg_loss_type c <> NETEM -> next_at_inv (fst st) -> Forall (early c) bufs ->
  exists st' ev,
    leaky_iter ring c st bufs = Ok (st', ev) /\ next_at_inv (fst st') /\
    dval (fst st) <= dval (fst st') /\
    scheduled (Qtrunc (dval (fst st))) (Qtrunc (dval (fst st'))) (handed_on ev).
Proof.
  intros Hc Hn Hst He. unfold leaky_iter.
  destruct (leaky_burst_spec c bufs (fst st) Hc Hst He) as (n' & ev & acc & Hb & Hn' & Hle & Hs).
  rewrite Hb. cbn [mbind res_bind].
  destruct (pass_on_nonempty_total (EnqueueBulk ring) c (snd st) acc) as (ls' & ev' & Hp);
    [apply Hc|done|].
  rewrite Hp. eexists _, _. split_and!; [done..|].
  destruct (leaky_burst_splits c bufs _ _ _ _ Hb) as (dr & -> & _).
  cbn [fst]. autorewrite with moon_rw.
  eapply scheduled_sublist; [|exact Hs].
  apply (pass_on_nonempty_sublist _ _ _ _ _ _ (enqueue_out ring) Hp).
Qed.

(** C6: the leaky bucket never leaves defined behaviour and emits its packets
    in schedule order.  For a rate of at least 1 Mbit/s, a capacity of at
    most 4 GiB and send times below 2^62 ns, with rounding arithmetic, every
    run over any bursts returns, and the timestamps of the packets enqueued
    over the whole run are nondecreasing. *)
Theorem leaky_bucket_in_order ring c bursts :
  leaky_config c -> cfg_loss_type c <> NETEM -> Forall (early c) (concat bursts) ->
  exists st' ev,
    receiver_loop_rate_leaky_bucket (D := D) ring c bursts = Ok (st', ev) /\
    StronglySorted Z.le (get_timestamp_dynfield <$> handed_on ev).
Proof.
  intros Hc Hn He. unfold receiver_loop_rate_leaky_bucket.
  assert (forall st, next_at_inv (fst st) -> exists st' ev,
    run_loop (leaky_iter ring c) st bursts = Ok (st', ev) /\
    dval (fst st) <= dval (fst st') /\
    scheduled (Qtrunc (dval (fst st))) (Qtrunc (dval (fst st'))) (handed_on ev)) as Hrun.
  { induction bursts as [|b bursts IH]; intros st Hst; cbn [run_loop].
    { eexists _, _. split_and!; [done|apply Qle_refl|]. split; constructor. }
    simpl in He. apply Forall_app in He as [He1 He2].
    destruct (leaky_iter_spec ring c st b Hc Hn Hst He1) as (st1 & ev1 & -> & Hst1 & Hle1 & Hs1).
    destruct (IH He2 st1 Hst1) as (st2 & ev2 & H2 & Hle2 & Hs2).
    cbn [mbind res_bind]. rewrite H2. eexists _, _. split_and!; [done|lra|].
    autorewrite with moon_rw. destruct Hst as [_ Hst0], Hst1 as [_ Hst10].
    apply (scheduled_app _ (Qtrunc (dval (fst st1)))); [|done..].
    split; apply Qtrunc_mono; lra. }
  destruct (Hrun (d_of_Z 0, loss_init c)) as (st' & ev & H & _ & Hs & _).
  - split; [by apply dbnd_of_u64|]. apply d_of_Z_nonneg. lia.
  - by exists st', ev.
Qed.

End LeakyBucket.

(** ** Rate of the leaky bucket, in exact arithmetic *)

Section LeakyRate.
#[local] Existing Instances exact_ops exact_laws.
Context `{TS : TimestampDynfield}.
#[local] Open Scope Q_scope.

Definition rate_bits_per_ns (c : moonem_config) : Q := inject_Z (rate c) / 1000.

Lemma exact_to_u64 (x : Q) ts : 0 <= x -> d_to_u64 x = Ok ts ->
  is_u64 ts /\ inject_Z ts <= x < inject_Z ts + 1.
Proof.
  intros Hx H. unfold d_to_u64 in H. simpl in H. case_bool_decide as Hts; [|done]. res_inv.
  rewrite (Qtrunc_floor _ Hx) in *. split; [done|]. split; [apply Qfloor_le|].
  pose proof (Qlt_floor x) as Hl. by rewrite inject_Z_plus in Hl.
Qed.

(** One iteration of the per-packet loop in exact arithmetic. *)
Lemma leaky_burst_cons c next_at b bufs next_at' ev acc :
  leaky_burst c next_at (b :: bufs) = Ok (next_at', ev, acc) ->
  (exists ev', leaky_burst c next_at bufs = Ok (next_at', ev', acc)) \/
  (exists real ts acc', acc = set_timestamp_dynfield b ts :: acc' /\
     next_at <= real /\ is_u64 ts /\ inject_Z ts <= real < inject_Z ts + 1 /\
     leaky_burst c (real + inject_Z (wire_bits b) / rate_bits_per_ns c) bufs
     = Ok (next_at', ev, acc')).
Proof.
  cbn [leaky_burst]. set (st := d_of_Z (u64 (get_timestamp_dynfield b + delay c))).
  destruct (exact_MAX_ge st next_at) as [Hst Hge]. set (real := dMAX st next_at) in *.
  destruct (BACKLOG_BOUND c <? (real - st))%D; intros H; res_inv; [left; by eexists|].
  right. rename a into ts, l into acc'.
  assert (0 <= st) as Hst0.
  { unfold st. simpl. change 0 with (inject_Z 0). rewrite <- Zle_Qle. apply u64_range. }
  destruct (exact_to_u64 real ts) as [Hts Hb]; [lra|done|].
  exists real, ts, acc'. split_and!; try done; try lra.
  rewrite set_timestamp_len in E0. exact E0.
Qed.

(** Between the end of the last transmission and any packet accepted later
    there is room, at the configured rate, for all packets accepted before it. *)
Lemma leaky_burst_spacing c bufs next_at next_at' ev pre l post :
  0 < rate_bits_per_ns c ->
  leaky_burst c next_at bufs = Ok (next_at', ev, pre ++ l :: post) ->
  next_at + inject_Z (zsum wire_bits pre) / rate_bits_per_ns c
  < inject_Z (get_timestamp_dynfield l) + 1.
Proof.
  intros Hr. revert next_at next_at' ev pre; induction bufs as [|b bufs IH];
    intros next_at next_at' ev pre H.
  { simpl in H. res_inv. by destruct pre. }
  apply leaky_burst_cons in H as [[ev' H] | (real & ts & acc' & Hacc & Hge & Hts & Hb & H)];
    [by eapply IH|].
  destruct pre as [|f pre]; simpl in Hacc; simplify_eq.
  - rewrite get_set_timestamp by done. simpl zsum. change (inject_Z 0) with 0.
    assert (0 / rate_bits_per_ns c == 0) as -> by (field; lra). lra.
  - apply IH in H. cbn [zsum]. rewrite inject_Z_plus.
    rewrite (wire_bits_ident _ b) by apply ident_set_timestamp.
    assert ((inject_Z (wire_bits b) + inject_Z (zsum wire_bits pre)) / rate_bits_per_ns c
      == inject_Z (wire_bits b) / rate_bits_per_ns c
         + inject_Z (zsum wire_bits pre) / rate_bits_per_ns c) as -> by (field; lra).
    lra.
Qed.


End LeakyRate.

(** ** Pure delay *)

(** Without a loss model the delay loop returns on all bursts, frees
    nothing, and enqueues every packet received, in order, unchanged but for
    its timestamp, which is the arrival timestamp plus the configured delay
    modulo 2^64. *)
Theorem delay_loop_functional `{TS : TimestampDynfield} ring c bursts :
  cfg_loss_type c = NONE ->
  exists ls ev, receiver_loop_delay ring c bursts = Ok (ls, ev) /\ freed ev = [] /\
    Forall2 (fun m m' => ident m' = ident m /\
        get_timestamp_dynfield m' = u64 (get_timestamp_dynfield m + delay c))
      (concat bursts) (handed_on ev).
Proof.
  intros Hn. unfold receiver_loop_delay. generalize (loss_init c).
  induction bursts as [|b bursts IH]; intros ls; [by eexists _, _|]. cbn [run_loop].
  assert (exists ev1, delay_iter ring c ls b = Ok (ls, ev1) /\ freed ev1 = [] /\
    handed_on ev1 = stamp_delay c <$> b) as (ev1 & -> & Hf1 & Hh1).
  { unfold delay_iter. destruct b as [|m b]; [by eexists|].
    unfold pass_on_nonempty. csimpl. unfold pass_on. rewrite bool_decide_true by done.
    eexists. split_and!; [done..|]. apply app_nil_r. }
  cbn [mbind res_bind]. destruct (IH ls) as (ls2 & ev2 & -> & Hf2 & Hh2).
  eexists _, _. split_and!; [done|by autorewrite with moon_rw; rewrite Hf1, Hf2|].
  autorewrite with moon_rw. rewrite Hh1. simpl. apply Forall2_app; [|done].
  apply Forall2_fmap_r, Forall_Forall2_diag, Forall_true. intros m. split; [apply ident_stamp|].
  apply get_set_timestamp, u64_range.
Qed.

(** A burst the ring has no room for is leaked.  The loop ignores the
    result of [rte_ring_sp_enqueue_bulk], so when a burst is larger than the
    room left, none of its packets is in the ring afterwards and none is
    freed. *)
Theorem delay_iter_leaks_when_full `{TS : TimestampDynfield} `{RR : RteRing R} ring c ls bufs r :
  cfg_loss_type c = NONE -> (ring_room r < length bufs)%nat ->
  exists ev, delay_iter ring c ls bufs = Ok (ls, ev) /\
    handed_on ev = stamp_delay c <$> bufs /\ freed ev = [] /\ ring_after r ev = r.
Proof.
  intros Hn Hr. unfold delay_iter. destruct bufs as [|m bufs]; [simpl in Hr; lia|].
  unfold pass_on_nonempty. csimpl. unfold pass_on. rewrite bool_decide_true by done.
  eexists. split_and!; [done|apply app_nil_r|done|]. simpl.
  apply ring_enqueue_full. csimpl in *. by rewrite length_fmap.
Qed.

(** ** The properties on concrete inputs, with binary64 arithmetic *)

Section Witnesses.
#[local] Existing Instances cell_dynfield list_ring.

Definition sample_bursts : list (list mbuf) :=
  [[sample_mbuf 1 1500 1000000; sample_mbuf 2 1500 1000100; sample_mbuf 3 60 1000200];
   []; [sample_mbuf 4 60 2000000]].


Lemma token_bucket_tokens_bounded_witness :
  exists k ls ev,
    receiver_loop_rate_token_bucket (FO := binary64_ops) 7 (sample_config NONE) sample_bursts
    = Ok (k, ls, ev) /\
    (0 <= dval (FloatLaws := binary64_laws) (previous_tokens k)
       <= dval (FloatLaws := binary64_laws) (d_of_Z (FloatOps := binary64_ops) 32768))%Q.
Proof.
  destruct (receiver_loop_rate_token_bucket (FO := binary64_ops) 7 (sample_config NONE)
    sample_bursts) as [[[k ls] ev]|] eqn:E; [|vm_compute in E; discriminate].
  exists k, ls, ev. split; [reflexivity|].
  exact (token_bucket_tokens_bounded (FL := binary64_laws) 7 (sample_config NONE) _ k ls ev
    (sample_config_wf NONE) E).
Defined.


Lemma sample_leaky_config t : leaky_config (sample_config t).
Proof. split; [apply sample_config_wf|]. simpl. lia. Qed.

Lemma leaky_bucket_in_order_witness :
  exists st' ev,
    receiver_loop_rate_leaky_bucket (FO := binary64_ops) 7 (sample_config UNIFORM) sample_bursts
    = Ok (st', ev) /\ StronglySorted Z.le (get_timestamp_dynfield <$> handed_on ev).
Proof.
  apply (leaky_bucket_in_order (FL := binary64_laws) 7 (sample_config UNIFORM) sample_bursts);
    [apply sample_leaky_config|discriminate|].
  repeat constructor.
Defined.


Lemma delay_loop_functional_witness :
  exists ls ev, receiver_loop_delay 7 (sample_config NONE) sample_bursts = Ok (ls, ev) /\
    freed ev = [] /\ get_timestamp_dynfield <$> handed_on ev = [11000000; 11000100; 11000200; 12000000].
Proof.
  destruct (delay_loop_functional 7 (sample_config NONE) sample_bursts eq_refl)
    as (ls & ev & H & Hf & _).
  exists ls, ev. split; [exact H|]. split; [exact Hf|].
  vm_compute in H. injection H as <- <-. reflexivity.
Defined.

Lemma delay_iter_leaks_when_full_witness :
  exists ev, delay_iter 7 (sample_config NONE) (LossState 0 0) sample_burst
    = Ok (LossState 0 0, ev) /\ freed ev = [] /\ ring_after (3%nat, []) ev = (3%nat, []).
Proof.
  destruct (delay_iter_leaks_when_full 7 (sample_config NONE) (LossState 0 0) sample_burst
    (3%nat, []) eq_refl) as (ev & H & _ & Hf & Hr); [simpl; lia|].
  exists ev. exact (conj H (conj Hf Hr)).
Defined.

End Witnesses.
