(* ===== verification/CrcRate.v ===== *)
(** * CRC-based rate control: src/crc-ratecontrol.hpp, src/crc-ratecontrol.cpp

    [RateLimiterCRC] spaces packets by filling the gaps between them with
    frames the receiver discards.  The desired gap in bytes is in a packet's
    timestamp dynfield; what cannot be filled is carried to the next packet
    in [previous_missing_delay]. *)
From S2P Require Import Prelude Dpdk.
From stdpp Require Import gmap.

#[local] Open Scope Z_scope.

(** ** Data *)

Record RateLimiterCRC := MkRateLimiterCRC {
  port_id : Z;
  queue_id : Z;
  previous_missing_delay : Z;
  invalid_packet_size : Z;
  MIN_PACKET_SIZE : Z;
  PACKET_OVERHEAD : Z
}.

Definition TRANSMIT_BUFFER_SIZE : Z := 64.

Definition set_missing (r : RateLimiterCRC) (d : Z) : RateLimiterCRC :=
  MkRateLimiterCRC (port_id r) (queue_id r) d (invalid_packet_size r)
    (MIN_PACKET_SIZE r) (PACKET_OVERHEAD r).

(** What the limiter shares with the rest of the process: the numbers of pool
    calls made so far and the counters of filler traffic per port. *)
Record crc_world := CrcWorld {
  allocs : nat;
  bulk_allocs : nat;
  bad_pkts_sent : gmap Z Z;
  bad_bytes_sent : gmap Z Z
}.

(** The local variables of [send_packets]: the transmit buffer (its first
    [send_buf_idx] entries), the counters, the effects so far. *)
Record send_locals := SendLocals {
  pkts : list mbuf;
  num_bad_pkts : Z;
  num_bad_bytes : Z;
  sl_allocs : nat;
  sent : list event
}.

(** ** Construction and configuration *)

Definition mg_ratelimiter_crc_create (port_id queue_id MIN_PACKET_SIZE PACKET_OVERHEAD
    invalid_packet_size : Z) : RateLimiterCRC :=
  MkRateLimiterCRC port_id queue_id 0 invalid_packet_size MIN_PACKET_SIZE PACKET_OVERHEAD.

Definition set_invalid_packet_size (r : RateLimiterCRC) (size : Z) : RateLimiterCRC :=
  MkRateLimiterCRC (port_id r) (queue_id r) (previous_missing_delay r) size
    (MIN_PACKET_SIZE r) (PACKET_OVERHEAD r).

Definition lookup0 (m : gmap Z Z) (k : Z) : Z := default 0 (m !! k).

Definition moongen_get_bad_pkts_sent (w : crc_world) (port : Z) : Z :=
  lookup0 (bad_pkts_sent w) port.
Definition moongen_get_bad_bytes_sent (w : crc_world) (port : Z) : Z :=
  lookup0 (bad_bytes_sent w) port.

Section Limiter.
Context `{TS : TimestampDynfield} `{MP : MbufPool}.

(** ** Filler packets *)

(** The share of [delay] the next filler packet takes, overhead included. *)
Definition delay_share (r : RateLimiterCRC) (delay : Z) : Z :=
  if delay <=? invalid_packet_size r then delay
  else if u64 (u64 (2 * invalid_packet_size r) - 100) <? delay then invalid_packet_size r
  else delay / 2.

Definition get_delay_packet (r : RateLimiterCRC) (allocs : nat) (delay : Z) : res mbuf :=
  let delay := delay_share r delay in
  match pktmbuf_alloc allocs with
  | Some pkt => mret (set_lens pkt (u16 (delay - PACKET_OVERHEAD r)) (u32 (delay - PACKET_OVERHEAD r)))
  | None => UB NullDeref
  end.

(** ** send_packets *)

(** [if (send_buf_idx >= TRANSMIT_BUFFER_SIZE || last) { send; send_buf_idx = 0; }] *)
Definition flush (r : RateLimiterCRC) (last : bool) (s : send_locals) : send_locals :=
  if (TRANSMIT_BUFFER_SIZE <=? Z.of_nat (length (pkts s))) || last
  then SendLocals [] (num_bad_pkts s) (num_bad_bytes s) (sl_allocs s)
         (sent s ++ [SendAll (port_id r) (queue_id r) (pkts s)])
  else s.

(** Step 1, the loop generating filler packets, bounded by [fuel]. *)
Fixpoint fill_loop (r : RateLimiterCRC) (fuel : nat) (delay : Z) (s : send_locals)
    : res (Z * send_locals) :=
  if u64 (MIN_PACKET_SIZE r + PACKET_OVERHEAD r) <=? delay then
    match fuel with
    | O => UB OutOfFuel
    | S fuel =>
        pkt ← get_delay_packet r (sl_allocs s) delay;
        let delay := u64 (delay - u64 (pkt_len pkt + PACKET_OVERHEAD r)) in
        let s := SendLocals (pkts s ++ [pkt]) (u32 (num_bad_pkts s + 1))
                   (u32 (num_bad_bytes s + (pkt_len pkt + PACKET_OVERHEAD r - 20)))
                   (S (sl_allocs s)) (sent s) in
        fill_loop r fuel delay (flush r false s)
    end
  else mret (delay, s).

(** Fuel for a gap of [delay] bytes: a filler takes at least
    [MIN_PACKET_SIZE + PACKET_OVERHEAD] of them. *)
Definition fill_fuel (r : RateLimiterCRC) (delay : Z) : nat :=
  S (Z.to_nat (delay / Z.max 1 (u64 (MIN_PACKET_SIZE r + PACKET_OVERHEAD r)))).

(** One iteration of the loop over the packets; [None] is a NULL entry. *)
Definition send_one (r : RateLimiterCRC) (last : bool) (p : option mbuf) (s : send_locals)
    : res (RateLimiterCRC * send_locals) :=
  match p with
  | None => mret (r, s)
  | Some pkt =>
      let delay := u64 (get_timestamp_dynfield pkt + previous_missing_delay r) in
      '(delay, s) ← fill_loop r (fill_fuel r delay) delay s;
      let r := set_missing r delay in
      let s := SendLocals (pkts s ++ [pkt]) (num_bad_pkts s) (num_bad_bytes s)
                 (sl_allocs s) (sent s) in
      mret (r, flush r last s)
  end.

Fixpoint send_loop (r : RateLimiterCRC) (load_pkts : list (option mbuf)) (s : send_locals)
    : res (RateLimiterCRC * send_locals) :=
  match load_pkts with
  | [] => mret (r, s)
  | p :: ps =>
      '(r, s) ← send_one r (match ps with [] => true | _ => false end) p s;
      send_loop r ps s
  end.

Definition send_packets (r : RateLimiterCRC) (w : crc_world) (load_pkts : list (option mbuf))
    : res (RateLimiterCRC * crc_world * list event) :=
  '(r, s) ← send_loop r load_pkts (SendLocals [] 0 0 (allocs w) []);
  let w := CrcWorld (sl_allocs s) (bulk_allocs w)
    (<[port_id r := u64 (lookup0 (bad_pkts_sent w) (port_id r) + num_bad_pkts s)]> (bad_pkts_sent w))
    (<[port_id r := u64 (lookup0 (bad_bytes_sent w) (port_id r) + num_bad_bytes s)]> (bad_bytes_sent w)) in
  mret (r, w, sent s).

(** ** Pure filler traffic *)

Definition bump_bulk (w : crc_world) : crc_world :=
  CrcWorld (allocs w) (S (bulk_allocs w)) (bad_pkts_sent w) (bad_bytes_sent w).

(** The array of [empty_delay] and [send_timestamp_packet] has 1024 entries. *)
Definition bulk_alloc (r : RateLimiterCRC) (w : crc_world) (num_packets : Z) : res (list mbuf) :=
  if num_packets <=? 1024
  then mret (alloc_mbufs (bulk_allocs w) (Z.to_nat num_packets) (u16 (invalid_packet_size r)))
  else UB OutOfBounds.

Definition empty_delay (r : RateLimiterCRC) (w : crc_world) (num_packets : Z)
    : res (crc_world * list event * Z) :=
  invalid_packets ← bulk_alloc r w num_packets;
  mret (bump_bulk w, [SendAll (port_id r) (queue_id r) invalid_packets],
        u64 (num_packets * u64 (invalid_packet_size r + PACKET_OVERHEAD r))).

Definition send_timestamp_packet (r : RateLimiterCRC) (w : crc_world) (num_packets : Z)
    : res (crc_world * list event * Z) :=
  invalid_packets ← bulk_alloc r w num_packets;
  match invalid_packets with
  | [] => UB NullDeref
  | p :: ps =>
      let p := set_flags p (Z.lor (ol_flags p) TX_IEEE1588_TMST) in
      mret (bump_bulk w, [SendAll (port_id r) (queue_id r) (p :: ps)],
            u64 (num_packets * u64 (invalid_packet_size r + PACKET_OVERHEAD r)))
  end.

(** ** The interface to Lua *)

(** The calls on a limiter after its creation. *)
Inductive crc_call :=
| Mg_ratelimiter_crc_send_packets (load_pkts : list (option mbuf))
| Mg_ratelimiter_crc_send_timestamp_packet (num_packets : Z)
| Mg_ratelimiter_crc_empty_delay (num_packets : Z)
| Mg_ratelimiter_crc_set_invalid_packet_size (size : Z).

(** The limiter, the process, the effects and the value returned, 0 for none. *)
Definition mg_ratelimiter_crc (r : RateLimiterCRC) (w : crc_world) (c : crc_call)
    : res (RateLimiterCRC * crc_world * list event * Z) :=
  match c with
  | Mg_ratelimiter_crc_send_packets load_pkts =>
      '(r, w, ev) ← send_packets r w load_pkts; mret (r, w, ev, 0)
  | Mg_ratelimiter_crc_send_timestamp_packet n =>
      '(w, ev, v) ← send_timestamp_packet r w n; mret (r, w, ev, v)
  | Mg_ratelimiter_crc_empty_delay n =>
      '(w, ev, v) ← empty_delay r w n; mret (r, w, ev, v)
  | Mg_ratelimiter_crc_set_invalid_packet_size size => mret (set_invalid_packet_size r size, w, [], 0)
  end.

Fixpoint crc_calls (r : RateLimiterCRC) (w : crc_world) (cs : list crc_call)
    : res (RateLimiterCRC * crc_world * list event * Z) :=
  match cs with
  | [] => mret (r, w, [], 0)
  | c :: cs =>
      '(r, w, ev, v) ← mg_ratelimiter_crc r w c;
      '(r, w, ev', v') ← crc_calls r w cs;
      mret (r, w, ev ++ ev', v + v')
  end.

End Limiter.

(** ** Invariants and lemmas *)

(** The bytes of line time a frame takes. *)
Definition wire (r : RateLimiterCRC) (m : mbuf) : Z := pkt_len m + PACKET_OVERHEAD r.

(** The smallest gap a filler frame can fill. *)
Definition min_gap (r : RateLimiterCRC) : Z := MIN_PACKET_SIZE r + PACKET_OVERHEAD r.

(** The configurations in use: a maximal filler holds two minimal ones, and
    its length fits the 16-bit length field. *)
Record limiter_wf (r : RateLimiterCRC) : Prop := {
  lw_min : 0 <= MIN_PACKET_SIZE r;
  lw_overhead : 0 <= PACKET_OVERHEAD r;
  lw_gap : 0 < min_gap r;
  lw_double : 2 * min_gap r <= invalid_packet_size r;
  lw_slack : min_gap r + 100 <= invalid_packet_size r;
  lw_fits : invalid_packet_size r < 2 ^ 16
}.

(** A filler frame within the limits of the configuration. *)
Definition filler_ok (r : RateLimiterCRC) (m : mbuf) : Prop :=
  MIN_PACKET_SIZE r <= pkt_len m <= invalid_packet_size r - PACKET_OVERHEAD r /\
  data_len m = pkt_len m.

(** Everything transmitted or waiting in the transmit buffer, in order. *)
Definition stream (s : send_locals) : list mbuf := handed_on (sent s) ++ pkts s.

Definition batch_ok (r : RateLimiterCRC) (e : event) : Prop :=
  exists ms, e = SendAll (port_id r) (queue_id r) ms /\ 1 <= Z.of_nat (length ms) <= 64.

Definition locals_ok (r : RateLimiterCRC) (s : send_locals) : Prop :=
  Z.of_nat (length (pkts s)) < 64 /\ Forall (batch_ok r) (sent s) /\
  is_u32 (num_bad_pkts s) /\ is_u32 (num_bad_bytes s).

Lemma batches_free_none r ev : Forall (batch_ok r) ev -> freed ev = [].
Proof. induction 1 as [|e ev (ms & -> & _) _ IH]; [done|]. exact IH. Qed.

(** [s'] is [s] after [ms] went through the transmit buffer, which is only
    emptied when full. *)
Record pushed (r : RateLimiterCRC) (s : send_locals) (ms : list mbuf) (s' : send_locals) : Prop := {
  pu_stream : stream s' = stream s ++ ms;
  pu_ok : locals_ok r s';
  pu_fill : (Z.of_nat (length (pkts s) + length ms)) mod 64 = Z.of_nat (length (pkts s')) mod 64
}.

Lemma pushed_nil r s : locals_ok r s -> pushed r s [] s.
Proof. intros H. split; [by rewrite app_nil_r|done|]. by rewrite Nat.add_0_r. Qed.

Lemma pushed_trans r s1 m1 s2 m2 s3 :
  pushed r s1 m1 s2 -> pushed r s2 m2 s3 -> pushed r s1 (m1 ++ m2) s3.
Proof.
  intros [S1 O1 F1] [S2 O2 F2]. split; [by rewrite S2, S1, app_assoc|done|].
  rewrite <- F2, length_app, Nat.add_assoc, (Nat2Z.inj_add (length (pkts s2))),
    <- Zplus_mod_idemp_l, <- F1, Zplus_mod_idemp_l. f_equal. lia.
Qed.

(** The entry appended by both steps of the loop. *)
Definition push (m : mbuf) (bp bb : Z) (al : nat) (s : send_locals) : send_locals :=
  SendLocals (pkts s ++ [m]) bp bb al (sent s).

Lemma flush_stream r l s : stream (flush r l s) = stream s.
Proof.
  unfold flush, stream. case_match; [|done].
  cbn [pkts sent]. rewrite handed_on_app. unfold handed_on at 2. cbn. by rewrite !app_nil_r.
Qed.

Lemma flush_counters r l s :
  num_bad_pkts (flush r l s) = num_bad_pkts s /\ num_bad_bytes (flush r l s) = num_bad_bytes s /\
  sl_allocs (flush r l s) = sl_allocs s.
Proof. unfold flush. by case_match. Qed.

Lemma push_stream m bp bb al s : stream (push m bp bb al s) = stream s ++ [m].
Proof. unfold stream, push. cbn. by rewrite app_assoc. Qed.

Lemma flush_push_ok r l m bp bb al s :
  is_u32 bp -> is_u32 bb -> locals_ok r s -> locals_ok r (flush r l (push m bp bb al s)).
Proof.
  intros Hbp Hbb (L & B & _ & _). unfold flush, push, locals_ok, TRANSMIT_BUFFER_SIZE. cbn.
  rewrite length_app. cbn.
  destruct ((64 <=? Z.of_nat (length (pkts s) + 1)) || l) eqn:E; cbn.
  - split; [lia|]. split; [|done]. apply Forall_app. split; [done|]. constructor; [|constructor].
    eexists. split; [done|]. rewrite length_app. cbn [length]. lia.
  - apply orb_false_iff in E as [E _]. apply Z.leb_gt in E. rewrite length_app. cbn. split; [lia|done].
Qed.

Lemma push_pushed r m bp bb al s :
  is_u32 bp -> is_u32 bb -> locals_ok r s -> pushed r s [m] (flush r false (push m bp bb al s)).
Proof.
  intros Hbp Hbb Hs. split.
  - by rewrite flush_stream, push_stream.
  - by apply flush_push_ok.
  - destruct Hs as [L _]. unfold flush, push, TRANSMIT_BUFFER_SIZE. cbn. rewrite length_app. cbn.
    rewrite orb_false_r. destruct (Z.leb_spec 64 (Z.of_nat (length (pkts s) + 1))) as [Hge|]; cbn.
    + replace (Z.of_nat _) with 64 by lia. done.
    + by rewrite length_app.
Qed.

Section Fillers.
Context `{TS : TimestampDynfield} `{MP : MbufPool}.
Context (r : RateLimiterCRC) (WF : limiter_wf r).

(** A gap of at least the minimum is split so that the filler is a legal
    frame and what is left is either nothing or can be filled again. *)
Lemma delay_share_spec d :
  min_gap r <= d < 2 ^ 64 ->
  min_gap r <= delay_share r d <= invalid_packet_size r /\ delay_share r d <= d /\
  (d = delay_share r d \/ min_gap r <= d - delay_share r d).
Proof.
  destruct WF as [? ? ? ? ? ?]. intros Hd. unfold delay_share.
  rewrite (u64_id (2 * _)), (u64_id (2 * _ - _)) by (unfold is_u64; lia).
  case_zbool; try lia; zmod.
Qed.

Lemma get_delay_packet_spec k d :
  min_gap r <= d < 2 ^ 64 ->
  match get_delay_packet r k d with
  | Ok m => filler_ok r m /\ wire r m = delay_share r d
  | UB u => u = NullDeref /\ pktmbuf_alloc k = None
  end.
Proof.
  intros Hd. destruct (delay_share_spec d Hd) as (Hs & _). destruct WF as [? ? ? ? ? ?].
  unfold min_gap in *.
  unfold get_delay_packet. destruct (pktmbuf_alloc k) as [m|]; [|done]. cbn.
  unfold filler_ok, wire, u32, u16, set_lens. cbn. rewrite !Z.mod_small by lia. lia.
Qed.

(** What the filler loop does with a gap of [d] bytes. *)
Record filled (d : Z) (s : send_locals) (d' : Z) (s' : send_locals) (fs : list mbuf) : Prop := {
  fi_pushed : pushed r s fs s';
  fi_ok : Forall (filler_ok r) fs;
  fi_bytes : zsum (wire r) fs + d' = d;
  fi_rest : d' = if d <? min_gap r then d else 0;
  fi_pkts : num_bad_pkts s' = u32 (num_bad_pkts s + Z.of_nat (length fs));
  fi_cbytes : num_bad_bytes s' = u32 (num_bad_bytes s + zsum (fun m => wire r m - 20) fs);
  fi_allocs : sl_allocs s' = (sl_allocs s + length fs)%nat
}.

Lemma filled_cons d s d' s' m fs :
  locals_ok r s -> filler_ok r m -> min_gap r <= d ->
  (d = wire r m \/ min_gap r <= d - wire r m) ->
  let s1 := flush r false (push m (u32 (num_bad_pkts s + 1))
              (u32 (num_bad_bytes s + (wire r m - 20))) (S (sl_allocs s)) s) in
  filled (d - wire r m) s1 d' s' fs -> filled d s d' s' (m :: fs).
Proof.
  intros Hs Hm Hd Hw s1 [Hp Hf Hb Hr Hc Hcb Ha].
  destruct (flush_counters r false (push m (u32 (num_bad_pkts s + 1))
              (u32 (num_bad_bytes s + (wire r m - 20))) (S (sl_allocs s)) s)) as (E1 & E2 & E3).
  fold s1 in E1, E2, E3. rewrite E1 in Hc. rewrite E2 in Hcb. rewrite E3 in Ha. cbn in Hc, Hcb, Ha.
  split; cbn [zsum length]; try done.
  - apply (pushed_trans r s [m] s1); [|done]. apply push_pushed; [apply u32_range..|done].
  - by constructor.
  - lia.
  - destruct WF. case_zbool; lia.
  - rewrite Hc, u32_add_l. f_equal. lia.
  - rewrite Hcb, u32_add_l. f_equal. lia.
  - lia.
Qed.

Lemma filled_nil d s : locals_ok r s -> d < min_gap r -> filled d s d s [].
Proof.
  intros Hs Hd. split; cbn.
  - by apply pushed_nil.
  - constructor.
  - lia.
  - case_zbool; lia.
  - destruct Hs as (_ & _ & ? & _). by rewrite Z.add_0_r, u32_id.
  - destruct Hs as (_ & _ & _ & ?). by rewrite Z.add_0_r, u32_id.
  - lia.
Qed.

Lemma fill_loop_spec fuel : forall d s,
  0 <= d < 2 ^ 64 -> d / min_gap r < Z.of_nat fuel -> locals_ok r s ->
  match fill_loop r fuel d s with
  | Ok (d', s') => exists fs, filled d s d' s' fs
  | UB u => u = NullDeref /\ exists k, (sl_allocs s <= k)%nat /\ pktmbuf_alloc k = None
  end.
Proof.
  assert (Hgap : u64 (MIN_PACKET_SIZE r + PACKET_OVERHEAD r) = min_gap r).
  { destruct WF. apply u64_id. unfold min_gap, is_u64 in *. lia. }
  induction fuel as [|fuel IH]; intros d s Hd Hfuel Hs; cbn [fill_loop]; rewrite Hgap;
    destruct (Z.leb_spec (min_gap r) d) as [Hge|Hlt].
  - exfalso. destruct WF. assert (0 <= d / min_gap r) by (apply Z.div_pos; lia). lia.
  - exists []. by apply filled_nil.
  - pose proof (get_delay_packet_spec (sl_allocs s) d ltac:(lia)) as Hg.
    destruct (get_delay_packet r (sl_allocs s) d) as [m|u]; cbn;
      [|destruct Hg as [-> Hg]; split; [done|]; by exists (sl_allocs s)].
    destruct Hg as [Hm Hw]. destruct (delay_share_spec d ltac:(lia)) as (Hs1 & Hs2 & Hs3).
    rewrite <- Hw in Hs1, Hs2, Hs3.
    change (pkt_len m + PACKET_OVERHEAD r) with (wire r m). destruct WF.
    rewrite (u64_id (wire r m)), (u64_id (d - wire r m)) by (unfold is_u64; lia).
    match goal with |- context [fill_loop r fuel _ (flush r false ?t)] =>
      change t with (push m (u32 (num_bad_pkts s + 1)) (u32 (num_bad_bytes s + (wire r m - 20)))
                      (S (sl_allocs s)) s) end.
    specialize (IH (d - wire r m) (flush r false (push m (u32 (num_bad_pkts s + 1))
      (u32 (num_bad_bytes s + (wire r m - 20))) (S (sl_allocs s)) s)) ltac:(lia)).
    assert (Hdiv : (d - wire r m) / min_gap r < Z.of_nat fuel).
    { apply Z.le_lt_trans with ((d + -1 * min_gap r) / min_gap r).
      - apply Z.div_le_mono; lia.
      - rewrite Z.div_add by lia. lia. }
    specialize (IH Hdiv (flush_push_ok _ _ _ _ _ _ _ (u32_range _) (u32_range _) Hs)).
    destruct (fill_loop _ _ _ _) as [[d' s']|u].
    + destruct IH as [fs IH]. exists (m :: fs). by apply filled_cons.
    + destruct IH as [-> (k & Hk & Hnone)]. split; [done|]. exists k. split; [|done].
      revert Hk. rewrite (proj2 (proj2 (flush_counters _ _ _))). cbn. lia.
  - exists []. by apply filled_nil.
Qed.

End Fillers.

(** ** The specification of the pacing *)

(** The filler bytes in front of each packet, for gaps [ts] with [m] bytes
    pending: gaps below [g] are carried to the next packet, others filled
    exactly.  Also the bytes left pending. *)
Fixpoint pace (g m : Z) (ts : list Z) : list Z * Z :=
  match ts with
  | [] => ([], m)
  | t :: ts =>
      let d := t + m in
      let '(fs, m') := pace g (if d <? g then d else 0) ts in
      ((if d <? g then 0 else d) :: fs, m')
  end.

(** The stream on the wire: fillers, packet, fillers, packet, ... *)
Definition interleave (fss : list (list mbuf)) (ps : list mbuf) : list mbuf :=
  concat (zip_with (fun fs p => fs ++ [p]) fss ps).

Lemma pace_on_time g m ts :
  0 <= m < g -> Forall (fun t => 0 <= t) ts -> forall k,
  0 <= m + zsum id (take k ts) - zsum id (take k (fst (pace g m ts))) < g.
Proof.
  intros Hm Ht. revert m Hm.
  induction Ht as [|t ts Ht Hts IH]; intros m Hm k; [destruct k; cbn; lia|].
  cbn [pace]. specialize (IH (if t + m <? g then t + m else 0)).
  destruct (pace g (if t + m <? g then t + m else 0) ts) as [fs m'].
  destruct k as [|k]; [cbn; lia|]. cbn in *.
  specialize (IH ltac:(case_zbool; lia) k). case_zbool; lia.
Qed.

Lemma pace_balance g m ts :
  zsum id (fst (pace g m ts)) + snd (pace g m ts) = m + zsum id ts.
Proof.
  revert m. induction ts as [|t ts IH]; intros m; [cbn; lia|]. cbn.
  specialize (IH (if t + m <? g then t + m else 0)).
  destruct (pace g (if t + m <? g then t + m else 0) ts) as [fs m'].
  cbn in *. case_zbool; lia.
Qed.

Lemma pace_length g m ts : length (fst (pace g m ts)) = length ts.
Proof.
  revert m. induction ts as [|t ts IH]; intros m; [done|]. cbn.
  specialize (IH (if t + m <? g then t + m else 0)).
  destruct (pace g (if t + m <? g then t + m else 0) ts). cbn in *. by f_equal.
Qed.

Lemma pace_pending g m ts :
  0 <= m < g -> Forall (fun t => 0 <= t) ts -> 0 <= snd (pace g m ts) < g.
Proof.
  intros Hm Ht. revert m Hm. induction Ht as [|t ts Ht Hts IH]; intros m Hm; [done|].
  cbn. specialize (IH (if t + m <? g then t + m else 0)).
  destruct (pace g (if t + m <? g then t + m else 0) ts) as [fs m'].
  cbn in *. apply IH. case_zbool; lia.
Qed.

Section Sending.
Context `{TS : TimestampDynfield} `{MP : MbufPool}.

(** The packets of the array that are not NULL. *)
Definition present (ps : list (option mbuf)) : list mbuf := omap id ps.

(** The gaps requested by them. *)
Definition gaps (ps : list (option mbuf)) : list Z := get_timestamp_dynfield <$> present ps.

Definition ends_with_packet (ps : list (option mbuf)) : bool :=
  match last ps with Some (Some _) => true | _ => false end.

(** What the loop over [ps] does from limiter [r] and locals [s]. *)
Record sends (r : RateLimiterCRC) (s : send_locals) (ps : list (option mbuf))
    (r' : RateLimiterCRC) (s' : send_locals) (fss : list (list mbuf)) : Prop := {
  se_state : r' = set_missing r (snd (pace (min_gap r) (previous_missing_delay r) (gaps ps)));
  se_bytes : zsum (wire r) <$> fss = fst (pace (min_gap r) (previous_missing_delay r) (gaps ps));
  se_fillers : Forall (Forall (filler_ok r)) fss;
  se_stream : stream s' = stream s ++ interleave fss (present ps);
  se_locals : locals_ok r s';
  se_rest : Z.of_nat (length (pkts s')) =
    if ends_with_packet ps then 0
    else Z.of_nat (length (pkts s) + length (interleave fss (present ps))) mod 64;
  se_pkts : num_bad_pkts s' = u32 (num_bad_pkts s + Z.of_nat (length (concat fss)));
  se_cbytes : num_bad_bytes s' =
    u32 (num_bad_bytes s + zsum (fun m => wire r m - 20) (concat fss));
  se_allocs : sl_allocs s' = (sl_allocs s + length (concat fss))%nat
}.

Definition pool_dry_from (k : nat) : Prop :=
  exists j, (k <= j)%nat /\ pktmbuf_alloc j = None.

Lemma fill_fuel_enough r d :
  limiter_wf r -> 0 <= d -> d / min_gap r < Z.of_nat (fill_fuel r d).
Proof.
  intros [? ? ? ? ? ?] Hd. unfold fill_fuel.
  rewrite u64_id by (unfold min_gap, is_u64 in *; lia).
  fold (min_gap r). rewrite Z.max_r by lia.
  assert (0 <= d / min_gap r) by (apply Z.div_pos; lia). lia.
Qed.

(** One packet: its gap is filled, the packet follows. *)
Lemma send_one_spec r last p s :
  limiter_wf r -> locals_ok r s -> 0 <= previous_missing_delay r < min_gap r ->
  get_timestamp_dynfield p < 2 ^ 63 ->
  let d := get_timestamp_dynfield p + previous_missing_delay r in
  match send_one r last (Some p) s with
  | Ok (r', s') => exists fs s1,
      filled r d s (if d <? min_gap r then d else 0) s1 fs /\
      r' = set_missing r (if d <? min_gap r then d else 0) /\
      s' = flush r last (push p (num_bad_pkts s1) (num_bad_bytes s1) (sl_allocs s1) s1)
  | UB u => u = NullDeref /\ pool_dry_from (sl_allocs s)
  end.
Proof.
  intros WF Hs Hm Ht d. pose proof (get_timestamp_u64 p) as [Hp _].
  assert (u64 d = d) as Hu by (destruct WF; apply u64_id; unfold d, is_u64; lia).
  unfold send_one. fold d. rewrite Hu.
  pose proof (fill_loop_spec r WF (fill_fuel r d) d s) as Hf.
  specialize (Hf ltac:(destruct WF; unfold d; lia) ltac:(apply fill_fuel_enough; [done|unfold d; lia]) Hs).
  destruct (fill_loop r (fill_fuel r d) d s) as [[d' s1]|u]; cbn; [|done].
  destruct Hf as [fs Hf]. exists fs, s1. rewrite <- (fi_rest _ _ _ _ _ _ Hf). done.
Qed.

Lemma sends_nil r s : locals_ok r s -> sends r s [] r s [].
Proof.
  intros Hs. split; cbn.
  - by destruct r.
  - done.
  - constructor.
  - by rewrite app_nil_r.
  - done.
  - rewrite Nat.add_0_r, Z.mod_small; [done|]. destruct Hs. lia.
  - destruct Hs as (_ & _ & ? & _). by rewrite Z.add_0_r, u32_id.
  - destruct Hs as (_ & _ & _ & ?). by rewrite Z.add_0_r, u32_id.
  - lia.
Qed.

Lemma sends_null r s ps r' s' fss :
  sends r s ps r' s' fss -> sends r s (None :: ps) r' s' fss.
Proof.
  intros [? ? ? ? ? Hr ? ? ?]. split; try done.
  unfold ends_with_packet in *. by destruct ps.
Qed.

Lemma filled_pushed_mod r d s d' s1 fs p :
  filled r d s d' s1 fs -> locals_ok r s ->
  Z.of_nat (length (pkts s) + length (fs ++ [p])) mod 64 = Z.of_nat (length (pkts s1) + 1) mod 64.
Proof.
  intros Hf _. pose proof (pu_fill _ _ _ _ (fi_pushed _ _ _ _ _ _ Hf)) as H.
  rewrite length_app. cbn [length].
  rewrite Nat.add_assoc, Nat2Z.inj_add, <- Zplus_mod_idemp_l, H, Zplus_mod_idemp_l.
  f_equal. lia.
Qed.

(** A packet followed by the rest of the array. *)
Lemma sends_cons r s p ps fs s1 r' s' fss :
  limiter_wf r -> locals_ok r s ->
  let d := get_timestamp_dynfield p + previous_missing_delay r in
  let m := if d <? min_gap r then d else 0 in
  let r1 := set_missing r m in
  let s2 := flush r (match ps with [] => true | _ => false end)
              (push p (num_bad_pkts s1) (num_bad_bytes s1) (sl_allocs s1) s1) in
  filled r d s m s1 fs -> sends r1 s2 ps r' s' fss ->
  sends r s (Some p :: ps) r' s' (fs :: fss).
Proof.
  intros WF Hs d m r1 s2 Hf [E1 E2 E3 E4 E5 E6 E7 E8 E9].
  assert (stream s2 = stream s ++ (fs ++ [p])) as Hstr.
  { unfold s2. rewrite flush_stream, push_stream, (pu_stream _ _ _ _ (fi_pushed _ _ _ _ _ _ Hf)).
    by rewrite app_assoc. }
  pose proof (flush_counters r (match ps with [] => true | _ => false end)
    (push p (num_bad_pkts s1) (num_bad_bytes s1) (sl_allocs s1) s1)) as (C1 & C2 & C3).
  fold s2 in C1, C2, C3. cbn in C1, C2, C3.
  assert (fst (pace (min_gap r) (previous_missing_delay r) (gaps (Some p :: ps))) =
    (if d <? min_gap r then 0 else d) :: fst (pace (min_gap r) m (gaps ps)) /\
    snd (pace (min_gap r) (previous_missing_delay r) (gaps (Some p :: ps))) =
    snd (pace (min_gap r) m (gaps ps))) as [Pf Ps].
  { change (gaps (Some p :: ps)) with (get_timestamp_dynfield p :: gaps ps). cbn [pace].
    fold d. fold m. by destruct (pace (min_gap r) m (gaps ps)). }
  pose proof (fi_bytes _ _ _ _ _ _ Hf) as Hb.
  split.
  - rewrite Ps, E1. done.
  - rewrite Pf, fmap_cons. f_equal; [|done]. unfold m in Hb. case_zbool; lia.
  - constructor; [apply (fi_ok _ _ _ _ _ _ Hf)|done].
  - rewrite E4, Hstr, <- app_assoc. done.
  - done.
  - change (interleave (fs :: fss) (present (Some p :: ps)))
      with ((fs ++ [p]) ++ interleave fss (present ps)).
    rewrite E6. destruct ps as [|q ps]; [unfold s2, flush; rewrite orb_true_r; cbn|].
    + by destruct fss.
    + change (ends_with_packet (Some p :: q :: ps)) with (ends_with_packet (q :: ps)).
      destruct (ends_with_packet (q :: ps)); [done|].
      rewrite length_app, Nat.add_assoc, !(Nat2Z.inj_add _ (length (interleave _ _))).
      rewrite <- Zplus_mod_idemp_l. symmetry. rewrite <- Zplus_mod_idemp_l. f_equal. f_equal.
      rewrite (filled_pushed_mod _ _ _ _ _ _ p Hf Hs).
      assert (locals_ok r s1) as H1 by apply (pu_ok _ _ _ _ (fi_pushed _ _ _ _ _ _ Hf)).
      exact (pu_fill _ _ _ _ (push_pushed r p (num_bad_pkts s1) (num_bad_bytes s1) (sl_allocs s1) s1
        (proj1 (proj2 (proj2 H1))) (proj2 (proj2 (proj2 H1))) H1)).
  - rewrite E7, C1. cbn [concat]. rewrite length_app, Nat2Z.inj_add, Z.add_assoc.
    by rewrite (fi_pkts _ _ _ _ _ _ Hf), u32_add_l.
  - rewrite E8, C2. cbn [concat]. rewrite zsum_app, Z.add_assoc.
    by rewrite (fi_cbytes _ _ _ _ _ _ Hf), u32_add_l.
  - rewrite E9, C3, (fi_allocs _ _ _ _ _ _ Hf). cbn [concat]. rewrite length_app. lia.
Qed.

Lemma limiter_wf_missing r m : limiter_wf r -> limiter_wf (set_missing r m).
Proof. by intros [? ? ? ? ? ?]. Qed.

Definition gap_ok (p : option mbuf) : Prop :=
  match p with Some m => get_timestamp_dynfield m < 2 ^ 63 | None => True end.

Lemma send_loop_spec ps : forall r s,
  limiter_wf r -> locals_ok r s -> 0 <= previous_missing_delay r < min_gap r ->
  Forall gap_ok ps ->
  match send_loop r ps s with
  | Ok (r', s') => exists fss, sends r s ps r' s' fss
  | UB u => u = NullDeref /\ pool_dry_from (sl_allocs s)
  end.
Proof.
  induction ps as [|[p|] ps IH]; intros r s WF Hs Hm Hg.
  - exists []. by apply sends_nil.
  - apply Forall_cons in Hg as [Hp Hg]. cbn [send_loop].
    pose proof (send_one_spec r (match ps with [] => true | _ => false end) p s WF Hs Hm Hp) as H1.
    destruct (send_one _ _ _ _) as [[r1 s2]|u]; [|done]. unfold mbind, res_bind.
    destruct H1 as (fs & s1 & Hf & -> & ->).
    pose proof (pu_ok _ _ _ _ (fi_pushed _ _ _ _ _ _ Hf)) as Hs1.
    pose proof (get_timestamp_u64 p) as [Ht _].
    set (m := if _ <? _ then _ else 0) in *.
    specialize (IH (set_missing r m) (flush r (match ps with [] => true | _ => false end)
      (push p (num_bad_pkts s1) (num_bad_bytes s1) (sl_allocs s1) s1))
      (limiter_wf_missing _ _ WF) 
      (flush_push_ok _ _ _ _ _ _ _ (proj1 (proj2 (proj2 Hs1))) (proj2 (proj2 (proj2 Hs1))) Hs1)).
    specialize (IH ltac:(change (min_gap (set_missing r m)) with (min_gap r);
                         unfold m; cbn; destruct WF; case_zbool; lia) Hg).
    destruct (send_loop _ ps _) as [[r' s']|u].
    + destruct IH as [fss IH]. exists (fs :: fss). by apply (sends_cons r s p ps fs s1).
    + destruct IH as [-> (k & Hk & Hn)]. split; [done|]. exists k. split; [|done].
      rewrite (proj2 (proj2 (flush_counters _ _ _))) in Hk. cbn in Hk.
      rewrite (fi_allocs _ _ _ _ _ _ Hf) in Hk. lia.
  - apply Forall_cons in Hg as [_ Hg]. cbn [send_loop]. unfold send_one. cbn.
    specialize (IH r s WF Hs Hm Hg).
    destruct (send_loop r ps s) as [[r' s']|u]; [|done].
    destruct IH as [fss IH]; exists fss. by apply sends_null.
Qed.

End Sending.

(** ** Properties *)

Section Properties.
Context `{TS : TimestampDynfield} `{MP : MbufPool}.

(** [send_packets] through the loop's specification. *)
Lemma send_packets_sends r w ps :
  limiter_wf r -> 0 <= previous_missing_delay r < min_gap r -> Forall gap_ok ps ->
  match send_packets r w ps with
  | Ok (r', w', ev) => exists fss s',
      sends r (SendLocals [] 0 0 (allocs w) []) ps r' s' fss /\ ev = sent s' /\
      w' = CrcWorld (sl_allocs s') (bulk_allocs w)
        (<[port_id r := u64 (lookup0 (bad_pkts_sent w) (port_id r) + num_bad_pkts s')]> (bad_pkts_sent w))
        (<[port_id r := u64 (lookup0 (bad_bytes_sent w) (port_id r) + num_bad_bytes s')]> (bad_bytes_sent w))
  | UB u => u = NullDeref /\ pool_dry_from (allocs w)
  end.
Proof.
  intros WF Hm Hg. unfold send_packets.
  pose proof (send_loop_spec ps r (SendLocals [] 0 0 (allocs w) []) WF) as H.
  specialize (H ltac:(split; [done|split; [constructor|done]]) Hm Hg).
  destruct (send_loop _ _ _) as [[r' s']|u]; [|done]. cbn.
  destruct H as [fss H]. exists fss, s'. split; [done|]. split; [done|].
  by rewrite (se_state _ _ _ _ _ _ H).
Qed.

(** With a packet in the last entry nothing stays in the transmit buffer. *)
Lemma sends_all r s ps r' s' fss :
  sends r s ps r' s' fss -> ends_with_packet ps = true ->
  handed_on (sent s') = stream s ++ interleave fss (present ps).
Proof.
  intros H He. pose proof (se_rest _ _ _ _ _ _ H) as Hr. rewrite He in Hr.
  rewrite <- (se_stream _ _ _ _ _ _ H). unfold stream.
  destruct (pkts s'); [by rewrite app_nil_r|cbn in Hr; lia].
Qed.

(** C8: [send_packets] refines the pacing specification.  For an array whose
    last entry is a packet, the frames handed to the driver are the packets in
    order, each preceded by fillers that take exactly the bytes [pace]
    prescribes; every filler is a legal frame; the unfilled rest is kept for
    the next call; no batch exceeds the transmit buffer.  The only fault
    possible is the dereference of a failed allocation. *)
Theorem send_packets_refines_pace r w ps
    (WF : limiter_wf r) (Hm : 0 <= previous_missing_delay r < min_gap r)
    (Hg : Forall gap_ok ps) (Hlast : ends_with_packet ps = true) :
  match send_packets r w ps with
  | Ok (r', _, ev) => exists fss,
      handed_on ev = interleave fss (present ps) /\
      zsum (wire r) <$> fss = fst (pace (min_gap r) (previous_missing_delay r) (gaps ps)) /\
      r' = set_missing r (snd (pace (min_gap r) (previous_missing_delay r) (gaps ps))) /\
      Forall (Forall (filler_ok r)) fss /\ Forall (batch_ok r) ev
  | UB u => u = NullDeref /\ pool_dry_from (allocs w)
  end.
Proof.
  pose proof (send_packets_sends r w ps WF Hm Hg) as H.
  destruct (send_packets r w ps) as [[[r' w'] ev]|u]; [|done].
  destruct H as (fss & s' & H & -> & _). exists fss.
  split; [apply (sends_all _ _ _ _ _ _ H Hlast)|].
  destruct H as [? ? ? ? (_ & ? & _) _ _ _ _]. done.
Qed.

(** C9: The pacing error does not accumulate.  In front of the k-th packet of
    a call the filler bytes sent so far differ from the sum of the requested
    gaps (plus what earlier calls left over) by less than one minimal gap, and
    never exceed it: a packet is never late, and early by less than
    [MIN_PACKET_SIZE + PACKET_OVERHEAD] bytes. *)
Theorem send_packets_on_time r w ps r' w' ev
    (WF : limiter_wf r) (Hm : 0 <= previous_missing_delay r < min_gap r)
    (Hg : Forall gap_ok ps) (Hlast : ends_with_packet ps = true)
    (Hok : send_packets r w ps = Ok (r', w', ev)) :
  exists fss, handed_on ev = interleave fss (present ps) /\ length fss = length (present ps) /\
    (forall k, 0 <= previous_missing_delay r + zsum id (take k (gaps ps))
                 - zsum (wire r) (concat (take k fss)) < min_gap r) /\
    previous_missing_delay r' =
      previous_missing_delay r + zsum id (gaps ps) - zsum (wire r) (concat fss) /\
    0 <= previous_missing_delay r' < min_gap r'.
Proof.
  pose proof (send_packets_sends r w ps WF Hm Hg) as H. rewrite Hok in H.
  destruct H as (fss & s' & H & -> & _). exists fss.
  pose proof (se_bytes _ _ _ _ _ _ H) as Hb.
  assert (Forall (fun t => 0 <= t) (gaps ps)) as Hpos.
  { apply Forall_fmap, Forall_true. intros m. apply (get_timestamp_u64 m). }
  pose proof (pace_balance (min_gap r) (previous_missing_delay r) (gaps ps)) as Hbal.
  pose proof (pace_pending (min_gap r) (previous_missing_delay r) (gaps ps) Hm Hpos) as Hp.
  rewrite (se_state _ _ _ _ _ _ H).
  change (min_gap (set_missing r _)) with (min_gap r). cbn [previous_missing_delay set_missing].
  split; [apply (sends_all _ _ _ _ _ _ H Hlast)|].
  split; [|split; [|split; [|done]]].
  - apply (f_equal length) in Hb. rewrite pace_length in Hb. unfold gaps in Hb.
    by rewrite !length_fmap in Hb.
  - intros k. rewrite zsum_concat, fmap_take, Hb. by apply pace_on_time.
  - rewrite zsum_concat, Hb. lia.
Qed.

(** C37: When the last entry is NULL (a packet dropped by the caller) the frames
    still in the transmit buffer are never handed to the driver: exactly the
    last (number of frames mod 64) frames of the stream, packets among them,
    are lost. *)
Theorem send_packets_loses_tail r w ps r' w' ev
    (WF : limiter_wf r) (Hm : 0 <= previous_missing_delay r < min_gap r)
    (Hg : Forall gap_ok ps) (Hok : send_packets r w (ps ++ [None]) = Ok (r', w', ev)) :
  exists fss lost, handed_on ev ++ lost = interleave fss (present ps) /\
    Z.of_nat (length lost) = Z.of_nat (length (interleave fss (present ps))) mod 64.
Proof.
  pose proof (send_packets_sends r w (ps ++ [None]) WF Hm) as H. rewrite Hok in H.
  destruct H as (fss & s' & H & -> & _); [apply Forall_app; repeat constructor; done|].
  exists fss, (pkts s').
  assert (present (ps ++ [None]) = present ps) as E.
  { unfold present. by rewrite omap_app, app_nil_r. }
  pose proof (se_rest _ _ _ _ _ _ H) as Hr. pose proof (se_stream _ _ _ _ _ _ H) as Hst.
  unfold ends_with_packet in Hr. rewrite last_snoc in Hr. rewrite E in Hr, Hst. done.
Qed.

(** A filler allocation that fails while a gap has to be filled is
    dereferenced: [send_packets] tests the result of [get_delay_packet], but
    [get_delay_packet] has already written through it. *)
Theorem send_packets_null_pool r w p ps
    (WF : limiter_wf r) (Hm : 0 <= previous_missing_delay r < min_gap r) (Hg : gap_ok (Some p))
    (Hgap : min_gap r <= get_timestamp_dynfield p) (Hdry : pktmbuf_alloc (allocs w) = None) :
  send_packets r w (Some p :: ps) = UB NullDeref.
Proof.
  pose proof (get_timestamp_u64 p) as [Hp _]. cbn in Hg.
  unfold send_packets. cbn [send_loop]. unfold send_one.
  rewrite u64_id by (destruct WF; unfold is_u64; lia).
  assert (u64 (MIN_PACKET_SIZE r + PACKET_OVERHEAD r) = min_gap r) as E
    by (destruct WF; apply u64_id; unfold is_u64, min_gap in *; lia).
  unfold fill_fuel. cbn [fill_loop]. rewrite E.
  destruct (Z.leb_spec (min_gap r) (get_timestamp_dynfield p + previous_missing_delay r)); [|lia].
  unfold get_delay_packet. cbn. by rewrite Hdry.
Qed.

(** C27: The statistics count the fillers: a call adds their number and their
    bytes (20 bytes of line overhead less than the line time each) to the
    counters of the limiter's port, modulo the widths of the counters, and
    leaves the other ports' alone. *)
Theorem send_packets_stats r w ps r' w' ev
    (WF : limiter_wf r) (Hm : 0 <= previous_missing_delay r < min_gap r)
    (Hg : Forall gap_ok ps) (Hlast : ends_with_packet ps = true)
    (Hok : send_packets r w ps = Ok (r', w', ev)) :
  exists fss, handed_on ev = interleave fss (present ps) /\
    moongen_get_bad_pkts_sent w' (port_id r) =
      u64 (moongen_get_bad_pkts_sent w (port_id r) + u32 (Z.of_nat (length (concat fss)))) /\
    moongen_get_bad_bytes_sent w' (port_id r) =
      u64 (moongen_get_bad_bytes_sent w (port_id r)
           + u32 (zsum (wire r) (concat fss) - 20 * Z.of_nat (length (concat fss)))) /\
    (forall q, q <> port_id r ->
       moongen_get_bad_pkts_sent w' q = moongen_get_bad_pkts_sent w q /\
       moongen_get_bad_bytes_sent w' q = moongen_get_bad_bytes_sent w q) /\
    allocs w' = (allocs w + length (concat fss))%nat.
Proof.
  pose proof (send_packets_sends r w ps WF Hm Hg) as H. rewrite Hok in H.
  destruct H as (fss & s' & H & -> & ->). exists fss.
  split; [apply (sends_all _ _ _ _ _ _ H Hlast)|].
  unfold moongen_get_bad_pkts_sent, moongen_get_bad_bytes_sent, lookup0. cbn.
  rewrite !lookup_insert_eq. cbn.
  rewrite (se_pkts _ _ _ _ _ _ H), (se_cbytes _ _ _ _ _ _ H), zsum_sub_const. cbn.
  rewrite !Z.add_0_l. do 2 (split; [done|]).
  split; [|apply (se_allocs _ _ _ _ _ _ H)].
  intros q Hq. by rewrite !lookup_insert_ne.
Qed.

End Properties.

(** ** Pure filler traffic: what is returned is what is transmitted *)

Section Bulk.
Context `{MP : MbufPool}.

Lemma zsum_wire_const r ms len :
  Forall (fun m => pkt_len m = len) ms ->
  zsum (wire r) ms = Z.of_nat (length ms) * (len + PACKET_OVERHEAD r).
Proof. unfold wire. induction 1; cbn [zsum length]; lia. Qed.

Lemma bulk_bytes r w n :
  limiter_wf r -> 0 <= n <= 1024 ->
  bulk_alloc r w n = Ok (alloc_mbufs (bulk_allocs w) (Z.to_nat n) (invalid_packet_size r)) /\
  u64 (n * u64 (invalid_packet_size r + PACKET_OVERHEAD r)) =
    zsum (wire r) (alloc_mbufs (bulk_allocs w) (Z.to_nat n) (invalid_packet_size r)) /\
  0 <= zsum (wire r) (alloc_mbufs (bulk_allocs w) (Z.to_nat n) (invalid_packet_size r)) < 2 ^ 27.
Proof.
  intros [? ? ? ? ? ?] Hn. unfold bulk_alloc, min_gap in *. destruct (Z.leb_spec n 1024); [|lia].
  unfold u16. rewrite Z.mod_small by lia.
  destruct (alloc_mbufs_spec (bulk_allocs w) (Z.to_nat n) (invalid_packet_size r)) as [Hl Hf].
  split; [done|]. rewrite (zsum_wire_const _ _ _ Hf), Hl, Z2Nat.id by lia.
  rewrite (u64_id (_ + _)) by (unfold is_u64; lia).
  assert (0 <= (invalid_packet_size r + PACKET_OVERHEAD r) * n < 2 ^ 27) by nia.
  split; [|lia]. rewrite u64_id; [lia|]. unfold is_u64. lia.
Qed.

Lemma empty_delay_spec r w n :
  limiter_wf r -> 0 <= n <= 1024 -> exists ms,
  empty_delay r w n =
    Ok (bump_bulk w, [SendAll (port_id r) (queue_id r) ms], zsum (wire r) ms) /\
  length ms = Z.to_nat n /\ Forall (fun m => pkt_len m = invalid_packet_size r) ms /\
  0 <= zsum (wire r) ms < 2 ^ 27.
Proof.
  intros WF Hn. destruct (bulk_bytes r w n WF Hn) as (E1 & E2 & E3).
  destruct (alloc_mbufs_spec (bulk_allocs w) (Z.to_nat n) (invalid_packet_size r)) as [Hl Hf].
  exists (alloc_mbufs (bulk_allocs w) (Z.to_nat n) (invalid_packet_size r)).
  unfold empty_delay. rewrite E1. unfold mbind, res_bind. by rewrite E2.
Qed.

Lemma send_timestamp_packet_spec r w n :
  limiter_wf r -> 0 < n <= 1024 -> exists m ms,
  send_timestamp_packet r w n =
    Ok (bump_bulk w, [SendAll (port_id r) (queue_id r) (m :: ms)], zsum (wire r) (m :: ms)) /\
  Z.lor (ol_flags m) TX_IEEE1588_TMST = ol_flags m /\ length (m :: ms) = Z.to_nat n /\
  0 <= zsum (wire r) (m :: ms) < 2 ^ 27.
Proof.
  intros WF Hn. destruct (bulk_bytes r w n WF ltac:(lia)) as (E1 & E2 & E3).
  destruct (alloc_mbufs_spec (bulk_allocs w) (Z.to_nat n) (invalid_packet_size r)) as [Hl Hf].
  unfold send_timestamp_packet. rewrite E1. unfold mbind, res_bind. rewrite E2.
  destruct (alloc_mbufs _ _ _) as [|m ms]; [cbn in Hl; lia|].
  exists (set_flags m (Z.lor (ol_flags m) TX_IEEE1588_TMST)), ms.
  split; [reflexivity|]. split; [|by split].
  cbn. by rewrite <- Z.lor_assoc, Z.lor_diag.
Qed.

End Bulk.

(** ** Line accounting over a sequence of calls *)

Section Calls.
Context `{TS : TimestampDynfield} `{MP : MbufPool}.

(** The bytes of line time a call asks for besides those it reports. *)
Definition requested (r : RateLimiterCRC) (c : crc_call) : Z :=
  match c with
  | Mg_ratelimiter_crc_send_packets ps => zsum id (gaps ps) + zsum (wire r) (present ps)
  | _ => 0
  end.

(** Calls as the scripts make them: gaps in range, the last entry filled, bulks
    that fit the array, filler sizes the configuration allows. *)
Definition call_ok (r : RateLimiterCRC) (c : crc_call) : Prop :=
  match c with
  | Mg_ratelimiter_crc_send_packets ps => Forall gap_ok ps /\ ends_with_packet ps = true
  | Mg_ratelimiter_crc_send_timestamp_packet n => 0 < n <= 1024
  | Mg_ratelimiter_crc_empty_delay n => 0 <= n <= 1024
  | Mg_ratelimiter_crc_set_invalid_packet_size size => limiter_wf (set_invalid_packet_size r size)
  end.

(** The limiter is in order and differs from [r0] in its filler size and what
    it still owes only. *)
Record same_config (r0 r : RateLimiterCRC) : Prop := {
  sc_wf : limiter_wf r;
  sc_missing : 0 <= previous_missing_delay r < min_gap r;
  sc_min : MIN_PACKET_SIZE r = MIN_PACKET_SIZE r0;
  sc_overhead : PACKET_OVERHEAD r = PACKET_OVERHEAD r0
}.

Lemma same_config_wire r0 r ms : same_config r0 r -> zsum (wire r) ms = zsum (wire r0) ms.
Proof. intros [_ _ _ E]. unfold wire. by rewrite E. Qed.

Lemma zsum_wire_interleave r fss ps : length fss = length ps ->
  zsum (wire r) (interleave fss ps) = zsum id (zsum (wire r) <$> fss) + zsum (wire r) ps.
Proof.
  revert ps. induction fss as [|fs fss IH]; intros [|p ps] Hl; try done. cbn [length] in Hl.
  unfold interleave in *. cbn [zip_with concat fmap list_fmap]. rewrite zsum_app, zsum_app. cbn [zsum].
  rewrite IH by lia. unfold id. lia.
Qed.

(** One call: what goes over the line is what was asked for, what is reported
    and what was owed before, less what is owed afterwards. *)
Lemma crc_call_accounts r0 r w c : same_config r0 r -> call_ok r c ->
  match mg_ratelimiter_crc r w c with
  | Ok (r', _, ev, v) => same_config r0 r' /\
      zsum (wire r0) (handed_on ev) + previous_missing_delay r' = previous_missing_delay r + requested r0 c + v
  | UB u => u = NullDeref /\ pool_dry_from (allocs w)
  end.
Proof.
  intros Hr Hc. pose proof Hr as [WF Hm E1 E2]. destruct c as [ps|n|n|size]; cbn [mg_ratelimiter_crc call_ok] in *.
  - destruct Hc as [Hg Hlast]. pose proof (send_packets_sends r w ps WF Hm Hg) as H.
    destruct (send_packets r w ps) as [[[r' w'] ev]|u]; [|done].
    destruct H as (fss & s' & H & -> & _). cbn.
    pose proof (sends_all _ _ _ _ _ _ H Hlast) as Hh. destruct H as [-> Hb _ _ _ _ _ _ _].
    assert (Forall (fun t => 0 <= t) (gaps ps)) as Ht.
    { apply Forall_fmap, Forall_true. intros m. cbn. pose proof (get_timestamp_u64 m) as [? _]. done. }
    split; [split; cbn; [by apply limiter_wf_missing|by apply pace_pending|done|done]|].
    assert (length fss = length (present ps)) as Hl.
    { rewrite <- (length_fmap (zsum (wire r)) fss), Hb, pace_length. unfold gaps. apply length_fmap. }
    rewrite Hh. change (stream _) with (@nil mbuf). cbn [app].
    rewrite <- !(same_config_wire r0 r) by done. rewrite zsum_wire_interleave, Hb by done.
    pose proof (pace_balance (min_gap r) (previous_missing_delay r) (gaps ps)). cbn. lia.
  - destruct (send_timestamp_packet_spec r w n WF Hc) as (m & ms & -> & _).
    cbn [mbind res_bind mret res_ret]. split; [done|]. unfold handed_on. cbn [fmap list_fmap concat].
    rewrite app_nil_r, <- (same_config_wire r0 r) by done. cbn [requested]. lia.
  - destruct (empty_delay_spec r w n WF Hc) as (ms & -> & _).
    cbn [mbind res_bind mret res_ret]. split; [done|]. unfold handed_on. cbn [fmap list_fmap concat].
    rewrite app_nil_r, <- (same_config_wire r0 r) by done. cbn [requested]. lia.
  - cbn. split; [by split|]. lia.
Qed.

Fixpoint calls_ok (r : RateLimiterCRC) (w : crc_world) (cs : list crc_call) : Prop :=
  match cs with
  | [] => True
  | c :: cs => call_ok r c /\ match mg_ratelimiter_crc r w c with
                              | Ok (r, w, _, _) => calls_ok r w cs
                              | UB _ => True
                              end
  end.

Lemma calls_ok_cons r w c cs : call_ok r c ->
  (forall r' w' ev v, mg_ratelimiter_crc r w c = Ok (r', w', ev, v) -> calls_ok r' w' cs) ->
  calls_ok r w (c :: cs).
Proof.
  intros Hc H. cbn [calls_ok]. split; [exact Hc|].
  destruct (mg_ratelimiter_crc r w c) as [[[[r' w'] ev] v]|u]; [by eapply H|exact I].
Qed.


End Calls.

(** ** Evaluation on a concrete limiter *)

(** 10 GbE at low rates, as the Lua front end configures it: 64+20 bytes
    minimum, 20 bytes of overhead, fillers of up to 1500 bytes. *)
Definition sample_limiter : RateLimiterCRC := mg_ratelimiter_crc_create 3 1 84 20 1500.
Definition sample_world : crc_world := CrcWorld 0 0 ∅ ∅.

(** A pool that is empty. *)
#[refine] Definition dry_pool : MbufPool := {|
  pktmbuf_alloc k := None;
  alloc_mbufs k n len := replicate n (sample_mbuf (5000 + Z.of_nat k) len 0);
  TX_IEEE1588_TMST := 2 ^ 51 |}.
Proof. intros k n len. split; [apply length_replicate|]. by apply Forall_replicate. Defined.

Definition sample_load : list (option mbuf) :=
  [Some (sample_mbuf 1 60 50); Some (sample_mbuf 2 60 60); None; Some (sample_mbuf 3 60 5000)].

Lemma sample_limiter_wf : limiter_wf sample_limiter.
Proof. split; vm_compute; congruence. Qed.

Section Witnesses.
#[local] Existing Instance cell_dynfield.

Lemma sample_load_gaps : Forall gap_ok sample_load.
Proof. repeat constructor. Qed.

Definition sample_calls : list crc_call :=
  [Mg_ratelimiter_crc_send_timestamp_packet 1; Mg_ratelimiter_crc_empty_delay 2;
   Mg_ratelimiter_crc_set_invalid_packet_size 9000; Mg_ratelimiter_crc_send_packets sample_load].


Lemma send_packets_refines_pace_witness :
  match @send_packets _ endless_pool sample_limiter sample_world sample_load with
  | Ok (r', _, ev) => exists fss,
      handed_on ev = interleave fss (present sample_load) /\
      zsum (wire sample_limiter) <$> fss = [0; 110; 5000] /\ previous_missing_delay r' = 0
  | UB u => False
  end.
Proof.
  pose proof (@send_packets_refines_pace _ endless_pool sample_limiter sample_world sample_load
    sample_limiter_wf ltac:(vm_compute; split; congruence) sample_load_gaps eq_refl) as H.
  destruct (send_packets _ _ _) as [[[r' w'] ev]|u] eqn:E; [|vm_compute in E; discriminate].
  destruct H as (fss & H1 & H2 & H3 & _). exists fss. split; [exact H1|].
  split; [rewrite H2; vm_compute; reflexivity|rewrite H3; vm_compute; reflexivity].
Defined.

Lemma send_packets_on_time_witness :
  exists r' w' ev, @send_packets _ endless_pool sample_limiter sample_world sample_load = Ok (r', w', ev) /\
  exists fss, handed_on ev = interleave fss (present sample_load) /\ length fss = 3%nat.
Proof.
  destruct (@send_packets _ endless_pool sample_limiter sample_world sample_load)
    as [[[r' w'] ev]|u] eqn:E; [|vm_compute in E; discriminate].
  exists r', w', ev. split; [reflexivity|].
  destruct (@send_packets_on_time _ endless_pool sample_limiter sample_world sample_load r' w' ev
    sample_limiter_wf ltac:(vm_compute; split; congruence) sample_load_gaps eq_refl E)
    as (fss & H1 & H2 & _).
  exists fss. split; [exact H1|]. rewrite H2. reflexivity.
Defined.

Lemma send_packets_loses_tail_witness :
  exists r' w' ev, @send_packets _ endless_pool sample_limiter sample_world
      (sample_load ++ [None]) = Ok (r', w', ev) /\ ev = [] /\
  exists fss lost, handed_on ev ++ lost = interleave fss (present sample_load) /\
    Z.of_nat (length lost) = Z.of_nat (length (interleave fss (present sample_load))) mod 64.
Proof.
  destruct (@send_packets _ endless_pool sample_limiter sample_world (sample_load ++ [None]))
    as [[[r' w'] ev]|u] eqn:E; [|vm_compute in E; discriminate].
  exists r', w', ev. split; [reflexivity|].
  split; [vm_compute in E; congruence|].
  exact (@send_packets_loses_tail _ endless_pool sample_limiter sample_world sample_load r' w' ev
    sample_limiter_wf ltac:(vm_compute; split; congruence) sample_load_gaps E).
Defined.

Lemma send_packets_null_pool_witness :
  @send_packets _ dry_pool sample_limiter sample_world [Some (sample_mbuf 1 60 200)] = UB NullDeref.
Proof.
  apply (@send_packets_null_pool _ dry_pool); [exact sample_limiter_wf|vm_compute; split; congruence
    |vm_compute; reflexivity|vm_compute; congruence|reflexivity].
Defined.

Lemma send_packets_stats_witness :
  exists r' w' ev, @send_packets _ endless_pool sample_limiter sample_world sample_load = Ok (r', w', ev) /\
  (forall q, q <> 3 -> moongen_get_bad_pkts_sent w' q = 0).
Proof.
  destruct (@send_packets _ endless_pool sample_limiter sample_world sample_load)
    as [[[r' w'] ev]|u] eqn:E; [|vm_compute in E; discriminate].
  exists r', w', ev. split; [reflexivity|].
  destruct (@send_packets_stats _ endless_pool sample_limiter sample_world sample_load r' w' ev
    sample_limiter_wf ltac:(vm_compute; split; congruence) sample_load_gaps eq_refl E)
    as (fss & _ & _ & _ & H & _).
  intros q Hq. exact (proj1 (H q Hq)).
Defined.

End Witnesses.
