(* ===== verification/LaunchTimestamp.v ===== *)
(** * Launch times: src/launch-timestamp.hpp, src/launch-timestamp.cpp

    [DelayEmulator] sends each packet at the absolute time in its timestamp
    dynfield.  It synchronises once with a timestamped frame, counts the bytes
    it has put on the line since, and turns a launch time into a gap in bytes
    for the rate limiter of the file CrcRate. *)
From S2P Require Import Prelude Dpdk Float Binary64 CrcRate.
From Stdlib Require Import QArith Qround Qabs Lqa SpecFloat.

#[local] Open Scope Z_scope.

(** ** State *)

Section Emulator.
Context `{FO : FloatOps D} `{TS : TimestampDynfield} `{MP : MbufPool}.

Record DelayEmulator := MkDelayEmulator {
  first_timestamp : Z;
  current_byte_offset : Z;
  NANOSECONDS_PER_BYTE : D;
  OVERHEAD : Z
}.

(** The emulator, the limiter it points to, the process-wide state. *)
Record launch := Launch {
  emulator : DelayEmulator;
  ratelimiter : RateLimiterCRC;
  world : crc_world
}.

Definition with_offset (e : DelayEmulator) (off : Z) : DelayEmulator :=
  MkDelayEmulator (first_timestamp e) off (NANOSECONDS_PER_BYTE e) (OVERHEAD e).

(** [0.08d * (100000.0d / LINE_RATE)]; 0.08 is the double nearest to 8/100.
    The constructor leaves the two time fields uninitialised, [transmit_loop]
    writes both before it reads them. *)
Definition mg_launchtimer_create (first_timestamp current_byte_offset LINE_RATE PACKET_OVERHEAD : Z)
    : DelayEmulator :=
  MkDelayEmulator first_timestamp current_byte_offset
    ((d_of_Z 8 / d_of_Z 100) * (d_of_Z 100000 / d_of_Z LINE_RATE))%D PACKET_OVERHEAD.

(** ** send_batch *)

Definition current_sending_time (e : DelayEmulator) : res Z :=
  d_to_u64 (d_of_Z (first_timestamp e)
            + d_of_Z (current_byte_offset e) * NANOSECONDS_PER_BYTE e)%D.

(** One packet of the loop: the emulator, the effects, the array entry. *)
Definition plan_packet (e : DelayEmulator) (pkt : mbuf)
    : res (DelayEmulator * list event * option mbuf) :=
  current ← current_sending_time e;
  let goal_sending_time := get_timestamp_dynfield pkt in
  let sending_time_diff := s64 (goal_sending_time - current) in
  if sending_time_diff <? 0 then
    if sending_time_diff <? -100000 then mret (e, [Free pkt], None)
    else
      let pkt := set_timestamp_dynfield pkt 0 in
      mret (with_offset e (u64 (current_byte_offset e + u64 (pkt_len pkt + OVERHEAD e))), [], Some pkt)
  else
    delay_bytes ← d_to_u64 (d_of_Z sending_time_diff / NANOSECONDS_PER_BYTE e)%D;
    let pkt := set_timestamp_dynfield pkt delay_bytes in
    mret (with_offset e (u64 (current_byte_offset e
            + u64 (pkt_len pkt + OVERHEAD e + delay_bytes))), [], Some pkt).

Fixpoint plan_batch (e : DelayEmulator) (load_pkts : list mbuf)
    : res (DelayEmulator * list event * list (option mbuf)) :=
  match load_pkts with
  | [] => mret (e, [], [])
  | pkt :: load_pkts =>
      '(e, ev, p) ← plan_packet e pkt;
      '(e, evs, ps) ← plan_batch e load_pkts;
      mret (e, ev ++ evs, p :: ps)
  end.

Definition send_batch (l : launch) (load_pkts : list mbuf) : res (launch * list event) :=
  '(e, ev, ps) ← plan_batch (emulator l) load_pkts;
  '(r, w, ev') ← send_packets (ratelimiter l) (world l) ps;
  mret (Launch e r w, ev ++ ev').

(** ** transmit_loop *)

(** [n] times [ratelimiter->empty_delay(64)], the results summed up. *)
Fixpoint empty_delays (n : nat) (r : RateLimiterCRC) (w : crc_world) : res (crc_world * list event * Z) :=
  match n with
  | O => mret (w, [], 0)
  | S n =>
      '(w, ev, b) ← empty_delay r w 64;
      '(w, evs, bs) ← empty_delays n r w;
      mret (w, ev ++ evs, u64 (b + bs))
  end.

(** Up to the synchronisation: warm-up, the timestamped frame, the frames
    that flush it out, the timestamp [tv_sec], [tv_nsec] the port returns.
    The effects before and from the timestamped frame on are kept apart. *)
Definition launch_start (l : launch) (tv_sec tv_nsec : Z)
    : res (launch * list event * list event) :=
  let r := set_invalid_packet_size (ratelimiter l) 1500 in
  '(w, ev0, _) ← empty_delays 100 r (world l);
  '(w, ev1, off) ← send_timestamp_packet r w 64;
  '(w, ev2, more) ← empty_delays 100 r w;
  let e := emulator l in
  mret (Launch (MkDelayEmulator (u64 (tv_sec * 1000000000 + tv_nsec)) (u64 (off + more))
                  (NANOSECONDS_PER_BYTE e) (OVERHEAD e)) r w, ev0, ev1 ++ ev2).

(** One iteration with what [rte_ring_sc_dequeue_burst] returned. *)
Definition launch_iter (l : launch) (transmit_pkts : list mbuf) : res (launch * list event) :=
  match transmit_pkts with
  | _ :: _ =>
      send_batch (Launch (emulator l) (set_invalid_packet_size (ratelimiter l) 9000) (world l))
        transmit_pkts
  | [] =>
      let r := set_invalid_packet_size (ratelimiter l) 1500 in
      '(w, ev, b) ← empty_delay r (world l) 64;
      mret (Launch (with_offset (emulator l) (u64 (current_byte_offset (emulator l) + b))) r w, ev)
  end.

Definition transmit_loop (l : launch) (tv_sec tv_nsec : Z) (bursts : list (list mbuf))
    : res (launch * list event * list event) :=
  '(l, ev0, ev1) ← launch_start l tv_sec tv_nsec;
  '(l, ev2) ← run_loop launch_iter l bursts;
  mret (l, ev0, ev1 ++ ev2).

(** The function exported to Lua. *)
Definition mg_launchtimer_transmit_loop := transmit_loop.

End Emulator.
Arguments DelayEmulator D : clear implicits.
Arguments launch D : clear implicits.
Arguments MkDelayEmulator {D}.
Arguments Launch {D}.

(** ** The byte offset follows the line *)

(** Line time of the frames of a trace, in bytes. *)
Definition line_bytes (r : RateLimiterCRC) (ev : list event) : Z := zsum (wire r) (handed_on ev).

Lemma line_bytes_app r ev1 ev2 : line_bytes r (ev1 ++ ev2) = line_bytes r ev1 + line_bytes r ev2.
Proof. unfold line_bytes. by autorewrite with moon_rw. Qed.

Lemma line_bytes_send r p q ms : line_bytes r [SendAll p q ms] = zsum (wire r) ms.
Proof. unfold line_bytes, handed_on. cbn. by rewrite app_nil_r. Qed.

Section Sync.
Context `{FO : FloatOps D} `{TS : TimestampDynfield} `{MP : MbufPool}.

Definition gap_okb (p : option mbuf) : bool :=
  match p with Some m => get_timestamp_dynfield m <? 2 ^ 63 | None => true end.

(** A burst the limiter transmits completely: its last packet is not dropped
    for being late, and no gap reaches 2^63 bytes. *)
Definition healthy_burst (l : launch D) (bufs : list mbuf) : bool :=
  match bufs with
  | [] => true
  | _ :: _ =>
      match plan_batch (emulator l) bufs with
      | Ok (_, _, ps) => ends_with_packet ps && forallb gap_okb ps
      | UB _ => true
      end
  end.

Fixpoint healthy (l : launch D) (bursts : list (list mbuf)) : bool :=
  match bursts with
  | [] => true
  | b :: bursts =>
      healthy_burst l b &&
      match launch_iter l b with Ok (l, _) => healthy l bursts | UB _ => true end
  end.

Lemma gap_okb_ok ps : forallb gap_okb ps = true -> Forall gap_ok ps.
Proof.
  intros H. apply Forall_forall. intros p Hp. rewrite forallb_forall in H.
  apply list_elem_of_In, H in Hp. destruct p; [|done]. cbn in *. lia.
Qed.

(** The configuration of a running emulator. *)
Record launch_inv (l : launch D) : Prop := {
  li_idle : limiter_wf (set_invalid_packet_size (ratelimiter l) 1500);
  li_busy : limiter_wf (set_invalid_packet_size (ratelimiter l) 9000);
  li_overhead : OVERHEAD (emulator l) = PACKET_OVERHEAD (ratelimiter l);
  li_offset : is_u64 (current_byte_offset (emulator l));
  li_missing : 0 <= previous_missing_delay (ratelimiter l) < min_gap (ratelimiter l)
}.

(** Bytes a planned packet takes: its gap and itself. *)
Definition planned_bytes (o : Z) (m : mbuf) : Z := pkt_len m + o + get_timestamp_dynfield m.

Record plan_frame (e : DelayEmulator D) (bufs : list mbuf) (e' : DelayEmulator D)
    (ev : list event) (ps : list (option mbuf)) : Prop := {
  pf_first : first_timestamp e' = first_timestamp e;
  pf_npb : NANOSECONDS_PER_BYTE e' = NANOSECONDS_PER_BYTE e;
  pf_over : OVERHEAD e' = OVERHEAD e;
  pf_offset : current_byte_offset e' =
    u64 (current_byte_offset e + zsum (planned_bytes (OVERHEAD e)) (present ps));
  pf_quiet : handed_on ev = [];
  pf_splits : ident <$> (present ps ++ freed ev) ≡ₚ ident <$> bufs;
  pf_order : (ident <$> present ps) `sublist_of` (ident <$> bufs)
}.

Lemma plan_packet_frame e pkt e' ev p :
  is_u64 (current_byte_offset e) -> plan_packet e pkt = Ok (e', ev, p) ->
  plan_frame e [pkt] e' ev [p].
Proof.
  intros Ho H. unfold plan_packet in H. apply bind_Ok in H as (cur & _ & H).
  cbn in H. case_zbool; [| |apply bind_Ok in H as (d & Hd & H); apply d_to_u64_range in Hd]; res_inv.
  - split; try done; [|apply sublist_nil_l]. cbn. by rewrite Z.add_0_r, u64_id.
  - split; try done; [|by unfold present; cbn; rewrite ident_set_timestamp..].
    unfold present, planned_bytes. cbn. rewrite get_set_timestamp, u64_add_r by done. f_equal; lia.
  - split; try done; [|by unfold present; cbn; rewrite ident_set_timestamp..].
    unfold present, planned_bytes. cbn. rewrite get_set_timestamp, u64_add_r by done. f_equal; lia.
Qed.

Lemma plan_batch_frame bufs : forall e e' ev ps,
  is_u64 (current_byte_offset e) -> plan_batch e bufs = Ok (e', ev, ps) ->
  plan_frame e bufs e' ev ps.
Proof.
  induction bufs as [|pkt bufs IH]; intros e e' ev ps Ho H; cbn [plan_batch] in H; res_inv.
  - split; try done. cbn. by rewrite Z.add_0_r, u64_id.
  - apply plan_packet_frame in E; [|done]. destruct E as [E1 E2 E3 E4 E5 E6 E7].
    apply IH in E0; [|rewrite E4; apply u64_range]. destruct E0 as [F1 F2 F3 F4 F5 F6 F7].
    match goal with |- plan_frame _ _ _ _ (?p :: ?ps) =>
      assert (present (p :: ps) = present [p] ++ present ps) as Hp by (by destruct p) end.
    split; try congruence.
    + rewrite F4, E4, u64_add_l, Hp, zsum_app, E3. f_equal; lia.
    + by rewrite handed_on_app, E5, F5.
    + rewrite Hp, freed_app. change (pkt :: bufs) with ([pkt] ++ bufs).
      rewrite (fmap_app ident [pkt]), <- E6, <- F6, <- !fmap_app.
      apply fmap_Permutation. solve_Permutation.
    + rewrite Hp, fmap_app. change (pkt :: bufs) with ([pkt] ++ bufs). rewrite fmap_app.
      by apply sublist_app.
Qed.

Lemma interleave_bytes r fss ps :
  length fss = length ps ->
  zsum (wire r) (interleave fss ps) = zsum (wire r) (concat fss) + zsum (wire r) ps.
Proof.
  unfold interleave. revert ps. induction fss as [|fs fss IH]; intros [|p ps] Hl; try done.
  cbn in *. rewrite !zsum_app, IH by lia. cbn. lia.
Qed.

Lemma sends_length r s ps r' s' fss : sends r s ps r' s' fss -> length fss = length (present ps).
Proof.
  intros H. pose proof (f_equal length (se_bytes _ _ _ _ _ _ H)) as Hl.
  rewrite pace_length in Hl. unfold gaps in Hl. by rewrite !length_fmap in Hl.
Qed.

(** Line time of a call of [send_packets]: the packets, their gaps, and what
    the call adds to or takes from the pending bytes. *)
Lemma send_packets_line_bytes r w ps r' w' ev :
  limiter_wf r -> 0 <= previous_missing_delay r < min_gap r -> Forall gap_ok ps ->
  ends_with_packet ps = true -> send_packets r w ps = Ok (r', w', ev) ->
  r' = set_missing r (previous_missing_delay r') /\
  0 <= previous_missing_delay r' < min_gap r /\
  line_bytes r ev = zsum (planned_bytes (PACKET_OVERHEAD r)) (present ps)
                    + previous_missing_delay r - previous_missing_delay r'.
Proof.
  intros WF Hm Hg Hlast Hok. pose proof (send_packets_sends r w ps WF Hm Hg) as H.
  rewrite Hok in H. destruct H as (fss & s' & H & -> & _).
  assert (Forall (fun t => 0 <= t) (gaps ps)) as Hpos.
  { apply Forall_fmap, Forall_true. intros m. apply (get_timestamp_u64 m). }
  pose proof (pace_balance (min_gap r) (previous_missing_delay r) (gaps ps)) as Hbal.
  pose proof (pace_pending (min_gap r) (previous_missing_delay r) (gaps ps) Hm Hpos) as Hp.
  pose proof (sends_all _ _ _ _ _ _ H Hlast) as Hs. cbn in Hs.
  assert (previous_missing_delay r' =
    snd (pace (min_gap r) (previous_missing_delay r) (gaps ps))) as Er
    by by rewrite (se_state _ _ _ _ _ _ H).
  rewrite Er. split; [apply (se_state _ _ _ _ _ _ H)|]. split; [done|].
  unfold line_bytes. rewrite Hs. rewrite interleave_bytes by apply (sends_length _ _ _ _ _ _ H).
  rewrite zsum_concat, (se_bytes _ _ _ _ _ _ H).
  assert (zsum (planned_bytes (PACKET_OVERHEAD r)) (present ps) =
    zsum (wire r) (present ps) + zsum id (gaps ps)) as ->; [|lia].
  unfold gaps. clear. induction (present ps) as [|m ms IH]; [done|]. cbn.
  rewrite IH. unfold planned_bytes, wire. lia.
Qed.

(** [l'] is [l] after frames with the effects [ev]: the counter moved by the
    line time of [ev], up to the bytes still pending in the limiter. *)
Record in_step (l : launch D) (ev : list event) (l' : launch D) : Prop := {
  is_inv : launch_inv l';
  is_over : PACKET_OVERHEAD (ratelimiter l') = PACKET_OVERHEAD (ratelimiter l);
  is_sync : current_byte_offset (emulator l') =
    u64 (current_byte_offset (emulator l) + line_bytes (ratelimiter l) ev
         + previous_missing_delay (ratelimiter l') - previous_missing_delay (ratelimiter l))
}.

Lemma line_bytes_overhead r r' ev :
  PACKET_OVERHEAD r = PACKET_OVERHEAD r' -> line_bytes r ev = line_bytes r' ev.
Proof.
  intros E. unfold line_bytes. induction (handed_on ev) as [|m ms IH]; [done|].
  cbn. rewrite IH. unfold wire. by rewrite E.
Qed.

Lemma in_step_refl l : launch_inv l -> in_step l [] l.
Proof.
  intros H. split; [done|done|]. cbn. rewrite u64_id; [lia|].
  destruct H as [_ _ _ Ho _]. unfold is_u64 in *. lia.
Qed.

Lemma in_step_trans l ev l1 ev1 l2 :
  in_step l ev l1 -> in_step l1 ev1 l2 -> in_step l (ev ++ ev1) l2.
Proof.
  intros [I1 O1 S1] [I2 O2 S2]. split; [done|congruence|].
  rewrite S2, S1, line_bytes_app, (line_bytes_overhead _ _ ev1 O1).
  rewrite <- Z.add_sub_assoc, <- Z.add_assoc, u64_add_l. f_equal; lia.
Qed.

Lemma send_batch_in_step e r w bufs l' ev :
  launch_inv (Launch e r w) -> limiter_wf r ->
  (forall e' ev ps, plan_batch e bufs = Ok (e', ev, ps) ->
     ends_with_packet ps = true /\ Forall gap_ok ps) ->
  send_batch (Launch e r w) bufs = Ok (l', ev) -> in_step (Launch e r w) ev l'.
Proof.
  intros [I1 I2 I3 I4 I5] WF Hh H. cbn in *. unfold send_batch in H. cbn in H. res_inv.
  destruct (Hh _ _ _ eq_refl) as [Hlast Hg].
  apply (plan_batch_frame _ _ _ _ _ I4) in E. destruct E as [_ _ F1 F2 F3 _ _].
  apply send_packets_line_bytes in E0; [|done..]. destruct E0 as (Er & Hm & Hb).
  split.
  - rewrite Er. split; cbn; [exact (limiter_wf_missing _ _ I1)|exact (limiter_wf_missing _ _ I2)
      |congruence|rewrite F2; apply u64_range|].
    change (min_gap (set_missing r _)) with (min_gap r). done.
  - by rewrite Er.
  - cbn. rewrite line_bytes_app. unfold line_bytes at 1. rewrite F3. cbn.
    rewrite Hb, F2, I3. f_equal; lia.
Qed.

Lemma resized l n : launch_inv l ->
  launch_inv (Launch (emulator l) (set_invalid_packet_size (ratelimiter l) n) (world l)).
Proof. intros [? ? ? ? ?]. by split. Qed.

Lemma launch_iter_in_step l bufs l' ev :
  launch_inv l -> healthy_burst l bufs = true -> launch_iter l bufs = Ok (l', ev) ->
  in_step l ev l'.
Proof.
  intros HI Hh H. destruct bufs as [|b bufs]; unfold launch_iter in H.
  - destruct (empty_delay_spec (set_invalid_packet_size (ratelimiter l) 1500) (world l) 64)
      as (ms & E & _ & _ & _); [apply HI|lia|]. rewrite E in H. cbn in H. res_inv.
    destruct HI as [? ? ? ? ?].
    split; [split; cbn; [done|done|done|apply u64_range|done]|done|].
    cbn [emulator ratelimiter with_offset current_byte_offset set_invalid_packet_size previous_missing_delay].
    rewrite line_bytes_send. change (wire (set_invalid_packet_size _ _)) with (wire (ratelimiter l)).
    f_equal; lia.
  - pose proof (resized l 9000 HI) as HI'.
    assert (forall e' ev ps, plan_batch (emulator l) (b :: bufs) = Ok (e', ev, ps) ->
      ends_with_packet ps = true /\ Forall gap_ok ps) as Hp.
    { intros e' ev' ps E. unfold healthy_burst in Hh. rewrite E in Hh.
      apply andb_true_iff in Hh as [? ?]. split; [done|]. by apply gap_okb_ok. }
    pose proof (send_batch_in_step _ _ _ _ _ _ HI' (li_busy _ HI) Hp H) as [J1 J2 J3].
    by split.
Qed.

Lemma launch_loop_in_step bursts : forall l l' ev,
  launch_inv l -> healthy l bursts = true -> run_loop launch_iter l bursts = Ok (l', ev) ->
  in_step l ev l'.
Proof.
  induction bursts as [|b bursts IH]; intros l l' ev HI Hh H; cbn in H; res_inv.
  - by apply in_step_refl.
  - cbn in Hh. rewrite E in Hh. apply andb_true_iff in Hh as [Hb Hh].
    pose proof (launch_iter_in_step _ _ _ _ HI Hb E) as H1.
    eapply in_step_trans; [done|]. apply (IH _ _ _ (is_inv _ _ _ H1) Hh E0).
Qed.

Lemma empty_delays_spec r n : forall w,
  limiter_wf r -> exists w' ev, empty_delays n r w = Ok (w', ev, u64 (line_bytes r ev)) /\
    freed ev = [] /\ 0 <= line_bytes r ev <= Z.of_nat n * 2 ^ 27.
Proof.
  induction n as [|n IH]; intros w WF; [by exists w, []|]. cbn [empty_delays].
  destruct (empty_delay_spec r w 64 WF) as (ms & -> & _ & _ & Hz); [lia|]. cbn [mbind res_bind].
  destruct (IH (bump_bulk w) WF) as (w' & ev & -> & Hf & Hb). cbn [mbind res_bind].
  exists w', ([SendAll (port_id r) (queue_id r) ms] ++ ev).
  rewrite line_bytes_app, line_bytes_send, u64_add_r. split; [done|]. split; [exact Hf|lia].
Qed.

(** After the synchronisation the counter is the line time from the
    timestamped frame on. *)
Lemma launch_start_spec (l : launch D) sec nsec :
  limiter_wf (set_invalid_packet_size (ratelimiter l) 1500) -> exists l' ev0 p q m ms ev,
  launch_start l sec nsec = Ok (l', ev0, SendAll p q (m :: ms) :: ev) /\
  Z.lor (ol_flags m) TX_IEEE1588_TMST = ol_flags m /\
  current_byte_offset (emulator l') =
    u64 (line_bytes (ratelimiter l) (SendAll p q (m :: ms) :: ev)) /\
  first_timestamp (emulator l') = u64 (sec * 1000000000 + nsec) /\
  NANOSECONDS_PER_BYTE (emulator l') = NANOSECONDS_PER_BYTE (emulator l) /\
  OVERHEAD (emulator l') = OVERHEAD (emulator l) /\
  ratelimiter l' = set_invalid_packet_size (ratelimiter l) 1500 /\ freed ev = [] /\
  0 <= line_bytes (ratelimiter l) (SendAll p q (m :: ms) :: ev) < 2 ^ 34.
Proof.
  intros WF. unfold launch_start.
  destruct (empty_delays_spec _ 100 (world l) WF) as (w1 & ev0 & -> & _). cbn [mbind res_bind].
  destruct (send_timestamp_packet_spec _ w1 64 WF) as (m & ms & -> & Hm & _ & Hz); [lia|]. cbn [mbind res_bind].
  match goal with |- context [empty_delays 100 _ ?w] =>
    destruct (empty_delays_spec _ 100 w WF) as (w2 & ev2 & -> & Hf & Hb) end. cbn [mbind res_bind].
  eexists _, ev0, _, _, m, ms, ev2. split; [reflexivity|]. split; [exact Hm|].
  change (SendAll ?p ?q (m :: ms) :: ev2) with ([SendAll p q (m :: ms)] ++ ev2).
  rewrite line_bytes_app, line_bytes_send. cbn [emulator current_byte_offset]. rewrite u64_add_r.
  change (wire (set_invalid_packet_size _ _)) with (wire (ratelimiter l)) in *.
  change (line_bytes (set_invalid_packet_size _ _)) with (line_bytes (ratelimiter l)) in *.
  do 6 (split; [done|]). lia.
Qed.


End Sync.

(** ** Launch accuracy *)

Section Accuracy.
Context `{FO : FloatOps D} {FL : FloatLaws D} `{TS : TimestampDynfield} `{MP : MbufPool}.
#[local] Open Scope Q_scope.

Implicit Types e : DelayEmulator D.

(** Nanoseconds per byte, and the time at which byte [pos] of the line leaves. *)
Definition npb e : Q := dval (NANOSECONDS_PER_BYTE e).
Definition line_time e (pos : Z) : Q := inject_Z (first_timestamp e) + inject_Z pos * npb e.

Definition goal (m : mbuf) : Q := inject_Z (get_timestamp_dynfield m).

(** Line rates between 1 Mbit/s and 512 Gbit/s, times below [2 ^ K] ns, launch
    times at most 2^50 ns (13 days) after the synchronisation, frames of at
    most 2^17 bytes. *)
Record horizon (K : Z) e (bufs : list mbuf) : Prop := {
  hz_first : (0 <= first_timestamp e <= 2 ^ K - 2 ^ 52)%Z;
  hz_offset : (0 <= current_byte_offset e)%Z;
  hz_fin : dfin (NANOSECONDS_PER_BYTE e);
  hz_npb : 1 # 64 <= npb e <= inject_Z (2 ^ 13);
  hz_over : (0 <= OVERHEAD e)%Z;
  hz_room : inject_Z (current_byte_offset e) * npb e
            + inject_Z (Z.of_nat (length bufs)) * inject_Z (2 ^ 30) <= inject_Z (2 ^ 51);
  hz_burst : (length bufs <= 64)%nat;
  hz_pkts : Forall (fun m => (get_timestamp_dynfield m <= first_timestamp e + 2 ^ 50)%Z /\
                      (0 <= pkt_len m)%Z /\ (pkt_len m + OVERHEAD e <= 2 ^ 17)%Z) bufs
}.

(** What the arithmetic promises: the clock the loop computes is the line time
    rounded down, up to [E] ns, and a wait is converted to whole bytes up to
    [delta] ns. *)
Class LaunchClock (K : Z) (E delta : Q) : Prop := {
  lc_K : (52 <= K <= 62)%Z;
  lc_E : 0 <= E <= 1048576;
  lc_delta : 0 <= delta <= 1;
  lc_current : forall e bufs, horizon K e bufs -> exists cur, current_sending_time e = Ok cur /\
    inject_Z cur - E <= line_time e (current_byte_offset e) < inject_Z cur + 1 + E /\
    (0 <= cur < 2 ^ 63)%Z;
  lc_delay : forall x diff, dfin x -> 1 # 64 <= dval x <= inject_Z (2 ^ 13) -> (0 <= diff <= 2 ^ 51)%Z ->
    exists d, d_to_u64 (d_of_Z diff / x)%D = Ok d /\ (0 <= d)%Z /\
      inject_Z d * dval x - delta <= inject_Z diff < (inject_Z d + 1) * dval x + delta
}.

Section Clock.
Context (K : Z) (E delta : Q) {LC : LaunchClock K E delta}.

(** A packet planned at offset [o]: its launch time is met to within a byte
    and a nanosecond, or it is late by at most 100 us and sent at once; both up
    to the error of the arithmetic. *)
Definition plan_ok e (o : Z) (m m' : mbuf) : Prop :=
  ident m' = ident m /\
  goal m - npb e - E - delta < line_time e (o + get_timestamp_dynfield m') /\
  line_time e (o + get_timestamp_dynfield m') < goal m + 100001 + E + delta /\
  ((0 < get_timestamp_dynfield m')%Z ->
    line_time e (o + get_timestamp_dynfield m') < goal m + 1 + E + delta).

Fixpoint plan_ok_list e (o : Z) (bufs : list mbuf) (ps : list (option mbuf)) : Prop :=
  match bufs, ps with
  | [], [] => True
  | m :: bufs, None :: ps => goal m + 100000 - E < line_time e o /\ plan_ok_list e o bufs ps
  | m :: bufs, Some m' :: ps =>
      plan_ok e o m m' /\ plan_ok_list e (o + planned_bytes (OVERHEAD e) m') bufs ps
  | _, _ => False
  end.

(** What the loop does to one packet at offset [o]. *)
Definition plan_step e (m : mbuf) (bufs : list mbuf) e' (p : option mbuf) : Prop :=
  match p with
  | None => goal m + 100000 - E < line_time e (current_byte_offset e) /\ e' = e
  | Some m' => plan_ok e (current_byte_offset e) m m' /\
      e' = with_offset e (current_byte_offset e + planned_bytes (OVERHEAD e) m')
  end.

Lemma horizon_head e m bufs : horizon K e (m :: bufs) ->
  (get_timestamp_dynfield m <= first_timestamp e + 2 ^ 50)%Z /\ (0 <= pkt_len m)%Z.
Proof. intros [_ _ _ _ _ _ _ H]. apply Forall_cons in H as [(? & ? & _) _]. done. Qed.

Lemma hz_first_bound e bufs : horizon K e bufs ->
  (first_timestamp e < 2 ^ 62)%Z /\ 0 <= inject_Z (first_timestamp e).
Proof.
  intros HZ. destruct (hz_first _ _ _ HZ) as [H1 H2]. split; [|by rewrite <- (Zle_Qle 0)].
  pose proof lc_K as HK. pose proof (Z.pow_le_mono_r 2 K 62). lia.
Qed.

(** Advancing the offset by a frame within the horizon stays inside it. *)
Lemma horizon_advance e m bufs o :
  horizon K e (m :: bufs) -> (current_byte_offset e <= o)%Z ->
  (inject_Z o * npb e <= inject_Z (current_byte_offset e) * npb e
   \/ inject_Z o * npb e <= inject_Z (2 ^ 50) + 2097152) ->
  horizon K (with_offset e (o + (pkt_len m + OVERHEAD e))) bufs /\ (o + (pkt_len m + OVERHEAD e) < 2 ^ 64)%Z.
Proof.
  intros [H1 H2 HF [H3 H3'] H4 H5 H6 H7] Ho Hq. apply Forall_cons in H7 as [(Hm1 & Hm2 & Hm3) H7].
  set (w := (pkt_len m + OVERHEAD e)%Z) in *.
  assert (0 <= w)%Z as Hw0 by lia. rewrite Zle_Qle in Hm3, Hw0. change (inject_Z 0) with 0 in Hw0.
  change (inject_Z (2 ^ 17)) with 131072 in Hm3. change (inject_Z (2 ^ 13)) with 8192 in H3'.
  change (inject_Z (2 ^ 30)) with 1073741824 in *. change (inject_Z (2 ^ 51)) with 2251799813685248 in *.
  change (inject_Z (2 ^ 50)) with 1125899906842624 in *.
  cbn [length] in H5, H6. rewrite Nat2Z.inj_succ, <- Z.add_1_r, inject_Z_plus in H5.
  change (inject_Z 1) with 1 in H5.
  assert (0 <= inject_Z (Z.of_nat (length bufs)) <= 63) as [Hl Hl'].
  { split; [rewrite <- (Zle_Qle 0); lia|]. change 63 with (inject_Z 63). rewrite <- Zle_Qle. lia. }
  assert (inject_Z w * npb e <= 1073741824) as Hwn.
  { apply Qle_trans with (131072 * 8192); [|done].
    apply Qmult_le_compat_nonneg; split; lra. }
  assert (inject_Z (o + w) * npb e
    + inject_Z (Z.of_nat (length bufs)) * 1073741824 <= 2251799813685248) as Hroom.
  { rewrite inject_Z_plus, Qmult_plus_distr_l. lra. }
  assert (0 <= inject_Z (o + w)) as Hpos.
  { rewrite <- (Zle_Qle 0). rewrite <- (Zle_Qle 0) in Hw0. lia. }
  split; [split; cbn; try done; [|lia]|].
  - rewrite <- (Zle_Qle 0) in Hpos. exact Hpos.
  - rewrite Zlt_Qlt. change (inject_Z (2 ^ 64)) with 18446744073709551616.
    assert (inject_Z (o + w) * (1 # 64) <= inject_Z (o + w) * npb e) by nra.
    lra.
Qed.

(** The horizon of a batch covers the rest of it when a packet is skipped. *)
Lemma horizon_skip e m bufs : horizon K e (m :: bufs) -> horizon K e bufs.
Proof.
  intros [? ? ? ? ? H5 H6 H7]. apply Forall_cons in H7 as [_ H7]. cbn [length] in H5, H6.
  split; try done; [|lia]. eapply Qle_trans; [|exact H5].
  apply Qplus_le_r. apply Qmult_le_compat_r; [|done]. rewrite <- Zle_Qle. lia.
Qed.

(** The difference to the launch time of the next packet is in range. *)
Lemma diff_range e m bufs cur : horizon K e (m :: bufs) -> (0 <= cur < 2 ^ 63)%Z ->
  inject_Z cur - E <= line_time e (current_byte_offset e) < inject_Z cur + 1 + E ->
  is_s64 (get_timestamp_dynfield m - cur) /\ (get_timestamp_dynfield m - cur <= 2 ^ 51)%Z /\
  inject_Z (get_timestamp_dynfield m - cur) == goal m - inject_Z cur.
Proof.
  intros HZ Hc [_ C]. destruct (hz_first_bound _ _ HZ) as [F1 F2]. pose proof HZ as [_ Ho _ [Hn _] _ _ _ _].
  destruct (horizon_head _ _ _ HZ) as [Hg _]. pose proof (get_timestamp_u64 m) as [Hg0 _].
  assert (inject_Z (get_timestamp_dynfield m - cur) == goal m - inject_Z cur) as Hd.
  { unfold goal, Z.sub. rewrite inject_Z_plus, inject_Z_opp. reflexivity. }
  split; [unfold is_s64; lia|]. split; [|exact Hd]. rewrite Zle_Qle, Hd.
  rewrite Zle_Qle, inject_Z_plus in Hg. rewrite Zle_Qle in Ho. change (inject_Z 0) with 0 in Ho.
  unfold line_time, goal in *. pose proof lc_E as HE.
  assert (0 <= inject_Z (current_byte_offset e) * npb e) by (apply Qmult_le_0_compat; lra).
  change (inject_Z (2 ^ 51)) with 2251799813685248. change (inject_Z (2 ^ 50)) with 1125899906842624 in Hg. lra.
Qed.

Lemma plan_late e m bufs cur : horizon K e (m :: bufs) ->
  inject_Z cur - E <= line_time e (current_byte_offset e) < inject_Z cur + 1 + E ->
  -100000 <= goal m - inject_Z cur < 0 ->
  plan_ok e (current_byte_offset e) m (set_timestamp_dynfield m 0).
Proof.
  intros HZ [C1 C2] [D1 D2]. destruct (hz_npb _ _ _ HZ) as [Hn _]. destruct lc_delta as [Hd _].
  unfold plan_ok. rewrite ident_set_timestamp, get_set_timestamp, Z.add_0_r by done.
  split; [done|]. split; [lra|]. split; [lra|lia].
Qed.

Lemma plan_wait e m bufs cur d : horizon K e (m :: bufs) -> is_u64 d ->
  inject_Z cur - E <= line_time e (current_byte_offset e) < inject_Z cur + 1 + E ->
  inject_Z d * npb e - delta <= goal m - inject_Z cur < (inject_Z d + 1) * npb e + delta ->
  plan_ok e (current_byte_offset e) m (set_timestamp_dynfield m d) /\
  inject_Z (current_byte_offset e + d) * npb e <= inject_Z (2 ^ 50) + 2097152.
Proof.
  intros HZ Hd [C1 C2] [D1 D2]. unfold plan_ok. rewrite ident_set_timestamp, get_set_timestamp by done.
  assert (line_time e (current_byte_offset e + d) ==
    line_time e (current_byte_offset e) + inject_Z d * npb e) as Hlt.
  { unfold line_time. rewrite inject_Z_plus. ring. }
  split; [split; [done|]; rewrite Hlt; split; [lra|]; split; [lra|]; intros _; lra|].
  destruct (horizon_head _ _ _ HZ) as [Hg _]. rewrite Zle_Qle, inject_Z_plus in Hg. fold (goal m) in Hg.
  unfold line_time in Hlt, C2. pose proof lc_E. pose proof lc_delta.
  change (inject_Z (2 ^ 50)) with 1125899906842624 in *. lra.
Qed.

Lemma plan_packet_ok e m bufs : horizon K e (m :: bufs) ->
  exists e' ev p, plan_packet e m = Ok (e', ev, p) /\ horizon K e' bufs /\ plan_step e m bufs e' p.
Proof.
  intros HZ. destruct (lc_current e _ HZ) as (cur & Hcur & C & C3).
  destruct (diff_range e m bufs cur HZ C3 C) as (S1 & S2 & Hdiff).
  pose proof (horizon_skip e m bufs HZ) as HZ0. pose proof (hz_over _ _ _ HZ) as Z4.
  pose proof (hz_offset _ _ _ HZ) as Z5. destruct (horizon_head _ _ _ HZ) as [_ Z6].
  unfold plan_packet. rewrite Hcur. unfold mbind, res_bind. rewrite s64_id by done.
  set (diff := (get_timestamp_dynfield m - cur)%Z) in *.
  destruct (Z.ltb_spec diff 0) as [Hlate|Hwait]; [destruct (Z.ltb_spec diff (-100000)) as [Hdrop|Hsend]|].
  - eexists _, _, None. split; [reflexivity|]. split; [done|]. split; [|done].
    rewrite Zlt_Qlt in Hdrop. change (inject_Z (-100000)) with (-100000) in Hdrop. lra.
  - destruct (horizon_advance e m bufs (current_byte_offset e) HZ) as [Ha Hb]; [lia|left; lra|].
    eexists _, _, (Some (set_timestamp_dynfield m 0)). split; [reflexivity|].
    rewrite set_timestamp_len, u64_add_r, u64_id by (unfold is_u64; lia).
    split; [exact Ha|]. split.
    + rewrite Zle_Qle in Hsend. rewrite Zlt_Qlt in Hlate. eapply plan_late; [done..|].
      change (inject_Z (-100000)) with (-100000) in Hsend. change (inject_Z 0) with 0 in Hlate. lra.
    + unfold planned_bytes. rewrite set_timestamp_len, get_set_timestamp by done. f_equal. lia.
  - destruct (lc_delay (NANOSECONDS_PER_BYTE e) diff) as (d & Hd & D0 & D1); [apply HZ..|lia|].
    rewrite Hd. pose proof (d_to_u64_range _ _ Hd) as Hdr. rewrite Hdiff in D1.
    destruct (plan_wait e m bufs cur d HZ Hdr C D1) as [P1 P2].
    destruct (horizon_advance e m bufs (current_byte_offset e + d) HZ) as [Ha Hb]; [lia|by right|].
    eexists _, _, (Some (set_timestamp_dynfield m d)). split; [reflexivity|].
    rewrite set_timestamp_len, u64_add_r, u64_id by (unfold is_u64; lia).
    replace (current_byte_offset e + (pkt_len m + OVERHEAD e + d))%Z
      with (current_byte_offset e + d + (pkt_len m + OVERHEAD e))%Z by lia.
    split; [exact Ha|]. split; [exact P1|].
    unfold planned_bytes. rewrite set_timestamp_len, get_set_timestamp by done. f_equal. lia.
Qed.

Lemma plan_ok_list_same e e' o bufs ps :
  first_timestamp e' = first_timestamp e -> NANOSECONDS_PER_BYTE e' = NANOSECONDS_PER_BYTE e ->
  OVERHEAD e' = OVERHEAD e -> plan_ok_list e' o bufs ps -> plan_ok_list e o bufs ps.
Proof.
  intros E1 E2 E3. revert o ps. induction bufs as [|m bufs IH]; intros o [|[m'|] ps]; try done; cbn.
  - unfold plan_ok, line_time, npb. rewrite E1, E2, E3. intros [? ?]. split; [done|]. by apply IH.
  - unfold line_time, npb. rewrite E1, E2. intros [? ?]. split; [done|]. by apply IH.
Qed.

Lemma plan_batch_ok bufs : forall e, horizon K e bufs ->
  exists e' ev ps, plan_batch e bufs = Ok (e', ev, ps) /\
    plan_ok_list e (current_byte_offset e) bufs ps /\
    (current_byte_offset e' = current_byte_offset e + zsum (planned_bytes (OVERHEAD e)) (present ps))%Z.
Proof.
  induction bufs as [|m bufs IH]; intros e HZ.
  { eexists e, [], []. split; [done|]. split; [done|]. cbn. lia. }
  destruct (plan_packet_ok e m bufs HZ) as (e1 & ev1 & p & E1 & HZ1 & Hs).
  destruct (IH e1 HZ1) as (e2 & ev2 & ps & E2 & Hl & Ho). cbn [plan_batch]. rewrite E1.
  unfold mbind, res_bind. rewrite E2. eexists _, _, (p :: ps). split; [reflexivity|].
  destruct p as [m'|]; destruct Hs as [Hs ->]; (split; [split; [exact Hs|]|]).
  - by apply (plan_ok_list_same e (with_offset e (current_byte_offset e + planned_bytes (OVERHEAD e) m'))).
  - rewrite Ho. change (present (Some m' :: ps)) with (m' :: present ps). cbn [zsum].
    cbn [current_byte_offset with_offset OVERHEAD]. lia.
  - exact Hl.
  - rewrite Ho. done.
Qed.

(** The counter is far from its width. *)
Lemma horizon_offset e bufs : horizon K e bufs -> (0 <= current_byte_offset e < 2 ^ 58)%Z.
Proof.
  intros [_ Ho _ [Hn _] _ Hr _ _]. split; [done|]. rewrite Zlt_Qlt. rewrite Zle_Qle in Ho.
  assert (0 <= inject_Z (Z.of_nat (length bufs)) * inject_Z (2 ^ 30)) as Hl.
  { apply Qmult_le_0_compat; rewrite <- (Zle_Qle 0); lia. }
  change (inject_Z 0) with 0 in Ho. change (inject_Z (2 ^ 51)) with 2251799813685248 in Hr.
  change (inject_Z (2 ^ 58)) with 288230376151711744. nra.
Qed.

(** The counter after a batch follows the line exactly: nothing wraps. *)
Lemma send_batch_offset e r w bufs l' ev :
  limiter_wf r -> (0 <= previous_missing_delay r < min_gap r)%Z ->
  OVERHEAD e = PACKET_OVERHEAD r -> horizon K e bufs -> bufs <> [] ->
  healthy_burst (Launch e r w) bufs = true -> send_batch (Launch e r w) bufs = Ok (l', ev) ->
  first_timestamp (emulator l') = first_timestamp e /\
  NANOSECONDS_PER_BYTE (emulator l') = NANOSECONDS_PER_BYTE e /\
  OVERHEAD (emulator l') = OVERHEAD e /\
  ratelimiter l' = set_missing r (previous_missing_delay (ratelimiter l')) /\
  (current_byte_offset (emulator l') = current_byte_offset e + line_bytes r ev
     + previous_missing_delay (ratelimiter l') - previous_missing_delay r)%Z.
Proof.
  intros WF Hm Hover HZ Hne Hh Hok.
  destruct (plan_batch_ok bufs e HZ) as (e' & ev0 & ps & Hplan & _ & Hoff).
  unfold healthy_burst in Hh. destruct bufs as [|b bufs]; [done|]. cbn [emulator] in Hh.
  rewrite Hplan in Hh. apply andb_true_iff in Hh as [Hlast Hg]. apply gap_okb_ok in Hg.
  unfold send_batch in Hok. cbn [emulator ratelimiter world] in Hok. rewrite Hplan in Hok.
  cbn [mbind res_bind] in Hok. res_inv. cbn [emulator ratelimiter].
  assert (is_u64 (current_byte_offset e)) as Ho by (apply horizon_offset in HZ; unfold is_u64; lia).
  destruct (plan_batch_frame _ _ _ _ _ Ho Hplan) as [F1 F2 F3 _ F5 _ _].
  apply send_packets_line_bytes in E0; [|done..]. destruct E0 as (Er & _ & Hb).
  do 4 (split; [done|]). rewrite Hoff, line_bytes_app, Hb, Hover.
  unfold line_bytes at 1. rewrite F5. cbn. lia.
Qed.

(** The packets that stay, with the offset each was planned at. *)
Lemma plan_ok_lookup e bufs : forall o ps k m',
  plan_ok_list e o bufs ps -> present ps !! k = Some m' ->
  exists m, m ∈ bufs /\ plan_ok e (o + zsum (planned_bytes (OVERHEAD e)) (take k (present ps))) m m'.
Proof.
  induction bufs as [|m bufs IH]; intros o [|[p|] ps] k m' Hl Hk; try done.
  - destruct Hl as [Hp Hl]. destruct k as [|k]; cbn in Hk.
    + injection Hk as ->. exists m. split; [set_solver|]. cbn. by rewrite Z.add_0_r.
    + destruct (IH _ _ _ _ Hl Hk) as (m0 & Hm0 & H0). exists m0. split; [set_solver|].
      cbn. by rewrite Z.add_assoc.
  - destruct Hl as [_ Hl]. destruct (IH _ _ _ _ Hl Hk) as (m0 & Hm0 & H0).
    exists m0. split; [set_solver|done].
Qed.

(** Bytes of the line before packet [k] of a paced stream. *)
Definition bytes_before (r : RateLimiterCRC) (fss : list (list mbuf)) (ps : list mbuf) (k : nat) : Z :=
  (zsum (wire r) (interleave (take k fss) (take k ps)) + zsum (wire r) (default [] (fss !! k)))%Z.

Lemma bytes_before_gaps r s ps r' s' fss k :
  sends r s ps r' s' fss -> (0 <= previous_missing_delay r < min_gap r)%Z ->
  (k < length (present ps))%nat -> exists d,
  (0 <= d < min_gap r)%Z /\
  (bytes_before r fss (present ps) k + d =
    previous_missing_delay r + zsum (planned_bytes (PACKET_OVERHEAD r)) (take k (present ps))
    + default 0 (gaps ps !! k))%Z.
Proof.
  intros H Hm Hk. pose proof (sends_length _ _ _ _ _ _ H) as Hlen.
  assert (Forall (fun t => 0 <= t)%Z (gaps ps)) as Hpos.
  { apply Forall_fmap, Forall_true. intros m. apply (get_timestamp_u64 m). }
  pose proof (pace_on_time (min_gap r) (previous_missing_delay r) (gaps ps) Hm Hpos (S k)) as Hp.
  rewrite <- (se_bytes _ _ _ _ _ _ H) in Hp.
  destruct (lookup_lt_is_Some_2 fss k) as [fs Hfs]; [lia|].
  destruct (lookup_lt_is_Some_2 (gaps ps) k) as [g Hg]; [unfold gaps; rewrite length_fmap; lia|].
  rewrite <- fmap_take, <- zsum_concat in Hp.
  rewrite (take_S_r _ _ _ Hfs), (take_S_r _ _ _ Hg), concat_app, !zsum_app in Hp. cbn in Hp.
  rewrite app_nil_r in Hp.
  unfold bytes_before. rewrite Hfs, Hg. cbn [default].
  rewrite interleave_bytes by (rewrite !length_take; lia).
  eexists. split; [exact Hp|].
  assert (zsum (planned_bytes (PACKET_OVERHEAD r)) (take k (present ps)) =
    zsum (wire r) (take k (present ps)) + zsum id (take k (gaps ps)))%Z as ->.
  { unfold gaps. rewrite <- fmap_take. induction (take k (present ps)) as [|m ms IH]; [done|].
    cbn. rewrite IH. unfold planned_bytes, wire. lia. }
  unfold id. lia.
Qed.

(** Every packet of a burst that [send_batch] transmits leaves in the window
    around its launch time, [base] being the bytes transmitted since the
    timestamped frame. *)
Definition in_window e (gap : Z) (m : mbuf) (pos : Z) : Prop :=
  goal m - inject_Z gap * npb e - E - delta < line_time e pos /\
  line_time e pos < goal m + 100001 + E + delta.

Lemma planned_window e gap m m' o pos d :
  0 <= npb e -> plan_ok e o m m' -> (0 <= d < gap)%Z -> (o + get_timestamp_dynfield m' = pos + d)%Z ->
  in_window e gap m pos.
Proof.
  intros Hn (_ & P1 & P2 & _) Hd Eo. rewrite Eo in P1, P2.
  assert (line_time e (pos + d) == line_time e pos + inject_Z d * npb e) as El.
  { unfold line_time. rewrite inject_Z_plus. ring. }
  rewrite El in P1, P2.
  assert (0 <= inject_Z d <= inject_Z gap - 1) as [Hd0 Hd1].
  { split; [rewrite <- (Zle_Qle 0); lia|].
    change (inject_Z gap - 1) with (inject_Z gap + inject_Z (-1)).
    rewrite <- inject_Z_plus, <- Zle_Qle. lia. }
  assert (inject_Z d * npb e <= (inject_Z gap - 1) * npb e) by (apply Qmult_le_compat_r; lra).
  assert (0 <= inject_Z d * npb e) by (apply Qmult_le_0_compat; lra).
  split; lra.
Qed.

Lemma send_batch_window e r w bufs base :
  limiter_wf r -> (0 <= previous_missing_delay r < min_gap r)%Z ->
  OVERHEAD e = PACKET_OVERHEAD r -> horizon K e bufs -> bufs <> [] ->
  current_byte_offset e = (base + previous_missing_delay r)%Z ->
  healthy_burst (Launch e r w) bufs = true ->
  match send_batch (Launch e r w) bufs with
  | Ok (_, ev) => exists fss ps, handed_on ev = interleave fss ps /\ length fss = length ps /\
      (ident <$> ps) `sublist_of` (ident <$> bufs) /\
      ident <$> (ps ++ freed ev) ≡ₚ ident <$> bufs /\
      forall k m', ps !! k = Some m' -> exists m, m ∈ bufs /\ ident m' = ident m /\
        in_window e (min_gap r) m (base + bytes_before r fss ps k)
  | UB u => u = NullDeref /\ pool_dry_from (allocs w)
  end.
Proof.
  intros WF Hm Hover HZ Hne Hsync Hh.
  destruct (plan_batch_ok bufs e HZ) as (e' & ev & ps & Hplan & Hlist & _).
  unfold healthy_burst in Hh. destruct bufs as [|b bufs]; [done|]. cbn [emulator] in Hh.
  rewrite Hplan in Hh. apply andb_true_iff in Hh as [Hlast Hg]. apply gap_okb_ok in Hg.
  unfold send_batch. cbn [emulator ratelimiter world]. rewrite Hplan. cbn [mbind res_bind].
  pose proof (send_packets_sends r w ps WF Hm Hg) as H.
  destruct (send_packets r w ps) as [[[r' w'] ev']|u]; [|done].
  destruct H as (fss & s' & H & -> & _). cbn [mbind res_bind]. exists fss, (present ps).
  assert (is_u64 (current_byte_offset e)) as Ho by (apply horizon_offset in HZ; unfold is_u64; lia).
  pose proof (plan_batch_frame _ _ _ _ _ Ho Hplan) as HF.
  split; [|split; [apply (sends_length _ _ _ _ _ _ H)|split; [apply HF|split]]].
  { rewrite handed_on_app, (pf_quiet _ _ _ _ _ HF). apply (sends_all _ _ _ _ _ _ H Hlast). }
  { rewrite freed_app, (batches_free_none r (sent s')), app_nil_r by apply (se_locals _ _ _ _ _ _ H).
    apply HF. }
  intros k m' Hk. destruct (plan_ok_lookup e _ _ _ _ _ Hlist Hk) as (m & Hin & HP).
  destruct (bytes_before_gaps _ _ _ _ _ _ k H Hm) as (d & Hd & Hb).
  { apply lookup_lt_is_Some. by eexists. }
  assert (gaps ps !! k = Some (get_timestamp_dynfield m')) as Hgk
    by (unfold gaps; rewrite list_lookup_fmap, Hk; done).
  rewrite Hgk in Hb. change (default 0%Z (Some ?x)) with x in Hb. rewrite Hover in HP.
  exists m. split; [done|]. split; [apply HP|].
  eapply planned_window; [|exact HP|exact Hd|lia]. destruct (hz_npb _ _ _ HZ). lra.
Qed.
End Clock.
End Accuracy.

(** ** The clock in exact and in rounded arithmetic *)

Lemma floor_bounds (q : Q) : (inject_Z (Qfloor q) <= q /\ q < inject_Z (Qfloor q) + 1)%Q.
Proof.
  split; [apply Qfloor_le|]. pose proof (Qlt_floor q) as H.
  rewrite inject_Z_plus in H. exact H.
Qed.

Section ClockLaws.
Context `{FO : FloatOps D} {FL : FloatLaws D} `{TS : TimestampDynfield}.
#[local] Open Scope Q_scope.

Lemma to_u64_floor (x : D) (b : Q) : dfin x -> 0 <= dval x -> dval x <= b -> b <= inject_Z (2 ^ 62) ->
  exists z, d_to_u64 x = Ok z /\ (0 <= z < 2 ^ 63)%Z /\ inject_Z z <= dval x < inject_Z z + 1.
Proof.
  intros Hf H0 Hb Hlt. exists (Qfloor (dval x)). destruct (floor_bounds (dval x)) as [F1 F2]. split; [|split].
  - rewrite <- Qtrunc_floor by done. apply d_to_u64_ok; [done..|].
    change (inject_Z (2 ^ 62)) with 4611686018427387904 in Hlt.
    change (inject_Z (2 ^ 64)) with 18446744073709551616. lra.
  - split; [change 0%Z with (Qfloor 0); by apply Qfloor_resp_le|].
    rewrite Zlt_Qlt. change (inject_Z (2 ^ 63)) with 9223372036854775808.
    change (inject_Z (2 ^ 62)) with 4611686018427387904 in Hlt. lra.
  - split; done.
Qed.

(** A wait of [diff] ns: the quotient, rounded by at most [delta] ns in all. *)
Lemma delay_bytes_spec (x : D) (diff : Z) (delta : Q) :
  dfin x -> 1 # 64 <= dval x -> (0 <= diff <= 2 ^ 51)%Z -> 0 <= delta <= 1 ->
  Qabs (rnd (inject_Z diff / dval x) - inject_Z diff / dval x) * dval x <= delta ->
  exists d, d_to_u64 (d_of_Z diff / x)%D = Ok d /\ (0 <= d)%Z /\
    inject_Z d * dval x - delta <= inject_Z diff < (inject_Z d + 1) * dval x + delta.
Proof.
  intros Hx Hn Hd Hdelta Herr. assert (dval (d_of_Z diff) == inject_Z diff) as Ed by (apply d_of_Z_exact; lia).
  destruct (dbnd_div (d_of_Z diff) x 64 6) as ((Bf & _) & Bv & B0); [lia..| |done| | |].
  { apply dbnd_of_u64. unfold is_u64. lia. }
  { rewrite Ed. rewrite <- (Zle_Qle 0). lia. }
  { change (inject_Z (2 ^ 6)) with 64. lra. }
  rewrite Ed in Bv, B0. set (q := inject_Z diff / dval x) in *. set (rq := rnd q) in *.
  assert (q * dval x == inject_Z diff) as Eq by (unfold q; field; lra).
  assert (inject_Z diff <= 2251799813685248) as Hd2.
  { change 2251799813685248 with (inject_Z (2 ^ 51)). rewrite <- Zle_Qle. lia. }
  assert (- delta <= (rq - q) * dval x <= delta) as He.
  { apply Qabs_Qle_condition. rewrite Qabs_Qmult, (Qabs_pos (dval x)) by lra. exact Herr. }
  destruct (to_u64_floor (d_of_Z diff / x)%D 4611686018427387904) as (d & Ed' & Hd0 & F1 & F2);
    [done|rewrite Bv; by apply rnd_nonneg|rewrite Bv; fold rq; nra|done|].
  exists d. split; [done|]. split; [lia|]. rewrite Bv in F1, F2. fold rq in F1, F2.
  assert (inject_Z d * dval x <= rq * dval x) by (apply Qmult_le_compat_r; lra).
  assert (rq * dval x < (inject_Z d + 1) * dval x) by (apply Qmult_lt_r; lra).
  split; lra.
Qed.

(** Rounding errors as intervals. *)
Lemma abs_err x y c : Qabs (x - y) <= c -> y - c <= x <= y + c.
Proof. intros H. apply Qabs_Qle_condition in H. lra. Qed.

Lemma inject_tiny (z : Z) : (0 <= z)%Z -> inject_Z z == 0 \/ pw (-800) <= Qabs (inject_Z z).
Proof.
  intros Hz. destruct (Z.eq_dec z 0) as [->|]; [by left|]. right.
  rewrite Qabs_pos by (rewrite <- (Zle_Qle 0); lia). apply Qle_trans with (inject_Z 1).
  - apply (pw_le (-800) 0). lia.
  - rewrite <- Zle_Qle. lia.
Qed.

(** The product of the offset and the time per byte, with both roundings. *)
Lemma elapsed_spec (x : D) (o : Z) : dfin x -> 1 # 64 <= dval x <= inject_Z (2 ^ 13) -> (0 <= o)%Z ->
  inject_Z o * dval x <= inject_Z (2 ^ 51) ->
  dbnd (d_of_Z o * x)%D 77 /\ 0 <= dval (d_of_Z o * x)%D /\
  Qabs (dval (d_of_Z o * x)%D - inject_Z o * dval x) <= 1 # 2.
Proof.
  intros Hx [Hn1 Hn2] Ho Hr. rewrite Zle_Qle in Ho. change (inject_Z 0) with 0 in Ho.
  change (inject_Z (2 ^ 13)) with 8192 in Hn2. change (inject_Z (2 ^ 51)) with 2251799813685248 in Hr.
  assert (inject_Z o <= 144115188075855872) as Ho' by nra.
  assert (is_u64 o) as Hu.
  { split; [by rewrite Zle_Qle|]. rewrite Zlt_Qlt. change (inject_Z (2 ^ 64)) with 18446744073709551616. lra. }
  pose proof (dbnd_of_u64 o Hu) as Bo. destruct (d_of_Z_spec o) as [_ Vo]; [unfold is_u64 in Hu; lia|].
  assert (dbnd x 13) as Bx.
  { split; [done|]. rewrite Qabs_pos by lra. change (inject_Z (2 ^ 13)) with 8192. lra. }
  destruct (dbnd_mul (d_of_Z o) x 64 13) as [Bp Vp]; [lia..|done|done|].
  assert (rnd (inject_Z o) - inject_Z o <= inject_Z o * pw (-53) /\
          - (inject_Z o * pw (-53)) <= rnd (inject_Z o) - inject_Z o) as [E1 E2].
  { apply and_comm, Qabs_Qle_condition.
    destruct (inject_tiny o) as [H0|Ht]; [by apply Hu| |].
    - rewrite H0, rnd_0. change (Qabs (0 - 0)) with 0. lra.
    - apply rnd_rel in Ht. by rewrite (Qabs_pos (inject_Z o)) in Ht. }
  rewrite <- Vo in E1, E2. set (v := dval (d_of_Z o)) in *.
  assert (0 <= v) as Hv by (rewrite Vo; by apply rnd_nonneg).
  assert (inject_Z o * dval x * pw (-53) <= 1 # 4) as H53.
  { apply Qle_trans with (2251799813685248 * pw (-53)); [|done].
    apply Qmult_le_compat_r; [exact Hr|apply Qlt_le_weak, pw_pos]. }
  assert (Qabs (v * dval x - inject_Z o * dval x) <= 1 # 4) as A1.
  { apply Qabs_Qle_condition.
    assert ((v - inject_Z o) * dval x <= inject_Z o * pw (-53) * dval x) by (apply Qmult_le_compat_r; lra).
    assert (- (inject_Z o * pw (-53)) * dval x <= (v - inject_Z o) * dval x) by (apply Qmult_le_compat_r; lra).
    split; lra. }
  apply abs_err in A1.
  assert (Qabs (rnd (v * dval x) - v * dval x) <= 1 # 4) as A2.
  { apply (rnd_err _ 52); [lia|]. change (2 ^ 52) with 4503599627370496.
    rewrite Qabs_pos by (apply Qmult_le_0_compat; lra). lra. }
  split; [exact Bp|]. rewrite Vp. split; [apply rnd_nonneg, Qmult_le_0_compat; lra|].
  apply abs_err in A2. apply Qabs_Qle_condition. split; lra.
Qed.

Lemma pow_Z_pw K : (0 <= K)%Z -> inject_Z (2 ^ K) == pw K.
Proof. intros HK. symmetry. by apply pw_Z. Qed.

(** Time stamps below [2 ^ K]: two roundings of at most half a unit in the last
    place, and half a nanosecond for the elapsed time. *)
Lemma current_rounded K e bufs : (53 <= K <= 62)%Z -> horizon K e bufs ->
  exists cur, current_sending_time e = Ok cur /\ (0 <= cur < 2 ^ 63)%Z /\
    inject_Z cur - (pw (K - 53) + (1 # 2)) <= line_time e (current_byte_offset e)
      < inject_Z cur + 1 + (pw (K - 53) + (1 # 2)).
Proof.
  intros HK [Hf Ho Hfin Hn _ Hr _ _]. pose proof (Z.pow_le_mono_r 2 K 62 ltac:(lia) ltac:(lia)) as HK2.
  assert (0 <= inject_Z (Z.of_nat (length bufs)) * inject_Z (2 ^ 30)) as Hl.
  { apply Qmult_le_0_compat; rewrite <- (Zle_Qle 0); lia. }
  destruct (elapsed_spec (NANOSECONDS_PER_BYTE e) (current_byte_offset e)) as (Bp & P0 & P1); [done..| |].
  { unfold npb in Hr. lra. }
  set (p := (d_of_Z (current_byte_offset e) * NANOSECONDS_PER_BYTE e)%D) in *. apply abs_err in P1.
  assert (is_u64 (first_timestamp e)) as Hu by (unfold is_u64; lia).
  pose proof (dbnd_weaken _ 64 77 ltac:(lia) (dbnd_of_u64 _ Hu)) as Bf.
  destruct (d_of_Z_spec (first_timestamp e)) as [_ Vf]; [lia|].
  destruct (dbnd_add (d_of_Z (first_timestamp e)) p 77) as [[Sf _] Sv]; [lia|done|done|].
  destruct Hf as [Hf1 Hf2]. rewrite Zle_Qle in Hf1, Hf2. unfold Z.sub in Hf2.
  rewrite inject_Z_plus, (pow_Z_pw K) in Hf2 by lia. change (inject_Z 0) with 0 in Hf1.
  change (inject_Z (- 2 ^ 52)) with (- 4503599627370496) in Hf2.
  change (inject_Z (2 ^ 51)) with 2251799813685248 in Hr.
  assert (pw (K - 53) == 2 * pw (K - 54)) as Ep by (replace (K - 53)%Z with (K - 54 + 1)%Z by lia; apply pw_succ).
  assert (pw (K - 54) <= 256) as Hp by (apply (pw_le (K - 54) 8); lia).
  pose proof (pw_pos (K - 54)) as Hp0.
  assert (Qabs (rnd (inject_Z (first_timestamp e)) - inject_Z (first_timestamp e)) <= pw (K - 54)) as A1.
  { apply (rnd_err _ K); [lia|]. change (2 ^ K) with (pw K). rewrite Qabs_pos by done. lra. }
  apply abs_err in A1. rewrite <- Vf in A1. set (f := dval (d_of_Z (first_timestamp e))) in *.
  assert (0 <= f) as F0 by (rewrite Vf; by apply rnd_nonneg). unfold npb in *.
  assert (f + dval p <= pw K) as Hs by lra.
  assert (Qabs (rnd (f + dval p) - (f + dval p)) <= pw (K - 54)) as A2.
  { apply (rnd_err _ K); [lia|]. change (2 ^ K) with (pw K). by rewrite Qabs_pos by lra. }
  apply abs_err in A2.
  destruct (to_u64_floor (d_of_Z (first_timestamp e) + p)%D (pw K)) as (cur & Ec & Hc & C); [done|..].
  - rewrite Sv. apply rnd_nonneg. lra.
  - rewrite Sv. apply Qle_trans with (rnd (pw K)); [by apply rnd_mono|].
    unfold pw. rewrite rnd_pow2 by lia. apply Qle_refl.
  - rewrite pow_Z_pw by lia. apply pw_le. lia.
  - rewrite Sv in C. exists cur. split; [exact Ec|]. split; [done|]. unfold line_time, npb. split; lra.
Qed.

Lemma rounded_clock K : (53 <= K <= 62)%Z -> LaunchClock K (pw (K - 53) + (1 # 2)) (1 # 4).
Proof.
  intros HK. pose proof (pw_pos (K - 53)) as Hp.
  assert (pw (K - 53) <= 512) by (apply (pw_le (K - 53) 9); lia).
  split; [lia|lra|lra|..].
  - intros e bufs HZ. destruct (current_rounded K e bufs HK HZ) as (cur & ? & ? & ?). by exists cur.
  - intros x diff Hx [Hn Hn2] Hd. apply delay_bytes_spec; [done..|lra|].
    assert (0 <= inject_Z diff <= inject_Z (2 ^ 51)) as [D0 D1].
    { split; [rewrite <- (Zle_Qle 0)|rewrite <- Zle_Qle]; lia. }
    change (inject_Z (2 ^ 51)) with 2251799813685248 in D1. change (inject_Z (2 ^ 13)) with 8192 in Hn2.
    set (q := inject_Z diff / dval x).
    assert (q * dval x == inject_Z diff) as Eq by (unfold q; field; lra).
    destruct (Z.eq_dec diff 0) as [E0|Hne].
    { assert (q == 0) as Hq0 by (unfold q; rewrite E0; field; lra).
      rewrite Hq0, rnd_0. change (Qabs (0 - 0)) with 0. lra. }
    assert (1 <= inject_Z diff) as D2 by (change 1 with (inject_Z 1); rewrite <- Zle_Qle; lia).
    assert (1 # 8192 <= q) as Hq by (apply Qle_shift_div_l; lra).
    apply Qle_trans with (q * pw (-53) * dval x).
    + apply Qmult_le_compat_r; [|lra]. rewrite <- (Qabs_pos q) at 3 by lra. apply rnd_rel.
      rewrite Qabs_pos by lra. eapply Qle_trans; [|exact Hq]. apply (pw_le (-800) (-13)). lia.
    + assert (q * pw (-53) * dval x == inject_Z diff * pw (-53)) as -> by (rewrite <- Eq; ring).
      apply Qle_trans with (2251799813685248 * pw (-53)); [|done].
      apply Qmult_le_compat_r; [exact D1|apply Qlt_le_weak, pw_pos].
Qed.

End ClockLaws.

Section ExactClock.
#[local] Existing Instances exact_ops exact_laws.
Context `{TS : TimestampDynfield} `{MP : MbufPool}.
#[local] Open Scope Q_scope.

Lemma exact_clock : LaunchClock (FL := exact_laws) 62 0 0.
Proof.
  split; [lia|lra|lra|..].
  - intros e bufs [Hf Ho _ [Hn Hn2] _ Hr _ _].
    assert (0 <= inject_Z (Z.of_nat (length bufs)) * inject_Z (2 ^ 30)) as Hl.
    { apply Qmult_le_0_compat; rewrite <- (Zle_Qle 0); lia. }
    assert (0 <= inject_Z (current_byte_offset e) * npb e) as Hp.
    { apply Qmult_le_0_compat; [by rewrite <- (Zle_Qle 0)|lra]. }
    destruct Hf as [Hf1 Hf2]. rewrite Zle_Qle in Hf1, Hf2. change (inject_Z 0) with 0 in Hf1.
    change (inject_Z (2 ^ 62 - 2 ^ 52)) with 4607182418800017408 in Hf2.
    change (inject_Z (2 ^ 51)) with 2251799813685248 in Hr.
    destruct (to_u64_floor (FL := exact_laws) (line_time e (current_byte_offset e)) 4611686018427387904)
      as (cur & Ec & Hc & C); [done|unfold line_time; cbn [dval exact_laws]; lra
        |unfold line_time; cbn [dval exact_laws]; lra|done|].
    cbn [dval exact_laws] in C. exists cur. split; [exact Ec|]. split; [lra|exact Hc].
  - intros x diff Hx [Hn _] Hd. apply delay_bytes_spec; [done..|lra|].
    cbn [rnd dval exact_laws]. set (q := inject_Z diff / x).
    assert (q - q == 0) as -> by ring. change (Qabs 0) with 0. lra.
Qed.

End ExactClock.

(** The deviation of a frame that starts at byte [pos] of the line from the
    launch time of [m] is at most [gap] bytes of line time and [early] ns
    early, and less than [late] ns late. *)
Definition departs `{FO : FloatOps D} {FL : FloatLaws D} `{TS : TimestampDynfield}
    (e : DelayEmulator D) (gap : Z) (early late : Q) (m : mbuf) (pos : Z) : Prop :=
  (goal m - inject_Z gap * npb e - early < line_time e pos /\ line_time e pos < goal m + late)%Q.

Section OnTime.
Context `{TS : TimestampDynfield} `{MP : MbufPool}.
#[local] Open Scope Q_scope.


(** Launch accuracy in exact arithmetic: a packet leaves less than one
    minimal gap of line time before its launch time, and at most 100.001 us
    after it. *)
Theorem send_batch_on_time_exact (e : DelayEmulator Q) r w bufs base
    (WF : limiter_wf r) (Hm : (0 <= previous_missing_delay r < min_gap r)%Z)
    (Hover : OVERHEAD e = PACKET_OVERHEAD r) (HZ : horizon (FL := exact_laws) 62 e bufs) (Hne : bufs <> [])
    (Hsync : current_byte_offset e = (base + previous_missing_delay r)%Z)
    (Hh : healthy_burst (FO := exact_ops) (Launch e r w) bufs = true) :
  match send_batch (FO := exact_ops) (Launch e r w) bufs with
  | Ok (_, ev) => exists fss ps, handed_on ev = interleave fss ps /\ length fss = length ps /\
      forall k m', ps !! k = Some m' -> exists m, m ∈ bufs /\ ident m' = ident m /\
        departs (FL := exact_laws) e (min_gap r) 0 100001 m (base + bytes_before r fss ps k)
  | UB u => u = NullDeref /\ pool_dry_from (allocs w)
  end.
Proof.
  pose proof (send_batch_window (LC := exact_clock) 62 _ _ e r w bufs base WF Hm Hover HZ Hne Hsync Hh) as H.
  destruct (send_batch _ _) as [[l' ev]|u]; [|done].
  destruct H as (fss & ps & H1 & H2 & H3 & _ & H4). exists fss, ps. do 2 (split; [done|]).
  intros k m' Hk. destruct (H4 k m' Hk) as (m & Hin & Hid & W1 & W2). exists m. do 2 (split; [done|]).
  unfold departs. split; lra.
Qed.

End OnTime.

(** ** Evaluation *)

Section Witnesses.
#[local] Existing Instance cell_dynfield.
#[local] Existing Instance endless_pool.
#[local] Existing Instance exact_ops.

(** A 10 Gbit/s port, the sample limiter of CrcRate. *)
Definition sample_launch : launch Q :=
  Launch (mg_launchtimer_create 0 0 10000 20) sample_limiter sample_world.

(** Two packets 8 ms after the synchronisation, then an idle iteration. *)
Definition sample_launch_bursts : list (list mbuf) :=
  [[sample_mbuf 1 60 8000000; sample_mbuf 2 60 8000500]; []].


(** The emulator 100 bytes into the line, in double arithmetic, in 2023. *)
Definition sample_emulator : DelayEmulator spec_float :=
  with_offset (mg_launchtimer_create (FO := binary64_ops) 1700000000000000000 0 10000 20) 100.
Definition sample_launch_burst : list mbuf :=
  [sample_mbuf 1 60 1700000000000001000; sample_mbuf 2 60 1700000000000000000;
   sample_mbuf 3 60 1700000000000004000].

(** With times since 1970 the clock stands still for 160 bytes of line time and
    then jumps: 128 ns is half a unit in the last place. *)
Lemma epoch_clock_stalls :
  current_sending_time (FO := binary64_ops) (with_offset sample_emulator 159) = Ok 1700000000000000000 /\
  current_sending_time (FO := binary64_ops) (with_offset sample_emulator 161) = Ok 1700000000000000256.
Proof. vm_compute. done. Qed.

Lemma sample_horizon : horizon (FL := binary64_laws) 61 sample_emulator sample_launch_burst.
Proof.
  split; [vm_compute; split; congruence|vm_compute; congruence|vm_compute; reflexivity
    |vm_compute; split; congruence|vm_compute; congruence|vm_compute; congruence|cbn; lia|].
  repeat (apply Forall_cons; split; [split; [|split]; vm_compute; congruence|]). constructor.
Qed.


End Witnesses.
