(* ===== verification/Pipeline.v ===== *)
(** * Path emulation as a whole: receiver thread, ring, transmitter thread

    With hardware timestamps a receiver of src/moonem.cpp runs in one thread and
    [DelayEmulator::transmit_loop] of src/launch-timestamp.cpp in another; the
    only thing they share is the ring of packets.  A run of the system is any
    interleaving of their iterations.  The receiver is a parameter: the class
    [DelayedSource] is what it promises about the packets it enqueues, and the
    three receivers of the file Moonem implement it. *)
From S2P Require Import Prelude Dpdk LossModel Float Binary64 Moonem CrcRate LaunchTimestamp.
From Stdlib Require Import QArith Qround Qabs Lqa SpecFloat.

#[local] Open Scope Z_scope.

(** ** The system *)

Section System.
Context `{FO : FloatOps D} `{TS : TimestampDynfield} `{MP : MbufPool}.
Context `{RR : RteRing R} {RB : RteRingBurst R}.
Context {St : Type} (iter : St -> list mbuf -> res (St * list event)).

(** The states of the two threads and the ring, and the history of the run:
    the packets received, freed by the receiver, lost at a full ring, and the
    transmitter's effects from the timestamped frame on. *)
Record emu := Emu {
  rx_state : St;
  packet_ring : R;
  tx_state : launch D;
  received : list mbuf;
  rx_freed : list mbuf;
  leaked : list mbuf;
  tx_trace : list event
}.

(** An iteration of the receiver with the burst the port delivered, or one of
    the transmitter. *)
Inductive action := RxBurst (bufs : list mbuf) | TxIter.

Definition rx_iter (s : emu) (bufs : list mbuf) : res emu :=
  '(st, ev) ← iter (rx_state s) bufs;
  mret (Emu st (ring_after (packet_ring s) ev) (tx_state s) (received s ++ bufs)
          (rx_freed s ++ freed ev) (leaked s ++ ring_lost (packet_ring s) ev) (tx_trace s)).

(** [rte_ring_sc_dequeue_burst], then the body of the loop. *)
Definition tx_iter (s : emu) : res emu :=
  let '(transmit_pkts, ring) := ring_dequeue_burst (packet_ring s) (Z.to_nat TRANSMIT_BUFFER_SIZE) in
  '(l, ev) ← launch_iter (tx_state s) transmit_pkts;
  mret (Emu (rx_state s) ring l (received s) (rx_freed s) (leaked s) (tx_trace s ++ ev)).

Definition emu_step (s : emu) (a : action) : res emu :=
  match a with RxBurst bufs => rx_iter s bufs | TxIter => tx_iter s end.

Fixpoint emu_run (s : emu) (acts : list action) : res emu :=
  match acts with
  | [] => mret s
  | a :: acts => s ← emu_step s a; emu_run s acts
  end.

(** The transmitter right after its synchronisation, nothing received yet. *)
Definition emu_init (st : St) (ring : R) (l : launch D) (sync : list event) : emu :=
  Emu st ring l [] [] [] sync.

End System.
Arguments emu D R St : clear implicits.

(** ** What a receiver promises *)

Section Source.
Context `{TS : TimestampDynfield}.

(** [m'] is one of the packets [ms], with a timestamp between [lo] and [hi]
    later. *)
Definition delayed (lo hi : Q) (ms : list mbuf) (m' : mbuf) : Prop :=
  exists m, m ∈ ms /\ ident m' = ident m /\
    (inject_Z (get_timestamp_dynfield m) + lo <= inject_Z (get_timestamp_dynfield m')
       <= inject_Z (get_timestamp_dynfield m) + hi)%Q.

(** On bursts of packets that satisfy [rx], an iteration from a state that
    satisfies [ok] returns, accounts for every packet, only frees and
    enqueues, and enqueues packets whose launch time is between [lo] and [hi]
    after their arrival. *)
Class DelayedSource {St} (iter : St -> list mbuf -> res (St * list event))
    (ok : St -> Prop) (rx : mbuf -> Prop) (lo hi : Q) : Prop :=
  delayed_source : forall s i, ok s -> Forall rx i ->
    exists s' ev, iter s i = Ok (s', ev) /\ ok s' /\ conserves i ev /\ Forall queues ev /\
      Forall (delayed lo hi i) (handed_on ev).

Lemma delayed_mono lo hi ms ms' m' : (forall m, m ∈ ms -> m ∈ ms') ->
  delayed lo hi ms m' -> delayed lo hi ms' m'.
Proof. intros Hs (m & Hm & H). exists m. split; [by apply Hs|done]. Qed.

End Source.

(** ** Frames on the line *)

(** A frame with [true] is a packet of the load, with [false] a filler. *)
Definition loads (fr : list (bool * mbuf)) : list mbuf :=
  omap (fun f : bool * mbuf => if fst f then Some (snd f) else None) fr.

Definition frames (fss : list (list mbuf)) (ps : list mbuf) : list (bool * mbuf) :=
  concat (zip_with (fun fs p => (pair false <$> fs) ++ [(true, p)]) fss ps).

Lemma loads_app fr1 fr2 : loads (fr1 ++ fr2) = loads fr1 ++ loads fr2.
Proof. apply omap_app. Qed.

Lemma loads_fillers ms : loads (pair false <$> ms) = [].
Proof. by induction ms. Qed.

Lemma snd_fillers (ms : list mbuf) : snd <$> (pair false <$> ms) = ms.
Proof. induction ms as [|m ms IH]; [done|]. cbn. by f_equal. Qed.

Lemma frames_snd fss : forall ps, snd <$> frames fss ps = interleave fss ps.
Proof.
  unfold frames, interleave. induction fss as [|fs fss IH]; intros [|p ps]; [done..|].
  cbn [zip_with concat]. rewrite !fmap_app, IH, snd_fillers. done.
Qed.

Lemma loads_frames fss : forall ps, length fss = length ps -> loads (frames fss ps) = ps.
Proof.
  unfold frames. induction fss as [|fs fss IH]; intros [|p ps] Hl; try done.
  cbn [zip_with concat]. rewrite !loads_app, loads_fillers. cbn. f_equal. apply IH. by injection Hl.
Qed.

(** The first load behind some fillers. *)
Lemma frames_head fs p rest pre m' (post : list (bool * mbuf)) :
  (pair false <$> fs) ++ (true, p) :: rest = pre ++ (true, m') :: post ->
  (pre = (pair false <$> fs) /\ p = m') \/
  (exists pre', pre = (pair false <$> fs) ++ (true, p) :: pre' /\ rest = pre' ++ (true, m') :: post).
Proof.
  revert pre. induction fs as [|f fs IH]; intros pre H; cbn in H.
  - destruct pre as [|x pre]; injection H as <- H; [by left|]. right. by exists pre.
  - destruct pre as [|x pre]; [discriminate|]. injection H as <- H.
    destruct (IH pre H) as [[-> ->]|(pre' & -> & ->)]; [by left|]. right. by exists pre'.
Qed.

(** The position of a load on the line. *)
Lemma frames_split r fss : forall ps pre m' post, length fss = length ps ->
  frames fss ps = pre ++ (true, m') :: post ->
  exists k, ps !! k = Some m' /\ zsum (wire r) (snd <$> pre) = bytes_before r fss ps k.
Proof.
  induction fss as [|fs fss IH]; intros [|p ps] pre m' post Hl H; try done; [by destruct pre|].
  change (frames (fs :: fss) (p :: ps)) with (((pair false <$> fs) ++ [(true, p)]) ++ frames fss ps) in H.
  rewrite <- app_assoc in H. apply frames_head in H as [[-> ->]|(pre' & -> & H)].
  - exists 0%nat. split; [done|]. rewrite snd_fillers. done.
  - injection Hl as Hl. destruct (IH ps pre' m' post Hl H) as (k & Hk & E). exists (S k). split; [done|].
    unfold bytes_before in *. cbn [take]. change ((fs :: fss) !! S k) with (fss !! k).
    change (interleave (fs :: take k fss) (p :: take k ps))
      with ((fs ++ [p]) ++ interleave (take k fss) (take k ps)).
    rewrite fmap_app, fmap_cons, snd_fillers, !zsum_app. cbn [zsum snd]. rewrite E. lia.
Qed.

(** ** The invariant of a run *)

Section Run.
Context `{FO : FloatOps D} {FL : FloatLaws D} `{TS : TimestampDynfield} `{MP : MbufPool}.
Context `{RR : RteRing R} {RB : RteRingBurst R}.
Context {St : Type} (iter : St -> list mbuf -> res (St * list event)).
Context (ok : St -> Prop) (rx : mbuf -> Prop) (lo hi : Q) {DS : DelayedSource iter ok rx lo hi}.
Context (K : Z) (E delta : Q) {LC : LaunchClock K E delta}.

Implicit Types s : emu D R St.

(** The burst the next iteration of the transmitter takes. *)
Definition next_burst s : list mbuf :=
  fst (ring_dequeue_burst (packet_ring s) (Z.to_nat TRANSMIT_BUFFER_SIZE)).

(** The receiver gets packets its promise covers; the transmitter is inside
    the horizon, and the last packet of its burst is not dropped for being
    late. *)
Definition calm_step s (a : action) : Prop :=
  match a with
  | RxBurst bufs => Forall rx bufs
  | TxIter => horizon K (emulator (tx_state s)) (next_burst s) /\
              healthy_burst (tx_state s) (next_burst s) = true
  end.

Fixpoint calm s (acts : list action) : Prop :=
  match acts with
  | [] => True
  | a :: acts => calm_step s a /\
      match emu_step iter s a with Ok s => calm s acts | UB _ => True end
  end.

(** What never changes after the synchronisation. *)
Record same_clock (l0 l : launch D) : Prop := {
  sc_first : first_timestamp (emulator l) = first_timestamp (emulator l0);
  sc_npb : NANOSECONDS_PER_BYTE (emulator l) = NANOSECONDS_PER_BYTE (emulator l0);
  sc_over : PACKET_OVERHEAD (ratelimiter l) = PACKET_OVERHEAD (ratelimiter l0);
  sc_gap : min_gap (ratelimiter l) = min_gap (ratelimiter l0)
}.

(** A load at byte [pos] of the line is a packet received, in the window of
    its emulated delay. *)
Definition emulated (l0 : launch D) (ms : list mbuf) (m' : mbuf) (pos : Z) : Prop :=
  exists m, m ∈ ms /\ ident m' = ident m /\
    (goal m + lo - inject_Z (min_gap (ratelimiter l0)) * npb (emulator l0) - E - delta
       < line_time (emulator l0) pos < goal m + hi + 100001 + E + delta)%Q.

Definition all_emulated (l0 : launch D) (ms : list mbuf) (fr : list (bool * mbuf)) : Prop :=
  forall pre m' post, fr = pre ++ (true, m') :: post ->
    emulated l0 ms m' (zsum (wire (ratelimiter l0)) (snd <$> pre)).

Record emu_inv (l0 : launch D) s (fr : list (bool * mbuf)) : Prop := {
  ei_ok : ok (rx_state s);
  ei_launch : launch_inv (tx_state s);
  ei_clock : same_clock l0 (tx_state s);
  ei_sync : current_byte_offset (emulator (tx_state s)) =
    line_bytes (ratelimiter l0) (tx_trace s) + previous_missing_delay (ratelimiter (tx_state s));
  ei_frames : snd <$> fr = handed_on (tx_trace s);
  ei_order : (ident <$> (loads fr ++ ring_items (packet_ring s))) `sublist_of` (ident <$> received s);
  ei_conserve : ident <$> received s ≡ₚ
    ident <$> (loads fr ++ ring_items (packet_ring s) ++ rx_freed s ++ leaked s ++ freed (tx_trace s));
  ei_ring : Forall (delayed lo hi (received s)) (ring_items (packet_ring s));
  ei_time : all_emulated l0 (received s) fr
}.

Lemma emulated_mono l0 ms ms' m' pos : (forall m, m ∈ ms -> m ∈ ms') ->
  emulated l0 ms m' pos -> emulated l0 ms' m' pos.
Proof. intros Hs (m & Hm & H). exists m. split; [by apply Hs|done]. Qed.

(** Fillers, or frames of a batch, behind the frames so far. *)
Lemma all_emulated_app l0 ms fr fr' : all_emulated l0 ms fr ->
  (forall pre m' post, fr' = pre ++ (true, m') :: post -> emulated l0 ms m'
     (zsum (wire (ratelimiter l0)) (snd <$> fr) + zsum (wire (ratelimiter l0)) (snd <$> pre))) ->
  all_emulated l0 ms (fr ++ fr').
Proof.
  intros H1 H2 pre m' post Hs. apply app_eq_inv in Hs as [(k & E1 & E2)|(k & E1 & E2)].
  - destruct k as [|x k].
    + rewrite app_nil_r in E1. subst pre. specialize (H2 [] m' post (eq_sym E2)). cbn in H2.
      by rewrite Z.add_0_r in H2.
    + injection E2 as <- ->. by apply (H1 pre m' k).
  - rewrite E1, fmap_app, zsum_app. by apply (H2 k m' post).
Qed.

Lemma fillers_no_load ms pre m' (post : list (bool * mbuf)) :
  (pair false <$> ms) = pre ++ (true, m') :: post -> False.
Proof.
  revert pre. induction ms as [|m ms IH]; intros [|x pre] H; try discriminate.
  injection H as _ H. by apply (IH pre).
Qed.

Lemma same_clock_refl l : same_clock l l.
Proof. by split. Qed.

Lemma same_clock_trans l0 l1 l2 : same_clock l0 l1 -> same_clock l1 l2 -> same_clock l0 l2.
Proof. intros [? ? ? ?] [? ? ? ?]. split; congruence. Qed.

(** *** The receiver *)

Lemma rx_iter_inv l0 s fr bufs : emu_inv l0 s fr -> Forall rx bufs ->
  exists s', rx_iter iter s bufs = Ok s' /\ emu_inv l0 s' fr.
Proof.
  intros [I1 I2 I3 I4 I5 I6 I7 I8 I9] Hrx. unfold rx_iter.
  destruct (delayed_source _ bufs I1 Hrx) as (st' & ev & -> & O & [C1 C2] & Q & Dl). cbn [mbind res_bind].
  destruct (ring_after_spec ev (packet_ring s) Q) as (kept & K1 & K2 & K3).
  eexists. split; [reflexivity|]. split; cbn [rx_state packet_ring tx_state received rx_freed leaked tx_trace];
    [done..| | | |].
  - rewrite K1, app_assoc, fmap_app, (fmap_app ident (received s)). apply sublist_app; [done|].
    etransitivity; [|exact C2]. by apply fmap_sublist.
  - rewrite fmap_app, I7, <- C1, K1, <- fmap_app. apply fmap_Permutation.
    rewrite K3. solve_Permutation.
  - rewrite K1. apply Forall_app. split.
    + eapply Forall_impl; [exact I8|]. intros m'. apply delayed_mono. set_solver.
    + eapply Forall_sublist_of; [exact K2|]. eapply Forall_impl; [exact Dl|].
      intros m'. apply delayed_mono. set_solver.
  - intros pre m' post Hs. eapply emulated_mono; [|by apply (I9 pre m' post)]. set_solver.
Qed.

(** *** The transmitter *)

(** An iteration that took [burst] from the ring and put the frames [fr'] on
    the line. *)
Record tx_moves (l : launch D) (burst : list mbuf) (l' : launch D) (ev : list event)
    (fr' : list (bool * mbuf)) : Prop := {
  tm_launch : launch_inv l';
  tm_clock : same_clock l l';
  tm_sync : current_byte_offset (emulator l') = current_byte_offset (emulator l)
    + line_bytes (ratelimiter l) ev + previous_missing_delay (ratelimiter l')
    - previous_missing_delay (ratelimiter l);
  tm_frames : snd <$> fr' = handed_on ev;
  tm_order : (ident <$> loads fr') `sublist_of` (ident <$> burst);
  tm_conserve : ident <$> (loads fr' ++ freed ev) ≡ₚ ident <$> burst;
  tm_time : forall pre m' post, fr' = pre ++ (true, m') :: post ->
    exists m, m ∈ burst /\ ident m' = ident m /\
      in_window E delta (emulator l) (min_gap (ratelimiter l)) m
        (current_byte_offset (emulator l) - previous_missing_delay (ratelimiter l)
         + zsum (wire (ratelimiter l)) (snd <$> pre))
}.

Lemma in_window_delayed l0 l ms m m' pos : same_clock l0 l -> delayed lo hi ms m -> ident m' = ident m ->
  in_window E delta (emulator l) (min_gap (ratelimiter l)) m pos -> emulated l0 ms m' pos.
Proof.
  intros [C1 C2 C3 C4] (m0 & Hm0 & Hid & H1 & H2) Hid' [W1 W2]. exists m0.
  split; [done|]. split; [congruence|].
  unfold line_time, npb, goal in *. rewrite C1, C2 in *. rewrite C4 in W1. split; lra.
Qed.

Lemma tx_moves_inv l0 s fr ring' burst l' ev fr' :
  emu_inv l0 s fr -> ring_items (packet_ring s) = burst ++ ring_items ring' ->
  tx_moves (tx_state s) burst l' ev fr' ->
  emu_inv l0 (Emu (rx_state s) ring' l' (received s) (rx_freed s) (leaked s) (tx_trace s ++ ev)) (fr ++ fr').
Proof.
  intros [I1 I2 I3 I4 I5 I6 I7 I8 I9] Hring [T1 T2 T3 T4 T5 T6 T7].
  pose proof (line_bytes_overhead _ _ ev (sc_over _ _ I3)) as Hov.
  split; cbn [rx_state packet_ring tx_state received rx_freed leaked tx_trace]; try done.
  - by eapply same_clock_trans.
  - rewrite T3, I4, line_bytes_app, Hov. lia.
  - by rewrite fmap_app, I5, T4, handed_on_app.
  - etransitivity; [|exact I6]. rewrite loads_app, Hring, !fmap_app, <- app_assoc.
    apply sublist_app; [done|]. by apply sublist_app.
  - rewrite I7, Hring, loads_app, freed_app, !fmap_app.
    rewrite <- T6, fmap_app. solve_Permutation.
  - rewrite Hring in I8. by apply Forall_app in I8 as [_ ?].
  - apply all_emulated_app; [done|]. intros pre m' post Hs.
    destruct (T7 pre m' post Hs) as (m & Hin & Hid & W). rewrite I5.
    change (zsum (wire (ratelimiter l0)) (handed_on (tx_trace s)))
      with (line_bytes (ratelimiter l0) (tx_trace s)).
    rewrite Hring in I8. apply Forall_app in I8 as [I8 _]. rewrite Forall_forall in I8.
    eapply in_window_delayed; [exact I3|by apply I8|done|].
    rewrite I4 in W. replace (wire (ratelimiter (tx_state s))) with (wire (ratelimiter l0)) in W.
    + by replace (line_bytes (ratelimiter l0) (tx_trace s) + previous_missing_delay (ratelimiter (tx_state s))
        - previous_missing_delay (ratelimiter (tx_state s))) with (line_bytes (ratelimiter l0) (tx_trace s)) in W by lia.
    + unfold wire. by rewrite (sc_over _ _ I3).
Qed.

(** Nothing to send: invalid frames only. *)
Lemma tx_idle_moves l : launch_inv l -> horizon K (emulator l) [] ->
  exists l' ev fr', launch_iter l [] = Ok (l', ev) /\ tx_moves l [] l' ev fr'.
Proof.
  intros HI HZ. pose proof HI as [J1 J2 J3 J4 J5]. unfold launch_iter.
  destruct (empty_delay_spec (set_invalid_packet_size (ratelimiter l) 1500) (world l) 64 J1)
    as (ms & -> & _ & _ & Hz); [lia|]. cbn [mbind res_bind mret res_ret].
  change (wire (set_invalid_packet_size (ratelimiter l) 1500)) with (wire (ratelimiter l)) in *.
  pose proof (horizon_offset K _ _ HZ) as Ho.
  eexists _, _, (pair false <$> ms). split; [reflexivity|].
  split; cbn [emulator ratelimiter current_byte_offset with_offset set_invalid_packet_size previous_missing_delay].
  - split; cbn; [done|done|done|apply u64_range|done].
  - by split.
  - rewrite line_bytes_send, u64_id by (unfold is_u64; lia). lia.
  - rewrite snd_fillers. unfold handed_on. cbn. by rewrite app_nil_r.
  - by rewrite loads_fillers.
  - by rewrite loads_fillers.
  - intros pre m' post Hs. by apply fillers_no_load in Hs.
Qed.

(** A burst. *)
Lemma tx_burst_moves l b burst : launch_inv l -> horizon K (emulator l) (b :: burst) ->
  healthy_burst l (b :: burst) = true ->
  match launch_iter l (b :: burst) with
  | Ok (l', ev) => exists fr', tx_moves l (b :: burst) l' ev fr'
  | UB u => u = NullDeref /\ pool_dry_from (allocs (world l))
  end.
Proof.
  intros HI HZ Hh. pose proof HI as [J1 J2 J3 J4 J5]. unfold launch_iter.
  set (r := set_invalid_packet_size (ratelimiter l) 9000).
  set (base := current_byte_offset (emulator l) - previous_missing_delay (ratelimiter l)).
  pose proof (send_batch_window K E delta (emulator l) r (world l) (b :: burst) base J2 J5 J3 HZ
    ltac:(done) ltac:(cbn; lia) Hh) as Hw.
  destruct (send_batch _ _) as [[l' ev]|u] eqn:Hs; [|done].
  destruct Hw as (fss & ps & W1 & W2 & W3 & W4 & W5).
  pose proof (send_batch_offset K E delta _ _ _ _ _ _ J2 J5 J3 HZ ltac:(done) Hh Hs) as (S1 & S2 & S3 & S4 & S5).
  pose proof (launch_iter_in_step l (b :: burst) l' ev HI Hh Hs) as [L1 _ _].
  exists (frames fss ps). split.
  - exact L1.
  - split; [done|done|by rewrite S4|by rewrite S4].
  - exact S5.
  - by rewrite frames_snd.
  - by rewrite loads_frames.
  - by rewrite loads_frames.
  - intros pre m' post Hf. destruct (frames_split r fss ps pre m' post W2 Hf) as (k & Hk & Ek).
    destruct (W5 k m' Hk) as (m & Hin & Hid & W). exists m. split; [done|]. split; [done|].
    change (wire (ratelimiter l)) with (wire r). rewrite Ek. exact W.
Qed.

Lemma tx_iter_inv l0 s fr : emu_inv l0 s fr -> calm_step s TxIter ->
  match tx_iter s with
  | Ok s' => exists fr', emu_inv l0 s' fr'
  | UB u => u = NullDeref /\ pool_dry_from (allocs (world (tx_state s)))
  end.
Proof.
  intros HI [HZ Hh]. unfold tx_iter, next_burst in *.
  destruct (ring_dequeue_spec (packet_ring s) (Z.to_nat TRANSMIT_BUFFER_SIZE)) as [R1 R2].
  destruct (ring_dequeue_burst _ _) as [burst ring']. cbn [fst snd] in *.
  assert (ring_items (packet_ring s) = burst ++ ring_items ring') as Hr by (by rewrite R1, R2, take_drop).
  pose proof (ei_launch _ _ _ HI) as HL. destruct burst as [|b burst].
  - destruct (tx_idle_moves _ HL HZ) as (l' & ev & fr' & -> & Hm). cbn [mbind res_bind].
    exists (fr ++ fr'). by apply (tx_moves_inv l0 s fr ring' []).
  - pose proof (tx_burst_moves _ _ _ HL HZ Hh) as Hm.
    destruct (launch_iter _ _) as [[l' ev]|u]; [|done]. destruct Hm as [fr' Hm]. cbn [mbind res_bind].
    exists (fr ++ fr'). by apply (tx_moves_inv l0 s fr ring' (b :: burst)).
Qed.

(** Every calm interleaving keeps the invariant; the only fault is a filler
    that cannot be allocated. *)
Lemma emu_run_inv l0 acts : forall s fr, emu_inv l0 s fr -> calm s acts ->
  match emu_run iter s acts with
  | Ok s' => exists fr', emu_inv l0 s' fr'
  | UB u => u = NullDeref /\ pool_dry_from 0
  end.
Proof.
  induction acts as [|a acts IH]; intros s fr HI Hc; cbn [emu_run]; [by exists fr|].
  destruct Hc as [Ha Hc]. destruct a as [bufs|]; cbn [emu_step] in *.
  - destruct (rx_iter_inv l0 s fr bufs HI Ha) as (s' & E1 & HI'). rewrite E1 in *. cbn [mbind res_bind].
    by eapply IH.
  - pose proof (tx_iter_inv l0 s fr HI Ha) as Ht. destruct (tx_iter s) as [s'|u]; cbn [mbind res_bind].
    + destruct Ht as [fr' HI']. by eapply IH.
    + destruct Ht as [-> (j & _ & Hj)]. split; [done|]. exists j. split; [lia|done].
Qed.

End Run.

(** ** The receivers of src/moonem.cpp keep the promise *)

Section Receivers.
Context `{FO : FloatOps D} {FL : FloatLaws D} `{TS : TimestampDynfield}.

(** The launch time of a packet fits 64 bits. *)
Definition no_wrap (c : moonem_config) (m : mbuf) : Prop := get_timestamp_dynfield m + delay c < 2 ^ 64.

Lemma send_time_exact c m : config_wf c -> no_wrap c m -> send_time c m = get_timestamp_dynfield m + delay c.
Proof.
  intros Hc Hm. apply u64_id. pose proof (get_timestamp_u64 m) as Hg.
  destruct Hc as (Hd & _). unfold no_wrap, is_u64 in *. lia.
Qed.

Lemma stamp_delayed c m ms : config_wf c -> no_wrap c m -> m ∈ ms ->
  delayed (inject_Z (delay c)) (inject_Z (delay c)) ms (stamp_delay c m).
Proof.
  intros Hc Hm Hin. exists m. split; [done|]. split; [apply ident_stamp|].
  unfold stamp_delay. rewrite get_set_timestamp by apply u64_range.
  fold (send_time c m). rewrite send_time_exact, inject_Z_plus by done. split; apply Qle_refl.
Qed.

Lemma pass_on_queues ring c ls acc ls' ev :
  pass_on_nonempty (EnqueueBulk ring) c ls acc = Ok (ls', ev) -> Forall queues ev.
Proof.
  intros H. destruct acc as [|b acc]; [cbn in H; by res_inv; constructor|].
  unfold pass_on_nonempty, pass_on in H. case_bool_decide; res_inv; [by repeat constructor|].
  destruct (applyLoss_partition (b :: acc) ls c ls' l1 l) as (dr & -> & _); [done..|].
  apply Forall_app. split; [|by repeat constructor]. by apply Forall_fmap, Forall_true.
Qed.

Lemma splits_queues bufs ev acc : splits bufs ev acc -> Forall queues ev /\ handed_on ev = [].
Proof.
  intros (dr & -> & _). split; [by apply Forall_fmap, Forall_true|]. apply handed_on_free.
Qed.

(** Pure delay: exactly the configured delay. *)
#[global] Instance delay_source ring c : config_wf c -> cfg_loss_type c <> NETEM ->
  DelayedSource (delay_iter ring c) (fun _ => True) (no_wrap c) (inject_Z (delay c)) (inject_Z (delay c)).
Proof.
  intros Hc Hn ls bufs _ Hrx. unfold delay_iter.
  destruct (pass_on_nonempty_total (EnqueueBulk ring) c ls (stamp_delay c <$> bufs)) as (ls' & ev & E); [done..|].
  exists ls', ev. split; [done|]. split; [done|].
  split; [by eapply delay_iter_conserves|]. split; [by eapply pass_on_queues|].
  apply pass_on_nonempty_sublist in E; [|auto with moon]. eapply Forall_sublist_of; [exact E|].
  apply Forall_fmap, Forall_forall. intros m Hm. rewrite Forall_forall in Hrx.
  apply stamp_delayed; auto.
Qed.

(** Token bucket: the packets it accepts get the configured delay. *)
Lemma token_burst_stamped stamp c bufs : forall (k k' : bucket D) ev acc,
  token_burst stamp c k bufs = (k', ev, acc) -> Forall (fun m' => exists m, m ∈ bufs /\ m' = stamp m) acc.
Proof.
  induction bufs as [|b bufs IH]; intros k k' ev acc H; cbn [token_burst] in H; [simplify_eq; constructor|].
  assert (forall acc1, Forall (fun m' => exists m, m ∈ bufs /\ m' = stamp m) acc1 ->
    Forall (fun m' => exists m, m ∈ b :: bufs /\ m' = stamp m) acc1) as Hmore.
  { intros acc1 HF. eapply Forall_impl; [exact HF|]. intros m' (m & ? & ?). exists m. set_solver. }
  destruct (_ <? current_tokens _ _ _)%D;
    destruct (token_burst stamp c _ bufs) as [[k1 ev1] acc1] eqn:E; simplify_eq.
  - constructor; [exists b; set_solver|]. eauto.
  - eauto.
Qed.

#[global] Instance token_source ring c : config_wf c -> cfg_loss_type c <> NETEM ->
  DelayedSource (token_iter (D := D) (stamp_delay c) (EnqueueBulk ring) c) (fun _ => True) (no_wrap c)
    (inject_Z (delay c)) (inject_Z (delay c)).
Proof.
  intros Hc Hn st bufs _ Hrx. unfold token_iter.
  destruct (token_burst (stamp_delay c) c (fst st) bufs) as [[k ev0] acc] eqn:Eb.
  destruct (pass_on_nonempty_total (EnqueueBulk ring) c (snd st) acc) as (ls' & ev & E); [done..|].
  pose proof (token_burst_splits _ _ _ _ _ _ _ (ident_stamp c) Eb) as Hsp.
  destruct (splits_queues _ _ _ Hsp) as [Q1 Q2].
  rewrite E. cbn [mbind res_bind]. exists (k, ls'), (ev0 ++ ev). split; [done|]. split; [done|].
  split; [eapply splits_conserves; [done|]; eapply pass_on_nonempty_conserves; [|done]; auto with moon|].
  split; [apply Forall_app; split; [done|by eapply pass_on_queues]|].
  rewrite handed_on_app, Q2. apply pass_on_nonempty_sublist in E; [|auto with moon].
  eapply Forall_sublist_of; [exact E|]. eapply Forall_impl; [by eapply token_burst_stamped|].
  intros m' (m & Hm & ->). rewrite Forall_forall in Hrx. apply stamp_delayed; auto.
Qed.

(** Leaky bucket: at least the configured delay, at most the backlog bound
    more; 257 ns for the rounding of times below 2^62 ns. *)
Lemma leaky_backlog c next_at b : leaky_config c -> next_at_inv next_at -> early c b ->
  let st := d_of_Z (send_time c b) in
  let real := dMAX st next_at in
  (BACKLOG_BOUND c <? real - st)%D = false ->
  (inject_Z (send_time c b) - 256 <= dval st <= inject_Z (send_time c b) + 256 /\
   dval real - dval st <= dval (BACKLOG_BOUND c) + 1)%Q.
Proof.
  intros Hc Hn He st real Hb. destruct (leaky_packet c next_at b Hc Hn He) as (Br & H1 & _ & _).
  fold st in Br, H1. fold real in Br, H1.
  assert (is_u64 (send_time c b)) as Hst by apply u64_range. pose proof (dbnd_of_u64 _ Hst) as Bst.
  unfold is_u64, early in *. split.
  - apply abs_err. unfold st. destruct (d_of_Z_spec (send_time c b)) as [_ ->]; [lia|].
    apply (rnd_err _ 62); [lia|]. rewrite Qabs_pos by (rewrite <- (Zle_Qle 0); lia).
    rewrite Qpow2_Z by lia. rewrite <- Zle_Qle. lia.
  - destruct (backlog_bound_spec c Hc) as [[Fb Bb] Hb0]. rewrite Qabs_pos in Bb by done.
    destruct (dbnd_sub real st 64 ltac:(lia) Br Bst) as [[Fs _] Hs].
    apply dltb_false in Hb; [|done..]. rewrite Hs in Hb.
    change (inject_Z (2 ^ 45)) with (35184372088832%Q) in Bb.
    assert (dval real - dval st <= 70368744177664)%Q as Hlt.
    { apply Qnot_lt_le. intros Hge. apply Qlt_le_weak, rnd_mono in Hge.
      change 70368744177664%Q with (2 ^ 46)%Q in Hge. rewrite rnd_pow2 in Hge by lia.
      change (2 ^ 46)%Q with 70368744177664%Q in Hge. lra. }
    assert (Qabs (rnd (dval real - dval st) - (dval real - dval st)) <= 1 # 256)%Q as He'.
    { apply (rnd_err _ 46); [lia|]. change (2 ^ 46)%Q with 70368744177664%Q.
      rewrite Qabs_pos by lra. lra. }
    apply abs_err in He'. lra.
Qed.

Definition leaky_lo (c : moonem_config) : Q := (inject_Z (delay c) - 257)%Q.
Definition leaky_hi (c : moonem_config) : Q := (inject_Z (delay c) + dval (BACKLOG_BOUND (D := D) c) + 257)%Q.
Definition leaky_rx (c : moonem_config) (m : mbuf) : Prop := early c m /\ no_wrap c m.

(** The timestamp an accepted packet gets. *)
Lemma leaky_accept c next_at b ms : leaky_config c -> next_at_inv next_at -> leaky_rx c b -> b ∈ ms ->
  let real := dMAX (d_of_Z (send_time c b)) next_at in
  (BACKLOG_BOUND c <? real - d_of_Z (send_time c b))%D = false ->
  exists ts, d_to_u64 real = Ok ts /\ delayed (leaky_lo c) (leaky_hi c) ms (set_timestamp_dynfield b ts).
Proof.
  intros Hc Hn [He Hw] Hin real Hb.
  destruct (leaky_packet c next_at b Hc Hn He) as (Br & H1 & H2 & H3). fold real in Br, H1, H2, H3.
  destruct (H3 Hb) as (H63 & _ & _). destruct (leaky_backlog c next_at b Hc Hn He Hb) as [[S1 S2] B].
  fold real in B. destruct Hn as [_ Hn0].
  assert (0 <= dval real)%Q as Hr0 by lra.
  assert (d_to_u64 real = Ok (Qfloor (dval real))) as E.
  { rewrite <- Qtrunc_floor by done. apply d_to_u64_ok; [apply Br|done|].
    eapply Qlt_trans; [exact H63|]. by rewrite <- Zlt_Qlt. }
  exists (Qfloor (dval real)). split; [exact E|]. apply d_to_u64_range in E.
  exists b. split; [done|]. split; [apply ident_set_timestamp|]. rewrite get_set_timestamp by done.
  destruct (floor_bounds (dval real)) as [F1 F2].
  assert (inject_Z (send_time c b) == inject_Z (get_timestamp_dynfield b) + inject_Z (delay c))%Q as Es.
  { by rewrite (send_time_exact c b (proj1 Hc) Hw), inject_Z_plus. }
  unfold leaky_lo, leaky_hi. split; lra.
Qed.

Lemma leaky_burst_delayed c bufs : forall next_at, leaky_config c -> next_at_inv next_at ->
  Forall (leaky_rx c) bufs -> forall next_at' ev acc,
  leaky_burst (D := D) c next_at bufs = Ok (next_at', ev, acc) ->
  Forall (delayed (leaky_lo c) (leaky_hi c) bufs) acc.
Proof.
  induction bufs as [|b bufs IH]; intros next_at Hc Hn Hrx next_at' ev acc H; cbn [leaky_burst] in H.
  { res_inv. constructor. }
  apply Forall_cons in Hrx as [Hb Hrx]. fold (send_time c b) in H.
  assert (forall acc1, Forall (delayed (leaky_lo c) (leaky_hi c) bufs) acc1 ->
    Forall (delayed (leaky_lo c) (leaky_hi c) (b :: bufs)) acc1) as Hmore.
  { intros acc1 HF. eapply Forall_impl; [exact HF|]. intros m'. apply delayed_mono. set_solver. }
  destruct (BACKLOG_BOUND c <? _)%D eqn:E0.
  - res_inv. eauto.
  - destruct (leaky_accept c next_at b (b :: bufs) Hc Hn Hb ltac:(set_solver) E0) as (ts & Ets & Hd).
    destruct (leaky_packet c next_at b Hc Hn (proj1 Hb)) as (_ & _ & _ & H3).
    destruct (H3 E0) as (_ & Hn1 & _). rewrite Ets in H. cbn [mbind res_bind] in H.
    rewrite set_timestamp_len in H. fold (wire_bits b) in H. res_inv.
    constructor; [done|]. apply Hmore. by eapply IH.
Qed.

#[global] Instance leaky_source ring c : leaky_config c -> cfg_loss_type c <> NETEM ->
  DelayedSource (leaky_iter (D := D) ring c) (fun st => next_at_inv (fst st)) (leaky_rx c)
    (leaky_lo c) (leaky_hi c).
Proof.
  intros Hc Hn st bufs Hst Hrx.
  assert (Forall (early c) bufs) as He by (eapply Forall_impl; [exact Hrx|]; by intros m [? _]).
  destruct (leaky_iter_spec ring c st bufs Hc Hn Hst He) as (st' & ev & E & Hst' & _).
  exists st', ev. split; [done|]. split; [done|]. split; [by eapply leaky_iter_conserves|].
  unfold leaky_iter in E. res_inv.
  match goal with Hb : leaky_burst c _ bufs = Ok (_, _, ?a) |- _ =>
    pose proof (leaky_burst_splits _ _ _ _ _ _ Hb) as Hsp;
    pose proof (leaky_burst_delayed c bufs _ Hc Hst Hrx _ _ _ Hb) as Hd end.
  destruct (splits_queues _ _ _ Hsp) as [Q1 Q2].
  split; [apply Forall_app; split; [done|by eapply pass_on_queues]|].
  rewrite handed_on_app, Q2.
  match goal with Hp : pass_on_nonempty _ _ _ _ = Ok _ |- _ =>
    apply pass_on_nonempty_sublist in Hp; [|auto with moon] end.
  by eapply Forall_sublist_of.
Qed.

End Receivers.

(** ** End to end *)

Section EndToEnd.
Context `{FO : FloatOps D} {FL : FloatLaws D} `{TS : TimestampDynfield} `{MP : MbufPool}.
Context `{RR : RteRing R} {RB : RteRingBurst R}.
Context {St : Type} (iter : St -> list mbuf -> res (St * list event)).
Context (ok : St -> Prop) (rx : mbuf -> Prop) (lo hi : Q) {DS : DelayedSource iter ok rx lo hi}.

(** The configuration of a system that is started. *)
Record path_setup (l : launch D) (st : St) (ring : R) : Prop := {
  ps_idle : limiter_wf (set_invalid_packet_size (ratelimiter l) 1500);
  ps_busy : limiter_wf (set_invalid_packet_size (ratelimiter l) 9000);
  ps_over : OVERHEAD (emulator l) = PACKET_OVERHEAD (ratelimiter l);
  ps_fresh : previous_missing_delay (ratelimiter l) = 0;
  ps_ok : ok st;
  ps_ring : ring_items ring = []
}.

Lemma emu_start_inv E delta l sec nsec st ring l1 ev0 ev1 : path_setup l st ring ->
  launch_start l sec nsec = Ok (l1, ev0, ev1) ->
  emu_inv ok lo hi E delta l1 (emu_init st ring l1 ev1) (pair false <$> handed_on ev1).
Proof.
  intros [P1 P2 P3 P4 P5 P6] Hs.
  destruct (launch_start_spec l sec nsec P1)
    as (l1' & ev0' & p & q & m & ms & evs & Hs' & _ & Ho & Hf & Hnpb & Hov & Hr & Hfree & Hb).
  rewrite Hs' in Hs. injection Hs as <- <- <-.
  assert (line_bytes (ratelimiter l1') = line_bytes (ratelimiter l)) as El by (by rewrite Hr).
  split; cbn [rx_state packet_ring tx_state received rx_freed leaked tx_trace emu_init].
  - done.
  - split; rewrite ?Hr; cbn; [done|done|congruence|rewrite Ho; apply u64_range|].
    rewrite P4. destruct P1 as [_ _ Hg _ _ _]. split; [lia|exact Hg].
  - apply same_clock_refl.
  - rewrite Ho, El, u64_id by (unfold is_u64; lia). rewrite Hr. cbn. lia.
  - apply snd_fillers.
  - by rewrite loads_fillers, P6.
  - rewrite loads_fillers, P6.
    change (SendAll p q (m :: ms) :: evs) with ([SendAll p q (m :: ms)] ++ evs). by rewrite freed_app, Hfree.
  - rewrite P6. constructor.
  - intros pre m' post Hfr. by apply fillers_no_load in Hfr.
Qed.


End EndToEnd.

(** ** Evaluation: pure delay of 10 ms at 10 Gbit/s, in double arithmetic *)

Section Witnesses.
#[local] Existing Instances cell_dynfield endless_pool binary64_ops binary64_laws list_ring list_ring_burst.

Definition sample_path_config : moonem_config := sample_config NONE.
Definition sample_path_iter := delay_iter 0 sample_path_config.

Definition sample_path_launch : launch spec_float :=
  Launch (mg_launchtimer_create 0 0 10000 20) sample_limiter sample_world.

(** The synchronisation, in 2023. *)
Definition sample_synced : launch spec_float * list event :=
  match launch_start sample_path_launch 1700000000 0 with
  | Ok (l, _, sync) => (l, sync)
  | UB _ => (sample_path_launch, [])
  end.

Definition sample_emu : emu spec_float (nat * list mbuf) loss_state :=
  emu_init (loss_init sample_path_config) (1024%nat, []) (fst sample_synced) (snd sample_synced).

(** Two packets arrive, an idle iteration ran before, one arrives later. *)
Definition sample_schedule : list action :=
  [TxIter; RxBurst [sample_mbuf 1 60 1700000000000000000; sample_mbuf 2 60 1700000000000000500];
   TxIter; RxBurst [sample_mbuf 3 1000 1700000000000100000]; TxIter].

Definition next_state {D R St} `{FloatOps D} `{TimestampDynfield} `{MbufPool} `{RteRingBurst R}
    (iter : St -> list mbuf -> res (St * list event)) (s : emu D R St) (a : action) : emu D R St :=
  match emu_step iter s a with Ok s => s | UB _ => s end.

Lemma calm_cons {D R St} `{FO : FloatOps D} {FL : FloatLaws D} `{TS : TimestampDynfield} `{MP : MbufPool}
    `{RB : RteRingBurst R} (iter : St -> list mbuf -> res (St * list event)) rx K (s : emu D R St) a acts :
  calm_step rx K s a -> calm iter rx K (next_state iter s a) acts -> calm iter rx K s (a :: acts).
Proof. intros H1 H2. split; [done|]. unfold next_state in H2. by destruct (emu_step iter s a). Qed.

Lemma sample_calm : calm sample_path_iter (no_wrap sample_path_config) 61 sample_emu sample_schedule.
Proof.
  assert (forall ms, Forall (fun m => get_timestamp_dynfield m <= 1700000000000200000) ms ->
    Forall (no_wrap sample_path_config) ms) as Hrx.
  { intros ms Hms. eapply Forall_impl; [exact Hms|]. unfold no_wrap. cbn. lia. }
  assert (forall e bufs, 0 <= first_timestamp e <= 2 ^ 61 - 2 ^ 52 -> 0 <= current_byte_offset e < 2 ^ 40 ->
    dfin (NANOSECONDS_PER_BYTE e) -> (1 # 64 <= npb e <= 1)%Q -> OVERHEAD e = 20 -> (length bufs <= 64)%nat ->
    Forall (fun m => get_timestamp_dynfield m <= first_timestamp e + 2 ^ 50 /\ 0 <= pkt_len m <= 9000) bufs ->
    horizon (D := spec_float) 61 e bufs) as Hhz.
  { intros e bufs H1 H2 H3 H4 H5 H6 H7. split; try done; [lia|split; [lra|] |lia| |].
    - change (inject_Z (2 ^ 13)) with 8192%Q. lra.
    - assert (inject_Z (current_byte_offset e) <= 1099511627776)%Q.
      { change 1099511627776%Q with (inject_Z (2 ^ 40)). rewrite <- Zle_Qle. lia. }
      assert (0 <= inject_Z (current_byte_offset e))%Q by (rewrite <- (Zle_Qle 0); lia).
      assert (inject_Z (Z.of_nat (length bufs)) <= 64)%Q.
      { change 64%Q with (inject_Z 64). rewrite <- Zle_Qle. lia. }
      change (inject_Z (2 ^ 30)) with 1073741824%Q. change (inject_Z (2 ^ 51)) with 2251799813685248%Q. nra.
    - eapply Forall_impl; [exact H7|]. cbn. lia. }
  unfold sample_schedule.
  repeat (apply calm_cons; [first
    [apply Hrx; repeat (apply Forall_cons; split; [vm_compute; congruence|]); constructor
    |split; [apply Hhz; [vm_compute; split; congruence|vm_compute; split; congruence|vm_compute; reflexivity
               |vm_compute; split; congruence|vm_compute; reflexivity|vm_compute; lia|]
            |vm_compute; reflexivity]]|]); [..|exact I].
  all: match goal with |- Forall ?P ?l => let l' := eval vm_compute in l in change (Forall P l') end.
  all: repeat (apply Forall_cons; split; [split; [vm_compute; congruence|vm_compute; split; congruence]|]);
    constructor.
Qed.


End Witnesses.
