(* ===== verification/MoonemSw.v ===== *)
(** * Path emulation with software timestamps: src/moonem_sw.cpp

    The receivers stamp a burst with the time-stamp counter, tag every packet
    with the number of packets of its burst still to come, and hand the burst
    to a ring; the transmitter busy-waits for the stamp of the first packet of
    a burst and sends the burst as one.  [TaggedSource] is what the receivers
    promise the transmitter.  The time-stamp counter is a sequence of readings. *)
From S2P Require Import Prelude Dpdk LossModel Float Binary64 Moonem Clock.
From Stdlib Require Import QArith Qabs Qround Lqa.
From stdpp Require Import gmap.

#[local] Open Scope Z_scope.

(** ** The burst size dynfield *)

(** [burst_size_field_offset] is the parameter [off] below. *)
Definition get_burst_size_dynfield (off : Z) (m : mbuf) : Z :=
  u32 (default 0 (dynfields m !! off)).
Definition set_burst_size_dynfield (off : Z) (m : mbuf) (burst_size : Z) : mbuf :=
  set_dynfield m off (u32 burst_size).

(** From the results of the lookup and of the registration. *)
Definition init_dynfield_burst_size_offset (lookup register : Z) : Z :=
  if lookup <? 0 then register else lookup.

Section Receivers.
Context `{FO : FloatOps D} `{TS : TimestampDynfield}.
Context (off : Z).

(** ** Forwarding and pure delay *)

Definition sw_fwd_iter (port_tx queue_tx : Z) (c : moonem_config) (ls : loss_state)
    (rx_pkts : list mbuf) : res (loss_state * list event) :=
  pass_on_nonempty (SendAll port_tx queue_tx) c ls rx_pkts.

Definition sw_receiver_loop_fwd (port_tx queue_tx : Z) (c : moonem_config)
    (bursts : list (list mbuf)) : res (loss_state * list event) :=
  run_loop (sw_fwd_iter port_tx queue_tx c) (loss_init c) bursts.

(** [rte_get_tsc_hz() * (config.delay / 1000000000.0)] *)
Definition tsc_delay (tsc_hz : Z) (c : moonem_config) : res Z :=
  d_to_u64 (d_of_Z tsc_hz * (d_of_Z (delay c) / d_of_Z 1000000000))%D.

(** The loop over the accepted packets: the stamp, and [rx - i]. *)
Fixpoint tag_burst (ts : Z) (bufs : list mbuf) : list mbuf :=
  match bufs with
  | [] => []
  | b :: bufs =>
      set_burst_size_dynfield off (set_timestamp_dynfield b ts) (Z.of_nat (S (length bufs)))
      :: tag_burst ts bufs
  end.

(** One iteration; the input is a burst and the counter read after it. *)
Definition sw_delay_iter (dly ring : Z) (c : moonem_config) (ls : loss_state)
    (i : list mbuf * Z) : res (loss_state * list event) :=
  let '(bufs, timestamp) := i in
  match bufs with
  | [] => mret (ls, [])
  | _ :: _ =>
      if bool_decide (cfg_loss_type c = NONE)
      then mret (ls, [EnqueueBulk ring (tag_burst (u64 (timestamp + dly)) bufs)])
      else
        '(ls, ev, bufs_accept) ← applyLoss bufs ls c;
        mret (ls, ev ++ [EnqueueBulk ring (tag_burst (u64 (timestamp + dly)) bufs_accept)])
  end.

Definition sw_receiver_loop_delay (tsc_hz ring : Z) (c : moonem_config)
    (ins : list (list mbuf * Z)) : res (loss_state * list event) :=
  dly ← tsc_delay tsc_hz c;
  run_loop (sw_delay_iter dly ring c) (loss_init c) ins.

(** [config.loss > 0 && wyhash64(&loss_state) < config.loss] *)
Definition sw_loss (c : moonem_config) (st : Z) : Z * bool :=
  if 0 <? loss c then let '(st, x) := wyhash64 st in (st, x <? loss c) else (st, false).

(** ** Token bucket *)

Definition SW_TOKEN_RATE (tsc_hz : Z) (c : moonem_config) : D :=
  (d_of_Z (rate c) / d_of_Z 8 / d_of_Z tsc_hz * d_of_Z 1000000)%D.

Definition sw_current_tokens (tsc_hz : Z) (c : moonem_config) (k : bucket D) (recv_timestamp : Z) : D :=
  dMIN (previous_tokens k
        + (d_of_Z recv_timestamp - previous_timestamp k) * SW_TOKEN_RATE tsc_hz c)%D
       (d_of_Z (capacity c)).

(** The per-packet loop: tokens and generator state, frees, [bufs_accept]. *)
Fixpoint sw_token_burst (c : moonem_config) (current_tokens : D) (st : Z) (bufs : list mbuf)
    : D * Z * list event * list mbuf :=
  match bufs with
  | [] => (current_tokens, st, [], [])
  | b :: bufs =>
      let size := d_of_Z (u32 (pkt_len b + 24)) in
      if (current_tokens <? size)%D then
        let '(tk, st, ev, acc) := sw_token_burst c current_tokens st bufs in
        (tk, st, Free b :: ev, acc)
      else
        let current_tokens := (current_tokens - size)%D in
        let '(st, lost) := sw_loss c st in
        let '(tk, st, ev, acc) := sw_token_burst c current_tokens st bufs in
        if (lost : bool) then (tk, st, Free b :: ev, acc) else (tk, st, ev, b :: acc)
  end.

Definition enqueue_nonempty (ring : Z) (ms : list mbuf) : list event :=
  match ms with [] => [] | _ :: _ => [EnqueueBulk ring ms] end.

Definition sw_token_iter (tsc_hz dly ring : Z) (c : moonem_config) (st : bucket D * Z)
    (i : list mbuf * Z) : res (bucket D * Z * list event) :=
  let '(bufs, recv_timestamp) := i in
  match bufs with
  | [] => mret (st, [])
  | _ :: _ =>
      let '(tk, ls, ev, acc) :=
        sw_token_burst c (sw_current_tokens tsc_hz c (fst st) recv_timestamp) (snd st) bufs in
      mret (Bucket (d_of_Z recv_timestamp) tk, ls,
            ev ++ enqueue_nonempty ring (tag_burst (u64 (recv_timestamp + dly)) acc))
  end.

Definition sw_receiver_loop_rate_token_bucket (tsc_hz ring : Z) (c : moonem_config)
    (ins : list (list mbuf * Z)) : res (bucket D * Z * list event) :=
  dly ← tsc_delay tsc_hz c;
  run_loop (sw_token_iter tsc_hz dly ring c) (bucket_init, loss_seed c) ins.

(** ** Leaky bucket *)

Definition B_P_TSC_TARGET (tsc_hz : Z) (c : moonem_config) : D :=
  (d_of_Z (rate c) * d_of_Z 1000000 / d_of_Z tsc_hz)%D.
Definition SW_BACKLOG_BOUND (tsc_hz : Z) (c : moonem_config) : D :=
  (d_of_Z (capacity c) / (B_P_TSC_TARGET tsc_hz c / d_of_Z 8))%D.

Fixpoint sw_leaky_burst (tsc_hz dly : Z) (c : moonem_config) (recv_timestamp : Z) (next_at : D) (st : Z)
    (bufs : list mbuf) : res (D * Z * list event * list mbuf) :=
  match bufs with
  | [] => mret (next_at, st, [], [])
  | b :: bufs =>
      let size := u32 (pkt_len b + 24) in
      let send_time := u64 (recv_timestamp + dly) in
      let real_send_time := dMAX (d_of_Z send_time) next_at in
      let backlog := (real_send_time - d_of_Z send_time)%D in
      if (SW_BACKLOG_BOUND tsc_hz c <? backlog)%D then
        '(next_at, st, ev, acc) ← sw_leaky_burst tsc_hz dly c recv_timestamp next_at st bufs;
        mret (next_at, st, Free b :: ev, acc)
      else
        let next_at :=
          (real_send_time + (d_of_Z size * d_of_Z 8) / B_P_TSC_TARGET tsc_hz c)%D in
        let '(st, lost) := sw_loss c st in
        if (lost : bool) then
          '(next_at, st, ev, acc) ← sw_leaky_burst tsc_hz dly c recv_timestamp next_at st bufs;
          mret (next_at, st, Free b :: ev, acc)
        else
          ts ← d_to_u64 real_send_time;
          let b := set_burst_size_dynfield off (set_timestamp_dynfield b ts) 1 in
          '(next_at, st, ev, acc) ← sw_leaky_burst tsc_hz dly c recv_timestamp next_at st bufs;
          mret (next_at, st, ev, b :: acc)
  end.

Definition sw_leaky_iter (tsc_hz dly ring : Z) (c : moonem_config) (s : D * Z)
    (i : list mbuf * Z) : res (D * Z * list event) :=
  let '(bufs, recv_timestamp) := i in
  '(next_at, st, ev, acc) ← sw_leaky_burst tsc_hz dly c recv_timestamp (fst s) (snd s) bufs;
  mret (next_at, st, ev ++ enqueue_nonempty ring acc).

Definition sw_receiver_loop_rate_leaky_bucket (tsc_hz ring : Z) (c : moonem_config)
    (ins : list (list mbuf * Z)) : res (D * Z * list event) :=
  dly ← tsc_delay tsc_hz c;
  run_loop (sw_leaky_iter tsc_hz dly ring c) (d_of_Z 0, loss_seed c) ins.

End Receivers.

(** ** The transmitter *)

Section Transmitter.
Context `{TS : TimestampDynfield}.
Context (off : Z) (rdtsc : nat -> Z).

(** The loop over the packets dequeued, [fuel] iterations at most: each
    transmission with the reading that released it. *)
Fixpoint tx_chunk (fuel : nat) (k : nat) (rx_pkts : list mbuf) : res (nat * list (nat * list mbuf)) :=
  match rx_pkts with
  | [] => mret (k, [])
  | m :: _ =>
      match fuel with
      | O => UB OutOfFuel
      | S fuel =>
          k ← wait_until rdtsc (wait_fuel rdtsc k (get_timestamp_dynfield m)) k (get_timestamp_dynfield m);
          let packet_burst :=
            Z.to_nat (u32 (Z.min (get_burst_size_dynfield off m) (Z.of_nat (length rx_pkts)))) in
          '(k', tx) ← tx_chunk fuel (S k) (drop packet_burst rx_pkts);
          mret (k', (k, take packet_burst rx_pkts) :: tx)
      end
  end.

(** The loop over the results of [rte_ring_sc_dequeue_burst]. *)
Fixpoint sw_transmitter_loop_delay (k : nat) (chunks : list (list mbuf))
    : res (nat * list (nat * list mbuf)) :=
  match chunks with
  | [] => mret (k, [])
  | rx_pkts :: chunks =>
      '(k, tx) ← tx_chunk (length rx_pkts) k rx_pkts;
      '(k, txs) ← sw_transmitter_loop_delay k chunks;
      mret (k, tx ++ txs)
  end.

End Transmitter.

(** ** What the receivers promise the transmitter *)

Section Interface.
Context `{TS : TimestampDynfield} (off : Z).

(** A batch for the ring: each packet's burst size counts packets that exist
    and that are due no later than it. *)
Definition batch_tagged (l : list mbuf) : Prop :=
  forall i m, l !! i = Some m ->
    1 <= get_burst_size_dynfield off m <= Z.of_nat (length l) - Z.of_nat i /\
    forall j m', Z.of_nat j < get_burst_size_dynfield off m -> l !! (i + j)%nat = Some m' ->
      get_timestamp_dynfield m' <= get_timestamp_dynfield m.

(** A stretch of the ring's contents, which may cut a burst. *)
Definition stream_tagged (l : list mbuf) : Prop :=
  forall i m, l !! i = Some m ->
    1 <= get_burst_size_dynfield off m /\
    forall j m', Z.of_nat j < get_burst_size_dynfield off m -> l !! (i + j)%nat = Some m' ->
      get_timestamp_dynfield m' <= get_timestamp_dynfield m.

Definition enqueued (ev : list event) : list (list mbuf) :=
  omap (fun e => match e with EnqueueBulk _ ms => Some ms | _ => None end) ev.

(** What a receiver reads: a burst and the counter. *)
Definition rx_ok (i : list mbuf * Z) : Prop := Z.of_nat (length (fst i)) <= BURST_SIZE.

Class TaggedSource {St} (iter : St -> list mbuf * Z -> res (St * list event)) :=
  tagged_source : forall s i s' ev,
    rx_ok i -> iter s i = Ok (s', ev) -> Forall batch_tagged (enqueued ev).

Lemma enqueued_app ev1 ev2 : enqueued (ev1 ++ ev2) = enqueued ev1 ++ enqueued ev2.
Proof. apply omap_app. Qed.

Lemma enqueued_free ms : enqueued (Free <$> ms) = [].
Proof. by induction ms. Qed.

Lemma tagged_loop `{TaggedSource St body} ins s s' ev :
  Forall rx_ok ins -> run_loop body s ins = Ok (s', ev) -> Forall batch_tagged (enqueued ev).
Proof.
  intros Hin Hr. revert ins s s' ev Hr Hin.
  apply (run_loop_ind body (fun _ ins _ ev => Forall rx_ok ins -> Forall batch_tagged (enqueued ev))).
  - intros _ _. constructor.
  - intros s i s1 ev ins s2 evs H1 H2 Hi. apply Forall_cons in Hi as [Hi Hins].
    rewrite enqueued_app. apply Forall_app. split; [by eapply tagged_source|by apply H2].
Qed.

Lemma stream_tagged_app b l : batch_tagged b -> stream_tagged l -> stream_tagged (b ++ l).
Proof.
  intros Hb Hl i m Hi. apply lookup_app_Some in Hi as [Hi|[Hge Hi]].
  - destruct (Hb i m Hi) as [[H1 H2] H3]. split; [done|]. intros j m' Hj Hij.
    apply (H3 j m' Hj). rewrite lookup_app_l in Hij by lia. done.
  - destruct (Hl _ m Hi) as [H1 H2]. split; [done|]. intros j m' Hj Hij.
    apply (H2 j m' Hj). rewrite lookup_app_r in Hij by lia.
    by replace (i - length b + j)%nat with (i + j - length b)%nat by lia.
Qed.

Lemma stream_tagged_concat bs : Forall batch_tagged bs -> stream_tagged (concat bs).
Proof. induction 1; [done|]. by apply stream_tagged_app. Qed.

Lemma stream_tagged_drop n l : stream_tagged l -> stream_tagged (drop n l).
Proof.
  intros Hl i m. rewrite lookup_drop. intros Hi. destruct (Hl _ m Hi) as [H1 H2].
  split; [done|]. intros j m' Hj Hij. rewrite lookup_drop in Hij.
  apply (H2 j m' Hj). by rewrite <- Nat.add_assoc.
Qed.

Lemma stream_tagged_prefix l k : stream_tagged (l ++ k) -> stream_tagged l.
Proof.
  intros Hl i m Hi. destruct (Hl i m) as [H1 H2]; [by apply lookup_app_l_Some|].
  split; [done|]. intros j m' Hj Hij. apply (H2 j m' Hj). by apply lookup_app_l_Some.
Qed.

(** The burst released by its first packet is due. *)
Lemma stream_tagged_head m l n t :
  stream_tagged (m :: l) -> get_timestamp_dynfield m <= t ->
  Z.of_nat n <= get_burst_size_dynfield off m ->
  Forall (fun m' => get_timestamp_dynfield m' <= t) (take n (m :: l)).
Proof.
  intros Hs Ht Hn. apply Forall_lookup. intros j m' Hj.
  apply lookup_take_Some in Hj as [Hj Hlt].
  destruct (Hs 0%nat m eq_refl) as [_ H2]. etransitivity; [|exact Ht].
  apply (H2 j m'); [lia|done].
Qed.

End Interface.

Section TransmitterCorrect.
Context `{TS : TimestampDynfield} (off : Z) (rdtsc : nat -> Z).
Context (rdtsc_advances : forall k, rdtsc k < rdtsc (S k)).

(** Transmissions from reading [k] on: each one is not empty, no packet of it
    is early, and the wait for it ended at the first reading its first packet
    was due. *)
Fixpoint prompt (k : nat) (tx : list (nat * list mbuf)) (k_end : nat) : Prop :=
  match tx with
  | [] => k_end = k
  | (k', ms) :: tx =>
      (k <= k')%nat /\
      Forall (fun m => get_timestamp_dynfield m <= rdtsc k') ms /\
      (exists m, head ms = Some m /\ forall j, (k <= j < k')%nat -> rdtsc j < get_timestamp_dynfield m) /\
      prompt (S k') tx k_end
  end.

Lemma prompt_app k tx1 k1 tx2 k2 :
  prompt k tx1 k1 -> prompt k1 tx2 k2 -> prompt k (tx1 ++ tx2) k2.
Proof.
  revert k. induction tx1 as [|[k' ms] tx1 IH]; intros k H1 H2; cbn in *.
  - by subst.
  - destruct H1 as (? & ? & ? & ?). eauto.
Qed.

Lemma tx_chunk_spec fuel : forall k l,
  (length l <= fuel)%nat -> Z.of_nat (length l) < 2 ^ 32 -> stream_tagged off l ->
  exists k' tx, tx_chunk off rdtsc fuel k l = Ok (k', tx) /\ concat (snd <$> tx) = l /\
    prompt k tx k'.
Proof.
  induction fuel as [|fuel IH]; intros k l Hl H32 Hs;
    (destruct l as [|m l]; [exists k, []; done|]); [cbn in Hl; lia|].
  cbn [tx_chunk].
  destruct (wait_until_spec rdtsc rdtsc_advances k (get_timestamp_dynfield m))
    as (k1 & -> & Hk & Ht & Hj). cbn [mbind res_bind].
  destruct (Hs 0%nat m eq_refl) as [Hb _].
  set (n := Z.to_nat _).
  assert (Z.of_nat n = Z.min (get_burst_size_dynfield off m) (Z.of_nat (length (m :: l)))) as Hn.
  { unfold n. rewrite u32_id by (unfold is_u32; cbn [length] in *; lia). lia. }
  cbn [length] in *.
  destruct (IH (S k1) (drop n (m :: l))) as (k2 & tx & E & Hc & Hp);
    [rewrite length_drop; cbn [length]; lia|rewrite length_drop; cbn [length]; lia
    |by apply stream_tagged_drop|].
  rewrite E. cbn [mbind res_bind]. eexists _, _. split; [done|]. split.
  - cbn. rewrite Hc. apply take_drop.
  - split; [done|]. split; [apply (stream_tagged_head off); [done|done|lia]|].
    split; [|done]. exists m. split; [|done]. by destruct n; [lia|].
Qed.

Lemma transmitter_spec chunks : forall k,
  Forall (fun l => Z.of_nat (length l) < 2 ^ 32) chunks -> stream_tagged off (concat chunks) ->
  exists k' tx, sw_transmitter_loop_delay off rdtsc k chunks = Ok (k', tx) /\
    concat (snd <$> tx) = concat chunks /\ prompt k tx k'.
Proof.
  induction chunks as [|l chunks IH]; intros k Hl Hs; [by exists k, []|].
  apply Forall_cons in Hl as [Hl Hls]. cbn [concat] in Hs. cbn [sw_transmitter_loop_delay].
  destruct (tx_chunk_spec (length l) k l) as (k1 & tx1 & -> & Hc1 & Hp1);
    [lia|done|by eapply stream_tagged_prefix|]. cbn [mbind res_bind].
  destruct (IH k1) as (k2 & tx2 & -> & Hc2 & Hp2); [done| |].
  { rewrite <- (drop_app_length l (concat chunks)). by apply stream_tagged_drop. }
  cbn. eexists _, _. split; [done|]. split; [|by eapply prompt_app].
  by rewrite fmap_app, concat_app, Hc1, Hc2.
Qed.

(** C12: The software emulation never sends early.  For any receiver that keeps
    the promise [TaggedSource], whatever batches the ring accepts and however
    its contents are cut into dequeues, the transmitter terminates and sends
    exactly the packets dequeued, in order; every packet leaves no earlier than
    its timestamp, and each burst at the first reading of the counter at which
    its first packet is due. *)
Theorem sw_pipeline_on_time {St} (body : St -> list mbuf * Z -> res (St * list event))
    {TG : TaggedSource off body} ins s s' ev accepted chunks k
    (Hin : Forall rx_ok ins) (Hrun : run_loop body s ins = Ok (s', ev))
    (Hacc : accepted `sublist_of` enqueued ev)
    (Hdeq : concat chunks `prefix_of` concat accepted)
    (Hlen : Forall (fun l => Z.of_nat (length l) <= BURST_SIZE) chunks) :
  exists k' tx, sw_transmitter_loop_delay off rdtsc k chunks = Ok (k', tx) /\
    concat (snd <$> tx) = concat chunks /\ prompt k tx k'.
Proof.
  apply transmitter_spec.
  - eapply Forall_impl; [exact Hlen|]. unfold BURST_SIZE. cbn. lia.
  - destruct Hdeq as [rest Hdeq]. apply (stream_tagged_prefix off _ rest). rewrite <- Hdeq.
    apply stream_tagged_concat. eapply Forall_sublist_of; [exact Hacc|].
    by eapply tagged_loop.
Qed.

End TransmitterCorrect.

(** ** The receivers keep the promise, and conserve packets *)

Section ReceiversCorrect.
Context `{FO : FloatOps D} `{TS : TimestampDynfield} (off : Z).

Lemma length_tag_burst ts bufs : length (tag_burst off ts bufs) = length bufs.
Proof. induction bufs; cbn; congruence. Qed.

Lemma ident_tag_burst ts bufs : ident <$> tag_burst off ts bufs = ident <$> bufs.
Proof.
  induction bufs as [|b bufs IH]; [done|]. csimpl. rewrite IH. f_equal.
  apply (ident_set_timestamp b ts).
Qed.

Lemma get_burst_set m v : is_u32 v ->
  get_burst_size_dynfield off (set_burst_size_dynfield off m v) = v.
Proof.
  intros Hv. unfold get_burst_size_dynfield, set_burst_size_dynfield. cbn.
  rewrite lookup_insert_eq. cbn. by rewrite !u32_id by (try apply u32_range; done).
Qed.

Lemma get_timestamp_burst m v b : is_u64 v ->
  get_timestamp_dynfield (set_burst_size_dynfield off (set_timestamp_dynfield m v) b) = v.
Proof. intros Hv. unfold set_burst_size_dynfield. by rewrite get_timestamp_set_dynfield, get_set_timestamp. Qed.

Lemma tag_burst_lookup ts bufs : is_u64 ts -> Z.of_nat (length bufs) < 2 ^ 32 ->
  forall i m, tag_burst off ts bufs !! i = Some m ->
    get_timestamp_dynfield m = ts /\
    get_burst_size_dynfield off m = Z.of_nat (length bufs) - Z.of_nat i /\ (i < length bufs)%nat.
Proof.
  intros Hts. induction bufs as [|b bufs IH]; intros Hl i m Hi; [done|]. cbn [length] in *.
  destruct i as [|i]; cbn in Hi.
  - injection Hi as <-. rewrite get_timestamp_burst, get_burst_set by (unfold is_u32; done || lia).
    split; [done|]. lia.
  - apply IH in Hi; [|lia]. destruct Hi as (? & ? & ?). split; [done|]. lia.
Qed.

Lemma tag_burst_tagged ts bufs :
  is_u64 ts -> Z.of_nat (length bufs) < 2 ^ 32 -> batch_tagged off (tag_burst off ts bufs).
Proof.
  intros Hts Hl i m Hi. destruct (tag_burst_lookup ts bufs Hts Hl i m Hi) as (E1 & E2 & E3).
  rewrite length_tag_burst. split; [lia|]. intros j m' _ Hj.
  destruct (tag_burst_lookup ts bufs Hts Hl _ m' Hj) as (E4 & _). lia.
Qed.

Lemma enqueued_splits bufs ev acc ev' :
  splits bufs ev acc -> enqueued (ev ++ ev') = enqueued ev'.
Proof. intros (dr & -> & _). by rewrite enqueued_app, enqueued_free. Qed.

Lemma splits_length bufs ev acc : splits bufs ev acc -> (length acc <= length bufs)%nat.
Proof.
  intros (dr & _ & _ & Hs). apply sublist_length in Hs. by rewrite !length_fmap in Hs.
Qed.

Lemma enqueue_nonempty_tagged ring ms :
  batch_tagged off ms -> Forall (batch_tagged off) (enqueued (enqueue_nonempty ring ms)).
Proof. destruct ms; intros H; [constructor|]. by constructor. Qed.

Lemma enqueue_nonempty_conserves ring ms acc :
  ident <$> ms = ident <$> acc -> conserves acc (enqueue_nonempty ring ms).
Proof.
  intros E. unfold conserves. destruct ms as [|m ms].
  - by destruct acc.
  - unfold enqueue_nonempty. destruct (enqueue_out ring (m :: ms)) as [-> ->].
    rewrite app_nil_r, E. done.
Qed.

Lemma sw_token_burst_splits c bufs : forall (tk : D) st tk' st' ev acc,
  sw_token_burst c tk st bufs = (tk', st', ev, acc) -> splits bufs ev acc.
Proof.
  induction bufs as [|b bufs IH]; intros tk st tk' st' ev acc H; cbn [sw_token_burst] in H.
  - simplify_eq. apply splits_nil.
  - destruct (tk <? _)%D; [|destruct (sw_loss c st) as [st1 lost]];
      destruct (sw_token_burst c _ _ bufs) as [[[tk1 st2] ev1] acc1] eqn:E;
      [|destruct lost]; simplify_eq; apply IH in E.
    + by apply splits_free.
    + by apply splits_free.
    + by apply splits_accept.
Qed.

Lemma sw_leaky_burst_splits hz dly c t bufs : forall (next_at : D) st next_at' st' ev acc,
  sw_leaky_burst off hz dly c t next_at st bufs = Ok (next_at', st', ev, acc) ->
  splits bufs ev acc /\ Forall (fun m => get_burst_size_dynfield off m = 1) acc.
Proof.
  induction bufs as [|b bufs IH]; intros next_at st next_at' st' ev acc H; cbn [sw_leaky_burst] in H.
  - res_inv. split; [apply splits_nil|constructor].
  - destruct (_ <? _)%D; [|destruct (sw_loss c st) as [st1 [|]]]; res_inv;
      match goal with E : sw_leaky_burst _ _ _ _ _ _ _ bufs = _ |- _ => apply IH in E as [E Hb] end.
    + split; [by apply splits_free|done].
    + split; [by apply splits_free|done].
    + split; [apply splits_accept; [apply (ident_set_timestamp b)|done]|].
      constructor; [|done]. by apply get_burst_set.
Qed.

Lemma ones_tagged acc :
  Forall (fun m => get_burst_size_dynfield off m = 1) acc -> batch_tagged off acc.
Proof.
  intros H i m Hi. pose proof (Forall_lookup_1 _ _ _ _ H Hi) as E. cbn in E.
  pose proof (lookup_lt_Some _ _ _ Hi). rewrite E. split; [lia|]. intros [|j] m' Hj Hij; [|lia].
  rewrite Nat.add_0_r, Hi in Hij. injection Hij as <-. lia.
Qed.

#[global] Instance sw_delay_tagged dly ring c : TaggedSource off (sw_delay_iter off dly ring c).
Proof.
  intros ls [bufs t] ls' ev Hrx H. unfold sw_delay_iter in H. unfold rx_ok, BURST_SIZE in Hrx. cbn in Hrx.
  destruct bufs as [|b bufs]; [res_inv; constructor|].
  case_bool_decide; res_inv.
  - constructor; [|constructor]. apply (tag_burst_tagged _ (b :: bufs)); [apply u64_range|cbn [length] in *; lia].
  - destruct (applyLoss_partition (b :: bufs) ls c ls' l1 l) as (dr & -> & Hs & _); [done..|].
    rewrite enqueued_app, enqueued_free. constructor; [|constructor].
    apply sublist_length in Hs. cbn [length] in *.
    apply tag_burst_tagged; [apply u64_range|lia].
Qed.

#[global] Instance sw_token_tagged hz dly ring c : TaggedSource off (sw_token_iter (D := D) off hz dly ring c).
Proof.
  intros st [bufs t] st' ev Hrx H. unfold sw_token_iter in H. unfold rx_ok, BURST_SIZE in Hrx. cbn in Hrx.
  destruct bufs as [|b bufs]; [res_inv; constructor|].
  destruct (sw_token_burst c _ _ _) as [[[tk ls] ev1] acc] eqn:E. res_inv.
  apply sw_token_burst_splits in E. rewrite (enqueued_splits _ _ _ _ E).
  apply splits_length in E. cbn [length] in *.
  apply enqueue_nonempty_tagged, tag_burst_tagged; [apply u64_range|lia].
Qed.

#[global] Instance sw_leaky_tagged hz dly ring c : TaggedSource off (sw_leaky_iter (D := D) off hz dly ring c).
Proof.
  intros st [bufs t] st' ev _ H. unfold sw_leaky_iter in H. res_inv.
  match goal with E : sw_leaky_burst _ _ _ _ _ _ _ _ = _ |- _ =>
    apply sw_leaky_burst_splits in E as [Hs Ho] end.
  rewrite (enqueued_splits _ _ _ _ Hs). by apply enqueue_nonempty_tagged, ones_tagged.
Qed.

Lemma sw_delay_iter_conserves dly ring c ls i ls' ev :
  sw_delay_iter off dly ring c ls i = Ok (ls', ev) -> conserves (fst i) ev.
Proof.
  destruct i as [bufs t]. unfold sw_delay_iter. cbn [fst].
  destruct bufs as [|b bufs]; [intros; res_inv; apply conserves_nil|].
  intros H. case_bool_decide; res_inv.
  - change (conserves (b :: bufs) [EnqueueBulk ring (tag_burst off (u64 (t + dly)) (b :: bufs))]).
    unfold conserves. destruct (enqueue_out ring (tag_burst off (u64 (t + dly)) (b :: bufs))) as [-> ->].
    by rewrite app_nil_r, ident_tag_burst.
  - destruct (applyLoss_partition (b :: bufs) ls c ls' l1 l) as (dr & -> & Hs & _ & Hp); [done..|].
    unfold conserves. autorewrite with moon_rw.
    destruct (enqueue_out ring (tag_burst off (u64 (t + dly)) l)) as [-> ->].
    rewrite app_nil_r. cbn [app]. rewrite fmap_app, ident_tag_burst, <- fmap_app.
    split; [by rewrite Hp|by apply fmap_sublist].
Qed.

Lemma sw_token_iter_conserves hz dly ring c (st : bucket D * Z) i st' ev :
  sw_token_iter off hz dly ring c st i = Ok (st', ev) -> conserves (fst i) ev.
Proof.
  destruct i as [bufs t]. unfold sw_token_iter. cbn [fst].
  destruct bufs as [|b bufs]; [intros; res_inv; apply conserves_nil|].
  destruct (sw_token_burst c _ _ _) as [[[tk ls] ev1] acc] eqn:E. intros H. res_inv.
  eapply splits_conserves; [by eapply sw_token_burst_splits|].
  apply enqueue_nonempty_conserves, ident_tag_burst.
Qed.

Lemma sw_leaky_iter_conserves hz dly ring c (st : D * Z) i st' ev :
  sw_leaky_iter off hz dly ring c st i = Ok (st', ev) -> conserves (fst i) ev.
Proof.
  destruct i as [bufs t]. unfold sw_leaky_iter. intros H. res_inv. cbn [fst].
  eapply splits_conserves; [by eapply sw_leaky_burst_splits|].
  by apply enqueue_nonempty_conserves.
Qed.

Lemma run_loop_conserves_in {S I} (f : I -> list mbuf) (body : S -> I -> res (S * list event)) :
  (forall s i s' ev, body s i = Ok (s', ev) -> conserves (f i) ev) ->
  forall ins s s' ev, run_loop body s ins = Ok (s', ev) -> conserves (concat (f <$> ins)) ev.
Proof.
  intros Hb. apply (run_loop_ind body (fun s ins s' ev => conserves (concat (f <$> ins)) ev)).
  - intros; apply conserves_nil.
  - intros s i s1 ev ins s2 evs H1 H2. cbn. apply conserves_app; eauto.
Qed.


End ReceiversCorrect.

(** ** Rate conformance, in exact arithmetic *)

Section Rates.
#[local] Existing Instances exact_ops exact_laws.
Context `{TS : TimestampDynfield} (off : Z).
#[local] Open Scope Q_scope.

(** Counter readings never go back. *)
Fixpoint nondecreasing (t0 : Z) (ts : list Z) : Prop :=
  match ts with [] => True | t :: ts => (t0 <= t)%Z /\ nondecreasing t ts end.

Definition rate_bytes_per_tick (hz : Z) (c : moonem_config) : Q := SW_TOKEN_RATE (D := Q) hz c.

Lemma token_rate_nonneg hz c : config_wf c -> (0 < hz)%Z -> 0 <= rate_bytes_per_tick hz c.
Proof.
  intros (_ & [Hr _] & _) Hh. unfold rate_bytes_per_tick, SW_TOKEN_RATE. cbn.
  rewrite Zle_Qle in Hr. rewrite Zlt_Qlt in Hh. change (inject_Z 0) with 0 in Hr, Hh.
  apply Qmult_le_0_compat; [|done]. apply Qle_shift_div_l; [done|]. rewrite Qmult_0_l.
  apply Qle_shift_div_l; [done|]. lra.
Qed.

Lemma sw_token_burst_rate c bufs : forall (tk : Q) st tk' st' ev acc,
  sw_token_burst c tk st bufs = (tk', st', ev, acc) -> 0 <= tk ->
  0 <= tk' /\ inject_Z (zsum wire_size acc) + tk' <= tk.
Proof.
  induction bufs as [|b bufs IH]; intros tk st tk' st' ev acc H Hpos; cbn [sw_token_burst] in H.
  - simplify_eq. split; [done|]. change (inject_Z (zsum _ [])) with 0. lra.
  - assert (0 <= inject_Z (wire_size b)) as Hw.
    { rewrite <- (Zle_Qle 0). apply u32_range. }
    destruct (tk <? _)%D eqn:E0; [|destruct (sw_loss c st) as [st1 lost]];
      destruct (sw_token_burst c _ _ bufs) as [[[tk1 st2] ev1] acc1] eqn:E;
      [|destruct lost]; simplify_eq; (apply IH in E as [E1 E2]; [|done || idtac]).
    + done.
    + fold (wire_size b) in E2. cbn in E2. split; [done|]. lra.
    + apply dltb_false in E0; [|done..]. fold (wire_size b) in *. cbn in *. lra.
    + fold (wire_size b) in E2. cbn in E2. cbn [zsum]. rewrite inject_Z_plus. split; [done|]. lra.
    + apply dltb_false in E0; [|done..]. fold (wire_size b) in *. cbn in *. lra.
Qed.

(** The bucket between iterations: last update at [t0]. *)
Definition sw_bucket_inv (c : moonem_config) (t0 : Z) (k : bucket Q) : Prop :=
  previous_timestamp k = inject_Z t0 /\ 0 <= previous_tokens k <= inject_Z (capacity c).

Lemma sw_token_iter_rate hz dly ring c st bufs t st' ev t0 :
  config_wf c -> (0 < hz)%Z -> (t0 <= t)%Z -> sw_bucket_inv c t0 (fst st) ->
  sw_token_iter off hz dly ring c st (bufs, t) = Ok (st', ev) ->
  exists t1, (t1 = t0 \/ t1 = t) /\ sw_bucket_inv c t1 (fst st') /\
    inject_Z (zsum wire_size (handed_on ev)) + previous_tokens (fst st') <=
    previous_tokens (fst st) + (inject_Z t1 - inject_Z t0) * rate_bytes_per_tick hz c.
Proof.
  intros Hwf Hh Ht [Hp [Hk0 Hk1]] H. unfold sw_token_iter in H.
  destruct bufs as [|b bufs].
  { res_inv. exists t0. split; [by left|]. split; [done|].
    change (inject_Z (zsum _ (handed_on []))) with 0. lra. }
  destruct (sw_token_burst c _ _ _) as [[[tk ls] ev1] acc] eqn:E. res_inv.
  pose proof (token_rate_nonneg hz c Hwf Hh) as HR.
  rewrite Zle_Qle in Ht.
  assert (0 <= (inject_Z t - inject_Z t0) * rate_bytes_per_tick hz c) as Hg
    by (apply Qmult_le_0_compat; lra).
  set (cur := sw_current_tokens hz c (fst st) t) in *.
  assert (0 <= cur /\ cur <= inject_Z (capacity c) /\
    cur <= previous_tokens (fst st) + (inject_Z t - inject_Z t0) * rate_bytes_per_tick hz c)
    as (C1 & C2 & C3).
  { unfold cur, sw_current_tokens. rewrite Hp.
    set (a := (previous_tokens (fst st) + _)%D).
    change a with (previous_tokens (fst st) + (inject_Z t - inject_Z t0) * rate_bytes_per_tick hz c).
    split; [|split; apply exact_MIN_le].
    destruct (dMIN_cases (previous_tokens (fst st)
      + (inject_Z t - inject_Z t0) * rate_bytes_per_tick hz c) (d_of_Z (capacity c))) as [[-> _]| ->];
      [lra|]. cbn. lra. }
  pose proof (sw_token_burst_splits _ _ _ _ _ _ _ _ E) as Hs.
  apply sw_token_burst_rate in E as [E1 E2]; [|done].
  exists t. split; [by right|]. cbn [fst previous_tokens].
  assert (0 <= inject_Z (zsum wire_size acc)) as Hacc.
  { rewrite <- (Zle_Qle 0). apply wire_size_nonneg. }
  split; [split; [done|cbn; lra]|].
  destruct Hs as (dr & -> & _). rewrite handed_on_app, handed_on_free. cbn [app].
  assert (zsum wire_size (handed_on (enqueue_nonempty ring (tag_burst off (u64 (t + dly)) acc)))
    <= zsum wire_size acc)%Z as Hz.
  { apply conserves_wire, enqueue_nonempty_conserves, ident_tag_burst. }
  rewrite Zle_Qle in Hz. lra.
Qed.


(** *** Leaky bucket *)

(** Line time of a packet in ticks. *)
Definition ticks (hz : Z) (c : moonem_config) (m : mbuf) : Q :=
  (inject_Z (wire_size m) * 8) / B_P_TSC_TARGET (D := Q) hz c.

(** The timestamps of [ms] are an ideal schedule [xs] rounded down: from [lo]
    on, each packet starts after the previous one has left at the configured
    rate; the last one has left at [hi]. *)
Fixpoint schedule (hz : Z) (c : moonem_config) (lo : Q) (ms : list mbuf) (xs : list Q) (hi : Q) : Prop :=
  match ms, xs with
  | [], [] => lo <= hi
  | m :: ms, x :: xs =>
      lo <= x /\ inject_Z (get_timestamp_dynfield m) <= x < inject_Z (get_timestamp_dynfield m) + 1 /\
      schedule hz c (x + ticks hz c m) ms xs hi
  | _, _ => False
  end.

Lemma schedule_weaken hz c lo lo' ms xs hi :
  lo' <= lo -> schedule hz c lo ms xs hi -> schedule hz c lo' ms xs hi.
Proof.
  intros Hl. destruct ms, xs; cbn; try done; [lra|].
  intros (? & ? & ?). split; [lra|done].
Qed.

Lemma schedule_app hz c lo ms1 xs1 mid ms2 xs2 hi :
  schedule hz c lo ms1 xs1 mid -> schedule hz c mid ms2 xs2 hi ->
  schedule hz c lo (ms1 ++ ms2) (xs1 ++ xs2) hi.
Proof.
  revert lo xs1. induction ms1 as [|m ms1 IH]; intros lo [|x xs1] H1 H2; try done.
  - by eapply schedule_weaken.
  - destruct H1 as (? & ? & H1). split; [done|]. split; [done|]. by apply IH.
Qed.

Definition leaky_ok (hz : Z) (c : moonem_config) : Prop := (0 < hz)%Z /\ (0 < rate c)%Z.

Lemma ticks_nonneg hz c m : leaky_ok hz c -> 0 <= ticks hz c m.
Proof.
  intros [Hh Hr]. unfold ticks, B_P_TSC_TARGET. cbn.
  rewrite Zlt_Qlt in Hh, Hr. change (inject_Z 0) with 0 in *.
  assert (0 < inject_Z (rate c) * inject_Z 1000000 / inject_Z hz) as Hp.
  { apply Qlt_shift_div_l; [done|]. change (inject_Z 1000000) with 1000000. lra. }
  apply Qle_shift_div_l; [done|].
  assert (0 <= inject_Z (wire_size m)) by (rewrite <- (Zle_Qle 0); apply u32_range). lra.
Qed.

Lemma ticks_ident hz c m m' : ident m = ident m' -> ticks hz c m = ticks hz c m'.
Proof. intros H. unfold ticks. by rewrite (wire_size_ident _ _ H). Qed.

Lemma sw_leaky_burst_schedule hz dly c t bufs : forall next_at st next_at' st' ev acc,
  leaky_ok hz c -> 0 <= next_at ->
  sw_leaky_burst off hz dly c t next_at st bufs = Ok (next_at', st', ev, acc) ->
  0 <= next_at' /\ exists xs, schedule hz c next_at acc xs next_at' /\
    Forall (fun x => inject_Z (u64 (t + dly)) <= x /\
                     x <= inject_Z (u64 (t + dly)) + SW_BACKLOG_BOUND (D := Q) hz c) xs.
Proof.
  induction bufs as [|b bufs IH]; intros next_at st next_at' st' ev acc HL Hpos H;
    cbn [sw_leaky_burst] in H.
  - res_inv. split; [done|]. exists []. split; [cbn; lra|constructor].
  - set (snd := u64 (t + dly)) in *.
    pose proof (exact_MAX_ge (inject_Z snd) next_at) as [M1 M2].
    set (x := dMAX (inject_Z snd) next_at) in *.
    change (dMAX (d_of_Z snd) next_at) with x in H.
    pose proof (ticks_nonneg hz c b HL) as Htk.
    destruct (SW_BACKLOG_BOUND hz c <? (x - d_of_Z snd))%D eqn:EB.
    { res_inv. eapply IH; eauto. }
    apply (dltb_false (FL := exact_laws)) in EB; [|done..].
    change (x - inject_Z snd <= SW_BACKLOG_BOUND (D := Q) hz c) in EB.
    change ((x + d_of_Z (u32 (pkt_len b + 24)) * d_of_Z 8 / B_P_TSC_TARGET hz c)%D)
      with (x + ticks hz c b) in H.
    destruct (sw_loss c st) as [st1 [|]]; res_inv;
      match goal with E : sw_leaky_burst _ _ _ _ _ _ _ bufs = _ |- _ =>
        apply IH in E as (Hn & xs & Hs & Hx); [|done|lra] end.
    + split; [done|]. exists xs. split; [|done]. eapply schedule_weaken; [|done]. lra.
    + apply exact_to_u64 in E as [F1 F2]; [|lra].
      split; [done|]. exists (x :: xs). split; [|constructor; [|done]].
      * cbn [schedule]. split; [done|]. split; [|by rewrite (ticks_ident hz c _ b) by apply (ident_set_timestamp b)].
        rewrite get_timestamp_burst by done. done.
      * split; [done|]. change (inject_Z (u64 (t + dly))) with (inject_Z snd). lra.
Qed.

Lemma sw_leaky_burst_total hz dly c t bufs : forall next_at st,
  leaky_ok hz c -> 0 <= next_at ->
  inject_Z (u64 (t + dly)) + SW_BACKLOG_BOUND (D := Q) hz c < inject_Z (2 ^ 64) ->
  exists next_at' st' ev acc,
    sw_leaky_burst off hz dly c t next_at st bufs = Ok (next_at', st', ev, acc).
Proof.
  induction bufs as [|b bufs IH]; intros next_at st HL Hpos Hfit; [by eexists _, _, _, _|].
  cbn [sw_leaky_burst]. set (snd := u64 (t + dly)) in *.
  pose proof (exact_MAX_ge (inject_Z snd) next_at) as [M1 M2].
  set (x := dMAX (inject_Z snd) next_at) in *. change (dMAX (d_of_Z snd) next_at) with x.
  pose proof (ticks_nonneg hz c b HL) as Htk.
  destruct (SW_BACKLOG_BOUND hz c <? (x - d_of_Z snd))%D eqn:EB.
  { destruct (IH next_at st HL Hpos Hfit) as (? & ? & ? & ? & ->). by eexists _, _, _, _. }
  apply (dltb_false (FL := exact_laws)) in EB; [|done..].
  change (x - inject_Z snd <= SW_BACKLOG_BOUND (D := Q) hz c) in EB.
  change ((x + d_of_Z (u32 (pkt_len b + 24)) * d_of_Z 8 / B_P_TSC_TARGET hz c)%D)
    with (x + ticks hz c b).
  destruct (sw_loss c st) as [st1 [|]];
    destruct (IH (x + ticks hz c b) st1 HL ltac:(lra) Hfit) as (? & ? & ? & ? & E);
    [|rewrite (d_to_u64_ok (FL := exact_laws) x) by (done || cbn; lra); cbn [mbind res_bind]];
    rewrite E; by eexists _, _, _, _.
Qed.


(** The software leaky bucket delays within its bounds.  Every packet of a
    burst received at [t] that is enqueued has a timestamp no earlier than [t]
    plus the delay and no later than the backlog bound after that, and a burst
    is always processed when these times fit the counter. *)
Theorem sw_leaky_bucket_delay_bounds hz dly c t next_at st bufs
    (Hcfg : leaky_ok hz c) (Hpos : 0 <= next_at)
    (Hfit : inject_Z (u64 (t + dly)) + SW_BACKLOG_BOUND (D := Q) hz c < inject_Z (2 ^ 64)) :
  exists next_at' st' ev acc,
    sw_leaky_burst off hz dly c t next_at st bufs = Ok (next_at', st', ev, acc) /\
    Forall (fun m => (u64 (t + dly) <= get_timestamp_dynfield m)%Z /\
      inject_Z (get_timestamp_dynfield m) <= inject_Z (u64 (t + dly)) + SW_BACKLOG_BOUND (D := Q) hz c) acc.
Proof.
  destruct (sw_leaky_burst_total hz dly c t bufs next_at st Hcfg Hpos Hfit)
    as (next_at' & st' & ev & acc & E).
  exists next_at', st', ev, acc. split; [done|].
  apply sw_leaky_burst_schedule in E as (_ & xs & Hs & Hx); [|done..].
  clear Hfit. revert xs Hs Hx. generalize next_at at 1. induction acc as [|m acc IH]; intros lo xs Hs Hx; [constructor|].
  destruct xs as [|x xs]; [done|]. destruct Hs as (_ & [F1 F2] & Hs).
  apply Forall_cons in Hx as [[X1 X2] Hx]. constructor; [|by eapply IH].
  split; [|lra]. assert (inject_Z (u64 (t + dly)) < inject_Z (get_timestamp_dynfield m + 1)) as Hlt.
  { rewrite inject_Z_plus. change (inject_Z 1) with 1. lra. }
  rewrite <- Zlt_Qlt in Hlt. lia.
Qed.

End Rates.

(** ** Evaluation *)

Section Witnesses.
#[local] Existing Instance cell_dynfield.

(** A 2 GHz counter, the field at offset 8, two bursts. *)
Definition sample_rx : list (list mbuf * Z) :=
  [([sample_mbuf 1 1500 0; sample_mbuf 2 1500 0; sample_mbuf 3 60 0], 1000000);
   ([], 1000500); ([sample_mbuf 4 60 0], 4000000)].

Definition sample_clock (k : nat) : Z := 20900000 + 40 * Z.of_nat k.

Lemma sw_pipeline_on_time_witness :
  exists s' ev, run_loop (sw_delay_iter 8 20000000 7 (sample_config NONE)) (LossState 1 0) sample_rx
    = Ok (s', ev) /\
  exists k' tx, sw_transmitter_loop_delay 8 sample_clock 0 (enqueued ev) = Ok (k', tx) /\
    concat (snd <$> tx) = concat (enqueued ev) /\ prompt sample_clock 0 tx k'.
Proof.
  destruct (run_loop (sw_delay_iter 8 20000000 7 (sample_config NONE)) (LossState 1 0) sample_rx)
    as [[s' ev]|] eqn:E; [|vm_compute in E; discriminate].
  exists s', ev. split; [reflexivity|].
  apply (sw_pipeline_on_time 8 sample_clock ltac:(intros k; unfold sample_clock; lia)
    (sw_delay_iter 8 20000000 7 (sample_config NONE)) sample_rx (LossState 1 0) s' ev (enqueued ev)).
  - repeat constructor; vm_compute; congruence.
  - exact E.
  - reflexivity.
  - reflexivity.
  - vm_compute in E. injection E as _ <-. repeat constructor; vm_compute; congruence.
Defined.




Lemma sw_leaky_bucket_delay_bounds_witness :
  exists next_at' st' ev acc,
    sw_leaky_burst (FO := exact_ops) 8 2000000000 20000000 (sample_config NONE) 1000000 0%Q 0
      (concat (fst <$> sample_rx)) = Ok (next_at', st', ev, acc) /\
    Forall (fun m => 21000000 <= get_timestamp_dynfield m) acc.
Proof.
  destruct (sw_leaky_bucket_delay_bounds 8 2000000000 20000000 (sample_config NONE) 1000000 0%Q 0
    (concat (fst <$> sample_rx))) as (n & st & ev & acc & E & H).
  - split; reflexivity.
  - lra.
  - vm_compute. reflexivity.
  - exists n, st, ev, acc. split; [exact E|]. eapply Forall_impl; [exact H|].
    intros m [Hm _]. exact Hm.
Defined.

End Witnesses.
