(* ===== verification/Histogram.v ===== *)
(** * Online histogram: src/histogram.cpp

    Mean and variance by Welford's recurrence, and counters in buckets of a
    fixed size.  [std::map] is a finite map whose iteration is in increasing
    key order; the global pointer [hist] is modelled with its three states. *)
From S2P Require Import Prelude Float Binary64.
From Stdlib Require Import QArith Qabs Lqa Sorted.
From stdpp Require Import gmap sorting pretty strings.

#[local] Open Scope Z_scope.

Section Histogram.
Context `{FO : FloatOps D}.

Record Histogram := MkHistogram {
  count : Z;
  m2 : D;
  mean : D;
  variance : D;
  bucket_size : Z;
  bucket_half : Z;
  storage : gmap Z Z
}.

(** The constructor; [None] is [exit(EXIT_FAILURE)]. *)
Definition new_Histogram (bucket_size : Z) : option Histogram :=
  if bucket_size <=? 0 then None
  else Some (MkHistogram 0 (d_of_Z 0) (d_of_Z 0) (d_of_Z 0) bucket_size (Z.quot bucket_size 2) ∅).

Definition getCount (h : Histogram) : Z := count h.
Definition getMean (h : Histogram) : D := mean h.
Definition getVariance (h : Histogram) : D := variance h.

(** The bucket a value is put in. *)
Definition bucket_of (bucket_size bucket_half new_val : Z) : res Z :=
  new_val ← (if 0 <? new_val then chk_s64 (new_val + bucket_half)
             else if new_val <? 0 then chk_s64 (new_val - bucket_half)
             else mret new_val);
  if bucket_size =? 0 then UB DivByZero
  else chk_s64 (Z.quot new_val bucket_size * bucket_size).

(** [++storage[b]] *)
Definition bump (b : Z) (s : gmap Z Z) : gmap Z Z :=
  <[b := u32 (default 0 (s !! b) + 1)]> s.

Definition update (h : Histogram) (new_val : Z) : res (Histogram * bool) :=
  let ret := negb (new_val <? 0) in
  let count := u64 (count h + 1) in
  let delta := (d_of_Z new_val - mean h)%D in
  let mean' := (mean h + delta / d_of_Z count)%D in
  let delta2 := (d_of_Z new_val - mean')%D in
  let m2 := (m2 h + delta * delta2)%D in
  b ← bucket_of (bucket_size h) (bucket_half h) new_val;
  mret (MkHistogram count m2 mean' (variance h) (bucket_size h) (bucket_half h)
          (bump b (storage h)), ret).

Definition finalize (h : Histogram) : Histogram :=
  if count h <? 2 then h
  else MkHistogram (count h) (m2 h) (mean h) (m2 h / d_of_Z (u64 (count h - 1)))%D
         (bucket_size h) (bucket_half h) (storage h).

(** The iteration order of [std::map]. *)
Definition key_le (p q : Z * Z) : Prop := fst p <= fst q.
#[global] Instance key_le_dec : RelDecision key_le.
Proof. intros p q. unfold key_le. apply _. Defined.

Definition entries (h : Histogram) : list (Z * Z) := merge_sort key_le (map_to_list (storage h)).

(** The text written: a line [bucket,count] per bucket. *)
Definition write_to_file (h : Histogram) : string :=
  foldr (fun p s => pretty (fst p) +:+ "," +:+ pretty (snd p) +:+ String (Ascii.ascii_of_nat 10) s)%string ""%string
    (entries h).

(** ** The global histogram *)

Inductive hist_ptr := Null | Live (h : Histogram) | Dangling.

(** [hist->...] *)
Definition deref (p : hist_ptr) : res Histogram :=
  match p with Null => UB NullDeref | Live h => Ok h | Dangling => UB UseAfterFree end.

Definition hs_initialize (bucket_size : Z) : option hist_ptr := Live <$> new_Histogram bucket_size.
Definition hs_destroy (p : hist_ptr) : res hist_ptr :=
  match p with Null => Ok Null | Live _ => Ok Dangling | Dangling => UB UseAfterFree end.
Definition hs_update (p : hist_ptr) (new_val : Z) : res (hist_ptr * bool) :=
  h ← deref p; '(h, ret) ← update h new_val; mret (Live h, ret).
Definition hs_finalize (p : hist_ptr) : res hist_ptr := h ← deref p; mret (Live (finalize h)).
Definition hs_write (p : hist_ptr) : res string := h ← deref p; mret (write_to_file h).
Definition hs_getCount (p : hist_ptr) : res Z := h ← deref p; mret (getCount h).
Definition hs_getMean (p : hist_ptr) : res D := h ← deref p; mret (getMean h).
Definition hs_getVariance (p : hist_ptr) : res D := h ← deref p; mret (getVariance h).

(** A sequence of updates. *)
Fixpoint hs_updates (p : hist_ptr) (vs : list Z) : res hist_ptr :=
  match vs with
  | [] => mret p
  | v :: vs => '(p, _) ← hs_update p v; hs_updates p vs
  end.

End Histogram.
Arguments Histogram D : clear implicits.
Arguments hist_ptr D : clear implicits.

(** ** Buckets *)

(** The bucket of a value, without overflow checks. *)
Definition bucket (size v : Z) : Z := Z.sgn v * ((Z.abs v + size / 2) / size * size).

Lemma bucket_of_ok size v :
  0 < size < 2 ^ 32 -> Z.abs v <= 2 ^ 62 -> bucket_of size (Z.quot size 2) v = Ok (bucket size v).
Proof.
  intros Hs Hv. unfold bucket_of, bucket.
  rewrite (Z.quot_div_nonneg size 2) by lia.
  assert (0 <= size / 2 < 2 ^ 32) as Hh by zmod.
  assert (0 <= (Z.abs v + size / 2) / size * size <= Z.abs v + size / 2) as Hb.
  { split; [apply Z.mul_nonneg_nonneg; [apply Z.div_pos|]; lia|].
    rewrite Z.mul_comm. apply Z.mul_div_le. lia. }
  destruct (Z.ltb_spec 0 v); [|destruct (Z.ltb_spec v 0)].
  - rewrite chk_s64_ok by (unfold is_s64; lia). cbn [mbind res_bind].
    destruct (Z.eqb_spec size 0); [lia|]. rewrite Z.quot_div_nonneg by lia.
    rewrite Z.abs_eq in * by lia. rewrite Z.sgn_pos, Z.mul_1_l by lia.
    apply chk_s64_ok. unfold is_s64. lia.
  - rewrite chk_s64_ok by (unfold is_s64; lia). cbn [mbind res_bind].
    destruct (Z.eqb_spec size 0); [lia|].
    replace (v - size / 2) with (- (Z.abs v + size / 2)) by lia.
    rewrite Z.quot_opp_l, Z.quot_div_nonneg by lia. rewrite Z.sgn_neg by lia.
    rewrite chk_s64_ok by (unfold is_s64; lia). f_equal. lia.
  - assert (v = 0) as -> by lia. cbn [mbind res_bind mret res_ret].
    destruct (Z.eqb_spec size 0); [lia|]. rewrite Z.quot_0_l by lia.
    rewrite Z.sgn_0. by rewrite chk_s64_ok by (unfold is_s64; lia).
Qed.

Lemma bucket_zero size v : 0 < size ->
  bucket size v = 0 <-> - ((size - 1) / 2) <= v <= (size - 1) / 2.
Proof.
  intros Hs. unfold bucket.
  assert (Z.abs v <= (size - 1) / 2 <-> Z.abs v + size / 2 < size) as Hc by zmod.
  destruct (Z.lt_ge_cases (Z.abs v + size / 2) size) as [Hlt|Hge].
  - rewrite Z.div_small by (pose proof (Z.div_pos size 2); lia). lia.
  - assert (1 <= (Z.abs v + size / 2) / size) by (apply Z.div_le_lower_bound; lia).
    assert (v <> 0) by (intros ->; pose proof (Z.mul_div_le size 2 ltac:(lia)); cbn in Hge; lia).
    assert (Z.sgn v <> 0) by (rewrite Z.sgn_null_iff; done).
    split; [|lia]. intros E. apply Z.mul_eq_0 in E as [E|E]; [lia|].
    apply Z.mul_eq_0 in E. lia.
Qed.

Lemma bucket_pos size v k : 0 < size -> 0 < k ->
  bucket size v = k * size <-> k * size - size / 2 <= v <= k * size - size / 2 + (size - 1).
Proof.
  intros Hs Hk. unfold bucket.
  pose proof (Z.mul_div_le size 2 ltac:(lia)). pose proof (Z.div_pos size 2 ltac:(lia) ltac:(lia)).
  assert (0 <= (Z.abs v + size / 2) / size) by (apply Z.div_pos; lia).
  destruct (Z.sgn_spec v) as [[Hv ->]|[[<- ->]|[Hv ->]]].
  - rewrite Z.abs_eq, Z.mul_1_l by lia. split.
    + intros E. apply Z.mul_cancel_r in E; [|lia]. zmod.
    + intros [Hlo Hhi]. f_equal. symmetry. apply (Z.div_unique_pos _ _ _ (v + size / 2 - size * k)); lia.
  - split; [lia|]. intros [Hlo Hhi]. nia.
  - split; [nia|]. nia.
Qed.

(** A value is counted in a nearest bucket.  For every bucket size the
    constructor accepts and every value below 2^62, [bucket_of] returns a
    multiple of the size at most half a bucket away, symmetrically for
    negative values.  A bucket other than 0 receives exactly [size] values;
    the bucket of 0 receives [size] values when the size is odd and [size-1]
    when it is even. *)
Theorem bucket_of_nearest `{FO : FloatOps D} size h v
    (Hnew : new_Histogram (D := D) size = Some h) (Hsize : size < 2 ^ 32) (Hv : Z.abs v <= 2 ^ 62) :
  exists b, bucket_of (bucket_size h) (bucket_half h) v = Ok b /\
    (size | b) /\ 2 * Z.abs (v - b) <= size /\
    bucket_of (bucket_size h) (bucket_half h) (- v) = Ok (- b) /\
    (b = 0 <-> - ((size - 1) / 2) <= v <= (size - 1) / 2) /\
    (forall k, 0 < k -> b = k * size <-> k * size - size / 2 <= v <= k * size - size / 2 + (size - 1)).
Proof.
  unfold new_Histogram in Hnew. destruct (Z.leb_spec size 0); [done|]. injection Hnew as <-. cbn.
  exists (bucket size v).
  assert (bucket size (- v) = - bucket size v) as Hneg.
  { unfold bucket. rewrite Z.abs_opp, Z.sgn_opp. lia. }
  split; [apply bucket_of_ok; lia|]. split; [|split; [|split; [|split]]].
  - exists (Z.sgn v * ((Z.abs v + size / 2) / size)). unfold bucket. lia.
  - pose proof (Z.mul_div_le (Z.abs v + size / 2) size ltac:(lia)).
    pose proof (Z.mul_succ_div_gt (Z.abs v + size / 2) size ltac:(lia)).
    pose proof (Z.mul_div_le size 2 ltac:(lia)). pose proof (Z.mul_succ_div_gt size 2 ltac:(lia)).
    unfold bucket. destruct (Z.sgn_spec v) as [[? ->]|[[? ->]|[? ->]]]; lia.
  - rewrite <- Hneg. apply bucket_of_ok; lia.
  - pose proof (bucket_zero size v). tauto.
  - intros k Hk. apply bucket_pos; lia.
Qed.

(** ** Counters *)

Definition occurrences (size : Z) (vs : list Z) (b : Z) : Z :=
  Z.of_nat (length (filter (fun v => bucket size v = b) vs)).

Definition bumps (size : Z) (s : gmap Z Z) (vs : list Z) : gmap Z Z :=
  foldl (fun s v => bump (bucket size v) s) s vs.

Lemma hs_updates_live `{FO : FloatOps D} size vs : forall h : Histogram D,
  0 < size < 2 ^ 32 -> Forall (fun v => Z.abs v <= 2 ^ 62) vs ->
  bucket_size h = size -> bucket_half h = Z.quot size 2 -> is_u64 (count h) ->
  exists h', hs_updates (Live h) vs = Ok (Live h') /\
    count h' = u64 (count h + Z.of_nat (length vs)) /\ storage h' = bumps size (storage h) vs.
Proof.
  induction vs as [|v vs IH]; intros h Hs Hv Hb Hh Hc.
  - exists h. split; [done|]. split; [|done]. cbn. by rewrite Z.add_0_r, u64_id.
  - apply Forall_cons in Hv as [Hv Hvs]. cbn [hs_updates]. unfold hs_update, update. cbn [deref mbind res_bind].
    rewrite Hb, Hh, bucket_of_ok by done. cbn [mbind res_bind mret res_ret].
    match goal with |- context [hs_updates (Live ?x) vs] => destruct (IH x) as (h' & E & E1 & E2) end;
      [done|done|done|done|apply u64_range|].
    exists h'. rewrite E, E1, E2. split; [done|]. split; [|done].
    cbn [count length]. rewrite u64_add_l. f_equal. lia.
Qed.

Lemma bump_lookup b s x :
  default 0 (bump b s !! x) = if decide (x = b) then u32 (default 0 (s !! b) + 1) else default 0 (s !! x).
Proof.
  unfold bump. destruct (decide (x = b)) as [->|Hne]; [by rewrite lookup_insert_eq|].
  by rewrite lookup_insert_ne.
Qed.

Lemma occurrences_cons size v vs b :
  occurrences size (v :: vs) b = (if decide (bucket size v = b) then 1 else 0) + occurrences size vs b.
Proof.
  unfold occurrences. rewrite filter_cons. destruct (decide (bucket size v = b)); cbn [length]; lia.
Qed.

Lemma bumps_lookup size vs : forall s x,
  is_u32 (default 0 (s !! x)) ->
  default 0 (bumps size s vs !! x) = u32 (default 0 (s !! x) + occurrences size vs x).
Proof.
  induction vs as [|v vs IH]; intros s x Hx.
  - cbn. by rewrite Z.add_0_r, u32_id.
  - unfold bumps. cbn [foldl]. fold (bumps size (bump (bucket size v) s) vs).
    rewrite IH, bump_lookup, occurrences_cons.
    + destruct (decide (x = bucket size v)) as [->|Hne].
      * rewrite decide_True by done. rewrite u32_add_l. f_equal; lia.
      * rewrite decide_False by congruence. done.
    + rewrite bump_lookup. destruct (decide _); [apply u32_range|done].
Qed.

Lemma bumps_present size vs : forall s x,
  is_Some (bumps size s vs !! x) <-> is_Some (s !! x) \/ 0 < occurrences size vs x.
Proof.
  induction vs as [|v vs IH]; intros s x.
  - change (occurrences size [] x) with 0. cbn. split; [by left|]. intros [?|?]; [done|lia].
  - unfold bumps. cbn [foldl]. fold (bumps size (bump (bucket size v) s) vs).
    rewrite IH, occurrences_cons. unfold bump. rewrite lookup_insert_is_Some.
    assert (0 <= occurrences size vs x) by (unfold occurrences; lia).
    destruct (decide (bucket size v = x)) as [Ex|Ex]; split; [right; lia|by left; left|tauto|].
    intros [Hs|Ho]; [left; by right|right; lia].
Qed.

Lemma zsum_insert (s : gmap Z Z) b x :
  zsum snd (map_to_list (<[b := x]> s)) = zsum snd (map_to_list s) - default 0 (s !! b) + x.
Proof.
  destruct (s !! b) as [y|] eqn:E.
  - rewrite <- (insert_delete_id s b y E) at 2. rewrite <- insert_delete_eq.
    rewrite !(zsum_perm _ _ _ (map_to_list_insert (delete b s) b _ (lookup_delete_eq s b))). cbn. lia.
  - rewrite (zsum_perm _ _ _ (map_to_list_insert s b x E)). cbn. lia.
Qed.

Lemma bumps_total size vs : forall s,
  (forall x, 0 <= default 0 (s !! x) /\ default 0 (s !! x) + occurrences size vs x < 2 ^ 32) ->
  zsum snd (map_to_list (bumps size s vs)) = zsum snd (map_to_list s) + Z.of_nat (length vs).
Proof.
  induction vs as [|v vs IH]; intros s Hs; [cbn; lia|].
  unfold bumps. cbn [foldl]. fold (bumps size (bump (bucket size v) s) vs).
  assert (forall x, 0 <= occurrences size vs x) as Ho by (intros; unfold occurrences; lia).
  pose proof (Hs (bucket size v)) as [Hb1 Hb2]. specialize (Ho (bucket size v)) as Ho1.
  rewrite occurrences_cons, decide_True in Hb2 by done.
  rewrite IH.
  - unfold bump. rewrite zsum_insert, u32_id by (unfold is_u32; lia). cbn [length]. lia.
  - intros x. rewrite bump_lookup. pose proof (Hs x) as [Hx1 Hx2]. rewrite occurrences_cons in Hx2.
    destruct (decide (x = bucket size v)) as [->|Hne].
    + rewrite u32_id by (unfold is_u32; lia). lia.
    + rewrite decide_False in Hx2 by congruence. lia.
Qed.

Lemma occurrences_le size vs x : 0 <= occurrences size vs x <= Z.of_nat (length vs).
Proof.
  unfold occurrences. split; [lia|]. apply inj_le, length_filter.
Qed.

#[global] Instance key_le_trans : Transitive key_le.
Proof. intros p q r. unfold key_le. lia. Qed.
#[global] Instance key_le_total : Total key_le.
Proof. intros p q. unfold key_le. lia. Qed.

(** C23: The histogram counts every value once.  After [hs_initialize] and any
    sequence of updates (fewer than 2^32, values below 2^62) the count is
    their number, a bucket exists exactly when a value falls into it and then
    holds the number of such values, and the written file lists the buckets in
    strictly increasing order with counters that add up to the count. *)
Theorem histogram_counts `{FO : FloatOps D} size p vs
    (Hsize : size < 2 ^ 32) (Hinit : hs_initialize (D := D) size = Some p)
    (Hv : Forall (fun v => Z.abs v <= 2 ^ 62) vs) (Hn : Z.of_nat (length vs) < 2 ^ 32) :
  exists h, hs_updates p vs = Ok (Live h) /\
    count h = Z.of_nat (length vs) /\
    (forall b n, storage h !! b = Some n <-> n = occurrences size vs b /\ 0 < n) /\
    entries h ≡ₚ map_to_list (storage h) /\
    StronglySorted Z.lt (fst <$> entries h) /\
    zsum snd (entries h) = count h.
Proof.
  unfold hs_initialize, new_Histogram in Hinit. destruct (Z.leb_spec size 0); [done|].
  injection Hinit as <-.
  match goal with |- context [hs_updates (Live ?x) vs] =>
    destruct (hs_updates_live size vs x) as (h & E & Ec & Es) end; [lia|done|done|done|done|].
  cbn in Ec, Es. rewrite u64_id in Ec by (unfold is_u64; lia). exists h. split; [done|].
  split; [done|].
  assert (entries h ≡ₚ map_to_list (storage h)) as Hp by apply merge_sort_Permutation.
  split; [|split; [done|split]].
  - intros b n. pose proof (bumps_lookup size vs ∅ b) as Hl. pose proof (bumps_present size vs ∅ b) as Hs.
    pose proof (occurrences_le size vs b). rewrite lookup_empty in Hl, Hs. cbn in Hl.
    specialize (Hl ltac:(done)). rewrite u32_id in Hl by (unfold is_u32; lia). rewrite <- Es in Hl, Hs.
    assert (~ is_Some (@None Z)) as Hnone by (by intros [? ?]).
    split.
    + intros Hb. rewrite Hb in Hl, Hs. cbn in Hl. split; [done|].
      destruct (proj1 Hs ltac:(by eexists)); [done|lia].
    + intros [-> Hpos]. destruct (proj2 Hs (or_intror Hpos)) as [x Hx]. rewrite Hx in Hl |- *.
      cbn in Hl. by subst.
  - assert (StronglySorted key_le (entries h)) as Hsort by apply (StronglySorted_merge_sort key_le).
    assert (NoDup (fst <$> entries h)) as Hnd.
    { rewrite Hp. apply NoDup_fst_map_to_list. }
    clear -Hsort Hnd. induction Hsort as [|q l _ IH Hall]; [constructor|]. cbn in *.
    apply NoDup_cons in Hnd as [Hq Hnd]. constructor; [by apply IH|].
    apply Forall_fmap. rewrite Forall_forall in *. intros r Hr. specialize (Hall r Hr).
    unfold key_le in Hall. cbn. assert (fst r <> fst q); [|lia].
    intros Heq. apply Hq. rewrite <- Heq. by apply list_elem_of_fmap_2.
  - rewrite (zsum_perm _ _ _ Hp), Es, bumps_total, Ec; [by rewrite map_to_list_empty|].
    intros x. rewrite lookup_empty. cbn. pose proof (occurrences_le size vs x). lia.
Qed.

(** ** Welford's recurrence, in exact arithmetic *)

Section Welford.
#[local] Existing Instance exact_ops.
#[local] Open Scope Q_scope.

Fixpoint qsum (f : Z -> Q) (vs : list Z) : Q :=
  match vs with [] => 0 | v :: vs => f v + qsum f vs end.

Definition sample_mean (vs : list Z) : Q := qsum inject_Z vs / inject_Z (Z.of_nat (length vs)).
Definition square_error (vs : list Z) : Q :=
  qsum (fun v => (inject_Z v - sample_mean vs) * (inject_Z v - sample_mean vs)) vs.

Lemma qsum_square_error a vs :
  qsum (fun v => (inject_Z v - a) * (inject_Z v - a)) vs ==
  qsum (fun v => inject_Z v * inject_Z v) vs - (2 # 1) * a * qsum inject_Z vs
  + inject_Z (Z.of_nat (length vs)) * a * a.
Proof.
  induction vs as [|v vs IH]; [cbn; ring|]. cbn [qsum length]. rewrite IH, Nat2Z.inj_succ, <- Z.add_1_r, inject_Z_plus.
  change (inject_Z 1) with 1. ring.
Qed.

(** The invariant of the recurrence: [mean] and [m2] after [n] values of sum
    [s1] and sum of squares [s2]. *)
Definition welford (n : Z) (s1 s2 mean m2 : Q) : Prop :=
  mean * inject_Z n == s1 /\ m2 == s2 - mean * s1.

Lemma welford_proper n s1 s1' s2 s2' mean m2 :
  s1 == s1' -> s2 == s2' -> welford n s1 s2 mean m2 -> welford n s1' s2' mean m2.
Proof. intros E1 E2 [H1 H2]. split; [by rewrite H1|by rewrite H2, E1, E2]. Qed.

Lemma welford_step n s1 s2 mean m2 x :
  (0 <= n)%Z -> welford n s1 s2 mean m2 ->
  let mean' := mean + (x - mean) / inject_Z (n + 1) in
  welford (n + 1) (s1 + x) (s2 + x * x) mean' (m2 + (x - mean) * (x - mean')).
Proof.
  intros Hn [Hm H2] mean'. unfold welford, mean'.
  assert (0 < inject_Z (n + 1)) as Hpos by (rewrite <- (Zlt_Qlt 0); lia).
  set (N := inject_Z (n + 1)) in *.
  assert (inject_Z n == N - 1) as En by (unfold N; rewrite inject_Z_plus; change (inject_Z 1) with 1; ring).
  rewrite En in Hm. split.
  - rewrite <- Hm. field. lra.
  - rewrite H2, <- Hm. field. lra.
Qed.

Lemma welford_result vs mean m2 :
  (1 <= Z.of_nat (length vs))%Z ->
  welford (Z.of_nat (length vs)) (qsum inject_Z vs) (qsum (fun v => inject_Z v * inject_Z v) vs) mean m2 ->
  mean == sample_mean vs /\ m2 == square_error vs.
Proof.
  intros Hn [H1 H2].
  assert (0 < inject_Z (Z.of_nat (length vs))) as Hpos by (rewrite <- (Zlt_Qlt 0); lia).
  assert (mean == sample_mean vs) as Hm.
  { unfold sample_mean. rewrite <- H1. field. lra. }
  split; [done|]. rewrite H2. unfold square_error. rewrite qsum_square_error, <- Hm, <- H1. ring.
Qed.

Definition moments (h : Histogram Q) (n : Z) (s1 s2 : Q) : Prop :=
  count h = n /\ welford n s1 s2 (mean h) (m2 h).

Lemma update_moments h h' v n s1 s2 ret :
  (0 <= n < 2 ^ 63)%Z -> moments h n s1 s2 -> update h v = Ok (h', ret) ->
  moments h' (n + 1) (s1 + inject_Z v) (s2 + inject_Z v * inject_Z v).
Proof.
  intros Hn [Hc Hw] Hu. unfold update in Hu. apply bind_Ok in Hu as (b & _ & Hu).
  injection Hu as <- _. unfold moments. cbn [count mean m2]. rewrite Hc, u64_id by (unfold is_u64; lia).
  split; [done|]. by apply welford_step; [lia|].
Qed.

Lemma hs_updates_moments vs : forall h p n s1 s2,
  (0 <= n)%Z -> (n + Z.of_nat (length vs) < 2 ^ 63)%Z -> moments h n s1 s2 ->
  hs_updates (Live h) vs = Ok p ->
  exists h', p = Live h' /\
    moments h' (n + Z.of_nat (length vs)) (s1 + qsum inject_Z vs)
      (s2 + qsum (fun v => inject_Z v * inject_Z v) vs).
Proof.
  induction vs as [|v vs IH]; intros h p n s1 s2 Hn Hl Hm Hu; cbn [hs_updates] in Hu.
  - res_inv. exists h. split; [done|]. destruct Hm as [Hc Hw]. cbn.
    split; [lia|]. rewrite Z.add_0_r. eapply welford_proper; [| |exact Hw]; ring.
  - apply bind_Ok in Hu as ([p1 r] & Hu1 & Hu). unfold hs_update in Hu1. cbn [deref mbind res_bind] in Hu1.
    apply bind_Ok in Hu1 as ([h1 r1] & Hu1 & Hr). res_inv. cbn [length] in *.
    apply (update_moments _ _ _ n s1 s2) in Hu1; [|lia|done].
    destruct (IH _ _ (n + 1)%Z _ _ ltac:(lia) ltac:(lia) Hu1 Hu) as (h' & -> & Hc & Hw).
    exists h'. split; [done|]. cbn [qsum].
    assert (n + Z.of_nat (S (length vs)) = n + 1 + Z.of_nat (length vs))%Z as -> by lia.
    split; [done|]. eapply welford_proper; [| |exact Hw]; ring.
Qed.


End Welford.

Section Witnesses.

Definition sample_values : list Z := [12; -7; 0; 33; 12; 5].

Lemma bucket_of_nearest_witness :
  exists b, bucket_of 10 5 33 = Ok b /\ (10 | b) /\ 2 * Z.abs (33 - b) <= 10.
Proof.
  destruct (new_Histogram (FO := binary64_ops) 10) as [h|] eqn:E; [|vm_compute in E; discriminate].
  destruct (bucket_of_nearest (FO := binary64_ops) 10 h 33 E) as (b & H1 & H2 & H3 & _).
  - reflexivity.
  - vm_compute; congruence.
  - exists b. injection E as <-. split; [exact H1|]. split; [exact H2|exact H3].
Defined.

Lemma histogram_counts_witness :
  exists p h, hs_initialize (FO := binary64_ops) 10 = Some p /\
    hs_updates (FO := binary64_ops) p sample_values = Ok (Live h) /\ count h = 6.
Proof.
  destruct (hs_initialize (FO := binary64_ops) 10) as [p|] eqn:E; [|vm_compute in E; discriminate].
  destruct (histogram_counts (FO := binary64_ops) 10 p sample_values ltac:(reflexivity) E)
    as (h & H1 & H2 & _).
  - repeat constructor; vm_compute; congruence.
  - reflexivity.
  - exists p, h. split; [reflexivity|]. split; [exact H1|exact H2].
Defined.


End Witnesses.
