(* ===== verification/SoftRate.v ===== *)
(** * Software rate limiters: src/software-rate-limiter.cpp

    Three loops that take packets from a ring and send them one by one: at
    gaps given per packet, at a constant rate, and with exponentially
    distributed gaps.  The time-stamp counter is the sequence of its readings,
    the driver and the control block are sequences of answers. *)
From S2P Require Import Prelude Dpdk Float Binary64 Clock.
From Stdlib Require Import QArith Qround Qabs Lqa.

#[local] Open Scope Z_scope.

Definition batch_size : Z := 64.

(** ** The environment of a run *)

(** [rdtsc k] is the k-th reading of the counter.  [tx_ok j] says whether the
    j-th call of [rte_eth_tx_burst] takes the packet; [ctl_running j] is the
    answer of [ctl->running()] after it.  [exp_delay i avg] is the i-th number
    drawn from the exponential distribution with mean [avg]. *)
Record env (D : Type) := Env {
  rdtsc : nat -> Z;
  tx_ok : nat -> bool;
  ctl_running : nat -> bool;
  exp_delay : nat -> Z -> D
}.
Arguments rdtsc {D}. Arguments tx_ok {D}. Arguments ctl_running {D}. Arguments exp_delay {D}.
Arguments Env {D}.

(** The state of a loop: the readings, driver calls and random numbers used,
    the local [next_send], the counter in the control block. *)
Record limiter := Limiter {
  reads : nat;
  calls : nat;
  draws : nat;
  next_send : Z;
  ctl_count : Z
}.

(** A packet sent: the reading that released it and the value [next_send] had
    when it was waited for. *)
Record departure := Departure { dep_pkt : mbuf; dep_read : nat; dep_due : Z }.

Section Loops.
Context `{FO : FloatOps D} `{TS : TimestampDynfield}.
Context (e : env D) (tsc_hz : Z).

(** ** Pieces shared by the loops *)

(** [while (rte_eth_tx_burst(...) == 0) if (!ctl->running()) return;]: the
    next call, and whether the packet was taken. *)
Fixpoint tx_retry (fuel : nat) (j : nat) : res (nat * bool) :=
  if tx_ok e j then mret (S j, true)
  else if negb (ctl_running e j) then mret (S j, false)
  else match fuel with O => UB OutOfFuel | S fuel => tx_retry fuel (S j) end.

(** [while ((cur = rte_get_tsc_cycles()) < next_send);] *)
Definition wait_for (s : limiter) (t : Z) : res nat :=
  wait_until (rdtsc e) (wait_fuel (rdtsc e) (reads s) t) (reads s) t.

(** One packet: [before] updates [next_send] ahead of the wait, [after] once
    it is over.  The result says whether the loop goes on. *)
Definition send_packet (fuel : nat) (before after : limiter -> mbuf -> res limiter)
    (s : limiter) (b : mbuf) : res (limiter * list departure * bool) :=
  s ← before s b;
  let due := next_send s in
  k ← wait_for s due;
  s ← after (Limiter (S k) (calls s) (draws s) (next_send s) (ctl_count s)) b;
  '(j, ok) ← tx_retry fuel (calls s);
  let s := Limiter (reads s) j (draws s) (next_send s) (ctl_count s) in
  mret (s, if (ok : bool) then [Departure b k due] else [], ok).

(** The loop over a batch; a [return] in it ends the whole loop. *)
Fixpoint send_batch (fuel : nat) (before after : limiter -> mbuf -> res limiter)
    (s : limiter) (bufs : list mbuf) : res (limiter * list departure * bool) :=
  match bufs with
  | [] => mret (s, [], true)
  | b :: bufs =>
      '(s, d, ok) ← send_packet fuel before after s b;
      if (ok : bool) then
        '(s, ds, ok) ← send_batch fuel before after s bufs;
        mret (s, d ++ ds, ok)
      else mret (s, d, false)
  end.

(** [ctl->count_packets(n)] *)
Definition count_packets (s : limiter) (n : Z) : limiter :=
  Limiter (reads s) (calls s) (draws s) (next_send s) (u64 (ctl_count s + n)).

Definition nothing (s : limiter) (b : mbuf) : res limiter := mret s.

Definition set_next_send (s : limiter) (t : Z) : limiter :=
  Limiter (reads s) (calls s) (draws s) t (ctl_count s).

(** ** Gaps per packet *)

(** The all-or-nothing dequeue of a ring that holds [q]. *)
Definition ring_dequeue (q : list mbuf) (n : nat) : list mbuf * list mbuf :=
  if (n <=? length q)%nat then (take n q, drop n q) else ([], q).

(** The dequeue with halving batch sizes; [arr] are the packets that arrive
    between two attempts.  The packets taken, the ring, the arrivals unused. *)
Fixpoint dequeue_halving (fuel : nat) (cur_batch_size : nat) (q : list mbuf)
    (arr : list (list mbuf)) : list mbuf * list mbuf * list (list mbuf) :=
  match ring_dequeue q cur_batch_size with
  | ([], q) =>
      match fuel with
      | S fuel =>
          if (1 <? cur_batch_size)%nat
          then dequeue_halving fuel (cur_batch_size / 2) (q ++ default [] (head arr)) (tail arr)
          else ([], q, arr)
      | O => ([], q, arr)
      end
  | (bufs, q) => (bufs, q, arr)
  end.

Definition link_bps (link_speed : Z) : D := (d_of_Z link_speed * d_of_Z 1000000)%D.

Definition id_cycles (link_speed : Z) (b : mbuf) : res Z :=
  d_to_u64 ((d_of_Z (u64 (get_timestamp_dynfield b * 8)) / link_bps link_speed) * d_of_Z tsc_hz)%D.

Definition gap_before (link_speed : Z) (s : limiter) (b : mbuf) : res limiter :=
  c ← id_cycles link_speed b;
  mret (set_next_send s (u64 (next_send s + c))).

(** One iteration: the ring, the packets that arrive in it (those not needed
    by the dequeue arrive while it sends).  The last component is false when
    the loop has returned. *)
Definition main_iter (fuel : nat) (link_speed : Z) (s : limiter) (q : list mbuf)
    (arr : list (list mbuf)) : res (limiter * list mbuf * list departure * bool) :=
  let '(bufs, q, late) := dequeue_halving 6 64 q arr in
  let q := q ++ concat late in
  match bufs with
  | _ :: _ =>
      '(s, ds, ok) ← send_batch fuel (gap_before link_speed) nothing s bufs;
      mret (if (ok : bool) then count_packets s (Z.of_nat (length bufs)) else s, q, ds, ok)
  | [] => mret (s, q, [], ctl_running e (calls s))
  end.

(** ** Constant rate *)

(** [((int64_t) cur - (int64_t) next_send) > (int64_t) tsc_hz / 100] after a
    reading of the counter. *)
Definition restart (s : limiter) : res limiter :=
  let cur := rdtsc e (reads s) in
  let s := Limiter (S (reads s)) (calls s) (draws s) (next_send s) (ctl_count s) in
  d ← chk_s64 (s64 cur - s64 (next_send s));
  mret (if Z.quot (s64 tsc_hz) 100 <? d then set_next_send s cur else s).

Definition cbr_id_cycles (target : Z) : res Z :=
  d_to_u64 (d_of_Z target / (d_of_Z 1000000000 / d_of_Z tsc_hz))%D.

Definition cbr_after (id : Z) (s : limiter) (b : mbuf) : res limiter :=
  mret (set_next_send s (u64 (next_send s + id))).

(** One iteration on what the ring holds. *)
Definition cbr_iter (fuel : nat) (id : Z) (s : limiter) (q : list mbuf)
    : res (limiter * list mbuf * list departure * bool) :=
  let '(bufs, q) := ring_dequeue q 64 in
  s ← restart s;
  match bufs with
  | _ :: _ =>
      '(s, ds, ok) ← send_batch fuel nothing (cbr_after id) s bufs;
      mret (if (ok : bool) then count_packets s (Z.of_nat (length bufs)) else s, q, ds, ok)
  | [] => mret (s, q, [], ctl_running e (calls s))
  end.

(** ** Poisson *)

(** [(pkt_len + 24) * 8 / (link_speed / 1000)] in 32 bits, then ns to cycles. *)
Definition pkt_time (link_speed : Z) (b : mbuf) : res Z :=
  if u32 (link_speed / 1000) =? 0 then UB DivByZero
  else
    let ns := u32 (u32 (pkt_len b + 24) * 8) / u32 (link_speed / 1000) in
    d_to_u64 (d_of_Z ns * (d_of_Z tsc_hz / d_of_Z 1000000000))%D.

Definition poisson_avg (target pt : Z) : res Z :=
  d_to_s64 (d_of_Z tsc_hz / (d_of_Z 1000000000 / d_of_Z target) - d_of_Z pt)%D.

Definition poisson_after (target link_speed : Z) (s : limiter) (b : mbuf) : res limiter :=
  pt ← pkt_time link_speed b;
  avg ← poisson_avg target pt;
  let '(delay, n) :=
    if avg <=? 0 then (d_of_Z 0, draws s) else (exp_delay e (draws s) avg, S (draws s)) in
  t ← d_to_u64 (d_of_Z (next_send s) + (d_of_Z pt + delay))%D;
  mret (Limiter (reads s) (calls s) n t (ctl_count s)).

Definition poisson_iter (fuel : nat) (target link_speed : Z) (s : limiter) (q : list mbuf)
    : res (limiter * list mbuf * list departure * bool) :=
  let '(bufs, q) := ring_dequeue q 64 in
  s ← restart s;
  match bufs with
  | _ :: _ =>
      '(s, ds, ok) ← send_batch fuel nothing (poisson_after target link_speed) s bufs;
      mret (if (ok : bool) then count_packets s (Z.of_nat (length bufs)) else s, q, ds, ok)
  | [] => mret (s, q, [], ctl_running e (calls s))
  end.

(** ** The loops *)

(** The iterations while [is_running] holds, each with its input; [false]
    from an iteration is a [return]. *)
Fixpoint iterate {I} (body : limiter -> list mbuf -> I -> res (limiter * list mbuf * list departure * bool))
    (s : limiter) (q : list mbuf) (ins : list I) : res (limiter * list mbuf * list departure) :=
  match ins with
  | [] => mret (s, q, [])
  | i :: ins =>
      '(s, q, ds, ok) ← body s q i;
      if (ok : bool) then
        '(s, q, ds') ← iterate body s q ins;
        mret (s, q, ds ++ ds')
      else mret (s, q, ds)
  end.

Definition limiter_init (next_send : Z) : limiter := Limiter 0 0 0 next_send 0.

(** The first reading initialises [next_send]. *)
Definition main_loop (fuel : nat) (link_speed : Z) (q : list mbuf) (ins : list (list (list mbuf)))
    : res (limiter * list mbuf * list departure) :=
  let s := Limiter 1 0 0 (rdtsc e 0) 0 in
  iterate (main_iter fuel link_speed) s q ins.

Definition main_loop_cbr (fuel : nat) (target : Z) (q : list mbuf) (ins : list (list mbuf))
    : res (limiter * list mbuf * list departure) :=
  id ← cbr_id_cycles target;
  iterate (fun s q arr => cbr_iter fuel id s (q ++ arr)) (limiter_init 0) q ins.

Definition main_loop_poisson (fuel : nat) (target link_speed : Z) (q : list mbuf) (ins : list (list mbuf))
    : res (limiter * list mbuf * list departure) :=
  iterate (fun s q arr => poisson_iter fuel target link_speed s (q ++ arr)) (limiter_init 0) q ins.

(** The functions exported to Lua. *)
Definition mg_rate_limiter_cbr_main_loop := main_loop_cbr.
Definition mg_rate_limiter_poisson_main_loop := main_loop_poisson.
Definition mg_rate_limiter_main_loop := main_loop.

End Loops.

(** ** The halving dequeue *)

Lemma ring_dequeue_app q n : fst (ring_dequeue q n) ++ snd (ring_dequeue q n) = q.
Proof. unfold ring_dequeue. destruct (n <=? length q)%nat; [apply take_drop|done]. Qed.

Lemma dequeue_fifo fuel : forall size q arr,
  let '(bufs, q', late) := dequeue_halving fuel size q arr in
  bufs ++ q' ++ concat late = q ++ concat arr.
Proof.
  induction fuel as [|fuel IH]; intros size q arr; cbn [dequeue_halving];
    pose proof (ring_dequeue_app q size) as Hd;
    destruct (ring_dequeue q size) as [[|b bufs] q']; cbn [fst snd app] in Hd; subst; cbn [app];
    rewrite ?app_assoc; try done.
  destruct (1 <? size)%nat; [|done].
  specialize (IH (size / 2)%nat (q ++ default [] (head arr)) (tail arr)).
  destruct (dequeue_halving fuel (size / 2) (q ++ default [] (head arr)) (tail arr)) as [[bufs q2] late].
  rewrite IH, <- app_assoc. f_equal. by destruct arr.
Qed.

Lemma dequeue_halving_size fuel : forall n q,
  (n <= fuel)%nat -> (length q < 2 ^ S n)%nat ->
  let '(bufs, q', late) := dequeue_halving fuel (2 ^ n) q [] in
  length bufs = match q with [] => 0%nat | _ => (2 ^ Nat.log2 (length q))%nat end.
Proof.
  induction fuel as [|fuel IH]; intros n q Hn Hq; cbn [dequeue_halving];
    unfold ring_dequeue; destruct (Nat.leb_spec (2 ^ n) (length q)) as [Hle|Hlt].
  1, 3: destruct (take (2 ^ n) q) as [|b bs] eqn:E;
    [apply (f_equal length) in E; rewrite length_take in E; cbn in E;
     pose proof (Nat.pow_nonzero 2 n); lia|].
  1, 2: rewrite <- E, length_take, Nat.min_l by lia; destruct q; [cbn in E; by rewrite take_nil in E|];
    f_equal; symmetry; apply Nat.log2_unique; [lia|done].
  - assert (n = 0)%nat as -> by lia. cbn in Hlt. destruct q; [done|cbn in Hlt; lia].
  - destruct n as [|n].
    + cbn in Hlt. destruct q; [done|cbn in Hlt; lia].
    + destruct (Nat.ltb_spec 1 (2 ^ S n)) as [_|Hbad].
      * cbn [head tail default]. rewrite app_nil_r.
        replace (2 ^ S n / 2)%nat with (2 ^ n)%nat by (cbn [Nat.pow]; rewrite Nat.mul_comm, Nat.div_mul; lia).
        apply IH; [lia|exact Hlt].
      * cbn [Nat.pow] in Hbad. pose proof (Nat.pow_nonzero 2 n). lia.
Qed.

(** The halving dequeue makes progress and keeps the order.  Whatever
    arrives meanwhile, the packets taken and the packets left are those
    present and arrived, in order; and when nothing arrives between the
    attempts it takes the largest power of two of packets, up to 64, that the
    ring holds: none only from an empty ring. *)
Theorem dequeue_halving_progress q arr :
  (let '(bufs, q', late) := dequeue_halving 6 64 q arr in
   bufs ++ q' ++ concat late = q ++ concat arr) /\
  (let '(bufs, _, _) := dequeue_halving 6 64 q [] in
   length bufs = match q with [] => 0%nat | _ => (2 ^ Nat.log2 (Nat.min 64 (length q)))%nat end).
Proof.
  split; [apply dequeue_fifo|].
  destruct (Nat.lt_ge_cases (length q) 128) as [Hlt|Hge].
  - pose proof (dequeue_halving_size 6 6 q ltac:(lia) Hlt) as H. cbn [Nat.pow] in H.
    change (2 * (2 * (2 * (2 * (2 * (2 * 1))))))%nat with 64%nat in H.
    destruct (dequeue_halving 6 64 q []) as [[bufs q'] late]. rewrite H. destruct q as [|b q]; [done|].
    destruct (Nat.le_gt_cases (length (b :: q)) 64); [by rewrite Nat.min_r by lia|].
    rewrite Nat.min_l by lia. f_equal. change (Nat.log2 64) with 6%nat.
    apply Nat.log2_unique; [lia|]. cbn [Nat.pow]. lia.
  - cbn [dequeue_halving]. unfold ring_dequeue.
    destruct (Nat.leb_spec 64 (length q)); [|lia].
    destruct (take 64 q) as [|b bs] eqn:E;
      [apply (f_equal length) in E; rewrite length_take in E; cbn [length] in E; lia|].
    rewrite <- E, length_take, !Nat.min_l by lia. destruct q; [cbn in Hge; lia|done].
Qed.

(** ** Pacing *)

Section Paced.
Context `{FO : FloatOps D} `{TS : TimestampDynfield}.
Context (e : env D) (tsc_hz : Z).

(** A departure at or after the time it was due. *)
Definition on_time (d : departure) : Prop := dep_due d <= rdtsc e (dep_read d).

(** What one packet does, in terms of the updates before and after the wait. *)
Lemma send_packet_inv fuel before after s b s' ds ok :
  send_packet e fuel before after s b = Ok (s', ds, ok) ->
  exists s1 k s2, before s b = Ok s1 /\ next_send s1 <= rdtsc e k /\ (reads s1 <= k)%nat /\
    after (Limiter (S k) (calls s1) (draws s1) (next_send s1) (ctl_count s1)) b = Ok s2 /\
    next_send s' = next_send s2 /\ reads s' = reads s2 /\ ctl_count s' = ctl_count s2 /\
    ds = (if ok then [Departure b k (next_send s1)] else []).
Proof.
  intros H. unfold send_packet in H. apply bind_Ok in H as (s1 & H1 & H).
  apply bind_Ok in H as (k & Hk & H). apply bind_Ok in H as (s2 & H2 & H).
  apply bind_Ok in H as ([j ok'] & _ & H). injection H as <- <- <-.
  apply wait_until_due in Hk as [Hk1 Hk2]. exists s1, k, s2. by destruct ok'.
Qed.

(** The gaps add up: each departure is due the gap of its packet after the
    previous one, starting at [t]. *)
Fixpoint gap_schedule (link_speed : Z) (t : Z) (ds : list departure) : Prop :=
  match ds with
  | [] => True
  | d :: ds => (exists c, id_cycles tsc_hz link_speed (dep_pkt d) = Ok c /\ dep_due d = u64 (t + c)) /\
      gap_schedule link_speed (dep_due d) ds
  end.

Definition last_due (t : Z) (ds : list departure) : Z := default t (dep_due <$> last ds).

Lemma last_due_cons t d ds : last_due t (d :: ds) = last_due (dep_due d) ds.
Proof.
  unfold last_due. destruct ds as [|d' ds]; [done|].
  change (last (d :: d' :: ds)) with (last (d' :: ds)).
  destruct (last (d' :: ds)) eqn:E; [done|]. by apply last_None in E.
Qed.

Lemma gap_schedule_app ls t ds1 ds2 :
  gap_schedule ls t ds1 -> gap_schedule ls (last_due t ds1) ds2 -> gap_schedule ls t (ds1 ++ ds2).
Proof.
  revert t. induction ds1 as [|d ds1 IH]; intros t H1 H2; [done|].
  destruct H1 as [Hc H1]. rewrite last_due_cons in H2. split; [done|]. by apply IH.
Qed.

Lemma main_batch_spec fuel ls bufs : forall s s' ds ok,
  send_batch e fuel (gap_before tsc_hz ls) nothing s bufs = Ok (s', ds, ok) ->
  exists n, dep_pkt <$> ds = take n bufs /\ (ok = true -> (length bufs <= n)%nat /\
      next_send s' = last_due (next_send s) ds) /\
    gap_schedule ls (next_send s) ds /\ Forall on_time ds /\ ctl_count s' = ctl_count s.
Proof.
  induction bufs as [|b bufs IH]; intros s s' ds ok H; cbn [send_batch] in H.
  - res_inv. exists 0%nat. done.
  - apply bind_Ok in H as ([[s1 d] ok1] & H1 & H).
    apply send_packet_inv in H1 as (s2 & k & s3 & Hb & Hk & _ & Ha & E1 & _ & E2 & ->).
    unfold gap_before in Hb. apply bind_Ok in Hb as (c & Hc & Hb). injection Hb as <-.
    unfold nothing in Ha. injection Ha as <-. cbn in E1, E2, Hk.
    destruct ok1.
    + apply bind_Ok in H as ([[s4 ds'] ok2] & H2 & H). injection H as <- <- <-.
      apply IH in H2 as (n & Hp & Hok & Hg & Ht & Hcc). rewrite E1 in Hok, Hg.
      exists (S n). cbn. rewrite Hp. split; [done|]. split.
      { intros Hk2. destruct (Hok Hk2) as [Hl Hn]. rewrite last_due_cons. split; [lia|done]. }
      split; [split; [by exists c|done]|]. split; [by constructor|congruence].
    + injection H as <- <- <-. exists 0%nat. done.
Qed.

(** Packets taken by the loop leave it, stay in the ring or were being sent
    when the loop returned. *)
Lemma main_iter_spec fuel ls s q arr s' q' ds ok :
  main_iter e tsc_hz fuel ls s q arr = Ok (s', q', ds, ok) ->
  (exists rest, (dep_pkt <$> ds) ++ rest = q ++ concat arr) /\
  (ok = true -> (dep_pkt <$> ds) ++ q' = q ++ concat arr /\ next_send s' = last_due (next_send s) ds) /\
  gap_schedule ls (next_send s) ds /\ Forall on_time ds.
Proof.
  unfold main_iter. pose proof (dequeue_fifo 6 64 q arr) as Hf.
  destruct (dequeue_halving 6 64 q arr) as [[bufs q1] late]. intros H.
  destruct bufs as [|b bufs].
  - injection H as <- <- <- _. cbn in *. split; [by eexists|]. split; [done|]. split; [done|constructor].
  - apply bind_Ok in H as ([[s1 ds1] ok1] & H & H0). injection H0 as <- <- <- <-.
    apply main_batch_spec in H as (n & Hp & Hok & Hg & Ht & _). rewrite Hp, <- Hf.
    split; [exists (drop n (b :: bufs) ++ q1 ++ concat late); by rewrite app_assoc, take_drop|].
    split; [|done]. intros ->. destruct (Hok eq_refl) as [Hl Hn]. split; [|done].
    by rewrite take_ge by lia.
Qed.


End Paced.

(** ** Constant rate *)

Section Cbr.
Context {D : Type} (e : env D) (tsc_hz : Z).
Context (rdtsc_advances : forall k, rdtsc e k < rdtsc e (S k)).

(** Within [fuel] further calls the driver takes the packet or the control
    block asks to stop. *)
Definition driver_answers (fuel : nat) : Prop :=
  forall j, exists i, (i <= fuel)%nat /\ (tx_ok e (j + i) = true \/ ctl_running e (j + i) = false).

Lemma tx_retry_total fuel : forall j,
  (exists i, (i <= fuel)%nat /\ (tx_ok e (j + i) = true \/ ctl_running e (j + i) = false)) ->
  exists j' ok, tx_retry e fuel j = Ok (j', ok).
Proof.
  induction fuel as [|fuel IH]; intros j (i & Hi & Hd); cbn [tx_retry];
    (destruct (tx_ok e j) eqn:E1; [by eexists _, _|]); (destruct (ctl_running e j) eqn:E2; [|by eexists _, _]);
    cbn [negb].
  - assert (i = 0)%nat as -> by lia. rewrite Nat.add_0_r in Hd. destruct Hd; congruence.
  - destruct i as [|i]; [rewrite Nat.add_0_r in Hd; destruct Hd; congruence|].
    apply IH. exists i. split; [lia|]. by rewrite Nat.add_succ_l, <- Nat.add_succ_r.
Qed.

Lemma cbr_packet_total fuel id s b : driver_answers fuel ->
  exists s' k ok, send_packet e fuel nothing (cbr_after id) s b =
      Ok (s', if (ok : bool) then [Departure b k (next_send s)] else [], ok) /\
    next_send s' = u64 (next_send s + id) /\ ctl_count s' = ctl_count s /\ next_send s <= rdtsc e k.
Proof.
  intros Hd. unfold send_packet, nothing. cbn [mbind res_bind mret res_ret].
  destruct (wait_until_spec (rdtsc e) rdtsc_advances (reads s) (next_send s)) as (k & Hw & _ & Hk & _).
  unfold wait_for. rewrite Hw. cbn [mbind res_bind cbr_after mret res_ret set_next_send calls reads draws ctl_count next_send].
  destruct (tx_retry_total fuel (calls s) (Hd (calls s))) as (j & ok & ->). cbn.
  eexists _, k, ok. split; [reflexivity|]. done.
Qed.

Lemma cbr_batch_spec fuel id bufs : driver_answers fuel -> forall s,
  0 <= id -> 0 <= next_send s -> next_send s + id * Z.of_nat (length bufs) < 2 ^ 64 ->
  exists s' ds ok, send_batch e fuel nothing (cbr_after id) s bufs = Ok (s', ds, ok) /\
    (exists n, dep_pkt <$> ds = take n bufs /\ (ok = true -> n = length bufs)) /\
    ctl_count s' = ctl_count s /\
    (ok = true -> next_send s' = next_send s + id * Z.of_nat (length bufs)) /\
    (forall i d, ds !! i = Some d -> dep_due d = next_send s + id * Z.of_nat i /\ on_time e d).
Proof.
  intros Hd. induction bufs as [|b bufs IH]; intros s Hid Hn Hb; cbn [send_batch].
  - eexists _, [], true. split; [reflexivity|]. split; [by exists 0%nat|]. split; [done|].
    split; [intros _; cbn; lia|]. done.
  - destruct (cbr_packet_total fuel id s b Hd) as (s1 & k & ok & -> & En & Ec & Hk). cbn [mbind res_bind].
    cbn [length] in Hb. rewrite u64_id in En by (unfold is_u64; lia). destruct ok.
    + destruct (IH s1 Hid ltac:(lia) ltac:(lia)) as (s2 & ds & ok2 & -> & (n & Hp & Hok) & Hc & Hns & Hdue).
      cbn [mbind res_bind app]. eexists _, _, ok2. split; [reflexivity|]. split.
      { exists (S n). cbn. rewrite Hp. split; [done|]. intros H2. by rewrite (Hok H2). }
      split; [congruence|]. split; [intros H2; rewrite (Hns H2), En; cbn [length]; lia|].
      intros [|i] d Hi; cbn in Hi.
      * injection Hi as <-. split; [cbn; lia|exact Hk].
      * destruct (Hdue i d Hi) as [E Ht]. split; [rewrite E, En; lia|exact Ht].
    + eexists _, [], false. split; [reflexivity|]. split; [by exists 0%nat|]. done.
Qed.

(** C21: The constant rate limiter.  An iteration of [main_loop_cbr] returns
    whenever the driver does; the i-th packet of a batch is due exactly i
    inter-departure times after the first and never leaves earlier; the
    schedule restarts at the current time when it is more than 10 ms behind,
    and otherwise continues, so that it is never more than 10 ms behind at the
    start of a batch; a completed batch is counted and leaves the ring. *)
Theorem cbr_iter_paced fuel id s q
    (Hdrv : driver_answers fuel) (Hid : 0 <= id < 2 ^ 40) (Hhz : 0 <= tsc_hz < 2 ^ 62)
    (Hcur : 0 <= rdtsc e (reads s) < 2 ^ 62) (Hns : 0 <= next_send s < 2 ^ 62)
    (Hcount : is_u64 (ctl_count s)) :
  exists s' q' ds ok start, cbr_iter e tsc_hz fuel id s q = Ok (s', q', ds, ok) /\
    (start = next_send s \/ (start = rdtsc e (reads s) /\ next_send s + tsc_hz / 100 < start)) /\
    rdtsc e (reads s) - start <= tsc_hz / 100 /\
    (exists rest, (dep_pkt <$> ds) ++ rest = q) /\
    (ok = true -> (dep_pkt <$> ds) ++ q' = q /\
       next_send s' = start + id * Z.of_nat (length ds) /\
       ctl_count s' = u64 (ctl_count s + Z.of_nat (length ds))) /\
    (forall i d, ds !! i = Some d -> dep_due d = start + id * Z.of_nat i /\ on_time e d).
Proof.
  unfold cbr_iter. pose proof (ring_dequeue_app q 64) as Hq.
  assert (length (fst (ring_dequeue q 64)) <= 64)%nat as Hlen.
  { unfold ring_dequeue. destruct (64 <=? length q)%nat; cbn [fst length]; rewrite ?length_take; lia. }
  destruct (ring_dequeue q 64) as [bufs q']. cbn [fst snd] in Hq, Hlen.
  unfold restart. rewrite (s64_id (rdtsc e (reads s))), (s64_id (next_send _)), (s64_id tsc_hz)
    by (unfold is_s64; cbn; lia).
  cbn [next_send]. rewrite chk_s64_ok by (unfold is_s64; lia). cbn [mbind res_bind mret res_ret].
  rewrite Z.quot_div_nonneg by lia. assert (0 <= tsc_hz / 100) as H100 by (apply Z.div_pos; lia).
  set (s1 := if _ <? _ then _ else _).
  assert (ctl_count s1 = ctl_count s /\
    (next_send s1 = next_send s \/ (next_send s1 = rdtsc e (reads s) /\ next_send s + tsc_hz / 100 < next_send s1)) /\
    rdtsc e (reads s) - next_send s1 <= tsc_hz / 100 /\ 0 <= next_send s1 < 2 ^ 62) as (Ec & Hst & Hlag & Hr).
  { unfold s1. destruct (Z.ltb_spec (tsc_hz / 100) (rdtsc e (reads s) - next_send s)); cbn; lia. }
  destruct bufs as [|b bufs].
  - eexists s1, q', [], _, (next_send s1). split; [reflexivity|]. cbn in Hq. subst q'.
    split; [done|]. split; [done|]. split; [by exists q|]. split; [|done].
    intros _. cbn [length Z.of_nat]. rewrite Z.mul_0_r, !Z.add_0_r, u64_id by congruence. done.
  - cbn [length] in Hlen. destruct (cbr_batch_spec fuel id (b :: bufs) Hdrv s1) as
      (s2 & ds & ok & -> & (n & Hp & Hok) & Hc & Hns2 & Hdue); [lia|lia|cbn [length]; nia|].
    cbn [mbind res_bind mret res_ret]. eexists _, q', ds, ok, (next_send s1). split; [reflexivity|].
    split; [done|]. split; [done|]. split; [exists (drop n (b :: bufs) ++ q'); by rewrite Hp, app_assoc, take_drop|].
    split; [|done]. intros ->. specialize (Hok eq_refl). subst n. rewrite firstn_all in Hp.
    assert (length ds = length (b :: bufs)) as Hl by (by rewrite <- Hp, length_fmap).
    rewrite Hp, Hl. unfold count_packets. cbn [next_send ctl_count].
    split; [exact Hq|]. rewrite (Hns2 eq_refl). split; [done|congruence].
Qed.

End Cbr.

(** ** Poisson, in exact arithmetic *)

Section Poisson.
#[local] Existing Instances exact_ops exact_laws.
Context `{TS : TimestampDynfield} (e : env Q) (tsc_hz : Z).
Context (exp_delay_nonneg : forall i avg, (0 <= exp_delay e i avg)%Q).

(** Two consecutive departures are due at least the line time of the first
    packet apart. *)
Fixpoint line_schedule (ls : Z) (ds : list departure) : Prop :=
  match ds with
  | d :: ((d' :: _) as rest) =>
      (exists pt, pkt_time tsc_hz ls (dep_pkt d) = Ok pt /\ dep_due d + pt <= dep_due d') /\
      line_schedule ls rest
  | _ => True
  end.

Lemma pkt_time_u64 ls b pt : pkt_time tsc_hz ls b = Ok pt -> is_u64 pt.
Proof. unfold pkt_time. destruct (_ =? 0); [done|]. apply d_to_u64_range. Qed.

Lemma poisson_after_adds target ls s b s' :
  0 <= next_send s -> poisson_after e tsc_hz target ls s b = Ok s' ->
  exists pt, pkt_time tsc_hz ls b = Ok pt /\ next_send s + pt <= next_send s' /\ reads s' = reads s.
Proof.
  intros Hn H. unfold poisson_after in H. apply bind_Ok in H as (pt & Hpt & H).
  apply bind_Ok in H as (avg & _ & H). exists pt. split; [done|].
  pose proof (pkt_time_u64 _ _ _ Hpt) as [Hpt0 _].
  set (dl := if avg <=? 0 then _ else _) in H.
  assert (0 <= fst dl)%Q as Hdl.
  { unfold dl. destruct (avg <=? 0); [apply Qle_refl|apply exp_delay_nonneg]. }
  destruct dl as [dly n]. cbn [fst] in Hdl. apply bind_Ok in H as (t & Ht & H). injection H as <-. cbn.
  split; [|done]. unfold d_to_u64 in Ht. cbn in Ht. case_bool_decide; [|done]. injection Ht as <-.
  rewrite Zle_Qle in Hn, Hpt0. change (inject_Z 0) with 0%Q in Hn, Hpt0.
  rewrite Qtrunc_floor by lra.
  rewrite <- (Qfloor_Z (next_send s + pt)). apply Qfloor_resp_le. rewrite inject_Z_plus. lra.
Qed.

Lemma poisson_batch_spec fuel target ls bufs : forall s s' ds ok,
  0 <= next_send s ->
  send_batch e fuel nothing (poisson_after e tsc_hz target ls) s bufs = Ok (s', ds, ok) ->
  (exists n, dep_pkt <$> ds = take n bufs /\ (ok = true -> n = length bufs)) /\
  line_schedule ls ds /\ Forall (on_time e) ds /\
  match ds with [] => True | d :: _ => dep_due d = next_send s end.
Proof.
  induction bufs as [|b bufs IH]; intros s s' ds ok Hn H; cbn [send_batch] in H.
  - injection H as <- <- <-. split; [by exists 0%nat|]. done.
  - apply bind_Ok in H as ([[s1 d] ok1] & H1 & H).
    apply send_packet_inv in H1 as (s2 & k & s3 & Hb & Hk & _ & Ha & E1 & _ & _ & ->).
    unfold nothing in Hb. injection Hb as <-.
    apply poisson_after_adds in Ha as (pt & Hpt & Hadd & _); [|done]. cbn in Hadd. rewrite <- E1 in Hadd.
    pose proof (pkt_time_u64 _ _ _ Hpt) as [Hpt0 _].
    destruct ok1; [|injection H as <- <- <-; split; [by exists 0%nat|done]].
    apply bind_Ok in H as ([[s4 ds'] ok2] & H2 & H). injection H as <- <- <-.
    apply IH in H2 as ((n & Hp & Hok) & Hl & Ht & Hh); [|lia].
    split; [exists (S n); cbn; rewrite Hp; split; [done|]; intros H2; by rewrite (Hok H2)|].
    split; [|split; [by constructor|done]].
    cbn. destruct ds' as [|d' ds']; [done|]. split; [|done].
    exists pt. split; [done|]. cbn. lia.
Qed.


End Poisson.

(** ** Evaluation *)

Section Witnesses.
#[local] Existing Instance cell_dynfield.

(** A 2 GHz counter read every 40 cycles; the driver refuses every third call. *)
Definition sample_env {D} (delay : D) : env D :=
  Env (fun k => 1000000 + 40 * Z.of_nat k) (fun j => negb (Nat.eqb (j mod 3) 2)) (fun _ => true)
    (fun _ _ => delay).

Definition sample_ring (n : nat) : list mbuf :=
  (fun i => sample_mbuf (Z.of_nat i) 60 (100 + Z.of_nat i)) <$> seq 0 n.


Lemma sample_driver {D} (x : D) : driver_answers (sample_env x) 3.
Proof.
  intros j. unfold sample_env. cbn [tx_ok ctl_running]. destruct (Nat.eqb (j mod 3) 2) eqn:E.
  - exists 1%nat. split; [lia|]. left. apply Nat.eqb_eq in E.
    rewrite Nat.Div0.add_mod, E. reflexivity.
  - exists 0%nat. split; [lia|]. left. by rewrite Nat.add_0_r, E.
Qed.

Lemma cbr_iter_paced_witness :
  exists s' q' ds ok start,
    cbr_iter (sample_env tt) 2000000000 3 2000 (limiter_init 0) (sample_ring 70) = Ok (s', q', ds, ok) /\
    rdtsc (sample_env tt) 0 - start <= 20000000 /\
    (forall i d, ds !! i = Some d -> dep_due d = start + 2000 * Z.of_nat i /\ on_time (sample_env tt) d).
Proof.
  destruct (cbr_iter_paced (sample_env tt) 2000000000 ltac:(intros k; cbn; lia) 3 2000
    (limiter_init 0) (sample_ring 70) (sample_driver tt)) as (s' & q' & ds & ok & start & E & _ & H1 & _ & _ & H2);
    [lia|lia|cbn; lia|cbn; lia|done|].
  exists s', q', ds, ok, start. split; [exact E|]. split; [exact H1|exact H2].
Defined.


End Witnesses.
