(* ===== verification/MoonsniffLive.v ===== *)
(** * MoonSniff live mode: src/moonsniff.cpp, lines 21 to 122

    Timestamps taken before the device under test are stored in an array
    indexed by the low 24 bits of a packet's identifier; timestamps taken after
    it are matched against the array and feed an online mean and variance.
    [Live] is the code as one thread runs it; [Threads] is its accesses to the
    shared array, one at a time, under the per-entry mutexes. *)
From S2P Require Import Prelude Float Binary64 Histogram.
From Stdlib Require Import QArith Lqa.
From stdpp Require Import gmap.

#[local] Open Scope Z_scope.

(** ** State *)

Definition UINT24_MAX : Z := 16777215.
Definition INDEX_MASK : Z := 0x00FFFFFF.

Record ms_stats := MsStats {
  average_latency : Z;
  variance_latency : Z;
  hits : Z;
  misses : Z;
  inval_ts : Z
}.

Record entry := Entry { timestamp : Z; identifier : Z }.

#[global] Instance entry_eq_dec : EqDecision entry.
Proof. solve_decision. Defined.

Definition zero_entry : entry := Entry 0 0.

(** [identification & INDEX_MASK] *)
Definition index (identification : Z) : Z := Z.land identification INDEX_MASK.

(** The array, zero where nothing has been written. *)
Definition hit (hl : gmap Z entry) (i : Z) : entry := default zero_entry (hl !! i).

Module Live.
Section Live.
Context `{FO : FloatOps D}.

Record moonsniff := Moonsniff {
  thresh : Z;
  count : Z;
  m2 : D;
  mean : D;
  variance : D;
  stats : ms_stats;
  hit_list : gmap Z entry
}.

Definition ms_init : moonsniff :=
  Moonsniff 0 0 (d_of_Z 0) (d_of_Z 0) (d_of_Z 0) (MsStats 0 0 0 0 0) ∅.

Definition set_thresh (s : moonsniff) (t : Z) : moonsniff :=
  Moonsniff t (count s) (m2 s) (mean s) (variance s) (stats s) (hit_list s).

Definition add_entry (s : moonsniff) (identification ts : Z) : moonsniff :=
  Moonsniff (thresh s) (count s) (m2 s) (mean s) (variance s) (stats s)
    (<[index identification := Entry ts identification]> (hit_list s)).

(** The timestamp found for an identifier, 0 for none. *)
Definition old_ts (hl : gmap Z entry) (identification : Z) : Z :=
  let e := hit hl (index identification) in
  if identifier e =? identification then timestamp e else 0.

Definition add_hit (st : ms_stats) : ms_stats :=
  MsStats (average_latency st) (variance_latency st) (u32 (hits st + 1)) (misses st) (inval_ts st).
Definition add_miss (st : ms_stats) : ms_stats :=
  MsStats (average_latency st) (variance_latency st) (hits st) (u32 (misses st + 1)) (inval_ts st).

(** The result says whether the threshold message was printed. *)
Definition test_for (s : moonsniff) (identification ts : Z) : moonsniff * bool :=
  let old := old_ts (hit_list s) identification in
  let hl := <[index identification := zero_entry]> (hit_list s) in
  if negb (old =? 0) then
    let diff := s64 (ts - old) in
    let warned := diff <? thresh s in
    let count := u64 (count s + 1) in
    let delta := (d_of_Z diff - mean s)%D in
    let mean := (mean s + delta / d_of_Z count)%D in
    let delta2 := (d_of_Z diff - mean)%D in
    (Moonsniff (thresh s) count (m2 s + delta * delta2)%D mean (variance s)
       (add_hit (stats s)) hl, warned)
  else
    (Moonsniff (thresh s) (count s) (m2 s) (mean s) (variance s) (add_miss (stats s)) hl, false).

Definition fetch_stats (s : moonsniff) : res (moonsniff * ms_stats) :=
  let variance :=
    if count s <? 2 then variance s else (m2 s / d_of_Z (u64 (count s - 1)))%D in
  a ← d_to_s64 (mean s);
  v ← d_to_s64 variance;
  let st := MsStats a v (hits (stats s)) (misses (stats s)) (inval_ts (stats s)) in
  mret (Moonsniff (thresh s) (count s) (m2 s) (mean s) variance st (hit_list s), st).

(** ** A run *)

Inductive op := Add (identification ts : Z) | Test (identification ts : Z).

Definition op_index (o : op) : Z := match o with Add i _ | Test i _ => index i end.

Definition exec (s : moonsniff) (o : op) : moonsniff :=
  match o with Add i t => add_entry s i t | Test i t => fst (test_for s i t) end.

End Live.
Arguments moonsniff D : clear implicits.

(** ** Specification: matching by looking back *)

(** Whether the last operation on the entry of [i] in the history (latest
    first) added a timestamp for [i] itself; that timestamp, or 0. *)
Fixpoint last_added (hist : list op) (i : Z) : Z :=
  match hist with
  | [] => 0
  | o :: hist =>
      if op_index o =? index i then
        match o with Add j t => if j =? i then t else 0 | Test _ _ => 0 end
      else last_added hist i
  end.

(** The latencies of the matched tests of [ops] after the history [hist], in
    order, and the number of tests without a match. *)
Fixpoint latencies (hist ops : list op) : list Z :=
  match ops with
  | [] => []
  | o :: ops =>
      match o with
      | Test i t =>
          let old := last_added hist i in
          if old =? 0 then latencies (o :: hist) ops else s64 (t - old) :: latencies (o :: hist) ops
      | Add _ _ => latencies (o :: hist) ops
      end
  end.

Definition tests (ops : list op) : Z :=
  zsum (fun o => match o with Test _ _ => 1 | Add _ _ => 0 end) ops.

(** ** The run refines the specification *)

Section Refines.
Context `{FO : FloatOps D}.

Lemma old_ts_last (hl : gmap Z entry) hist :
  (forall i, old_ts hl i = last_added hist i) -> forall o i,
  old_ts (<[op_index o := match o with Add j t => Entry t j | Test _ _ => zero_entry end]> hl) i =
  last_added (o :: hist) i.
Proof.
  intros H o i. unfold old_ts, hit. cbn [last_added]. destruct (Z.eqb_spec (op_index o) (index i)) as [E|E].
  - rewrite E, lookup_insert_eq. cbn. destruct o as [j t|j t]; cbn; [done|]. by destruct i.
  - rewrite lookup_insert_ne by done. apply H.
Qed.

Lemma exec_hit_list (s : moonsniff D) o :
  hit_list (exec s o) =
  <[op_index o := match o with Add j t => Entry t j | Test _ _ => zero_entry end]> (hit_list s).
Proof. destruct o as [j t|j t]; [done|]. cbn. unfold test_for. by destruct (negb _). Qed.

Lemma test_for_old (s : moonsniff D) i t :
  hits (stats (exec s (Test i t))) =
    (if old_ts (hit_list s) i =? 0 then hits (stats s) else u32 (hits (stats s) + 1)) /\
  misses (stats (exec s (Test i t))) =
    (if old_ts (hit_list s) i =? 0 then u32 (misses (stats s) + 1) else misses (stats s)).
Proof. unfold exec, test_for. by destruct (old_ts (hit_list s) i =? 0). Qed.

Lemma run_counters ops : forall hist (s : moonsniff D),
  (forall i, old_ts (hit_list s) i = last_added hist i) ->
  is_u32 (hits (stats s)) -> is_u32 (misses (stats s)) ->
  let s' := foldl exec s ops in
  hits (stats s') = u32 (hits (stats s) + Z.of_nat (length (latencies hist ops))) /\
  misses (stats s') = u32 (misses (stats s) + (tests ops - Z.of_nat (length (latencies hist ops)))).
Proof.
  induction ops as [|o ops IH]; intros hist s Hl Hh Hm; cbn [foldl latencies].
  - cbn. rewrite !Z.add_0_r, !u32_id; done.
  - assert (forall i, old_ts (hit_list (exec s o)) i = last_added (o :: hist) i) as Hl'.
    { intros i. rewrite exec_hit_list. by apply old_ts_last. }
    destruct o as [i t|i t].
    + destruct (IH _ _ Hl' Hh Hm) as [E1 E2]. rewrite E1, E2. done.
    + destruct (test_for_old s i t) as [F1 F2]. rewrite (Hl i) in F1, F2.
      change (tests (Test i t :: ops)) with (1 + tests ops).
      destruct (IH _ _ Hl') as [E1 E2]; [rewrite F1; destruct (_ =? 0); [done|apply u32_range]
        |rewrite F2; destruct (_ =? 0); [apply u32_range|done]|].
      rewrite E1, E2, F1, F2. destruct (last_added hist i =? 0); cbn [length];
        rewrite ?u32_add_l; split; try done; f_equal; lia.
Qed.

Lemma latencies_le ops : forall hist,
  Z.of_nat (length (latencies hist ops)) <= tests ops <= Z.of_nat (length ops).
Proof.
  induction ops as [|o ops IH]; intros hist; [cbn; lia|].
  specialize (IH (o :: hist)). cbn [latencies length]. unfold tests in *. cbn [zsum].
  destruct o as [i t|i t]; [lia|]. destruct (last_added hist i =? 0); cbn [length]; lia.
Qed.

End Refines.

Section Average.
#[local] Existing Instances exact_ops exact_laws.
#[local] Open Scope Q_scope.

Definition live_moments (s : moonsniff Q) (n : Z) (s1 s2 : Q) : Prop :=
  count s = n /\ welford n s1 s2 (mean s) (m2 s).

Lemma run_moments ops : forall hist s n s1 s2,
  (forall i, old_ts (hit_list s) i = last_added hist i) ->
  (0 <= n)%Z -> (n + Z.of_nat (length (latencies hist ops)) < 2 ^ 63)%Z -> live_moments s n s1 s2 ->
  live_moments (foldl exec s ops) (n + Z.of_nat (length (latencies hist ops)))
    (s1 + qsum inject_Z (latencies hist ops))
    (s2 + qsum (fun v => inject_Z v * inject_Z v) (latencies hist ops)).
Proof.
  induction ops as [|o ops IH]; intros hist s n s1 s2 Hl Hn Hb Hm; cbn [foldl latencies] in *.
  - destruct Hm as [Hc Hw]. split; [cbn; lia|]. cbn. rewrite Z.add_0_r.
    eapply welford_proper; [| |exact Hw]; ring.
  - assert (forall i, old_ts (hit_list (exec s o)) i = last_added (o :: hist) i) as Hl'.
    { intros i. rewrite exec_hit_list. by apply old_ts_last. }
    destruct o as [i t|i t]; [by apply IH|]. specialize (Hl i).
    destruct Hm as [Hc Hw]. pose proof Hl' as Hl2. unfold exec, test_for in Hl2 |- *. rewrite Hl in Hl2 |- *.
    destruct (Z.eqb_spec (last_added hist i) 0); cbn [negb fst] in Hl2 |- *.
    + apply IH; done.
    + cbn [length qsum] in *. rewrite Nat2Z.inj_succ in *.
      replace (n + Z.succ (Z.of_nat (length (latencies (Test i t :: hist) ops))))%Z
        with (n + 1 + Z.of_nat (length (latencies (Test i t :: hist) ops)))%Z by lia.
      match goal with |- live_moments (foldl _ ?x _) _ (_ + (?y + _)) _ =>
        assert (live_moments x (n + 1) (s1 + y) (s2 + y * y)) as Hm1 end.
      { unfold live_moments. cbn [count mean m2]. rewrite Hc, u64_id by (unfold is_u64; lia).
        split; [done|]. by apply welford_step; [lia|]. }
      specialize (IH _ _ (n + 1)%Z _ _ Hl2 ltac:(lia) ltac:(lia) Hm1) as [Hc2 Hw2].
      split; [exact Hc2|]. eapply welford_proper; [| |exact Hw2]; ring.
Qed.

Lemma ms_init_old i : old_ts (hit_list ms_init) i = last_added [] i.
Proof. unfold old_ts, hit. cbn. by destruct i. Qed.

Lemma exact_to_s64 (x : Q) z : d_to_s64 x = Ok z -> z = Qtrunc x.
Proof. unfold d_to_s64. cbn. case_bool_decide; [|done]. by intros [= <-]. Qed.


End Average.

(** ** The calls of the Lua scripts and the types they keep *)

Section Typed.
Context `{FO : FloatOps D}.

(** The functions exported to Lua. *)
Inductive lua_call :=
| Ms_set_thresh (t : Z)
| Ms_add_entry (identification ts : Z)
| Ms_test_for (identification ts : Z)
| Ms_fetch_stats.

Definition ms_call (s : moonsniff D) (c : lua_call) : res (moonsniff D) :=
  match c with
  | Ms_set_thresh t => mret (set_thresh s t)
  | Ms_add_entry i ts => mret (add_entry s i ts)
  | Ms_test_for i ts => mret (fst (test_for s i ts))
  | Ms_fetch_stats => '(s, _) ← fetch_stats s; mret s
  end.

Fixpoint ms_calls (s : moonsniff D) (cs : list lua_call) : res (moonsniff D) :=
  match cs with
  | [] => mret s
  | c :: cs => s ← ms_call s c; ms_calls s cs
  end.

(** Arguments as the foreign function interface converts them. *)
Definition call_typed (c : lua_call) : Prop :=
  match c with
  | Ms_set_thresh t => is_s64 t
  | Ms_add_entry i ts | Ms_test_for i ts => is_u32 i /\ is_u64 ts
  | Ms_fetch_stats => True
  end.

(** An entry of the array lies inside it and holds an identifier that belongs
    there, or is cleared. *)
Definition entry_typed (i : Z) (e : entry) : Prop :=
  0 <= i <= UINT24_MAX /\ is_u64 (timestamp e) /\ is_u32 (identifier e) /\
  (e = zero_entry \/ index (identifier e) = i).

Record ms_typed (s : moonsniff D) : Prop := {
  ty_thresh : is_s64 (thresh s);
  ty_count : is_u64 (count s);
  ty_average : is_s64 (average_latency (stats s));
  ty_variance : is_s64 (variance_latency (stats s));
  ty_hits : is_u32 (hits (stats s));
  ty_misses : is_u32 (misses (stats s));
  ty_inval : inval_ts (stats s) = 0;
  ty_list : map_Forall entry_typed (hit_list s)
}.

Lemma index_range i : 0 <= index i <= UINT24_MAX.
Proof.
  unfold index, UINT24_MAX. change INDEX_MASK with (Z.ones 24). rewrite Z.land_ones by lia.
  pose proof (Z.mod_pos_bound i (2 ^ 24)). lia.
Qed.

Lemma zero_entry_typed i : entry_typed (index i) zero_entry.
Proof. split; [apply index_range|]. repeat split; try (unfold is_u64, is_u32; cbn; lia). by left. Qed.

Lemma ms_init_typed : ms_typed ms_init.
Proof. split; cbn; try (unfold is_s64, is_u64, is_u32; lia); done. Qed.

Lemma test_for_typed (s : moonsniff D) i ts : ms_typed s -> ms_typed (fst (test_for s i ts)).
Proof.
  intros []. unfold test_for.
  destruct (negb _); split; cbn [fst thresh count stats hit_list add_hit add_miss average_latency variance_latency
    hits misses inval_ts]; try done; [apply u64_range|apply u32_range| |apply u32_range|];
    apply map_Forall_insert_2; auto using zero_entry_typed.
Qed.

Lemma fetch_stats_typed (s s' : moonsniff D) st : ms_typed s -> fetch_stats s = Ok (s', st) -> ms_typed s'.
Proof.
  intros [] H. unfold fetch_stats in H. apply bind_Ok in H as (a & Ha & H). apply bind_Ok in H as (v & Hv & H).
  injection H as <- <-. split; cbn; try done; by eapply d_to_s64_range.
Qed.

Lemma ms_call_typed (s s' : moonsniff D) c : ms_typed s -> call_typed c -> ms_call s c = Ok s' -> ms_typed s'.
Proof.
  intros Hs Hc H. destruct c as [t|i ts|i ts|]; cbn [ms_call] in H.
  - injection H as <-. destruct Hs. by split.
  - injection H as <-. destruct Hs. destruct Hc as [Hi Ht]. split; cbn; try done.
    apply map_Forall_insert_2; [|done]. split; [apply index_range|]. split; [done|]. split; [done|by right].
  - injection H as <-. by apply test_for_typed.
  - apply bind_Ok in H as ([s1 st] & E & H). injection H as <-. by eapply fetch_stats_typed.
Qed.

(** C30: Types are kept.  Whatever the Lua scripts call, in any order and with
    arguments of the declared types, every access is to the 2^24 entries of the
    array, every stored identifier belongs to the entry it is stored in, and
    threshold, counters and results stay in the range of their types; the only
    call that can fail is fetching a mean or variance that no 64-bit integer
    holds. *)
Theorem live_calls_typed cs (Hcs : Forall call_typed cs) :
  match ms_calls ms_init cs with
  | Ok s => ms_typed s
  | UB u => u = BadConversion /\ Ms_fetch_stats ∈ cs
  end.
Proof.
  assert (forall s, ms_typed s -> match ms_calls s cs with Ok s => ms_typed s
                                  | UB u => u = BadConversion /\ Ms_fetch_stats ∈ cs end) as H.
  2: apply H, ms_init_typed.
  induction Hcs as [|c cs Hc _ IH]; intros s Hs; [done|]. cbn [ms_calls].
  destruct (ms_call s c) as [s1|u] eqn:E; cbn.
  - specialize (IH s1 (ms_call_typed _ _ _ Hs Hc E)).
    destruct (ms_calls s1 cs); [done|]. destruct IH as [-> ?]. split; [done|by right].
  - destruct c; try discriminate E. apply bind_UB in E as [E|([] & _ & E)]; [|discriminate E].
    split; [|left]. unfold fetch_stats in E.
    apply bind_UB in E as [E|(a & _ & E)]; [by apply d_to_s64_UB in E|].
    apply bind_UB in E as [E|(v & _ & E)]; [by apply d_to_s64_UB in E|discriminate E].
Qed.

End Typed.

(** The threshold is not applied.  The comment says that values smaller
    than the threshold are ignored and the message printed says so, but a
    latency below it is counted as a hit and enters mean and variance exactly
    as with any other threshold. *)
Theorem test_for_ignores_threshold `{FO : FloatOps D} (s : moonsniff D) t i ts
    (Hmatch : old_ts (hit_list s) i <> 0)
    (Hlow : s64 (ts - old_ts (hit_list s) i) < t) :
  let '(s', warned) := test_for (set_thresh s t) i ts in
  let '(s0, _) := test_for s i ts in
  warned = true /\ hits (stats s') = u32 (hits (stats s) + 1) /\ count s' = u64 (count s + 1) /\
  (count s', m2 s', mean s', stats s', hit_list s') = (count s0, m2 s0, mean s0, stats s0, hit_list s0).
Proof.
  unfold test_for. cbn [hit_list set_thresh thresh count m2 mean stats].
  apply Z.eqb_neq in Hmatch. rewrite Hmatch. cbn [negb].
  split; [by apply Z.ltb_lt|]. done.
Qed.

End Live.

(** ** Concurrent accesses *)

Module Threads.
Import Live.

(** Where a thread is inside [add_entry] or [test_for]; [Idle] outside of the
    critical section.  Each constructor but [Idle] holds the entry's mutex. *)
Inductive pc :=
| Idle
| AddLocked (identification ts : Z)
| AddTimestamp (identification ts : Z)            (* timestamp written *)
| AddBoth (identification ts : Z)                 (* identifier written *)
| TestLocked (identification ts : Z)
| TestCompared (identification ts : Z) (same : bool) (* identifier read *)
| TestRead (identification ts old : Z)            (* timestamp read *)
| TestCleared1 (identification ts old : Z)        (* timestamp cleared *)
| TestCleared2 (identification ts old : Z).       (* identifier cleared *)

Record conf := Conf {
  mem : gmap Z entry;
  mtx : gmap Z nat;          (* owner of a locked mutex *)
  pcs : nat -> pc;
  done_ops : list (op * Z)   (* operations in the order of their unlocks; what a test found *)
}.

Definition upd (f : nat -> pc) (t : nat) (p : pc) : nat -> pc :=
  fun t' => if decide (t' = t) then p else f t'.

(** One shared access of thread [t]. *)
Inductive step (t : nat) : conf -> conf -> Prop :=
| step_spin c i : pcs c t = Idle -> is_Some (mtx c !! i) -> step t c c
| step_add_lock c id ts :
    pcs c t = Idle -> mtx c !! index id = None ->
    step t c (Conf (mem c) (<[index id := t]> (mtx c)) (upd (pcs c) t (AddLocked id ts)) (done_ops c))
| step_add_timestamp c id ts :
    pcs c t = AddLocked id ts ->
    step t c (Conf (<[index id := Entry ts (identifier (hit (mem c) (index id)))]> (mem c)) (mtx c)
                (upd (pcs c) t (AddTimestamp id ts)) (done_ops c))
| step_add_identifier c id ts :
    pcs c t = AddTimestamp id ts ->
    step t c (Conf (<[index id := Entry (timestamp (hit (mem c) (index id))) id]> (mem c)) (mtx c)
                (upd (pcs c) t (AddBoth id ts)) (done_ops c))
| step_add_unlock c id ts :
    pcs c t = AddBoth id ts ->
    step t c (Conf (mem c) (delete (index id) (mtx c)) (upd (pcs c) t Idle)
                (done_ops c ++ [(Add id ts, 0)]))
| step_test_lock c id ts :
    pcs c t = Idle -> mtx c !! index id = None ->
    step t c (Conf (mem c) (<[index id := t]> (mtx c)) (upd (pcs c) t (TestLocked id ts)) (done_ops c))
| step_test_compare c id ts :
    pcs c t = TestLocked id ts ->
    step t c (Conf (mem c) (mtx c)
                (upd (pcs c) t (TestCompared id ts (identifier (hit (mem c) (index id)) =? id))) (done_ops c))
| step_test_read c id ts (same : bool) :
    pcs c t = TestCompared id ts same ->
    step t c (Conf (mem c) (mtx c)
                (upd (pcs c) t (TestRead id ts (if same then timestamp (hit (mem c) (index id)) else 0)))
                (done_ops c))
| step_test_clear1 c id ts old :
    pcs c t = TestRead id ts old ->
    step t c (Conf (<[index id := Entry 0 (identifier (hit (mem c) (index id)))]> (mem c)) (mtx c)
                (upd (pcs c) t (TestCleared1 id ts old)) (done_ops c))
| step_test_clear2 c id ts old :
    pcs c t = TestCleared1 id ts old ->
    step t c (Conf (<[index id := Entry (timestamp (hit (mem c) (index id))) 0]> (mem c)) (mtx c)
                (upd (pcs c) t (TestCleared2 id ts old)) (done_ops c))
| step_test_unlock c id ts old :
    pcs c t = TestCleared2 id ts old ->
    step t c (Conf (mem c) (delete (index id) (mtx c)) (upd (pcs c) t Idle)
                (done_ops c ++ [(Test id ts, old)])).

Definition conf_init : conf := Conf ∅ ∅ (fun _ => Idle) [].

Inductive reachable : conf -> Prop :=
| reach_init : reachable conf_init
| reach_step t c c' : reachable c -> step t c c' -> reachable c'.

(** ** The atomic specification *)

Definition atomic (hl : gmap Z entry) (o : op) : gmap Z entry :=
  <[op_index o := match o with Add j t => Entry t j | Test _ _ => zero_entry end]> hl.

Definition answer (hl : gmap Z entry) (o : op) : Z :=
  match o with Add _ _ => 0 | Test i _ => old_ts hl i end.

(** The array after the operations of a log, if their answers are right. *)
Fixpoint replay (hl : gmap Z entry) (log : list (op * Z)) : option (gmap Z entry) :=
  match log with
  | [] => Some hl
  | (o, r) :: log => if answer hl o =? r then replay (atomic hl o) log else None
  end.

Lemma replay_snoc log : forall hl hl' o,
  replay hl log = Some hl' -> replay hl (log ++ [(o, answer hl' o)]) = Some (atomic hl' o).
Proof.
  induction log as [|[o' r] log IH]; intros hl hl' o H; cbn in *.
  - injection H as ->. by rewrite Z.eqb_refl.
  - destruct (answer hl o' =? r); [by apply IH|done].
Qed.

(** ** The invariant *)

Definition pc_index (p : pc) : option Z :=
  match p with
  | Idle => None
  | AddLocked id _ | AddTimestamp id _ | AddBoth id _ | TestLocked id _ | TestCompared id _ _
  | TestRead id _ _ | TestCleared1 id _ _ | TestCleared2 id _ _ => Some (index id)
  end.

(** What the owner of an entry has made of it: [m] is the entry in memory, [a]
    the entry of the specification. *)
Definition pc_rel (p : pc) (m a : entry) : Prop :=
  let found id := if identifier a =? id then timestamp a else 0 in
  match p with
  | Idle => True
  | AddLocked _ _ | TestLocked _ _ => m = a
  | AddTimestamp _ ts => m = Entry ts (identifier a)
  | AddBoth id ts => m = Entry ts id
  | TestCompared id _ same => m = a /\ same = (identifier a =? id)
  | TestRead id _ old => m = a /\ old = found id
  | TestCleared1 id _ old => m = Entry 0 (identifier a) /\ old = found id
  | TestCleared2 id _ old => m = zero_entry /\ old = found id
  end.

Record inv (c : conf) (hl : gmap Z entry) : Prop := {
  inv_owner : forall t i, pc_index (pcs c t) = Some i <-> mtx c !! i = Some t;
  inv_free : forall i, mtx c !! i = None -> hit (mem c) i = hit hl i;
  inv_held : forall t i, pc_index (pcs c t) = Some i -> pc_rel (pcs c t) (hit (mem c) i) (hit hl i);
  inv_log : replay ∅ (done_ops c) = Some hl
}.

Lemma hit_insert hl i j e : hit (<[i := e]> hl) j = if decide (i = j) then e else hit hl j.
Proof. unfold hit. destruct (decide (i = j)) as [->|]; [by rewrite lookup_insert_eq|by rewrite lookup_insert_ne]. Qed.

(** A step inside the critical section on entry [i]. *)
Lemma inv_inside t c hl i m' p :
  inv c hl -> pc_index (pcs c t) = Some i -> pc_index p = Some i -> pc_rel p m' (hit hl i) ->
  forall mem', (forall j, hit mem' j = if decide (i = j) then m' else hit (mem c) j) ->
  inv (Conf mem' (mtx c) (upd (pcs c) t p) (done_ops c)) hl.
Proof.
  intros [I1 I2 I3 I4] Hi Hp Hr mem' Hm. split; cbn; [| | |done].
  - intros t' j. unfold upd. destruct (decide (t' = t)) as [->|]; [|apply I1].
    rewrite <- I1, Hi, Hp. done.
  - intros j Hj. rewrite Hm. destruct (decide (i = j)) as [<-|]; [|by apply I2].
    apply I1 in Hi. congruence.
  - intros t' j. unfold upd. rewrite Hm. destruct (decide (t' = t)) as [->|Ht].
    + rewrite Hp. intros [= <-]. by rewrite decide_True.
    + intros Hj. destruct (decide (i = j)) as [<-|]; [|by apply I3].
      apply I1 in Hi, Hj. congruence.
Qed.

Lemma inv_lock t c hl i p :
  inv c hl -> pcs c t = Idle -> mtx c !! i = None -> pc_index p = Some i ->
  (forall e, pc_rel p e e) ->
  inv (Conf (mem c) (<[i := t]> (mtx c)) (upd (pcs c) t p) (done_ops c)) hl.
Proof.
  intros [I1 I2 I3 I4] Hidle Hfree Hp Hr. split; cbn; [| | |done].
  - intros t' j. unfold upd. destruct (decide (t' = t)) as [->|Ht].
    + rewrite Hp, lookup_insert_Some. split.
      * intros [= ->]. by left.
      * intros [[-> _]|[_ Hj]]; [done|]. apply I1 in Hj. by rewrite Hidle in Hj.
    + rewrite I1, lookup_insert_Some. split.
      * intros Hj. right. split; [congruence|done].
      * intros [[_ ?]|[_ ?]]; congruence.
  - intros j Hj. apply lookup_insert_None in Hj as [Hj _]. by apply I2.
  - intros t' j. unfold upd. destruct (decide (t' = t)) as [->|Ht]; [|by apply I3].
    rewrite Hp. intros [= <-]. rewrite (I2 i Hfree). apply Hr.
Qed.

Lemma inv_unlock t c hl i o r :
  inv c hl -> pc_index (pcs c t) = Some i -> op_index o = i -> answer hl o = r ->
  hit (mem c) i = hit (atomic hl o) i ->
  inv (Conf (mem c) (delete i (mtx c)) (upd (pcs c) t Idle) (done_ops c ++ [(o, r)])) (atomic hl o).
Proof.
  intros [I1 I2 I3 I4] Hi Ho <- Hm.
  assert (forall j, i <> j -> hit (atomic hl o) j = hit hl j) as Hne.
  { intros j Hj. unfold atomic. rewrite hit_insert, decide_False by congruence. done. }
  split; cbn.
  - intros t' j. unfold upd. destruct (decide (t' = t)) as [->|Ht].
    + split; [done|]. rewrite lookup_delete_Some. intros [Hj Hl]. apply I1 in Hl. congruence.
    + rewrite I1, lookup_delete_Some. split; [|tauto]. intros Hj. split; [|done].
      intros <-. apply I1 in Hi. congruence.
  - intros j Hj. destruct (decide (i = j)) as [<-|Hij]; [done|].
    rewrite Hne by done. apply lookup_delete_None in Hj as [?|?]; [done|by apply I2].
  - intros t' j. unfold upd. destruct (decide (t' = t)) as [->|Ht]; [done|]. intros Hj.
    rewrite Hne; [by apply I3|]. intros <-. apply I1 in Hi, Hj. congruence.
  - by apply replay_snoc.
Qed.

Lemma inv_step t c c' hl : inv c hl -> step t c c' -> exists hl', inv c' hl'.
Proof.
  intros HI Hs. destruct Hs as [c i Hp Hl|c id ts Hp Hl|c id ts Hp|c id ts Hp|c id ts Hp|c id ts Hp Hl
    |c id ts Hp|c id ts same Hp|c id ts old Hp|c id ts old Hp|c id ts old Hp];
    try (pose proof (inv_held _ _ HI t (index id)) as Hr; rewrite Hp in Hr; specialize (Hr eq_refl); cbn in Hr).
  - by exists hl.
  - exists hl. by apply inv_lock.
  - exists hl. eapply (inv_inside t c hl (index id)); [done|by rewrite Hp|done| |intros j; apply hit_insert].
    cbn. by rewrite Hr.
  - exists hl. eapply (inv_inside t c hl (index id)); [done|by rewrite Hp|done| |intros j; apply hit_insert].
    cbn. by rewrite Hr.
  - exists (atomic hl (Add id ts)). apply (inv_unlock t c hl (index id)); [done|by rewrite Hp|done|done|].
    unfold atomic. by rewrite hit_insert, decide_True.
  - exists hl. by apply inv_lock.
  - exists hl. eapply (inv_inside t c hl (index id)); [done|by rewrite Hp|done| |].
    + cbn. split; [exact Hr|]. by rewrite Hr.
    + intros j. destruct (decide (index id = j)) as [<-|]; done.
  - exists hl. destruct Hr as [Hr ->]. eapply (inv_inside t c hl (index id)); [done|by rewrite Hp|done| |].
    + cbn. split; [exact Hr|]. by rewrite Hr.
    + intros j. destruct (decide (index id = j)) as [<-|]; done.
  - exists hl. destruct Hr as [Hr ->].
    eapply (inv_inside t c hl (index id)); [done|by rewrite Hp|done| |intros j; apply hit_insert].
    cbn. by rewrite Hr.
  - exists hl. destruct Hr as [Hr ->].
    eapply (inv_inside t c hl (index id)); [done|by rewrite Hp|done| |intros j; apply hit_insert].
    cbn. by rewrite Hr.
  - exists (atomic hl (Test id ts)). destruct Hr as [Hr ->].
    apply (inv_unlock t c hl (index id)); [done|by rewrite Hp|done|done|].
    unfold atomic. by rewrite hit_insert, decide_True.
Qed.

(** C17: The per-entry mutexes make the live mode linearizable.  In every state
    any number of threads can reach by interleaving their single accesses to
    the array, the operations completed so far, in the order in which they
    released their mutex, give the same answers when executed atomically one
    after the other, and leave the same value in every entry that is not
    locked; two threads never hold the same entry. *)
Theorem live_linearizable c (Hreach : reachable c) :
  exists hl, replay ∅ (done_ops c) = Some hl /\
    (forall i, mtx c !! i = None -> hit (mem c) i = hit hl i) /\
    (forall t t' i, pc_index (pcs c t) = Some i -> pc_index (pcs c t') = Some i -> t = t').
Proof.
  assert (exists hl, inv c hl) as [hl [I1 I2 I3 I4]].
  { induction Hreach as [|t c c' _ [hl IH] Hs].
    - exists ∅. split; cbn; [|done|done|done]. intros t i. by rewrite lookup_empty.
    - by eapply inv_step. }
  exists hl. split; [done|]. split; [done|]. intros t t' i Ht Ht'.
  apply I1 in Ht, Ht'. congruence.
Qed.

End Threads.

(** ** Evaluation *)

Section Witnesses.
Import Live.

Definition sample_ops : list op :=
  [Add 7 100; Add 16777223 200; Test 7 300; Add 8 400; Test 8 450; Add 9 500; Test 9 560; Test 9 570].


Lemma test_for_ignores_threshold_witness :
  let s := add_entry (ms_init (FO := binary64_ops)) 7 100 in
  let '(s', warned) := test_for (FO := binary64_ops) (set_thresh s 1000) 7 300 in
  warned = true /\ hits (stats s') = 1.
Proof.
  pose proof (test_for_ignores_threshold (FO := binary64_ops)
    (add_entry (ms_init (FO := binary64_ops)) 7 100) 1000 7 300
    ltac:(vm_compute; congruence) ltac:(vm_compute; reflexivity)) as H.
  cbv zeta. destruct (test_for (FO := binary64_ops) (set_thresh _ 1000) 7 300) as [s' w].
  destruct (test_for (FO := binary64_ops) _ 7 300) as [s0 w0].
  destruct H as (H1 & H2 & _). split; [exact H1|exact H2].
Defined.

Lemma live_calls_typed_witness :
  exists s, ms_calls (FO := binary64_ops) (ms_init (FO := binary64_ops))
      [Ms_set_thresh (-5); Ms_add_entry 4294967295 100; Ms_test_for 4294967295 250; Ms_test_for 1 7; Ms_fetch_stats] =
      Ok s /\ ms_typed s /\ average_latency (stats s) = 150.
Proof.
  pose proof (live_calls_typed (FO := binary64_ops)
      [Ms_set_thresh (-5); Ms_add_entry 4294967295 100; Ms_test_for 4294967295 250; Ms_test_for 1 7; Ms_fetch_stats]
      ltac:(repeat constructor; cbn; lia)) as H.
  destruct (ms_calls _ _) as [s|u] eqn:E; [|vm_compute in E; discriminate E].
  exists s. split; [reflexivity|]. split; [exact H|]. vm_compute in E. by injection E as <-.
Defined.

Import Threads.

(** Thread 1 stores a timestamp while thread 2 works on another entry. *)
Lemma live_linearizable_witness :
  exists c, reachable c /\ done_ops c = [(Add 7 100, 0)] /\ exists hl, replay ∅ (done_ops c) = Some hl.
Proof.
  assert (exists c, reachable c /\ done_ops c = [(Add 7 100, 0)]) as (c & Hr & E).
  { eexists. split.
    - eapply (reach_step 1); [eapply (reach_step 1); [eapply (reach_step 2); [eapply (reach_step 1);
        [eapply (reach_step 1); [apply reach_init|]|]|]|]|].
      + apply (step_add_lock _ _ 7 100); reflexivity.
      + apply (step_add_timestamp _ _ 7 100); reflexivity.
      + apply (step_test_lock _ _ 8 300); reflexivity.
      + apply (step_add_identifier _ _ 7 100); reflexivity.
      + apply (step_add_unlock _ _ 7 100); reflexivity.
    - reflexivity. }
  exists c. split; [exact Hr|]. split; [exact E|].
  destruct (live_linearizable c Hr) as (hl & H & _). exists hl. exact H.
Defined.

End Witnesses.
