(* ===== verification/MoonsniffStats.v ===== *)
(** * MoonSniff live mode with its statistics: src/moonsniff.cpp, lines 83 to 106

    [test_for] updates the statistics after it has released the mutex of the
    entry, with nothing but plain reads and writes of shared variables.  Here
    these accesses are steps of their own, interleaved with the accesses to the
    array (module [Threads] of the file MoonsniffLive).  One thread that tests,
    as examples/moonsniff/sniffer.lua starts it, with any number of threads that
    add, is as good as the sequential program; two that test are not. *)
From S2P Require Import Prelude Float Binary64 Histogram MoonsniffLive.
From stdpp Require Import gmap.
Import Live Threads.

#[local] Open Scope Z_scope.

Section Stats.
Context `{FO : FloatOps D}.

(** ** The accesses *)

(** The variables [test_for] updates. *)
Record shared := Shared { sh_hits : Z; sh_misses : Z; sh_count : Z; sh_mean : D; sh_m2 : D }.

Definition set_hits (s : shared) (v : Z) := Shared v (sh_misses s) (sh_count s) (sh_mean s) (sh_m2 s).
Definition set_misses (s : shared) (v : Z) := Shared (sh_hits s) v (sh_count s) (sh_mean s) (sh_m2 s).
Definition set_count (s : shared) (v : Z) := Shared (sh_hits s) (sh_misses s) v (sh_mean s) (sh_m2 s).
Definition set_mean (s : shared) (v : D) := Shared (sh_hits s) (sh_misses s) (sh_count s) v (sh_m2 s).
Definition set_m2 (s : shared) (v : D) := Shared (sh_hits s) (sh_misses s) (sh_count s) (sh_mean s) v.

(** Where a thread is behind the unlock in [test_for], with its local
    variables and the values it has read. *)
Inductive stat_pc :=
| SIdle
| SFound (ts old : Z)
| SMissRead (misses : Z)
| SHitRead (diff hits : Z)
| SHit (diff : Z)
| SCountRead (diff count : Z)
| SCounted (diff : Z)
| SDelta (diff : Z) (delta : D)
| SMeanRead (diff : Z) (delta mean : D)
| SMeanCount (diff : Z) (delta mean : D) (count : Z)
| SMeanSet (diff : Z) (delta : D)
| SDelta2 (delta delta2 : D)
| SM2Read (delta delta2 m2 : D).

(** One read or write of a shared variable. *)
Definition stat_step (p : stat_pc) (s : shared) : option (stat_pc * shared) :=
  match p with
  | SIdle => None
  | SFound ts old =>
      if negb (old =? 0) then Some (SHitRead (s64 (ts - old)) (sh_hits s), s)
      else Some (SMissRead (sh_misses s), s)
  | SMissRead v => Some (SIdle, set_misses s (u32 (v + 1)))
  | SHitRead diff v => Some (SHit diff, set_hits s (u32 (v + 1)))
  | SHit diff => Some (SCountRead diff (sh_count s), s)
  | SCountRead diff v => Some (SCounted diff, set_count s (u64 (v + 1)))
  | SCounted diff => Some (SDelta diff (d_of_Z diff - sh_mean s)%D, s)
  | SDelta diff delta => Some (SMeanRead diff delta (sh_mean s), s)
  | SMeanRead diff delta mean => Some (SMeanCount diff delta mean (sh_count s), s)
  | SMeanCount diff delta mean count =>
      Some (SMeanSet diff delta, set_mean s (mean + delta / d_of_Z count)%D)
  | SMeanSet diff delta => Some (SDelta2 delta (d_of_Z diff - sh_mean s)%D, s)
  | SDelta2 delta delta2 => Some (SM2Read delta delta2 (sh_m2 s), s)
  | SM2Read delta delta2 m2 => Some (SIdle, set_m2 s (m2 + delta * delta2)%D)
  end.

(** The array, the statistics, and where each thread is in its statistics. *)
Record full := Full { arr : conf; shr : shared; spc : nat -> stat_pc }.

Definition supd (f : nat -> stat_pc) (t : nat) (p : stat_pc) : nat -> stat_pc :=
  fun t' => if decide (t' = t) then p else f t'.

Definition testing (p : pc) : bool :=
  match p with
  | TestLocked _ _ | TestCompared _ _ _ | TestRead _ _ _ | TestCleared1 _ _ _ | TestCleared2 _ _ _ => true
  | _ => false
  end.

(** One access of thread [t].  Only threads that satisfy [may] call
    [test_for]; the statistics follow the unlock. *)
Inductive fstep (may : nat -> Prop) (t : nat) : full -> full -> Prop :=
| fstep_array f c' :
    spc f t = SIdle -> step t (arr f) c' -> (testing (pcs c' t) = true -> may t) ->
    (forall id ts old, pcs (arr f) t <> TestCleared2 id ts old) ->
    fstep may t f (Full c' (shr f) (spc f))
| fstep_unlock f c' id ts old :
    spc f t = SIdle -> pcs (arr f) t = TestCleared2 id ts old -> step t (arr f) c' ->
    fstep may t f (Full c' (shr f) (supd (spc f) t (SFound ts old)))
| fstep_stat f p s :
    stat_step (spc f t) (shr f) = Some (p, s) ->
    fstep may t f (Full (arr f) s (supd (spc f) t p)).

Definition shared_init : shared := Shared 0 0 0 (d_of_Z 0) (d_of_Z 0).
Definition full_init : full := Full conf_init shared_init (fun _ => SIdle).

Inductive freach (may : nat -> Prop) : full -> Prop :=
| freach_init : freach may full_init
| freach_step t f f' : freach may f -> fstep may t f f' -> freach may f'.

(** ** The statistics of a log *)

Definition apply_test (s : shared) (ts old : Z) : shared :=
  if negb (old =? 0) then
    let diff := s64 (ts - old) in
    let count := u64 (sh_count s + 1) in
    let delta := (d_of_Z diff - sh_mean s)%D in
    let mean := (sh_mean s + delta / d_of_Z count)%D in
    let delta2 := (d_of_Z diff - mean)%D in
    Shared (u32 (sh_hits s + 1)) (sh_misses s) count mean (sh_m2 s + delta * delta2)%D
  else set_misses s (u32 (sh_misses s + 1)).

Definition apply_log (s : shared) (x : op * Z) : shared :=
  match fst x with Test _ ts => apply_test s ts (snd x) | Add _ _ => s end.

Definition log_stats (log : list (op * Z)) : shared := foldl apply_log shared_init log.

(** What the statistics will be when a thread is done with its accesses. *)
Fixpoint finish_n (n : nat) (p : stat_pc) (s : shared) : shared :=
  match stat_step p s, n with
  | Some (p, s), S n => finish_n n p s
  | _, _ => s
  end.
Definition finish (p : stat_pc) (s : shared) : shared := finish_n 12 p s.

Lemma finish_step p s p' s' : stat_step p s = Some (p', s') -> finish p' s' = finish p s.
Proof.
  destruct p; cbn [stat_step]; try (by intros [= <- <-]); try done.
  unfold finish. cbn [finish_n stat_step]. destruct (negb (old =? 0)); by intros [= <- <-].
Qed.

Lemma finish_found ts old s : finish (SFound ts old) s = apply_test s ts old.
Proof. unfold finish, apply_test. cbn [finish_n stat_step]. by destruct (negb (old =? 0)). Qed.

(** ** One testing thread *)

Lemma step_pcs t c c' : step t c c' -> forall t', t' <> t -> pcs c' t' = pcs c t'.
Proof. destruct 1; intros t' Ht; cbn; unfold upd; by rewrite ?decide_False by done. Qed.

(** Only an unlock adds to the log; all but that of a test leave its
    statistics alone. *)
Lemma step_log t c c' : step t c c' -> (forall id ts old, pcs c t <> TestCleared2 id ts old) ->
  log_stats (done_ops c') = log_stats (done_ops c).
Proof.
  destruct 1; intros Hn; cbn [done_ops]; try done.
  - unfold log_stats. by rewrite foldl_app.
  - by destruct (Hn id ts old).
Qed.

Lemma step_unlock_log t c c' id ts old : step t c c' -> pcs c t = TestCleared2 id ts old ->
  done_ops c' = done_ops c ++ [(Test id ts, old)] /\ pcs c' t = Idle.
Proof.
  destruct 1; intros Hp; try congruence. cbn [done_ops pcs]. unfold upd. rewrite decide_True by done.
  split; [|done]. congruence.
Qed.

Record finv (t0 : nat) (f : full) : Prop := {
  fi_array : exists hl, inv (arr f) hl;
  fi_others : forall t, t <> t0 -> spc f t = SIdle /\ testing (pcs (arr f) t) = false;
  fi_stats : finish (spc f t0) (shr f) = log_stats (done_ops (arr f))
}.

Lemma finv_step t0 t f f' : finv t0 f -> fstep (eq t0) t f f' -> finv t0 f'.
Proof.
  intros [[hl I1] I2 I3] Hs. destruct Hs as [f c' Hi Hs Hmay Hn|f c' id ts old Hi Hp Hs|f p s Hs];
    split; cbn [arr shr spc].
  - by apply (inv_step _ _ _ _ I1 Hs).
  - intros t' Ht'. destruct (I2 t' Ht') as [A B]. split; [done|].
    destruct (decide (t' = t)) as [->|Hne]; [|by rewrite (step_pcs _ _ _ Hs)].
    destruct (testing (pcs c' t)); [|done]. by destruct Ht'; rewrite (Hmay eq_refl).
  - rewrite I3. symmetry. by apply (step_log t).
  - by apply (inv_step _ _ _ _ I1 Hs).
  - intros t' Ht'. destruct (I2 t' Ht') as [A B]. unfold supd.
    destruct (decide (t' = t)) as [->|Hne]; [by rewrite Hp in B|].
    split; [done|]. by rewrite (step_pcs _ _ _ Hs).
  - destruct (decide (t = t0)) as [->|Hne]; [|by destruct (I2 t Hne) as [_ B]; rewrite Hp in B].
    unfold supd. rewrite decide_True by done. rewrite finish_found.
    rewrite Hi in I3. change (finish SIdle (shr f)) with (shr f) in I3.
    destruct (step_unlock_log _ _ _ _ _ _ Hs Hp) as [-> _].
    unfold log_stats. rewrite foldl_app. fold (log_stats (done_ops (arr f))). by rewrite I3.
  - by exists hl.
  - intros t' Ht'. destruct (I2 t' Ht') as [A B]. unfold supd.
    destruct (decide (t' = t)) as [->|Hne]; [by rewrite A in Hs|done].
  - destruct (decide (t = t0)) as [->|Hne]; [|by destruct (I2 t Hne) as [A _]; rewrite A in Hs].
    unfold supd. rewrite decide_True by done. by rewrite (finish_step _ _ _ _ Hs).
Qed.

(** ** The sequential program *)

(** The statistics in the state of the sequential program. *)
Definition seq_stats (s : moonsniff D) : shared :=
  Shared (hits (stats s)) (misses (stats s)) (count s) (mean s) (m2 s).

Lemma seq_test s i ts : seq_stats (exec s (Test i ts)) = apply_test (seq_stats s) ts (old_ts (hit_list s) i).
Proof. cbn [exec]. unfold test_for, apply_test. by destruct (negb (old_ts (hit_list s) i =? 0)). Qed.

Lemma replay_seq log : forall hl hl' (s : moonsniff D), replay hl log = Some hl' -> hit_list s = hl ->
  hit_list (foldl exec s (fst <$> log)) = hl' /\
  seq_stats (foldl exec s (fst <$> log)) = foldl apply_log (seq_stats s) log.
Proof.
  induction log as [|[o r] log IH]; intros hl hl' s H Hs; cbn in H |- *; [by injection H as <-|].
  destruct (Z.eqb_spec (answer hl o) r) as [Er|]; [|done].
  assert (hit_list (exec s o) = atomic hl o) as Ho by (rewrite exec_hit_list, Hs; done).
  destruct (IH _ _ (exec s o) H Ho) as [E1 E2]. split; [exact E1|]. rewrite E2. f_equal.
  destruct o as [i ts|i ts]; [done|]. rewrite seq_test, Hs. cbn in Er. by rewrite Er.
Qed.

(** C16: One testing thread refines the sequential program.  In every state that
    any number of adding threads and one testing thread can reach by
    interleaving their single accesses to array and statistics, executing the
    completed operations sequentially, in the order in which they released
    their mutex, gives the values of all unlocked entries, and, as soon as the
    testing thread is not inside its update, the same hits, misses, count, mean
    and sum of squares, whatever the arithmetic. *)
Theorem live_threads_refine t0 f (Hreach : freach (eq t0) f) :
  let s := foldl exec ms_init (fst <$> done_ops (arr f)) in
  (forall i, mtx (arr f) !! i = None -> hit (mem (arr f)) i = hit (hit_list s) i) /\
  (spc f t0 = SIdle -> shr f = seq_stats s).
Proof.
  assert (finv t0 f) as [[hl [_ I2 _ I4]] _ I3].
  { induction Hreach as [|t f f' _ IH Hs]; [|by eapply finv_step].
    split; [|done|done]. exists ∅. split; cbn; [|done|done|done]. intros t i. by rewrite lookup_empty. }
  destruct (replay_seq (done_ops (arr f)) ∅ hl ms_init I4 eq_refl) as [E1 E2]. cbv zeta. split.
  - intros i Hi. rewrite E1. by apply I2.
  - intros Hidle. rewrite Hidle in I3. change (finish SIdle (shr f)) with (shr f) in I3. by rewrite I3, E2.
Qed.

End Stats.

(** ** Scheduling a run *)

(** A choice of the scheduler: a call that takes a free mutex, or the next
    access of a thread. *)
Inductive choice := LockAdd (t : nat) (id ts : Z) | LockTest (t : nat) (id ts : Z) | Go (t : nat).

Section Scheduler.
Context `{FO : FloatOps D}.

Definition at_index (c : conf) (id : Z) : entry := hit (mem c) (index id).

(** The next access of a thread inside a critical section. *)
Definition go (c : conf) (t : nat) : option conf :=
  match pcs c t with
  | Idle => None
  | AddLocked id ts =>
      Some (Conf (<[index id := Entry ts (identifier (at_index c id))]> (mem c)) (mtx c)
              (upd (pcs c) t (AddTimestamp id ts)) (done_ops c))
  | AddTimestamp id ts =>
      Some (Conf (<[index id := Entry (timestamp (at_index c id)) id]> (mem c)) (mtx c)
              (upd (pcs c) t (AddBoth id ts)) (done_ops c))
  | AddBoth id ts =>
      Some (Conf (mem c) (delete (index id) (mtx c)) (upd (pcs c) t Idle) (done_ops c ++ [(Add id ts, 0)]))
  | TestLocked id ts =>
      Some (Conf (mem c) (mtx c) (upd (pcs c) t (TestCompared id ts (identifier (at_index c id) =? id))) (done_ops c))
  | TestCompared id ts same =>
      Some (Conf (mem c) (mtx c)
              (upd (pcs c) t (TestRead id ts (if (same : bool) then timestamp (at_index c id) else 0))) (done_ops c))
  | TestRead id ts old =>
      Some (Conf (<[index id := Entry 0 (identifier (at_index c id))]> (mem c)) (mtx c)
              (upd (pcs c) t (TestCleared1 id ts old)) (done_ops c))
  | TestCleared1 id ts old =>
      Some (Conf (<[index id := Entry (timestamp (at_index c id)) 0]> (mem c)) (mtx c)
              (upd (pcs c) t (TestCleared2 id ts old)) (done_ops c))
  | TestCleared2 id ts old =>
      Some (Conf (mem c) (delete (index id) (mtx c)) (upd (pcs c) t Idle) (done_ops c ++ [(Test id ts, old)]))
  end.

Lemma go_step c t c' : go c t = Some c' -> step t c c'.
Proof.
  unfold go, at_index. destruct (pcs c t) eqn:E; intros [= <-]; econstructor; exact E.
Qed.

Definition is_idle (p : pc) : bool := match p with Idle => true | _ => false end.
Definition lock (c : conf) (t : nat) (id : Z) (p : pc) : option conf :=
  match is_idle (pcs c t), mtx c !! index id with
  | true, None => Some (Conf (mem c) (<[index id := t]> (mtx c)) (upd (pcs c) t p) (done_ops c))
  | _, _ => None
  end.

(** [tester] says which threads may test. *)
Definition schedule_step (tester : nat -> bool) (f : full (D := D)) (ch : choice) : option full :=
  match ch with
  | LockAdd t id ts =>
      match spc f t with
      | SIdle => (fun c => Full c (shr f) (spc f)) <$> lock (arr f) t id (AddLocked id ts)
      | _ => None
      end
  | LockTest t id ts =>
      match spc f t with
      | SIdle => if tester t then (fun c => Full c (shr f) (spc f)) <$> lock (arr f) t id (TestLocked id ts)
                 else None
      | _ => None
      end
  | Go t =>
      match stat_step (spc f t) (shr f), pcs (arr f) t with
      | Some (p, s), _ => Some (Full (arr f) s (supd (spc f) t p))
      | None, TestCleared2 _ ts old =>
          (fun c => Full c (shr f) (supd (spc f) t (SFound ts old))) <$> go (arr f) t
      | None, p =>
          if implb (testing p) (tester t) then (fun c => Full c (shr f) (spc f)) <$> go (arr f) t else None
      end
  end.

Lemma stat_step_idle p (s : shared (D := D)) : stat_step p s = None -> p = SIdle.
Proof. destruct p; cbn [stat_step]; try done. by destruct (negb (old =? 0)). Qed.

Lemma lock_inv c t id p c' : lock c t id p = Some c' ->
  pcs c t = Idle /\ mtx c !! index id = None /\
  c' = Conf (mem c) (<[index id := t]> (mtx c)) (upd (pcs c) t p) (done_ops c).
Proof.
  unfold lock. destruct (pcs c t); cbn [is_idle]; try done.
  destruct (mtx c !! index id); [done|]. by intros [= <-].
Qed.

Lemma go_testing c t c' : go c t = Some c' -> testing (pcs c' t) = true -> testing (pcs c t) = true.
Proof.
  unfold go. destruct (pcs c t) eqn:E; intros [= <-]; cbn; unfold upd; rewrite decide_True by done; done.
Qed.

Lemma go_array_sound (tester : nat -> bool) (f : full (D := D)) t c' :
  spc f t = SIdle -> go (arr f) t = Some c' -> (forall id ts old, pcs (arr f) t <> TestCleared2 id ts old) ->
  implb (testing (pcs (arr f) t)) (tester t) = true ->
  fstep (fun t => tester t = true) t f (Full c' (shr f) (spc f)).
Proof.
  intros Hi Eg Hn Hm. apply fstep_array; [done|by apply go_step| |done].
  intros Ht. by rewrite (go_testing _ _ _ Eg Ht) in Hm.
Qed.

Lemma schedule_go_sound (tester : nat -> bool) f t f' : schedule_step tester f (Go t) = Some f' ->
  fstep (fun t => tester t = true) t f f'.
Proof.
  cbn [schedule_step]. destruct (stat_step (spc f t) (shr f)) as [[p s]|] eqn:Es.
  { intros [= <-]. by apply fstep_stat. }
  apply stat_step_idle in Es. intros H.
  destruct (go (arr f) t) as [c'|] eqn:Eg.
  2: { destruct (pcs (arr f) t); cbn in H; try destruct (tester t); discriminate H. }
  pose proof (go_array_sound tester f t c' Es Eg) as Ha.
  destruct (pcs (arr f) t) eqn:Ep.
  9: { injection H as <-. eapply fstep_unlock; [done|exact Ep|by apply go_step]. }
  all: destruct (implb _ _) eqn:Ei in H; [|discriminate H]; injection H as <-; by apply Ha.
Qed.

Lemma schedule_step_sound (tester : nat -> bool) f ch f' : schedule_step tester f ch = Some f' ->
  exists t, fstep (fun t => tester t = true) t f f'.
Proof.
  destruct ch as [t id ts|t id ts|t]; intros H; exists t; [| |by apply schedule_go_sound];
    cbn [schedule_step] in H; destruct (spc f t) eqn:Es; try discriminate H.
  - destruct (lock (arr f) t id (AddLocked id ts)) as [c'|] eqn:El; [|discriminate H]. injection H as <-.
    apply lock_inv in El as (Hp & Hm & ->).
    apply fstep_array; [done|by apply step_add_lock| |by rewrite Hp].
    cbn. unfold upd. by rewrite decide_True.
  - destruct (tester t) eqn:Et; [|discriminate H].
    destruct (lock (arr f) t id (TestLocked id ts)) as [c'|] eqn:El; [|discriminate H]. injection H as <-.
    apply lock_inv in El as (Hp & Hm & ->).
    apply fstep_array; [done|by apply step_test_lock|done|by rewrite Hp].
Qed.

Fixpoint schedule_run (tester : nat -> bool) (f : full (D := D)) (chs : list choice) : option full :=
  match chs with
  | [] => Some f
  | ch :: chs => f ← schedule_step tester f ch; schedule_run tester f chs
  end.

Lemma schedule_run_sound (tester : nat -> bool) chs : forall f f',
  freach (fun t => tester t = true) f -> schedule_run tester f chs = Some f' ->
  freach (fun t => tester t = true) f'.
Proof.
  induction chs as [|ch chs IH]; intros f f' Hf H; cbn in H; [by injection H as <-|].
  destruct (schedule_step tester f ch) as [f1|] eqn:E; [|discriminate H].
  apply schedule_step_sound in E as [t Hs]. apply (IH f1 f'); [by eapply freach_step|exact H].
Qed.

End Scheduler.

(** ** Examples of runs *)

Lemma freach_mono {D} `{FO : FloatOps D} (P Q : nat -> Prop) f :
  (forall t, P t -> Q t) -> freach P f -> freach Q f.
Proof.
  intros HPQ. induction 1 as [|t f f' _ IH Hs]; [apply freach_init|].
  apply (freach_step _ t f); [exact IH|]. destruct Hs; [eapply fstep_array|eapply fstep_unlock|eapply fstep_stat];
    eauto.
Qed.

Section Examples.
#[local] Existing Instance binary64_ops.

Definition steps (t n : nat) : list choice := repeat (Go t) n.

(** Thread 0 tests, thread 1 adds: the second timestamp is stored while the
    first test has taken its entry and is in its statistics. *)
Definition one_tester : list choice :=
  [LockAdd 1 7 100] ++ steps 1 3 ++ [LockTest 0 7 130] ++ steps 0 5 ++ [Go 0; LockAdd 1 8 200; Go 0] ++
  steps 1 2 ++ steps 0 3 ++ [Go 1] ++ steps 0 6 ++ [LockTest 0 8 250] ++ steps 0 16.

Lemma live_threads_refine_witness :
  exists f, schedule_run (fun t => (t =? 0)%nat) full_init one_tester = Some f /\
    spc f 0%nat = SIdle /\ sh_hits (shr f) = 2 /\ d_to_s64 (sh_mean (shr f)) = Ok 40 /\
    shr f = seq_stats (foldl exec ms_init (fst <$> done_ops (arr f))).
Proof.
  destruct (schedule_run (fun t => (t =? 0)%nat) full_init one_tester) as [f|] eqn:E.
  2: { vm_compute in E. discriminate E. }
  assert (freach (eq 0%nat) f) as Hr.
  { apply (freach_mono (fun t => (t =? 0)%nat = true)); [intros t Ht; symmetry; by apply Nat.eqb_eq|].
    apply (schedule_run_sound _ one_tester full_init f); [apply freach_init|exact E]. }
  assert (spc f 0%nat = SIdle /\ sh_hits (shr f) = 2 /\ d_to_s64 (sh_mean (shr f)) = Ok 40) as (H1 & H2 & H3)
    by (vm_compute in E; injection E as <-; vm_compute; done).
  exists f. split; [reflexivity|]. split; [exact H1|]. split; [exact H2|]. split; [exact H3|].
  exact (proj2 (live_threads_refine 0 f Hr) H1).
Defined.

(** Threads 0 and 1 both test: both read the number of hits before either
    writes it back. *)
Definition two_testers : list choice :=
  [LockAdd 2 7 100] ++ steps 2 3 ++ [LockAdd 2 8 200] ++ steps 2 3 ++
  [LockTest 0 7 130] ++ steps 0 5 ++ [LockTest 1 8 250] ++ steps 1 5 ++
  [Go 0; Go 1] ++ steps 0 10 ++ steps 1 10.

(** With two testing threads a hit is lost: both have found their timestamp
    and are done, yet one hit is counted. *)
Theorem two_testers_lose_a_hit :
  exists f, freach (fun t => t = 0%nat \/ t = 1%nat) f /\ spc f 0%nat = SIdle /\ spc f 1%nat = SIdle /\
    done_ops (arr f) = [(Add 7 100, 0); (Add 8 200, 0); (Test 7 130, 100); (Test 8 250, 200)] /\
    sh_hits (shr f) = 1 /\ sh_misses (shr f) = 0.
Proof.
  destruct (schedule_run (fun t => (t <? 2)%nat) full_init two_testers) as [f|] eqn:E.
  2: { vm_compute in E. discriminate E. }
  exists f. split.
  - apply (freach_mono (fun t => (t <? 2)%nat = true)); [intros t Ht; apply Nat.ltb_lt in Ht; lia|].
    apply (schedule_run_sound _ two_testers full_init f); [apply freach_init|exact E].
  - vm_compute in E. injection E as <-. vm_compute. done.
Qed.

End Examples.
