(* ===== verification/Capture.v ===== *)
(** * Packet data: the log of src/moonsniff.cpp (lines 124 to 162) and
      src/software-timestamping.c

    [ms_log_pkts] appends a timestamp and an identifier per packet to a file;
    [moongen_send_packet_with_timestamp] writes the time-stamp counter into a
    packet until the driver takes it.  A file is the list of its bytes; a read
    or write outside of a buffer is undefined. *)
From S2P Require Import Prelude Dpdk.

#[local] Open Scope Z_scope.

(** ** Little-endian integers in memory *)

Fixpoint le_bytes (n : nat) (v : Z) : list Z :=
  match n with O => [] | S n => v mod 256 :: le_bytes n (v / 256) end.

Fixpoint le_value (bs : list Z) : Z :=
  match bs with [] => 0 | b :: bs => b + 256 * le_value bs end.

(** [n] bytes of a buffer from [off] on. *)
Definition read_bytes (mem : list Z) (off n : Z) : res (list Z) :=
  if (0 <=? off) && (off + n <=? Z.of_nat (length mem))
  then Ok (take (Z.to_nat n) (drop (Z.to_nat off) mem)) else UB OutOfBounds.

Definition read_u32 (mem : list Z) (off : Z) : res Z :=
  bs ← read_bytes mem off 4; mret (le_value bs).

Section Capture.
Context `{TS : TimestampDynfield} (RX_IEEE1588_TMST : Z).

(** [embedded | ((ol_flags & RTE_MBUF_F_RX_IEEE1588_TMST) != 0)] *)
Definition has_timestamp (embedded : bool) (m : mbuf) : bool :=
  embedded || negb (Z.land (ol_flags m) RX_IEEE1588_TMST =? 0).

(** The two words ixgbe NICs append to the packet: low, high. *)
Definition trailer (m : mbuf) : res (Z * Z) :=
  low ← read_u32 (buf m) (data_off m + pkt_len m - 8);
  high ← read_u32 (buf m) (data_off m + pkt_len m - 8 + 4);
  mret (low, high).

(** ** ms_log_pkts *)

(** [high * 1000000000 + low] is computed in 32 bits. *)
Definition ms_timestamp (embedded : bool) (m : mbuf) : res Z :=
  if embedded then mret (get_timestamp_dynfield m)
  else '(low, high) ← trailer m; mret (u32 (u32 (high * 1000000000) + low)).

(** The bytes appended to the file for one packet. *)
Definition ms_log_pkt (seqnum_offset : Z) (embedded : bool) (m : mbuf) : res (list Z) :=
  if has_timestamp embedded m then
    ts ← ms_timestamp embedded m;
    if seqnum_offset <? pkt_len m then
      identifier ← read_u32 (buf m) (data_off m + seqnum_offset);
      mret (le_bytes 8 ts ++ le_bytes 4 identifier)
    else mret []
  else mret [].

(** The loop over the packets of a burst; every one is freed. *)
Fixpoint ms_log_burst (seqnum_offset : Z) (embedded : bool) (ms : list mbuf)
    : res (list Z * list event) :=
  match ms with
  | [] => mret ([], [])
  | m :: ms =>
      out ← ms_log_pkt seqnum_offset embedded m;
      '(outs, ev) ← ms_log_burst seqnum_offset embedded ms;
      mret (out ++ outs, Free m :: ev)
  end.

Fixpoint ms_log_loop (seqnum_offset : Z) (embedded : bool) (bursts : list (list mbuf))
    : res (list Z * list event) :=
  match bursts with
  | [] => mret ([], [])
  | ms :: bursts =>
      '(out, ev) ← ms_log_burst seqnum_offset embedded ms;
      '(outs, evs) ← ms_log_loop seqnum_offset embedded bursts;
      mret (out ++ outs, ev ++ evs)
  end.

(** The stream appends to the file; writes to a stream that did not open do
    nothing, and nobody looks at its state. *)
Definition ms_log_pkts (seqnum_offset : Z) (embedded : bool) (opened : bool) (file : list Z)
    (bursts : list (list mbuf)) : res (list Z * list event) :=
  '(out, ev) ← ms_log_loop seqnum_offset embedded bursts;
  mret (if (opened : bool) then file ++ out else file, ev).

(** ** moongen_send_packet_with_timestamp *)

(** Writes 8 bytes at word [offs] of the packet data. *)
Definition write_bytes (mem : list Z) (off : Z) (bs : list Z) : res (list Z) :=
  if (0 <=? off) && (off + Z.of_nat (length bs) <=? Z.of_nat (length mem))
  then Ok (take (Z.to_nat off) mem ++ bs ++ drop (Z.to_nat off + length bs) mem) else UB OutOfBounds.

Definition set_buf (m : mbuf) (b : list Z) : mbuf :=
  Mbuf (m_addr m) (pkt_len m) (data_len m) (ol_flags m) (data_off m) b (dynfields m) (timestamp_cell m).

(** One attempt per element of [tries]: the counter read, and whether the
    driver took the packet.  The packet transmitted, if any, and the packet as
    the loop leaves it. *)
Fixpoint moongen_send_packet_with_timestamp (m : mbuf) (offs : Z) (tries : list (Z * bool))
    : res (mbuf * option mbuf) :=
  match tries with
  | [] => mret (m, None)
  | (tsc, ok) :: tries =>
      b ← write_bytes (buf m) (data_off m + 8 * offs) (le_bytes 8 tsc);
      let m := set_buf m b in
      if (ok : bool) then mret (m, Some m)
      else moongen_send_packet_with_timestamp m offs tries
  end.

End Capture.

(** ** Encoding lemmas *)

Lemma length_le_bytes n v : length (le_bytes n v) = n.
Proof. revert v. induction n; intros; cbn; auto. Qed.

Lemma le_value_bytes n v : le_value (le_bytes n v) = v mod 256 ^ Z.of_nat n.
Proof.
  revert v. induction n as [|n IH]; intros v; [cbn; by rewrite Z.mod_1_r|].
  cbn [le_bytes le_value]. rewrite IH, Nat2Z.inj_succ, Z.pow_succ_r by lia.
  rewrite Z.rem_mul_r by lia. done.
Qed.

Definition is_byte (b : Z) : Prop := 0 <= b < 256.

Lemma le_value_range bs : Forall is_byte bs -> 0 <= le_value bs < 256 ^ Z.of_nat (length bs).
Proof.
  induction 1 as [|b bs Hb Hbs IH]; [cbn; lia|]. cbn [le_value length].
  rewrite Nat2Z.inj_succ, Z.pow_succ_r by lia. unfold is_byte in Hb. lia.
Qed.

Lemma read_bytes_inv mem off n bs : 0 <= n -> read_bytes mem off n = Ok bs ->
  Z.of_nat (length bs) = n /\ bs = take (Z.to_nat n) (drop (Z.to_nat off) mem).
Proof.
  intros Hn H. unfold read_bytes in H. destruct (_ && _) eqn:E; [|done]. injection H as <-.
  apply andb_true_iff in E as [E1 E2]. split; [|done]. rewrite length_take, length_drop. lia.
Qed.

Lemma read_bytes_ok mem off n : 0 <= off -> off + n <= Z.of_nat (length mem) ->
  read_bytes mem off n = Ok (take (Z.to_nat n) (drop (Z.to_nat off) mem)).
Proof.
  intros H1 H2. unfold read_bytes. apply Z.leb_le in H1, H2. by rewrite H1, H2.
Qed.

Lemma read_u32_range mem off v : Forall is_byte mem -> read_u32 mem off = Ok v -> is_u32 v.
Proof.
  intros Hm H. unfold read_u32 in H. apply bind_Ok in H as (bs & H & Hv). injection Hv as <-.
  apply read_bytes_inv in H as [Hl ->]; [|lia].
  assert (Forall is_byte (take (Z.to_nat 4) (drop (Z.to_nat off) mem))) as Hb
    by (by apply Forall_take, Forall_drop).
  apply le_value_range in Hb. rewrite Hl in Hb. exact Hb.
Qed.

Lemma read_u32_ok mem off : 0 <= off -> off + 4 <= Z.of_nat (length mem) ->
  exists v, read_u32 mem off = Ok v.
Proof.
  intros H1 H2. unfold read_u32. rewrite read_bytes_ok by done. by eexists.
Qed.

Definition frame_bytes (m : mbuf) : Prop := Forall is_byte (buf m).

Lemma trailer_range m low high : frame_bytes m -> trailer m = Ok (low, high) -> is_u32 low /\ is_u32 high.
Proof.
  intros Hb H. unfold trailer in H. apply bind_Ok in H as (l & Hl & H). apply bind_Ok in H as (h & Hh & H).
  injection H as <- <-. split; by eapply read_u32_range.
Qed.

Lemma take_app_len {A} (l k : list A) n : length l = n -> take n (l ++ k) = l.
Proof. intros <-. apply take_app_length. Qed.
Lemma drop_app_len {A} (l k : list A) n : length l = n -> drop n (l ++ k) = k.
Proof. intros <-. apply drop_app_length. Qed.

(** ** Reading the log *)

(** Records of 12 bytes: timestamp, identifier. *)
Fixpoint parse_ms (fuel : nat) (l : list Z) : option (list (Z * Z)) :=
  match l, fuel with
  | [], _ => Some []
  | _, O => None
  | _, S fuel =>
      if decide (12 <= length l)%nat then
        rs ← parse_ms fuel (drop 12 l);
        Some ((le_value (take 8 l), le_value (take 4 (drop 8 l))) :: rs)
      else None
  end.

Definition ms_bytes (r : Z * Z) : list Z := le_bytes 8 (fst r) ++ le_bytes 4 (snd r).

Lemma length_ms_bytes r : length (ms_bytes r) = 12%nat.
Proof. unfold ms_bytes. by rewrite length_app, !length_le_bytes. Qed.

Lemma parse_ms_bytes rs : Forall (fun r => is_u64 (fst r) /\ is_u32 (snd r)) rs -> forall fuel,
  (length rs <= fuel)%nat -> parse_ms fuel (concat (ms_bytes <$> rs)) = Some rs.
Proof.
  induction 1 as [|r rs [H1 H2] _ IH]; intros fuel Hf; [by destruct fuel|].
  destruct fuel as [|fuel]; [cbn in Hf; lia|]. cbn [fmap list_fmap concat].
  set (l := ms_bytes r ++ concat (ms_bytes <$> rs)).
  assert (12 <= length l)%nat as Hl by (unfold l; rewrite length_app, length_ms_bytes; lia).
  assert (parse_ms (S fuel) l =
    (rs ← parse_ms fuel (drop 12 l);
     Some ((le_value (take 8 l), le_value (take 4 (drop 8 l))) :: rs))) as ->.
  { destruct l as [|b l]; [cbn in Hl; lia|]. cbn [parse_ms]. by rewrite decide_True. }
  unfold l. rewrite (drop_app_len _ _ 12) by apply length_ms_bytes. rewrite IH by (cbn in Hf; lia).
  cbn [mbind option_bind]. f_equal. unfold ms_bytes. rewrite <- app_assoc.
  rewrite (take_app_len _ _ 8), (drop_app_len _ _ 8), (take_app_len _ _ 4) by apply length_le_bytes.
  rewrite !le_value_bytes, !Z.mod_small by done. by destruct r.
Qed.

Section Log.
Context `{TS : TimestampDynfield} (RX_IEEE1588_TMST : Z).

(** The packets that get a record. *)
Definition logged (seqnum_offset : Z) (embedded : bool) (m : mbuf) : bool :=
  has_timestamp RX_IEEE1588_TMST embedded m && (seqnum_offset <? pkt_len m).

(** The record of a packet: its timestamp, in trailer mode the low 32 bits of
    the nanoseconds, and the four bytes at the offset. *)
Definition log_record (seqnum_offset : Z) (embedded : bool) (m : mbuf) (r : Z * Z) : Prop :=
  read_u32 (buf m) (data_off m + seqnum_offset) = Ok (snd r) /\
  if embedded then fst r = get_timestamp_dynfield m
  else exists low high, trailer m = Ok (low, high) /\ fst r = (high * 1000000000 + low) mod 2 ^ 32.

Lemma ms_log_pkt_inv off embedded m out : frame_bytes m ->
  ms_log_pkt RX_IEEE1588_TMST off embedded m = Ok out ->
  exists rs, out = concat (ms_bytes <$> rs) /\ Forall (fun r => is_u64 (fst r) /\ is_u32 (snd r)) rs /\
    Forall2 (log_record off embedded) (if logged off embedded m then [m] else []) rs.
Proof.
  intros Hb H. unfold ms_log_pkt, logged in *. destruct (has_timestamp RX_IEEE1588_TMST embedded m); cbn [andb].
  2: { injection H as <-. by exists []. }
  apply bind_Ok in H as (ts & Hts & H). destruct (off <? pkt_len m).
  2: { injection H as <-. by exists []. }
  apply bind_Ok in H as (id & Hid & H). injection H as <-. exists [(ts, id)].
  assert (is_u64 ts /\ log_record off embedded m (ts, id)) as [Hu Hr].
  { unfold ms_timestamp in Hts. unfold log_record. destruct embedded; cbn [fst snd].
    - injection Hts as <-. split; [apply get_timestamp_u64|done].
    - apply bind_Ok in Hts as ([low high] & Ht & Hts). injection Hts as <-.
      rewrite u32_add_l. pose proof (u32_range (high * 1000000000 + low)).
      split; [unfold is_u64; lia|]. split; [done|]. by exists low, high. }
  split; [cbn [fmap list_fmap concat]; by rewrite app_nil_r|]. split; [|by constructor].
  constructor; [|constructor]. split; [done|]. by eapply read_u32_range.
Qed.

Lemma ms_log_burst_inv off embedded ms : forall out ev, Forall frame_bytes ms ->
  ms_log_burst RX_IEEE1588_TMST off embedded ms = Ok (out, ev) ->
  ev = Free <$> ms /\ exists rs, out = concat (ms_bytes <$> rs) /\
    Forall (fun r => is_u64 (fst r) /\ is_u32 (snd r)) rs /\
    Forall2 (log_record off embedded) (filter (fun m => logged off embedded m = true) ms) rs.
Proof.
  induction ms as [|m ms IH]; intros out ev Hb H; cbn [ms_log_burst] in H.
  { injection H as <- <-. split; [done|]. by exists []. }
  apply Forall_cons in Hb as [Hm Hb]. apply bind_Ok in H as (o & H1 & H).
  apply bind_Ok in H as ([os evs] & H2 & H). injection H as <- <-.
  apply ms_log_pkt_inv in H1 as (rs1 & -> & U1 & F1); [|done].
  apply IH in H2 as (-> & rs2 & -> & U2 & F2); [|done]. split; [done|].
  exists (rs1 ++ rs2). split; [by rewrite fmap_app, concat_app|]. split; [by apply Forall_app|].
  rewrite filter_cons. destruct (logged off embedded m).
  - rewrite decide_True by done. exact (Forall2_app F1 F2).
  - rewrite decide_False by done. exact (Forall2_app F1 F2).
Qed.

Lemma ms_log_loop_flat off embedded bursts : forall out ev,
  ms_log_loop RX_IEEE1588_TMST off embedded bursts = Ok (out, ev) ->
  ms_log_burst RX_IEEE1588_TMST off embedded (concat bursts) = Ok (out, ev).
Proof.
  assert (forall ms ms' o e o' e', ms_log_burst RX_IEEE1588_TMST off embedded ms = Ok (o, e) ->
    ms_log_burst RX_IEEE1588_TMST off embedded ms' = Ok (o', e') ->
    ms_log_burst RX_IEEE1588_TMST off embedded (ms ++ ms') = Ok (o ++ o', e ++ e')) as Happ.
  { induction ms as [|m ms IH]; intros ms' o e o' e' H1 H2; cbn [ms_log_burst app] in *.
    - by injection H1 as <- <-.
    - apply bind_Ok in H1 as (a & Ha & H1). apply bind_Ok in H1 as ([b be] & Hb & H1). injection H1 as <- <-.
      rewrite Ha. cbn [mbind res_bind]. rewrite (IH _ _ _ _ _ Hb H2). cbn. by rewrite app_assoc. }
  induction bursts as [|ms bursts IH]; intros out ev H; cbn [ms_log_loop concat] in *; [done|].
  apply bind_Ok in H as ([o e] & H1 & H). apply bind_Ok in H as ([os es] & H2 & H). injection H as <- <-.
  apply Happ; [done|]. by apply IH.
Qed.

(** C29: The log can be read back.  Whenever [ms_log_pkts] runs on a file that
    opened, the file keeps what it held and gets, per packet that carries a
    timestamp and is long enough, in order, one record of 12 bytes from which
    the timestamp and the identifier are read back; all packets are freed.  In
    trailer mode the timestamp is only the low 32 bits of the nanoseconds
    (it wraps after 4.3 s); with the timestamp in the dynfield it is exact. *)
Theorem ms_log_round_trip off embedded file bursts file' ev
    (Hb : Forall frame_bytes (concat bursts))
    (Hok : ms_log_pkts RX_IEEE1588_TMST off embedded true file bursts = Ok (file', ev)) :
  exists out rs, file' = file ++ out /\ parse_ms (length out) out = Some rs /\
    Forall2 (log_record off embedded) (filter (fun m => logged off embedded m = true) (concat bursts)) rs /\
    ev = Free <$> concat bursts.
Proof.
  unfold ms_log_pkts in Hok. apply bind_Ok in Hok as ([out ev'] & H & Hok). injection Hok as <- <-.
  apply ms_log_loop_flat, ms_log_burst_inv in H as (-> & rs & -> & U & F); [|done].
  eexists _, rs. split; [reflexivity|]. split; [|done]. apply parse_ms_bytes; [done|].
  clear. induction rs as [|r rs IH]; [done|]. cbn [fmap list_fmap concat length].
  rewrite length_app, length_ms_bytes. lia.
Qed.

(** Seconds from the fifth on are lost in trailer mode. *)
Lemma log_record_wraps off m r low high : frame_bytes m -> log_record off false m r ->
  trailer m = Ok (low, high) -> 5 <= high -> fst r <> high * 1000000000 + low.
Proof.
  intros Hb [_ (l & h & Ht & E)] Ht' Hh. rewrite Ht in Ht'. injection Ht' as -> ->.
  destruct (trailer_range m low high Hb Ht) as [Hl _]. unfold is_u32 in *.
  pose proof (Z.mod_pos_bound (high * 1000000000 + low) (2 ^ 32)). lia.
Qed.

End Log.

(** ** Software timestamps *)

(** Word [offs] of the packet data. *)
Definition stamp_at (m : mbuf) (offs : Z) : Z :=
  le_value (take 8 (drop (Z.to_nat (data_off m + 8 * offs)) (buf m))).

(** [m'] is [m] but for word [offs] of its data. *)
Definition same_but_stamp (offs : Z) (m m' : mbuf) : Prop :=
  set_buf m' (buf m) = m /\ length (buf m') = length (buf m) /\
  forall i, (Z.of_nat i < data_off m + 8 * offs \/ data_off m + 8 * offs + 8 <= Z.of_nat i) ->
    buf m' !! i = buf m !! i.

Lemma write_stamp m offs tsc : 0 <= data_off m + 8 * offs -> is_u64 tsc ->
  data_off m + 8 * offs + 8 <= Z.of_nat (length (buf m)) ->
  exists b, write_bytes (buf m) (data_off m + 8 * offs) (le_bytes 8 tsc) = Ok b /\
    same_but_stamp offs m (set_buf m b) /\ stamp_at (set_buf m b) offs = tsc.
Proof.
  intros H1 Ht H2. unfold write_bytes. rewrite length_le_bytes. change (Z.of_nat 8) with 8.
  rewrite (proj2 (Z.leb_le _ _) H1), (proj2 (Z.leb_le _ _) H2). cbn [andb].
  set (o := Z.to_nat (data_off m + 8 * offs)).
  assert (length (take o (buf m)) = o) as Ho by (rewrite length_take; lia).
  eexists. split; [reflexivity|]. split; [split; [by destruct m|split]|].
  - cbn [buf set_buf]. rewrite !length_app, Ho, length_le_bytes, length_drop. lia.
  - cbn [buf set_buf]. intros i Hi. destruct (decide (i < o)%nat) as [Hlt|Hge].
    + rewrite lookup_app_l by lia. by rewrite lookup_take_lt.
    + rewrite lookup_app_r, Ho by lia. rewrite lookup_app_r by (rewrite length_le_bytes; lia).
      rewrite length_le_bytes, lookup_drop. f_equal. lia.
  - unfold stamp_at. cbn [buf set_buf data_off]. fold o.
    rewrite (drop_app_len _ _ o Ho), (take_app_len _ _ 8) by apply length_le_bytes.
    rewrite le_value_bytes. by apply Z.mod_small.
Qed.

Lemma same_but_stamp_refl offs m : same_but_stamp offs m m.
Proof. split; [by destruct m|done]. Qed.

Lemma same_but_stamp_trans offs m1 m2 m3 :
  same_but_stamp offs m1 m2 -> same_but_stamp offs m2 m3 -> same_but_stamp offs m1 m3.
Proof.
  intros (A1 & A2 & A3) (B1 & B2 & B3). assert (data_off m2 = data_off m1) as Ed by (by rewrite <- A1).
  split; [|split; [congruence|]].
  - rewrite <- A1. rewrite <- B1 at 2. done.
  - intros i Hi. rewrite B3 by (rewrite Ed; lia). by apply A3.
Qed.

(** C31: A packet with a software timestamp carries the counter read just
    before the call in which the driver took it.  For a word inside the
    buffer the loop never leaves defined behaviour; it sends the packet
    exactly when one of its attempts succeeds, and then word [offs] of the
    packet is the reading of that very attempt, not of an earlier one; no
    other byte and no other field of the packet changes. *)
Theorem send_with_timestamp_stamps m offs tries
    (Hoff : 0 <= data_off m + 8 * offs)
    (Hlen : data_off m + 8 * offs + 8 <= Z.of_nat (length (buf m)))
    (Htsc : Forall (fun t => is_u64 (fst t)) tries) :
  exists m' sent, moongen_send_packet_with_timestamp m offs tries = Ok (m', sent) /\
    same_but_stamp offs m m' /\
    match list_find (fun t => snd t = true) tries with
    | Some (_, (tsc, _)) => sent = Some m' /\ stamp_at m' offs = tsc
    | None => sent = None
    end.
Proof.
  revert m Hoff Hlen. induction Htsc as [|[tsc ok] tries Ht _ IH]; intros m Hoff Hlen.
  { exists m, None. split; [done|]. split; [apply same_but_stamp_refl|done]. }
  cbn [moongen_send_packet_with_timestamp list_find fst snd] in *.
  destruct (write_stamp m offs tsc Hoff Ht Hlen) as (b & -> & Hs & Hv). cbn [mbind res_bind].
  destruct ok; cbn.
  - eexists _, _. split; [reflexivity|]. split; [exact Hs|]. by split.
  - destruct (IH (set_buf m b)) as (m' & sent & E & Hs' & Hf); [done|by destruct Hs as (_ & -> & _)|].
    exists m', sent. split; [exact E|]. split; [by eapply same_but_stamp_trans|].
    destruct (list_find (fun t : Z * bool => snd t = true) tries) as [[k [t0 b0]]|] eqn:Ef; cbn; exact Hf.
Qed.

(** ** Evaluation *)

Section Witnesses.
#[local] Existing Instance cell_dynfield.

(** A frame of [n] bytes behind 2 bytes of headroom, its last 8 bytes the
    trailer: 7 ns and 6 s.  Flag 8 marks a timestamp. *)
Definition sample_frame (n : nat) : mbuf :=
  Mbuf 1 (Z.of_nat n + 8) (Z.of_nat n + 8) 8 2
    ([0; 0] ++ replicate n 170 ++ [7; 0; 0; 0; 6; 0; 0; 0]) ∅ 6000000007.

Lemma sample_frame_bytes n : frame_bytes (sample_frame n).
Proof.
  unfold frame_bytes, sample_frame. cbn [buf].
  repeat (apply Forall_app; split); repeat (apply Forall_cons; split; [done|]); try apply Forall_nil; try done.
  apply Forall_replicate. done.
Qed.

Lemma ms_log_round_trip_witness :
  exists file' ev out rs,
    ms_log_pkts 8 4 false true [1; 2; 3] [[sample_frame 10]; [sample_frame 30; sample_frame 10]] = Ok (file', ev) /\
    file' = [1; 2; 3] ++ out /\ parse_ms (length out) out = Some rs /\ length rs = 3%nat.
Proof.
  destruct (ms_log_pkts 8 4 false true [1; 2; 3] [[sample_frame 10]; [sample_frame 30; sample_frame 10]])
    as [[file' ev]|] eqn:E; [|vm_compute in E; discriminate].
  destruct (ms_log_round_trip 8 4 false [1; 2; 3] [[sample_frame 10]; [sample_frame 30; sample_frame 10]] file' ev)
    as (out & rs & H1 & H2 & H3 & _).
  - repeat (apply Forall_cons; split; [apply sample_frame_bytes|]). apply Forall_nil. exact I.
  - exact E.
  - exists file', ev, out, rs. split; [reflexivity|]. split; [exact H1|]. split; [exact H2|].
    apply Forall2_length in H3. rewrite <- H3. reflexivity.
Defined.

Lemma send_with_timestamp_stamps_witness :
  exists m' sent, moongen_send_packet_with_timestamp (sample_frame 30) 1 [(100, false); (200, true); (300, true)]
    = Ok (m', sent) /\ sent = Some m' /\ stamp_at m' 1 = 200.
Proof.
  destruct (send_with_timestamp_stamps (sample_frame 30) 1 [(100, false); (200, true); (300, true)])
    as (m' & sent & H1 & _ & H2 & H3).
  - cbn. lia.
  - cbn. lia.
  - repeat (apply Forall_cons; split; [vm_compute; split; congruence|]). apply Forall_nil. exact I.
  - exists m', sent. split; [exact H1|]. split; [exact H2|exact H3].
Defined.

End Witnesses.
