(* ===== verification/Pcap.v ===== *)
(** * The pcap writer: src/moonsniff.cpp, lines 164 to 271

    [pcap_log_pkts] writes a pcap file through a memory mapping that is doubled
    when it is full, until its run time is over.  The system calls are the class
    [Posix]: what each call returns.  Their results are looked at, if at all,
    only to print a message; what happens after a failure is what the following
    accesses do.  A file is the list of its bytes. *)
From S2P Require Import Prelude Dpdk Capture.

#[local] Open Scope Z_scope.

(** [open] gives a descriptor or a negative number; the k-th [ftruncate] and
    [mremap], and [mmap], succeed or not.  On a bad descriptor all of them
    fail. *)
Class Posix := {
  sys_open : Z;
  sys_ftruncate : nat -> bool;
  sys_mmap : bool;
  sys_mremap : nat -> bool;
  sys_bad_fd : sys_open < 0 -> sys_mmap = false /\ forall k, sys_ftruncate k = false
}.

Definition sys_ok `{Posix} : Prop :=
  sys_mmap = true /\ (forall k, sys_ftruncate k = true) /\ forall k, sys_mremap k = true.

Record pcap_hdr_t := PcapHdr {
  magic_number : Z; version_major : Z; version_minor : Z;
  thiszone : Z; sigfigs : Z; snaplen : Z; network : Z
}.

Record pcaprec_hdr_t := PcapRecHdr { ts_sec : Z; ts_usec : Z; incl_len : Z; orig_len : Z }.

Definition INITIAL_FILE_SIZE : Z := 512 * 1024 * 1024.
Definition TCPDUMP_MAGIC_NANO : Z := 0xA1B23C4D.

Definition pcap_hdr (snap_len : Z) : pcap_hdr_t := PcapHdr TCPDUMP_MAGIC_NANO 2 4 0 0 snap_len 1.

(** The memory layouts of the two structs. *)
Definition hdr_bytes (h : pcap_hdr_t) : list Z :=
  le_bytes 4 (magic_number h) ++ le_bytes 2 (version_major h) ++ le_bytes 2 (version_minor h) ++
  le_bytes 4 (thiszone h) ++ le_bytes 4 (sigfigs h) ++ le_bytes 4 (snaplen h) ++ le_bytes 4 (network h).
Definition rechdr_bytes (h : pcaprec_hdr_t) : list Z :=
  le_bytes 4 (ts_sec h) ++ le_bytes 4 (ts_usec h) ++ le_bytes 4 (incl_len h) ++ le_bytes 4 (orig_len h).

(** The mapping: whether [addr] points to it, its size, the length of the file
    behind it, the bytes below [offset], and the calls made so far. *)
Record mapping := Mapping {
  addr : bool;
  size : Z;
  file_len : Z;
  written : list Z;
  truncates : nat;
  remaps : nat
}.

Section Writer.
Context `{TS : TimestampDynfield} `{PX : Posix} (RX_IEEE1588_TMST : Z).

(** [if (!fd)]: whether the failure of [open] is reported. *)
Definition open_reported : bool := sys_open =? 0.

(** [open], [ftruncate] and [mmap] of [initial] bytes. *)
Definition pcap_open (initial : Z) : mapping :=
  Mapping sys_mmap initial (if sys_ftruncate 0 then initial else 0) [] 1 0.

(** [memcpy(addr + offset, ...)]: MAP_FAILED is no valid address, and pages
    beyond the end of the file cannot be written (sizes are multiples of the
    page size). *)
Definition append (mp : mapping) (bs : list Z) : res mapping :=
  let last := Z.of_nat (length (written mp) + length bs) in
  if negb (addr mp) || (size mp <? last) then UB OutOfBounds
  else if file_len mp <? last then UB BusError
  else Ok (Mapping (addr mp) (size mp) (file_len mp) (written mp ++ bs) (truncates mp) (remaps mp)).

(** Doubles file and mapping when the packet does not seem to fit. *)
Definition grow (mp : mapping) (m : mbuf) : mapping :=
  if size mp <=? u64 (Z.of_nat (length (written mp)) + u32 (pkt_len m) + 8)
  then Mapping (addr mp && sys_mremap (remaps mp)) (u64 (size mp * 2))
         (if sys_ftruncate (truncates mp) then u64 (2 * size mp) else file_len mp)
         (written mp) (S (truncates mp)) (S (remaps mp))
  else mp.

(** Seconds and nanoseconds: [high] and [low]. *)
Definition pcap_time (embedded : bool) (m : mbuf) : res (Z * Z) :=
  if embedded then
    mret (u32 (get_timestamp_dynfield m mod 1000000000), u32 (get_timestamp_dynfield m / 1000000000))
  else trailer m.

Definition packetLengthAdjust (embedded : bool) : Z := if embedded then 0 else 8.

Definition included (snap_len : Z) (embedded : bool) (m : mbuf) : Z :=
  let len := u32 (pkt_len m - packetLengthAdjust embedded) in
  if len <? snap_len then len else snap_len.

Definition pcap_log_pkt (snap_len : Z) (embedded : bool) (mp : mapping) (m : mbuf) : res mapping :=
  if has_timestamp RX_IEEE1588_TMST embedded m then
    let incl := included snap_len embedded m in
    let mp := grow mp m in
    '(low, high) ← pcap_time embedded m;
    let rechdr := PcapRecHdr high low incl (u32 (pkt_len m - packetLengthAdjust embedded)) in
    mp ← append mp (rechdr_bytes rechdr);
    data ← read_bytes (buf m) (data_off m) incl;
    append mp data
  else mret mp.

(** The packets of a burst. *)
Fixpoint pcap_burst (snap_len : Z) (embedded : bool) (mp : mapping) (ms : list mbuf)
    : res (mapping * list event) :=
  match ms with
  | [] => mret (mp, [])
  | m :: ms =>
      mp ← pcap_log_pkt snap_len embedded mp m;
      '(mp, ev) ← pcap_burst snap_len embedded mp ms;
      mret (mp, Free m :: ev)
  end.

(** The loop: what [std::time] returns ahead of each iteration that
    [is_running] allows, and the burst received in it. *)
Fixpoint pcap_loop (snap_len runtime starttime : Z) (embedded : bool) (mp : mapping)
    (iters : list (Z * list mbuf)) : res (mapping * list event) :=
  match iters with
  | [] => mret (mp, [])
  | (now, ms) :: iters =>
      if now - starttime <? runtime then
        '(mp, ev) ← pcap_burst snap_len embedded mp ms;
        '(mp, evs) ← pcap_loop snap_len runtime starttime embedded mp iters;
        mret (mp, ev ++ evs)
      else mret (mp, [])
  end.

(** The file after the last [ftruncate]; when that fails, the rest of the
    mapped file stays behind what was written. *)
Definition pcap_close (mp : mapping) : list Z :=
  if sys_ftruncate (truncates mp) then written mp
  else written mp ++ replicate (Z.to_nat (file_len mp) - length (written mp)) 0.

(** [initial] is INITIAL_FILE_SIZE, a variable of the program. *)
Definition pcap_log_pkts (initial snap_len runtime starttime : Z) (embedded : bool)
    (iters : list (Z * list mbuf)) : res (list Z * list event) :=
  mp ← append (pcap_open initial) (hdr_bytes (pcap_hdr snap_len));
  '(mp, ev) ← pcap_loop snap_len runtime starttime embedded mp iters;
  mret (pcap_close mp, ev).

End Writer.

(** ** Reading a pcap file *)

Fixpoint fields (ns : list nat) (l : list Z) : list Z * list Z :=
  match ns with
  | [] => ([], l)
  | n :: ns => let '(vs, rest) := fields ns (drop n l) in (le_value (take n l) :: vs, rest)
  end.

(** The records of a file body. *)
Fixpoint parse_recs (fuel : nat) (l : list Z) : option (list (pcaprec_hdr_t * list Z)) :=
  match l, fuel with
  | [], _ => Some []
  | _, O => None
  | _, S fuel =>
      if decide (16 <= length l)%nat then
        match fields [4; 4; 4; 4]%nat l with
        | ([sec; usec; incl; orig], rest) =>
            if decide (Z.to_nat incl <= length rest)%nat then
              rs ← parse_recs fuel (drop (Z.to_nat incl) rest);
              Some ((PcapRecHdr sec usec incl orig, take (Z.to_nat incl) rest) :: rs)
            else None
        | _ => None
        end
      else None
  end.

Definition parse_pcap (l : list Z) : option (pcap_hdr_t * list (pcaprec_hdr_t * list Z)) :=
  if decide (24 <= length l)%nat then
    match fields [4; 2; 2; 4; 4; 4; 4]%nat l with
    | ([mg; mj; mi; tz; sf; sl; nw], rest) =>
        rs ← parse_recs (length rest) rest;
        Some (PcapHdr mg mj mi tz sf sl nw, rs)
    | _ => None
    end
  else None.

(** [fields] reads back a concatenation of encodings. *)
Lemma fields_le n ns v l : 0 <= v < 256 ^ Z.of_nat n ->
  fields (n :: ns) (le_bytes n v ++ l) =
  (let '(vs, rest) := fields ns l in (v :: vs, rest)).
Proof.
  intros Hv. cbn [fields]. rewrite take_app_le, drop_app_le by (rewrite length_le_bytes; lia).
  rewrite take_ge, drop_ge by (rewrite length_le_bytes; lia).
  rewrite le_value_bytes, Z.mod_small by done. done.
Qed.

Definition rec_bytes (r : pcaprec_hdr_t * list Z) : list Z := rechdr_bytes (fst r) ++ snd r.

Definition rec_ok (r : pcaprec_hdr_t * list Z) : Prop :=
  is_u32 (ts_sec (fst r)) /\ is_u32 (ts_usec (fst r)) /\ is_u32 (incl_len (fst r)) /\
  is_u32 (orig_len (fst r)) /\ Z.of_nat (length (snd r)) = incl_len (fst r).

Lemma length_rechdr h : length (rechdr_bytes h) = 16%nat.
Proof. unfold rechdr_bytes. by rewrite !length_app, !length_le_bytes. Qed.

Lemma parse_rechdr h l : is_u32 (ts_sec h) -> is_u32 (ts_usec h) -> is_u32 (incl_len h) -> is_u32 (orig_len h) ->
  fields [4; 4; 4; 4]%nat (rechdr_bytes h ++ l) = ([ts_sec h; ts_usec h; incl_len h; orig_len h], l).
Proof.
  intros H1 H2 H3 H4. unfold rechdr_bytes. rewrite <- !app_assoc.
  rewrite !fields_le by done. done.
Qed.

Lemma parse_recs_bytes rs : forall fuel,
  Forall rec_ok rs -> (length rs <= fuel)%nat ->
  parse_recs fuel (concat (rec_bytes <$> rs)) = Some rs.
Proof.
  induction rs as [|[h d] rs IH]; intros fuel Hok Hf; [by destruct fuel|].
  apply Forall_cons in Hok as [(H1 & H2 & H3 & H4 & H5) Hok]. cbn [fst snd] in *.
  destruct fuel as [|fuel]; [cbn in Hf; lia|]. cbn [fmap list_fmap concat].
  set (l := rec_bytes (h, d) ++ concat (rec_bytes <$> rs)).
  assert (l = rechdr_bytes h ++ d ++ concat (rec_bytes <$> rs)) as El
    by (unfold l, rec_bytes; cbn [fst snd]; by rewrite <- app_assoc).
  assert (16 <= length l)%nat as Hl by (rewrite El, length_app, length_rechdr; lia).
  assert (parse_recs (S fuel) l =
    match fields [4; 4; 4; 4]%nat l with
    | ([sec; usec; incl; orig], rest) =>
        if decide (Z.to_nat incl <= length rest)%nat then
          rs ← parse_recs fuel (drop (Z.to_nat incl) rest);
          Some ((PcapRecHdr sec usec incl orig, take (Z.to_nat incl) rest) :: rs)
        else None
    | _ => None end) as ->.
  { destruct l as [|b l]; [cbn in Hl; lia|]. cbn [parse_recs]. by rewrite decide_True. }
  rewrite El, parse_rechdr by done. rewrite decide_True by (rewrite length_app; lia).
  replace (Z.to_nat (incl_len h)) with (length d) by lia.
  rewrite drop_app_length, take_app_length.
  rewrite IH by (done || cbn in Hf; lia). cbn. by destruct h.
Qed.

Lemma parse_pcap_bytes snap rs : is_u32 snap -> Forall rec_ok rs ->
  parse_pcap (hdr_bytes (pcap_hdr snap) ++ concat (rec_bytes <$> rs)) = Some (pcap_hdr snap, rs).
Proof.
  intros Hs Hok. unfold parse_pcap.
  assert (length (hdr_bytes (pcap_hdr snap)) = 24%nat) as Hl
    by (unfold hdr_bytes; by rewrite !length_app, !length_le_bytes).
  rewrite decide_True by (rewrite length_app; lia).
  unfold hdr_bytes at 1, pcap_hdr at 1 2 3 4 5 6 7. cbn [magic_number version_major version_minor thiszone sigfigs snaplen network].
  rewrite <- !app_assoc. rewrite !fields_le by (done || exact Hs). cbn [fields].
  rewrite parse_recs_bytes; [done|done|].
  clear. induction rs as [|r rs IH]; [done|]. cbn [fmap list_fmap concat length].
  rewrite length_app. unfold rec_bytes at 1. rewrite length_app, length_rechdr. lia.
Qed.

(** ** The pcap writer *)

Section Pcap.
Context `{TS : TimestampDynfield} `{PX : Posix} (RX_IEEE1588_TMST : Z).

(** The record that stands for a packet: its timestamp, its length without the
    trailer, and its first bytes up to the snap length. *)
Definition record_of (snap_len : Z) (embedded : bool) (m : mbuf) (r : pcaprec_hdr_t * list Z) : Prop :=
  exists low high, pcap_time embedded m = Ok (low, high) /\
    fst r = PcapRecHdr high low (included snap_len embedded m) (u32 (pkt_len m - packetLengthAdjust embedded)) /\
    snd r = take (Z.to_nat (included snap_len embedded m)) (drop (Z.to_nat (data_off m)) (buf m)) /\
    rec_ok r.

Lemma pcap_time_range embedded m low high :
  frame_bytes m -> pcap_time embedded m = Ok (low, high) -> is_u32 low /\ is_u32 high.
Proof.
  intros Hb H. unfold pcap_time in H. destruct embedded; [|by eapply trailer_range].
  injection H as <- <-. split; apply u32_range.
Qed.

Lemma included_range snap_len embedded m : is_u32 snap_len ->
  is_u32 (included snap_len embedded m) /\ included snap_len embedded m <= u32 (pkt_len m - packetLengthAdjust embedded).
Proof.
  intros Hs. unfold included. pose proof (u32_range (pkt_len m - packetLengthAdjust embedded)) as Hr.
  unfold is_u32 in *. destruct (Z.ltb_spec (u32 (pkt_len m - packetLengthAdjust embedded)) snap_len); lia.
Qed.

Lemma append_inv mp bs mp' : append mp bs = Ok mp' -> written mp' = written mp ++ bs.
Proof. unfold append. destruct (_ || _); [done|]. destruct (_ <? _); [done|]. by intros [= <-]. Qed.

Lemma grow_written mp m : written (grow mp m) = written mp.
Proof. unfold grow. by destruct (_ <=? _). Qed.

Lemma pcap_log_pkt_inv snap_len embedded mp m mp' :
  is_u32 snap_len -> frame_bytes m ->
  pcap_log_pkt RX_IEEE1588_TMST snap_len embedded mp m = Ok mp' ->
  exists rs, written mp' = written mp ++ concat (rec_bytes <$> rs) /\
    Forall2 (record_of snap_len embedded)
      (if has_timestamp RX_IEEE1588_TMST embedded m then [m] else []) rs.
Proof.
  intros Hs Hb H. unfold pcap_log_pkt in H. destruct (has_timestamp RX_IEEE1588_TMST embedded m).
  - apply bind_Ok in H as ([low high] & Ht & H). apply bind_Ok in H as (mp1 & H1 & H).
    apply bind_Ok in H as (data & Hd & H). apply append_inv in H1, H.
    rewrite grow_written in H1. rewrite H1 in H.
    destruct (included_range snap_len embedded m Hs) as [Hi _].
    apply read_bytes_inv in Hd as [Hl Hd]; [|apply Hi].
    destruct (pcap_time_range _ _ _ _ Hb Ht) as [Hlo Hhi].
    match type of H1 with _ = _ ++ rechdr_bytes ?h => exists [(h, data)] end.
    split; [cbn [fmap list_fmap concat]; unfold rec_bytes; cbn [fst snd];
      by rewrite H, app_nil_r, <- app_assoc|].
    constructor; [|constructor]. exists low, high. split; [done|]. cbn [fst snd].
    split; [done|]. split; [done|]. split; [done|]. split; [done|]. split; [done|].
    split; [apply u32_range|done].
  - injection H as <-. exists []. split; [by rewrite app_nil_r|constructor].
Qed.

Definition timestamped (embedded : bool) (ms : list mbuf) : list mbuf :=
  filter (fun m => has_timestamp RX_IEEE1588_TMST embedded m = true) ms.

Lemma pcap_burst_inv snap_len embedded ms : forall mp mp' ev,
  is_u32 snap_len -> Forall frame_bytes ms ->
  pcap_burst RX_IEEE1588_TMST snap_len embedded mp ms = Ok (mp', ev) ->
  ev = Free <$> ms /\ exists rs, written mp' = written mp ++ concat (rec_bytes <$> rs) /\
    Forall2 (record_of snap_len embedded) (timestamped embedded ms) rs.
Proof.
  induction ms as [|m ms IH]; intros mp mp' ev Hs Hb H; cbn [pcap_burst] in H.
  - injection H as <- <-. split; [done|]. exists []. split; [by rewrite app_nil_r|constructor].
  - apply Forall_cons in Hb as [Hm Hb]. apply bind_Ok in H as (mp1 & H1 & H).
    apply bind_Ok in H as ([mp2 ev2] & H2 & H). injection H as <- <-.
    apply pcap_log_pkt_inv in H1 as (rs1 & E1 & F1); [|done..].
    apply IH in H2 as (-> & rs2 & E2 & F2); [|done..]. split; [done|].
    exists (rs1 ++ rs2). split; [by rewrite E2, E1, fmap_app, concat_app, app_assoc|].
    unfold timestamped. rewrite filter_cons.
    destruct (has_timestamp RX_IEEE1588_TMST embedded m) eqn:E.
    + rewrite decide_True by done. exact (Forall2_app F1 F2).
    + rewrite decide_False by done. exact (Forall2_app F1 F2).
Qed.

(** The packets received before the run time is over. *)
Fixpoint in_time (runtime starttime : Z) (iters : list (Z * list mbuf)) : list mbuf :=
  match iters with
  | [] => []
  | (now, ms) :: iters => if now - starttime <? runtime then ms ++ in_time runtime starttime iters else []
  end.

Lemma pcap_loop_burst snap_len runtime starttime embedded iters : forall mp,
  pcap_loop RX_IEEE1588_TMST snap_len runtime starttime embedded mp iters =
  pcap_burst RX_IEEE1588_TMST snap_len embedded mp (in_time runtime starttime iters).
Proof.
  assert (forall ms ms' mp, pcap_burst RX_IEEE1588_TMST snap_len embedded mp (ms ++ ms') =
    '(mp, ev) ← pcap_burst RX_IEEE1588_TMST snap_len embedded mp ms;
    '(mp, evs) ← pcap_burst RX_IEEE1588_TMST snap_len embedded mp ms';
    mret (mp, ev ++ evs)) as Happ.
  { unfold mbind, res_bind, mret, res_ret.
    induction ms as [|m ms IH]; intros ms' mp; cbn [pcap_burst app]; unfold mbind, res_bind, mret, res_ret.
    - by destruct (pcap_burst _ _ _ mp ms') as [[? ?]|].
    - destruct (pcap_log_pkt _ _ _ mp m) as [mp1|]; [|done]. rewrite IH.
      destruct (pcap_burst _ _ _ mp1 ms) as [[mp2 e2]|]; [|done].
      by destruct (pcap_burst _ _ _ mp2 ms') as [[? ?]|]. }
  induction iters as [|[now ms] iters IH]; intros mp; cbn [pcap_loop in_time]; [done|].
  destruct (now - starttime <? runtime); [|done]. rewrite Happ.
  destruct (pcap_burst _ _ _ mp ms) as [[mp1 e1]|]; [|done]. cbn [mbind res_bind]. by rewrite IH.
Qed.


(** *** Bounds of the mapping *)

(** A packet with its trailer in its buffer. *)
Record frame_ok (m : mbuf) : Prop := {
  fo_off : 0 <= data_off m;
  fo_len : 8 <= pkt_len m < 2 ^ 16;
  fo_buf : data_off m + pkt_len m <= Z.of_nat (length (buf m))
}.

(** The mapping while [n] packets are still to come. *)
Definition mapping_ok (mp : mapping) (n : nat) : Prop :=
  addr mp = true /\ file_len mp = size mp /\ Z.of_nat (length (written mp)) <= size mp /\ 2 ^ 18 <= size mp < 2 ^ 62 /\
  (Z.of_nat (length (written mp)) + Z.of_nat n * 2 ^ 17) * 4 < 2 ^ 62.

Lemma append_ok mp bs : addr mp = true -> file_len mp = size mp ->
  Z.of_nat (length (written mp) + length bs) <= size mp ->
  append mp bs = Ok (Mapping true (size mp) (size mp) (written mp ++ bs) (truncates mp) (remaps mp)).
Proof.
  intros Ha Hf H. unfold append. rewrite Ha, Hf. cbn [negb orb].
  destruct (Z.ltb_spec (size mp) (Z.of_nat (length (written mp) + length bs))); [lia|done].
Qed.

Lemma append_overrun mp bs : size mp < Z.of_nat (length (written mp) + length bs) ->
  append mp bs = UB OutOfBounds.
Proof. intros H. unfold append. apply Z.ltb_lt in H. by rewrite H, orb_true_r. Qed.

Lemma grow_ok mp m n : sys_ok -> mapping_ok mp (S n) -> frame_ok m ->
  Z.of_nat (length (written mp)) + pkt_len m + 8 < size (grow mp m) /\
  2 ^ 18 <= size (grow mp m) < 2 ^ 62 /\ addr (grow mp m) = true /\ file_len (grow mp m) = size (grow mp m).
Proof.
  intros (_ & S2 & S3) (A & L & H1 & H2 & H3) [_ H4 _]. unfold grow.
  rewrite (u32_id (pkt_len m)), u64_id by (unfold is_u32, is_u64; lia).
  destruct (Z.leb_spec (size mp) (Z.of_nat (length (written mp)) + pkt_len m + 8)); cbn [size addr file_len];
    [|by split; [lia|]].
  rewrite S2, S3, A, (Z.mul_comm 2), u64_id by (unfold is_u64; lia). split; [lia|]. by split; [lia|].
Qed.

Lemma pcap_log_pkt_total snap_len mp m n : sys_ok ->
  is_u32 snap_len -> frame_ok m -> mapping_ok mp (S n) ->
  exists mp', pcap_log_pkt RX_IEEE1588_TMST snap_len false mp m = Ok mp' /\ mapping_ok mp' n.
Proof.
  intros Hsys Hs Hf Hm. unfold pcap_log_pkt. destruct (has_timestamp RX_IEEE1588_TMST false m).
  2: { exists mp. split; [done|]. destruct Hm as (? & ? & ? & ? & ?). do 4 (split; [done|]). lia. }
  destruct (grow_ok mp m n Hsys Hm Hf) as (G1 & G2 & G3 & G4). pose proof (grow_written mp m) as Gw.
  destruct (included_range snap_len false m Hs) as [[Hi0 _] Hi]. cbn [packetLengthAdjust] in *.
  destruct Hm as (_ & _ & M1 & M2 & M3). destruct Hf as [F1 F2 F3].
  rewrite u32_id in * by (unfold is_u32; lia).
  unfold pcap_time, trailer.
  destruct (read_u32_ok (buf m) (data_off m + pkt_len m - 8)) as [low ->]; [lia|lia|].
  destruct (read_u32_ok (buf m) (data_off m + pkt_len m - 8 + 4)) as [high ->]; [lia|lia|].
  cbn [mbind res_bind mret res_ret]. rewrite append_ok by (done || rewrite Gw, length_rechdr; lia).
  cbn [mbind res_bind]. rewrite read_bytes_ok by lia. cbn [mbind res_bind].
  set (data := take _ _).
  assert (Z.of_nat (length data) <= included snap_len false m) as Hd by (unfold data; rewrite length_take; lia).
  rewrite append_ok; [|done|done|].
  - eexists. split; [reflexivity|]. unfold mapping_ok. cbn [addr file_len size written].
    rewrite !length_app, Gw, length_rechdr. split; [done|]. split; [done|]. lia.
  - cbn [written size]. rewrite length_app, Gw, length_rechdr. lia.
Qed.

(** C19: In trailer mode the mapping is never overrun.  With the timestamp at the
    end of the packet, for packets of at most 65535 bytes that lie in their
    buffer, starting from any initial size of at least 256 KiB, and with system
    calls that succeed, every write of [pcap_log_pkts] stays inside the mapping
    and the file, which are doubled in time, and the capture completes. *)
Theorem pcap_trailer_mode_safe initial snap_len runtime starttime iters
    (Hsys : sys_ok) (Hs : is_u32 snap_len) (Hf : Forall frame_ok (in_time runtime starttime iters))
    (Hi : 2 ^ 18 <= initial < 2 ^ 62)
    (Hn : Z.of_nat (length (in_time runtime starttime iters)) < 2 ^ 42) :
  exists file ev, pcap_log_pkts RX_IEEE1588_TMST initial snap_len runtime starttime false iters = Ok (file, ev).
Proof.
  unfold pcap_log_pkts, pcap_open. pose proof Hsys as (S1 & S2 & _). rewrite S1, S2.
  assert (length (hdr_bytes (pcap_hdr snap_len)) = 24%nat) as Hl
    by (unfold hdr_bytes; by rewrite !length_app, !length_le_bytes).
  rewrite append_ok by (done || cbn [written size length]; lia). cbn [mbind res_bind].
  rewrite pcap_loop_burst. set (mp := Mapping _ _ _ _ _ _).
  set (ms := in_time runtime starttime iters) in *.
  assert (mapping_ok mp (length ms)) as Hm
    by (unfold mapping_ok, mp; cbn [addr file_len written size app]; lia).
  assert (exists mp' ev, pcap_burst RX_IEEE1588_TMST snap_len false mp ms = Ok (mp', ev)) as (mp' & ev & ->);
    [|by eexists _, _].
  clearbody mp ms. clear Hi Hn. revert mp Hm. induction Hf as [|m ms Hm0 Hf IH]; intros mp Hm; [by eexists _, _|].
  cbn [pcap_burst]. destruct (pcap_log_pkt_total snap_len mp m (length ms) Hsys Hs Hm0 Hm) as (mp1 & -> & Hm1).
  cbn [mbind res_bind]. destruct (IH mp1 Hm1) as (mp2 & ev & ->). by eexists _, _.
Qed.

(** C38: A failure at the start is fatal.  When [open], the first [ftruncate] or
    [mmap] fails, [pcap_log_pkts] goes on and its first write, of the file
    header, is to an invalid address or beyond the end of the file; and a
    failed [open] (-1) is not even reported. *)
Theorem pcap_start_failure_fatal initial snap_len runtime starttime embedded iters
    (Hfail : sys_open < 0 \/ sys_mmap = false \/ sys_ftruncate 0 = false) :
  (exists u, pcap_log_pkts RX_IEEE1588_TMST initial snap_len runtime starttime embedded iters = UB u /\
     (u = OutOfBounds \/ u = BusError)) /\
  (sys_open < 0 -> open_reported = false).
Proof.
  split; [|intros Ho; unfold open_reported; lia].
  assert (sys_mmap = false \/ sys_ftruncate 0 = false) as [Hf|Hf].
  { destruct Hfail as [Ho|[?|?]]; [|tauto..]. left. by apply sys_bad_fd. }
  - exists OutOfBounds. split; [|by left]. unfold pcap_log_pkts, append, pcap_open. cbn [addr]. by rewrite Hf.
  - unfold pcap_log_pkts, append, pcap_open. cbn [addr size file_len written length]. rewrite Hf.
    assert (length (hdr_bytes (pcap_hdr snap_len)) = 24%nat) as ->
      by (unfold hdr_bytes; by rewrite !length_app, !length_le_bytes).
    destruct (_ || _); [exists OutOfBounds; split; [done|by left]|].
    exists BusError. split; [done|by right].
Qed.

(** C39: With timestamps in the dynfield the mapping can be overrun.  The size
    check reserves 8 bytes beyond the packet, which is right when the 8 byte
    trailer is cut off; without a trailer a record takes 16 bytes beyond the
    packet, and in the 7 positions in between the packet data is written past
    the end of the mapping. *)
Theorem pcap_embedded_mode_overrun snap_len mp m
    (Hlen : 0 <= pkt_len m < 2 ^ 32) (Hsnap : pkt_len m <= snap_len) (Hpos : size mp < 2 ^ 63)
    (Hlo : Z.of_nat (length (written mp)) + pkt_len m + 8 < size mp)
    (Hhi : size mp < Z.of_nat (length (written mp)) + pkt_len m + 16)
    (Haddr : addr mp = true) (Hfile : file_len mp = size mp)
    (Hoff : 0 <= data_off m) (Hbuf : data_off m + pkt_len m <= Z.of_nat (length (buf m))) :
  pcap_log_pkt RX_IEEE1588_TMST snap_len true mp m = UB OutOfBounds.
Proof.
  unfold pcap_log_pkt, has_timestamp. cbn [orb].
  unfold grow. rewrite (u32_id (pkt_len m)), u64_id by (unfold is_u32, is_u64; lia).
  destruct (Z.leb_spec (size mp) (Z.of_nat (length (written mp)) + pkt_len m + 8)); [lia|].
  cbn [pcap_time mbind res_bind mret res_ret].
  assert (included snap_len true m = pkt_len m) as Hi.
  { unfold included. cbn [packetLengthAdjust]. rewrite Z.sub_0_r, u32_id by done.
    destruct (Z.ltb_spec (pkt_len m) snap_len); lia. }
  rewrite Hi. set (h := PcapRecHdr _ _ _ _).
  destruct (Z.le_gt_cases (Z.of_nat (length (written mp) + 16)) (size mp)) as [Hfit|Hno].
  - rewrite append_ok by (done || rewrite length_rechdr; lia). cbn [mbind res_bind].
    rewrite read_bytes_ok by lia. cbn [mbind res_bind].
    apply append_overrun. cbn [written size]. rewrite length_app, length_rechdr, length_take, length_drop. lia.
  - rewrite append_overrun by (rewrite length_rechdr; lia). done.
Qed.

End Pcap.

(** ** Evaluation *)

Section Witnesses.
#[local] Existing Instance cell_dynfield.

(** A system on which every call succeeds, and one on which [open] fails. *)
#[refine] Definition sound_posix : Posix := {|
  sys_open := 5; sys_ftruncate k := true; sys_mmap := true; sys_mremap k := true |}.
Proof. intros H. discriminate H. Defined.
#[refine] Definition closed_posix : Posix := {|
  sys_open := -1; sys_ftruncate k := false; sys_mmap := false; sys_mremap k := false |}.
Proof. done. Defined.

(** The second iteration is the last one in time. *)
Definition sample_iters : list (Z * list mbuf) :=
  [(1000, [sample_frame 10]); (1009, [sample_frame 30]); (1010, [sample_frame 20])].


Lemma pcap_trailer_mode_safe_witness :
  exists file ev, pcap_log_pkts (PX := sound_posix) 8 INITIAL_FILE_SIZE 20 10 1000 false sample_iters = Ok (file, ev).
Proof.
  apply pcap_trailer_mode_safe.
  - split; [reflexivity|]. split; reflexivity.
  - split; [lia|reflexivity].
  - repeat (apply Forall_cons; split; [split; cbn; lia|]). apply Forall_nil. exact I.
  - unfold INITIAL_FILE_SIZE. lia.
  - vm_compute. reflexivity.
Defined.

Lemma pcap_start_failure_fatal_witness :
  exists u, pcap_log_pkts (PX := closed_posix) 8 INITIAL_FILE_SIZE 20 10 1000 false sample_iters = UB u.
Proof.
  destruct (pcap_start_failure_fatal (PX := closed_posix) 8 INITIAL_FILE_SIZE 20 10 1000 false sample_iters)
    as [(u & H & _) _]; [left; reflexivity|].
  exists u. exact H.
Defined.

Lemma pcap_embedded_mode_overrun_witness :
  pcap_log_pkt (PX := sound_posix) 8 65535 true (Mapping true 1000 1000 (replicate 970 0) 1 0) (sample_frame 10)
  = UB OutOfBounds.
Proof.
  apply pcap_embedded_mode_overrun; cbn [size written addr file_len]; rewrite ?length_replicate;
    try reflexivity; cbn; lia.
Defined.

End Witnesses.
