(* ===== verification/Snmp.v ===== *)
(** * SNMP client: rfc2544/utils/snmpc.c

    Lua bindings that read variables of a device and change its routes and
    addresses.  net-snmp and the resolver are parameters: [inet_pton],
    [read_objid], [get_node], the answer to a request.  Here is what the file
    does itself for a request: object identifiers as text, the variables, what
    is returned.  Arguments, sessions and the registration of the module are in
    the file SnmpLua. *)
From S2P Require Import Prelude.
From Stdlib Require Import Ascii String.
From stdpp Require Import strings gmap.

#[local] Open Scope string_scope.
#[local] Open Scope Z_scope.

(** ** Constants *)

Definition MAX_OID_STR_LEN : Z := 512.
Definition MAX_IP_OID_LEN : Z := 2 + 3 + 4 * 16.
Definition SNMP_ADDR_IPV6 : Z := 2.
Definition SNMP_ADDR_IPV4 : Z := 1.
Definition BUF_LEN : Z := 1024.

(** ** Formatted output *)

Definition digit (n : Z) : ascii := ascii_of_nat (48 + Z.to_nat n).

(** The decimal digits of [n], at most [fuel + 1] of them. *)
Fixpoint dec_go (fuel : nat) (n : Z) (acc : string) : string :=
  match fuel with
  | O => String (digit (n mod 10)) acc
  | S fuel => if n <? 10 then String (digit n) acc
              else dec_go fuel (n / 10) (String (digit (n mod 10)) acc)
  end.

(** [%u] and [%i]: 32 bits have at most 10 digits. *)
Definition fmt_u (n : Z) : string := dec_go 9 (u32 n) "".
Definition fmt_i (n : Z) : string := if n <? 0 then String "-" (dec_go 9 (- n) "") else dec_go 9 n "".

(** Numbers separated by dots. *)
Fixpoint dotted (ns : list Z) : string :=
  match ns with
  | [] => ""
  | [n] => fmt_u n
  | n :: ns => fmt_u n +:+ "." +:+ dotted ns
  end.

(** [snprintf]: at most [maxlen - 1] characters and the terminator. *)
Definition snprintf (maxlen : Z) (s : string) : string := substring 0 (Z.to_nat (maxlen - 1)) s.

Fixpoint has_char (c : ascii) (s : string) : bool :=
  match s with EmptyString => false | String a s => Ascii.eqb a c || has_char c s end.

(** ** The environment *)

(** [inet_pton] for the two families: [None] for text that is no address; and
    the object identifiers [read_objid] and [get_node] find for a text within a
    capacity. *)
Class NetSnmp := {
  inet_pton4 : string -> option (list Z);
  inet_pton6 : string -> option (list Z);
  read_objid : string -> Z -> option (list Z);
  get_node : string -> Z -> option (list Z);
  inet_pton4_bytes : forall s bs, inet_pton4 s = Some bs ->
    length bs = 4%nat /\ Forall (fun b => 0 <= b < 256) bs;
  inet_pton6_bytes : forall s bs, inet_pton6 s = Some bs ->
    length bs = 16%nat /\ Forall (fun b => 0 <= b < 256) bs;
  read_objid_capacity : forall s n n' o, read_objid s n = Some o ->
    Z.of_nat (length o) <= n /\ (Z.of_nat (length o) <= n' -> read_objid s n' = Some o);
  MAX_OID_LEN : Z;
  STAT_SUCCESS : Z;
  SNMP_ERR_NOERROR : Z;
  stat_noerror : STAT_SUCCESS = SNMP_ERR_NOERROR;
  SNMP_VERSION_1 : Z;
  SNMP_VERSION_2c : Z;
  SNMP_VERSION_3 : Z
}.

(** A request, what is sent with it and the answer. *)
Inductive asn_value := ASN_INTEGER (v : Z) | ASN_GAUGE (v : Z) | ASN_OBJECT_ID (bytes : Z).

(** A variable of a request. *)
Record variable := MkVariable { var_oid : list Z; var_value : asn_value }.

Inductive pdu := SNMP_MSG_GET (name : list Z) | SNMP_MSG_SET (vars : list variable).

(** The answer of [snmp_synch_response]: its result, [errstat] of the response,
    the variables in it as text. *)
Record response := Response { ret : Z; errstat : Z; variables : list (string * string) }.

Section Client.
Context `{NS : NetSnmp}.

(** The state of net-snmp, and a session's [snmp_synch_response] in it. *)
Context {W : Type} (synch : pdu -> res (response * W)).

(** ** Addresses *)

(** The result of [inet_pton] is not tested: the buffer is read in any case. *)
Definition filled (r : option (list Z)) : res (list Z) :=
  match r with Some bs => Ok bs | None => UB Uninitialised end.

Definition ip2oid (ip : string) (maxlen : Z) : res string :=
  if has_char "." ip then
    buf ← filled (inet_pton4 ip);
    mret (snprintf maxlen (dotted (SNMP_ADDR_IPV4 :: 4 :: buf)))
  else
    buf ← filled (inet_pton6 ip);
    mret (snprintf maxlen (dotted (SNMP_ADDR_IPV6 :: 16 :: buf))).

(** ** Requests *)

(** [read_objid(oid_str, req_oid, &oid_len)], its result unused: the identifier,
    whose length is also the new [oid_len]. *)
Definition objid (oid_str : string) (oid_len : Z) : res (list Z) := filled (read_objid oid_str oid_len).

Definition route_oid (column : string) (dst_buf : string) (pfx : string) (next_buf : string) : string :=
  snprintf MAX_OID_STR_LEN
    ("IP-FORWARD-MIB::" +:+ column +:+ "." +:+ dst_buf +:+ "." +:+ pfx +:+ ".2.0.0." +:+ next_buf).

Definition add_variable (pdu : list variable) (oid_str : string) (oid_len : Z) (v : asn_value)
    : res (list variable * Z) :=
  o ← objid oid_str oid_len;
  mret (app pdu [MkVariable o v], Z.of_nat (length o)).

(** The request, whether one result is returned to Lua or none, and the state
    after it: packet errors leave [ret] alone. *)
Definition l_session_add_route_entry (dst : string) (pfx : Z) (next_hop : string)
    (iface type : Z) (metric : option Z) : res (list variable * bool * W) :=
  dst_buf ← ip2oid dst MAX_IP_OID_LEN;
  next_buf ← ip2oid next_hop MAX_IP_OID_LEN;
  let oid column := route_oid column dst_buf (fmt_i pfx) next_buf in
  '(request, _) ← add_variable [] (oid "inetCidrRouteStatus") MAX_OID_LEN (ASN_INTEGER 4);
  '(request, _) ← add_variable request (oid "inetCidrRouteIfIndex") MAX_OID_LEN (ASN_INTEGER iface);
  '(request, _) ← add_variable request (oid "inetCidrRouteType") MAX_OID_LEN (ASN_INTEGER type);
  '(request, _) ← add_variable request (oid "inetCidrRouteNextHopAS") MAX_OID_LEN (ASN_GAUGE 0);
  '(request, _) ← add_variable request (oid "inetCidrRouteMetric1") MAX_OID_LEN
                    (ASN_INTEGER (default (-1) metric));
  '(rsp, w) ← synch (SNMP_MSG_SET request);
  mret (request, ret rsp =? STAT_SUCCESS, w).

(** The end of the other requests: a packet error replaces [ret]. *)
Definition reported (rsp : response) : bool :=
  (if (ret rsp =? STAT_SUCCESS) && negb (errstat rsp =? SNMP_ERR_NOERROR)
   then errstat rsp else ret rsp) =? STAT_SUCCESS.

Definition l_session_delete_route_entry (dst : string) (pfx : Z) (next_hop : string)
    : res (list variable * bool * W) :=
  dst_buf ← ip2oid dst MAX_IP_OID_LEN;
  next_buf ← ip2oid next_hop MAX_IP_OID_LEN;
  '(request, _) ← add_variable [] (route_oid "inetCidrRouteStatus" dst_buf (fmt_u pfx) next_buf)
                    MAX_OID_LEN (ASN_INTEGER 6);
  '(rsp, w) ← synch (SNMP_MSG_SET request);
  mret (request, reported rsp, w).

Definition addr_oid (column ip_buf : string) : string :=
  snprintf MAX_OID_STR_LEN ("IP-MIB::" +:+ column +:+ "." +:+ ip_buf).

(** [oid_len] is reset before the second variable only. *)
Definition l_session_add_ip (ip : string) (pfx if_id : Z) : res (list variable * bool * W) :=
  ip_buf ← ip2oid ip MAX_IP_OID_LEN;
  '(request, _) ← add_variable [] (addr_oid "iAddressRowStatus" ip_buf) MAX_OID_LEN (ASN_INTEGER 4);
  '(request, oid_len) ← add_variable request (addr_oid "iAddressIfIndex" ip_buf) MAX_OID_LEN (ASN_INTEGER if_id);
  '(request, oid_len) ← add_variable request (addr_oid "iAddressStatus" ip_buf) oid_len (ASN_INTEGER 1);
  '(request, oid_len) ← add_variable request (addr_oid "iAddressPrefix" ip_buf) oid_len (ASN_OBJECT_ID 2);
  '(rsp, w) ← synch (SNMP_MSG_SET request);
  mret (request, reported rsp, w).

Definition l_session_del_ip (ip : string) : res (list variable * bool * W) :=
  ip_buf ← ip2oid ip MAX_IP_OID_LEN;
  '(request, _) ← add_variable [] (addr_oid "iAddressRowStatus" ip_buf) MAX_OID_LEN (ASN_INTEGER 6);
  '(rsp, w) ← synch (SNMP_MSG_SET request);
  mret (request, reported rsp, w).

(** ** Reading *)

(** What [session:get] gives Lua: an error raised, a table of the rows pushed in
    order, its own last argument (one result announced, nothing pushed), or
    nothing. *)
Inductive get_result := GetError | GetTable (rows : list (string * string)) | GetArgument | GetNothing.

Definition got (rsp : response) : get_result :=
  if ret rsp =? STAT_SUCCESS then
    if errstat rsp =? SNMP_ERR_NOERROR
    then GetTable (prod_map (snprintf BUF_LEN) (snprintf BUF_LEN) <$> variables rsp)
    else GetArgument
  else GetNothing.

(** The state is [None] when no request was sent. *)
Definition l_session_get (oid_str : string) : res (get_result * option W) :=
  match get_node oid_str MAX_OID_LEN with
  | None => mret (GetError, None)
  | Some name =>
      '(rsp, w) ← synch (SNMP_MSG_GET name);
      mret (got rsp, Some w)
  end.

End Client.

(** ** Reading numbers back *)

Definition digit_value (c : ascii) : Z := Z.of_nat (nat_of_ascii c) - 48.

(** The numbers of a dotted text; [cur] is the number being read. *)
Fixpoint parse_go (s : string) (cur : option Z) : option (list Z) :=
  match s with
  | EmptyString => n ← cur; Some [n]
  | String c s =>
      if Ascii.eqb c "." then n ← cur; ns ← parse_go s None; Some (n :: ns)
      else parse_go s (Some (10 * default 0 cur + digit_value c))
  end.
Definition parse_dotted (s : string) : option (list Z) := parse_go s None.

Lemma digit_spec d : 0 <= d < 10 -> digit_value (digit d) = d /\ Ascii.eqb (digit d) "." = false.
Proof.
  intros Hd. assert (d = 0 \/ d = 1 \/ d = 2 \/ d = 3 \/ d = 4 \/ d = 5 \/ d = 6 \/ d = 7 \/ d = 8 \/ d = 9)
    as H by lia. repeat destruct H as [->|H]; try done. by subst.
Qed.

Lemma parse_digit d s cur : 0 <= d < 10 ->
  parse_go (String (digit d) s) cur = parse_go s (Some (10 * default 0 cur + d)).
Proof. intros Hd. destruct (digit_spec d Hd) as [E1 E2]. cbn [parse_go]. by rewrite E2, E1. Qed.

Lemma str_app_cons c s t : String c s +:+ t = String c (s +:+ t).
Proof. done. Qed.

Lemma str_app_assoc (s t r : string) : (s +:+ t) +:+ r = s +:+ (t +:+ r).
Proof. induction s as [|c s IH]; [done|]. rewrite !str_app_cons. cbn. by f_equal. Qed.

Lemma length_str_app (s t : string) : String.length (s +:+ t) = (String.length s + String.length t)%nat.
Proof. induction s as [|c s IH]; [done|]. rewrite !str_app_cons. cbn. by f_equal. Qed.

Lemma parse_dec fuel : forall n acc r,
  0 <= n < 10 ^ (Z.of_nat fuel + 1) ->
  parse_go (dec_go fuel n acc +:+ r) None = parse_go (acc +:+ r) (Some n).
Proof.
  induction fuel as [|fuel IH]; intros n acc r Hn; cbn [dec_go].
  - change (10 ^ (Z.of_nat 0 + 1)) with 10 in Hn. rewrite Z.mod_small by done.
    rewrite str_app_cons, parse_digit by done. done.
  - destruct (Z.ltb_spec n 10).
    + by rewrite str_app_cons, parse_digit by lia.
    + rewrite Nat2Z.inj_succ, <- Z.add_1_r, Z.pow_add_r, Z.pow_1_r in Hn by lia.
      rewrite IH by (split; [apply Z.div_pos; lia|apply Z.div_lt_upper_bound; lia]).
      rewrite str_app_cons, parse_digit by (apply Z.mod_pos_bound; lia).
      f_equal. f_equal. symmetry. exact (Z.div_mod n 10 ltac:(lia)).
Qed.

Lemma length_dec fuel : forall k n acc,
  (k <= fuel)%nat -> 0 <= n < 10 ^ (Z.of_nat k + 1) ->
  (String.length (dec_go fuel n acc) <= S k + String.length acc)%nat.
Proof.
  induction fuel as [|fuel IH]; intros k n acc Hk Hn; cbn [dec_go].
  - cbn. lia.
  - destruct (Z.ltb_spec n 10); [cbn; lia|].
    destruct k as [|k]; [change (10 ^ (Z.of_nat 0 + 1)) with 10 in Hn; lia|].
    rewrite Nat2Z.inj_succ, <- Z.add_1_r, Z.pow_add_r, Z.pow_1_r in Hn by lia.
    etransitivity; [apply (IH k); [lia|split; [apply Z.div_pos; lia|apply Z.div_lt_upper_bound; lia]]|].
    cbn. lia.
Qed.

Lemma parse_fmt_u n r : is_u32 n -> parse_go (fmt_u n +:+ r) None = parse_go r (Some n).
Proof.
  intros Hn. unfold fmt_u. rewrite u32_id by done. rewrite parse_dec; [done|].
  unfold is_u32 in Hn. cbn. lia.
Qed.

Lemma str_app_nil (s : string) : s +:+ "" = s.
Proof. induction s as [|c s IH]; [done|]. rewrite !str_app_cons. cbn. by f_equal. Qed.

Lemma dotted_cons n m ns : dotted (n :: m :: ns) = fmt_u n +:+ "." +:+ dotted (m :: ns).
Proof. done. Qed.

(** Dotted numbers are read back. *)
Lemma parse_dotted_dotted ns : ns <> [] -> Forall is_u32 ns -> parse_dotted (dotted ns) = Some ns.
Proof.
  unfold parse_dotted. induction ns as [|n [|m ns] IH]; intros Hne Hns; [done|..].
  - apply Forall_cons in Hns as [Hn _]. cbn [dotted]. rewrite <- (str_app_nil (fmt_u n)).
    by rewrite parse_fmt_u by done.
  - apply Forall_cons in Hns as [Hn Hns]. rewrite dotted_cons, parse_fmt_u by done.
    change ("." +:+ dotted (m :: ns)) with (String "." (dotted (m :: ns))). cbn [parse_go Ascii.eqb].
    change (Ascii.eqb "." ".") with true. cbn [mbind option_bind].
    by rewrite (IH ltac:(done) Hns).
Qed.

Lemma length_fmt_byte b : 0 <= b < 256 -> (String.length (fmt_u b) <= 3)%nat.
Proof.
  intros Hb. unfold fmt_u. rewrite u32_id by (unfold is_u32; lia).
  etransitivity; [apply (length_dec 9 2); [lia|cbn; lia]|]. cbn. lia.
Qed.

Lemma length_dotted bs : Forall (fun b => 0 <= b < 256) bs ->
  (String.length (dotted bs) <= 4 * length bs - 1)%nat.
Proof.
  induction 1 as [|b bs Hb Hbs IH]; [done|]. apply length_fmt_byte in Hb.
  destruct bs as [|b' bs]; [cbn [dotted length]; lia|].
  rewrite dotted_cons, !length_str_app. cbn [length] in *. change (String.length ".") with 1%nat. lia.
Qed.

Lemma substring_all n s : (String.length s <= n)%nat -> substring 0 n s = s.
Proof.
  revert n. induction s as [|c s IH]; intros n Hn; [by destruct n|].
  destruct n as [|n]; [cbn in Hn; lia|]. cbn. rewrite IH; [done|]. cbn in Hn. lia.
Qed.

Lemma snprintf_fits maxlen s : Z.of_nat (String.length s) < maxlen -> snprintf maxlen s = s.
Proof. intros H. unfold snprintf. apply substring_all. lia. Qed.

(** ** Properties *)

Section Properties.
Context `{NS : NetSnmp} {W : Type}.
Implicit Types synch : pdu -> res (response * W).

(** The text of an address: version, number of bytes, bytes. *)
Definition address_numbers (ip : string) : option (list Z) :=
  if has_char "." ip then (fun bs => 1 :: 4 :: bs) <$> inet_pton4 ip
  else (fun bs => 2 :: 16 :: bs) <$> inet_pton6 ip.

Lemma address_numbers_spec ip ns : address_numbers ip = Some ns ->
  ns <> [] /\ Forall is_u32 ns /\ (String.length (dotted ns) <= 68)%nat.
Proof.
  intros H. unfold address_numbers in H.
  assert (forall bs, Forall (fun b => 0 <= b < 256) bs -> Forall is_u32 bs) as Hu.
  { intros bs Hbs. eapply Forall_impl; [exact Hbs|]. unfold is_u32. cbn. lia. }
  destruct (has_char "." ip).
  - destruct (inet_pton4 ip) as [bs|] eqn:E; [|done]. injection H as <-.
    apply inet_pton4_bytes in E as [Hl Hb]. split; [done|].
    split; [do 2 (apply Forall_cons; split; [done|]); by apply Hu|].
    apply length_dotted in Hb. destruct bs as [|b bs]; [done|].
    rewrite !dotted_cons, !length_str_app. rewrite Hl in Hb.
    change (String.length (fmt_u 1)) with 1%nat. change (String.length (fmt_u 4)) with 1%nat.
    change (String.length ".") with 1%nat. lia.
  - destruct (inet_pton6 ip) as [bs|] eqn:E; [|done]. injection H as <-.
    apply inet_pton6_bytes in E as [Hl Hb]. split; [done|].
    split; [do 2 (apply Forall_cons; split; [done|]); by apply Hu|].
    apply length_dotted in Hb. destruct bs as [|b bs]; [done|].
    rewrite !dotted_cons, !length_str_app. rewrite Hl in Hb.
    change (String.length (fmt_u 2)) with 1%nat. change (String.length (fmt_u 16)) with 2%nat.
    change (String.length ".") with 1%nat. lia.
Qed.

Lemma ip2oid_numbers ip :
  ip2oid ip MAX_IP_OID_LEN =
  match address_numbers ip with Some ns => Ok (dotted ns) | None => UB Uninitialised end.
Proof.
  destruct (address_numbers ip) as [ns|] eqn:E.
  - pose proof (address_numbers_spec ip ns E) as (_ & _ & Hl).
    unfold ip2oid, address_numbers in *. destruct (has_char "." ip).
    + destruct (inet_pton4 ip); [|done]. injection E as <-. cbn [filled mbind res_bind].
      unfold mret, res_ret. f_equal. apply snprintf_fits. unfold MAX_IP_OID_LEN, SNMP_ADDR_IPV4. lia.
    + destruct (inet_pton6 ip); [|done]. injection E as <-. cbn [filled mbind res_bind].
      unfold mret, res_ret. f_equal. apply snprintf_fits. unfold MAX_IP_OID_LEN, SNMP_ADDR_IPV6. lia.
  - unfold ip2oid, address_numbers in *. destruct (has_char "." ip).
    + by destruct (inet_pton4 ip).
    + by destruct (inet_pton6 ip).
Qed.


Lemma length_ip2oid ip s : ip2oid ip MAX_IP_OID_LEN = Ok s -> (String.length s <= 68)%nat.
Proof.
  rewrite ip2oid_numbers. destruct (address_numbers ip) as [ns|] eqn:E; [|done].
  intros [= <-]. by apply (address_numbers_spec ip ns E).
Qed.

Lemma length_fmt_i n : - 2 ^ 31 <= n < 2 ^ 31 -> (String.length (fmt_i n) <= 11)%nat.
Proof.
  intros Hn. unfold fmt_i. destruct (Z.ltb_spec n 0).
  - pose proof (length_dec 9 9 (- n) "" ltac:(lia) ltac:(cbn; lia)) as Hd. cbn [String.length] in *. lia.
  - pose proof (length_dec 9 9 n "" ltac:(lia) ltac:(cbn; lia)) as Hd. cbn [String.length] in *. lia.
Qed.

Lemma fmt_i_u n : 0 <= n < 2 ^ 31 -> fmt_i n = fmt_u n.
Proof.
  intros Hn. unfold fmt_i, fmt_u. destruct (Z.ltb_spec n 0); [lia|].
  by rewrite u32_id by (unfold is_u32; lia).
Qed.

Lemma add_variable_inv pdu oid_str n v pdu' n' :
  add_variable pdu oid_str n v = Ok (pdu', n') ->
  exists o, read_objid oid_str n = Some o /\ pdu' = (pdu ++ [MkVariable o v])%list /\ n' = Z.of_nat (length o).
Proof.
  unfold add_variable, objid. destruct (read_objid oid_str n) as [o|]; [|done].
  cbn. intros [= <- <-]. by exists o.
Qed.

(** C35: Deleting a route addresses the row that adding it created.  Whenever
    [addRouteEntry] can build its request for a destination, a prefix length and
    a next hop, [deleteRouteEntry] with the same arguments builds a request
    whose only variable is the status (destroy) of the same row whose status
    (create and go) is the first of the five variables of the former; no object
    identifier text is truncated. *)
Theorem route_rows_agree synch synch' dst pfx next_hop iface type metric vs b w
    (Hpfx : 0 <= pfx < 2 ^ 31)
    (Hadd : l_session_add_route_entry synch dst pfx next_hop iface type metric = Ok (vs, b, w)) :
  exists o rest, vs = MkVariable o (ASN_INTEGER 4) :: rest /\ length rest = 4%nat /\
    l_session_delete_route_entry synch' dst pfx next_hop =
      ('(rsp', w') ← synch' (SNMP_MSG_SET [MkVariable o (ASN_INTEGER 6)]);
       mret ([MkVariable o (ASN_INTEGER 6)], reported rsp', w')) /\
    exists d n, ip2oid dst MAX_IP_OID_LEN = Ok d /\ ip2oid next_hop MAX_IP_OID_LEN = Ok n /\
      forall column, (String.length column <= 64)%nat ->
        route_oid column d (fmt_i pfx) n =
        "IP-FORWARD-MIB::" +:+ column +:+ "." +:+ d +:+ "." +:+ fmt_i pfx +:+ ".2.0.0." +:+ n.
Proof.
  unfold l_session_add_route_entry in Hadd.
  apply bind_Ok in Hadd as (d & Hd & Hadd). apply bind_Ok in Hadd as (n & Hn & Hadd).
  apply bind_Ok in Hadd as ([p1 l1] & H1 & Hadd). apply bind_Ok in Hadd as ([p2 l2] & H2 & Hadd).
  apply bind_Ok in Hadd as ([p3 l3] & H3 & Hadd). apply bind_Ok in Hadd as ([p4 l4] & H4 & Hadd).
  apply bind_Ok in Hadd as ([p5 l5] & H5 & Hadd). apply bind_Ok in Hadd as ([rsp w1] & _ & Hadd).
  injection Hadd as <- _ _.
  apply add_variable_inv in H1 as (o1 & R1 & -> & _), H2 as (o2 & _ & -> & _), H3 as (o3 & _ & -> & _),
    H4 as (o4 & _ & -> & _), H5 as (o5 & _ & -> & _).
  eexists o1, _. split; [reflexivity|]. split; [reflexivity|]. split.
  - unfold l_session_delete_route_entry. rewrite Hd, Hn. cbn [mbind res_bind].
    rewrite (fmt_i_u pfx Hpfx) in R1. unfold add_variable, objid. by rewrite R1.
  - exists d, n. split; [done|]. split; [done|]. intros column Hc. unfold route_oid.
    apply snprintf_fits. rewrite !length_str_app.
    apply length_ip2oid in Hd, Hn. pose proof (length_fmt_i pfx ltac:(lia)).
    change (String.length "IP-FORWARD-MIB::") with 16%nat. change (String.length ".") with 1%nat.
    change (String.length ".2.0.0.") with 7%nat. unfold MAX_OID_STR_LEN. lia.
Qed.

(** An error reported by the device: [addRouteEntry] returns success all the
    same, the other requests do not. *)
Lemma add_route_hides_errors synch dst pfx next_hop iface type metric vs b w rsp :
  l_session_add_route_entry synch dst pfx next_hop iface type metric = Ok (vs, b, w) ->
  synch (SNMP_MSG_SET vs) = Ok (rsp, w) -> ret rsp = STAT_SUCCESS -> errstat rsp <> SNMP_ERR_NOERROR ->
  b = true /\ reported rsp = false.
Proof.
  intros Hadd Hsynch Hr He. split.
  - unfold l_session_add_route_entry in Hadd.
    apply bind_Ok in Hadd as (d & Hd & Hadd). apply bind_Ok in Hadd as (n & Hn & Hadd).
    do 5 (apply bind_Ok in Hadd as ([? ?] & _ & Hadd)).
    apply bind_Ok in Hadd as ([rsp' w'] & H & Hadd). injection Hadd as -> <- _.
    rewrite Hsynch in H. injection H as <- _. rewrite Hr. apply Z.eqb_refl.
  - unfold reported. rewrite Hr, Z.eqb_refl. apply Z.eqb_neq in He as He'. rewrite He'. cbn.
    apply Z.eqb_neq. by rewrite stat_noerror.
Qed.

(** The stale [oid_len] of [addIp] does no harm: object identifiers of columns
    of one table for one row have the same length. *)
Lemma add_ip_lengths synch ip pfx if_id ip_buf (len : Z) :
  ip2oid ip MAX_IP_OID_LEN = Ok ip_buf ->
  (forall column, column ∈ ["iAddressRowStatus"; "iAddressIfIndex"; "iAddressStatus"; "iAddressPrefix"] ->
     exists o, read_objid (addr_oid column ip_buf) MAX_OID_LEN = Some o /\ Z.of_nat (length o) = len) ->
  exists vs, l_session_add_ip synch ip pfx if_id =
    ('(rsp, w) ← synch (SNMP_MSG_SET vs); mret (vs, reported rsp, w)) /\ length vs = 4%nat.
Proof.
  intros Hip Hcol. unfold l_session_add_ip. rewrite Hip. cbn [mbind res_bind].
  destruct (Hcol "iAddressRowStatus") as (o1 & E1 & L1); [set_solver|].
  destruct (Hcol "iAddressIfIndex") as (o2 & E2 & L2); [set_solver|].
  destruct (Hcol "iAddressStatus") as (o3 & E3 & L3); [set_solver|].
  destruct (Hcol "iAddressPrefix") as (o4 & E4 & L4); [set_solver|].
  pose proof (proj2 (read_objid_capacity _ _ (Z.of_nat (length o2)) _ E3) ltac:(lia)) as E3'.
  pose proof (proj2 (read_objid_capacity _ _ (Z.of_nat (length o3)) _ E4) ltac:(lia)) as E4'.
  unfold add_variable, objid. rewrite E1. cbn [filled mbind res_bind mret res_ret].
  rewrite E2. cbn [filled mbind res_bind mret res_ret]. rewrite E3'. cbn [filled mbind res_bind mret res_ret].
  rewrite E4'. cbn [filled mbind res_bind mret res_ret]. by eexists.
Qed.

End Properties.

(** ** Evaluation *)

Section Witnesses.

(** A resolver that knows two addresses, identifiers of 7 numbers. *)
#[refine] Definition sample_net : NetSnmp := {|
  inet_pton4 s := if bool_decide (s = "10.0.0.1") then Some [10; 0; 0; 1] else None;
  inet_pton6 s := if bool_decide (s = "ff::") then Some (0 :: 255 :: replicate 14 0) else None;
  read_objid s n := if 7 <=? n then Some (replicate 7 1) else None;
  get_node s n := if bool_decide (s = "") then None else Some (replicate 7 1);
  MAX_OID_LEN := 128; STAT_SUCCESS := 0; SNMP_ERR_NOERROR := 0;
  SNMP_VERSION_1 := 0; SNMP_VERSION_2c := 1; SNMP_VERSION_3 := 3 |}.
Proof.
  - intros s bs H. case_bool_decide; [|done]. injection H as <-. split; [done|]. repeat constructor; lia.
  - intros s bs H. case_bool_decide; [|done]. injection H as <-. split; [done|]. cbn. repeat constructor; lia.
  - intros s n n' o H. destruct (Z.leb_spec 7 n); [|done]. injection H as <-. cbn. split; [lia|].
    intros Hn. destruct (Z.leb_spec 7 n'); [done|lia].
  - reflexivity.
Defined.


(** A device that counts the requests and accepts them. *)
Definition accept (n : nat) (p : pdu) : res (response * nat) := Ok (Response 0 0 [], S n).

Lemma route_rows_agree_witness :
  exists vs b w o rest, l_session_add_route_entry (NS := sample_net) (accept 0) "10.0.0.1" 24 "ff::" 2 3 None
      = Ok (vs, b, w) /\ vs = MkVariable o (ASN_INTEGER 4) :: rest /\
    l_session_delete_route_entry (NS := sample_net) (accept 1) "10.0.0.1" 24 "ff::" =
      Ok ([MkVariable o (ASN_INTEGER 6)], true, 2%nat).
Proof.
  destruct (l_session_add_route_entry (NS := sample_net) (accept 0) "10.0.0.1" 24 "ff::" 2 3 None)
    as [[[vs b] w]|] eqn:E; [|vm_compute in E; discriminate].
  destruct (route_rows_agree (NS := sample_net) (accept 0) (accept 1) "10.0.0.1" 24 "ff::" 2 3 None
    vs b w ltac:(lia) E) as (o & rest & H1 & _ & H2 & _).
  exists vs, b, w, o, rest. split; [reflexivity|]. split; [exact H1|exact H2].
Defined.

End Witnesses.
