(* ===== verification/SnmpLua.v ===== *)
(** * SNMP sessions in Lua: rfc2544/utils/snmpc.c

    What a script sees of the SNMP client: the module [luaopen_snmp] registers,
    the methods of a session with the checks of their arguments, and the life of
    a session from [snmp_open] to its finaliser.  The Lua interface is a
    parameter, specified by the effect of each function on stack, tables and
    registry; net-snmp's sessions are another. *)
From S2P Require Import Prelude Snmp.
From Stdlib Require Import Ascii String.
From stdpp Require Import strings gmap.

#[local] Open Scope string_scope.
#[local] Open Scope Z_scope.

(** ** Lua values and the effect of the interface functions *)

(** The C functions of the file that Lua can call. *)
Inductive cfun :=
| F_session_close | F_session_get | F_session_set | F_session_delete_route_entry
| F_session_add_route_entry | F_session_add_ip | F_session_del_ip | F_session_open.

#[global] Instance cfun_eq_dec : EqDecision cfun.
Proof. solve_decision. Defined.

Inductive value :=
| VNil
| VInteger (n : Z)
| VString (s : string)
| VFunction (f : cfun)
| VTable (t : nat)
| VUserdata (u : nat).

#[global] Instance value_eq_dec : EqDecision value.
Proof. solve_decision. Defined.

(** The stack of the running function, top first; tables by string keys; the
    metatables registered by name and those of userdata; tables and userdata
    are numbered in the order of their creation. *)
Record lua_view := LuaView {
  stack : list value;
  tables : gmap nat (gmap string value);
  registry : gmap string nat;
  metatables : gmap nat nat;
  next_ref : nat
}.

Definition set_stack (v : lua_view) (st : list value) : lua_view :=
  LuaView st (tables v) (registry v) (metatables v) (next_ref v).
Definition push (v : lua_view) (x : value) : lua_view := set_stack v (x :: stack v).
Definition set_table (v : lua_view) (t : nat) (m : gmap string value) : lua_view :=
  LuaView (stack v) (<[t := m]> (tables v)) (registry v) (metatables v) (next_ref v).

(** A value by its index: negative ones count from the top. *)
Definition at_index (v : lua_view) (i : Z) : option value :=
  if i <? 0 then stack v !! Z.to_nat (- i - 1) else reverse (stack v) !! Z.to_nat (i - 1).

Definition table_at (v : lua_view) (i : Z) : option (nat * gmap string value) :=
  match at_index v i with
  | Some (VTable t) => m ← tables v !! t; Some (t, m)
  | _ => None
  end.

Definition new_table (v : lua_view) (m : gmap string value) : lua_view :=
  LuaView (VTable (next_ref v) :: stack v) (<[next_ref v := m]> (tables v)) (registry v) (metatables v)
    (S (next_ref v)).

Definition of_funcs (m : gmap string value) (l : list (string * cfun)) : gmap string value :=
  foldl (fun m nf => <[fst nf := VFunction (snd nf)]> m) m l.

Inductive lua_op :=
| lua_newtable
| luaL_newmetatable (tname : string)
| lua_pushvalue (i : Z)
| lua_setfield (i : Z) (k : string)
| luaL_setfuncs (l : list (string * cfun))
| luaL_newlib (l : list (string * cfun))
| lua_pushinteger (n : Z)
| lua_pushstring (s : string)
| lua_settable (i : Z)
| lua_newuserdata
| luaL_getmetatable (tname : string)
| lua_setmetatable (i : Z).

(** The manual's description of the functions, on values the file uses them
    with; [None] where they are not defined. *)
Definition manual (o : lua_op) (v : lua_view) : option lua_view :=
  match o with
  | lua_newtable => Some (new_table v ∅)
  | luaL_newmetatable tname =>
      match registry v !! tname with
      | Some t => Some (push v (VTable t))
      | None =>
          let v' := new_table v ∅ in
          Some (LuaView (stack v') (tables v') (<[tname := next_ref v]> (registry v')) (metatables v') (next_ref v'))
      end
  | lua_pushvalue i => x ← at_index v i; Some (push v x)
  | lua_setfield i k =>
      '(t, m) ← table_at v i;
      match stack v with
      | x :: st => Some (set_table (set_stack v st) t (<[k := x]> m))
      | [] => None
      end
  | luaL_setfuncs l => '(t, m) ← table_at v (-1); Some (set_table v t (of_funcs m l))
  | luaL_newlib l => Some (new_table v (of_funcs ∅ l))
  | lua_pushinteger n => Some (push v (VInteger n))
  | lua_pushstring s => Some (push v (VString s))
  | lua_settable i =>
      '(t, m) ← table_at v i;
      match stack v with
      | x :: VString k :: st => Some (set_table (set_stack v st) t (<[k := x]> m))
      | _ => None
      end
  | lua_newuserdata =>
      Some (LuaView (VUserdata (next_ref v) :: stack v) (tables v) (registry v) (metatables v) (S (next_ref v)))
  | luaL_getmetatable tname =>
      Some (push v (match registry v !! tname with Some t => VTable t | None => VNil end))
  | lua_setmetatable i =>
      match stack v, at_index v i with
      | VTable t :: st, Some (VUserdata u) =>
          Some (LuaView st (tables v) (registry v) (<[u := t]> (metatables v)) (next_ref v))
      | _, _ => None
      end
  end.

(** [v[k]] for a userdata or a table [v], its metatable's [__index] being a
    table. *)
Definition lua_index (v : lua_view) (x : value) (k : string) : option value :=
  match x with
  | VTable t => m ← tables v !! t; m !! k
  | VUserdata u =>
      t ← metatables v !! u; m ← tables v !! t;
      match m !! "__index" with
      | Some (VTable t') => m' ← tables v !! t'; m' !! k
      | _ => None
      end
  | _ => None
  end.

Definition metafield (v : lua_view) (u : nat) (k : string) : option value :=
  t ← metatables v !! u; m ← tables v !! t; m !! k.

(** The interface as the file relies on it. *)
Class LuaApi (L : Type) := {
  view : L -> lua_view;
  lua_exec : lua_op -> L -> option L;
  lua_frame : list value -> L -> L;
  luaL_checkudata : L -> value -> string -> option nat;
  check_string : value -> option string;
  check_integer : value -> option Z;
  to_integer : value -> option Z;
  lua_exec_manual : forall o l, view <$> lua_exec o l = manual o (view l);
  lua_frame_view : forall args l, view (lua_frame args l) = set_stack (view l) (reverse args);
  checkudata_spec : forall l x tname u, luaL_checkudata l x tname = Some u <->
    x = VUserdata u /\ exists t, registry (view l) !! tname = Some t /\ metatables (view l) !! u = Some t;
  check_string_string : forall s, check_string (VString s) = Some s;
  check_integer_integer : forall n, check_integer (VInteger n) = Some n
}.

(** net-snmp's sessions. *)
Class SnmpSessions (W S : Type) := {
  session_eq_dec :: EqDecision S;
  init_snmp : W -> W;
  snmp_open : W -> string -> Z -> string -> option S * W;
  snmp_close : W -> option S -> Z * W;
  snmp_synch_response : W -> S -> pdu -> response * W;
  live : W -> S -> bool;
  init_live : forall w s, live (init_snmp w) s = live w s;
  open_some : forall w p v c s w', snmp_open w p v c = (Some s, w') ->
    live w s = false /\ forall s', live w' s' = bool_decide (s' = s) || live w s';
  open_none : forall w p v c w', snmp_open w p v c = (None, w') -> forall s, live w' s = live w s;
  close_spec : forall w p r w', snmp_close w p = (r, w') ->
    (r = if match p with Some s => live w s | None => false end then 1 else 0) /\
    forall s, live w' s = live w s && negb (bool_decide (p = Some s));
  synch_live : forall w s p s', live (snd (snmp_synch_response w s p)) s' = live w s'
}.

(** ** Outcomes of a C function *)

(** It returns, raises a Lua error, or is undefined. *)
Inductive out (A : Type) : Type := Ret (a : A) | Raise | Fault (u : ub).
Arguments Ret {A} a.
Arguments Raise {A}.
Arguments Fault {A} u.

#[global] Instance out_ret : MRet out := fun A a => Ret a.
#[global] Instance out_bind : MBind out := fun A B k m =>
  match m with Ret a => k a | Raise => Raise | Fault u => Fault u end.

Definition lift {A} (r : res A) : out A := match r with Ok a => Ret a | UB u => Fault u end.
Definition check {A} (o : option A) : out A := match o with Some a => Ret a | None => Raise end.

Section Module.
Context `{NS : NetSnmp} `{LA : LuaApi L} `{SS : SnmpSessions W SE}.

(** Lua, net-snmp, and the pointers in the userdata. *)
Record world := World { lstate : L; net : W; cells : gmap nat (option SE) }.

Definition with_lua (st : world) (l : L) : world := World l (net st) (cells st).
Definition with_net (st : world) (w : W) : world := World (lstate st) w (cells st).

Fixpoint lua_run (os : list lua_op) (l : L) : out L :=
  match os with
  | [] => mret l
  | o :: os => match lua_exec o l with Some l => lua_run os l | None => Raise end
  end.

(** ** The module *)

Definition session_functions : list (string * cfun) :=
  [("__gc", F_session_close); ("get", F_session_get); ("set", F_session_set);
   ("deleteRouteEntry", F_session_delete_route_entry); ("addRouteEntry", F_session_add_route_entry);
   ("addIp", F_session_add_ip); ("delIp", F_session_del_ip)].

Definition snmp_functions : list (string * cfun) := [("session", F_session_open)].

Definition push_asn_types_table : list lua_op := [lua_newtable].

(** The one result is on top of the stack. *)
Definition luaopen_snmp (st : world) : out world :=
  l ← lua_run [luaL_newmetatable "snmpSession"; lua_pushvalue (-1); lua_setfield (-2) "__index";
               luaL_setfuncs session_functions] (lstate st);
  let w := init_snmp (net st) in
  l ← lua_run ([luaL_newlib snmp_functions] ++ push_asn_types_table ++
               [lua_setfield (-2) "types";
                lua_pushinteger SNMP_VERSION_1; lua_setfield (-2) "version1";
                lua_pushinteger SNMP_VERSION_2c; lua_setfield (-2) "version2c";
                lua_pushinteger SNMP_VERSION_3; lua_setfield (-2) "version3"]) l;
  mret (World l w (cells st)).

(** ** Sessions *)

Definition arg (args : list value) (i : nat) : value := default VNil (args !! (i - 1)%nat).

(** [luaL_checklstring] and the test for the empty text. *)
Definition check_nonempty (x : value) : out string :=
  s ← check (check_string x);
  if bool_decide (s = "") then Raise else mret s.

Definition check_int (x : value) : out Z := n ← check (check_integer x); mret (s32 n).

(** The results are the values on top of the stack. *)
Definition top (l : L) : list value := take 1 (stack (view l)).

(** [lua_newuserdata] and the address it returns, which is also on the stack. *)
Definition new_cell (l : L) : out (L * nat) :=
  l ← lua_run [lua_newuserdata] l;
  match stack (view l) with VUserdata u :: _ => mret (l, u) | _ => Raise end.

Definition l_session_open (args : list value) (st : world) : out (world * list value) :=
  let l := lua_frame args (lstate st) in
  peername ← check_nonempty (arg args 1);
  version ← check_int (arg args 2);
  if version =? SNMP_VERSION_3 then Raise else
  commstr ← check_nonempty (arg args 3);
  '(l, su) ← new_cell l;
  l ← lua_run [luaL_getmetatable "snmpSession"; lua_setmetatable (-2)] l;
  let '(session, w) := snmp_open (net st) peername version commstr in
  mret (World l w (<[su := session]> (cells st)),
        match session with Some _ => top l | None => [] end).

(** The pointer in the userdata of an argument. *)
Definition check_session (st : world) (x : value) : out (option SE) :=
  u ← check (luaL_checkudata (lstate st) x "snmpSession");
  match cells st !! u with Some p => mret p | None => Fault Uninitialised end.

(** [snmp_synch_response] on that pointer. *)
Definition synch (st : world) (session : option SE) (p : pdu) : res (response * W) :=
  match session with
  | Some s => if live (net st) s then Ok (snmp_synch_response (net st) s p) else UB UseAfterFree
  | None => UB NullDeref
  end.

(** One result announced and none pushed: the last argument. *)
Definition announced (args : list value) (b : bool) : list value :=
  if b then match last args with Some x => [x] | None => [] end else [].

Definition push_row (row : string * string) : list lua_op :=
  [lua_pushstring (fst row); lua_pushstring (snd row); lua_settable (-3)].

Definition session_get (args : list value) (st : world) : out (world * list value) :=
  oid_str ← check_nonempty (arg args 2);
  session ← check_session st (arg args 1);
  '(g, w) ← lift (l_session_get (synch st session) oid_str);
  let st := with_net st (default (net st) w) in
  match g with
  | GetError => Raise
  | GetTable rows =>
      l ← lua_run (lua_newtable :: mjoin (push_row <$> rows)) (lua_frame args (lstate st));
      mret (with_lua st l, top l)
  | GetArgument => mret (st, announced args true)
  | GetNothing => mret (st, [])
  end.

Definition l_session_set (args : list value) (st : world) : out (world * list value) := Raise.

Definition session_add_route_entry (args : list value) (st : world) : out (world * list value) :=
  session ← check_session st (arg args 1);
  dst ← check (check_string (arg args 2));
  pfx ← check_int (arg args 3);
  next_hop ← check (check_string (arg args 4));
  iface ← check_int (arg args 5);
  type ← check_int (arg args 6);
  let metric := s32 <$> to_integer (arg args 7) in
  '(_, b, w) ← lift (l_session_add_route_entry (synch st session) dst pfx next_hop iface type metric);
  mret (with_net st w, announced args b).

Definition session_delete_route_entry (args : list value) (st : world) : out (world * list value) :=
  session ← check_session st (arg args 1);
  pfx ← check (check_integer (arg args 3));
  dst ← check (check_string (arg args 2));
  _ ← lift (ip2oid dst MAX_IP_OID_LEN);
  next_hop ← check (check_string (arg args 4));
  '(_, b, w) ← lift (l_session_delete_route_entry (synch st session) dst (u32 pfx) next_hop);
  mret (with_net st w, announced args b).

Definition session_add_ip (args : list value) (st : world) : out (world * list value) :=
  session ← check_session st (arg args 1);
  ip ← check (check_string (arg args 2));
  _ ← lift (ip2oid ip MAX_IP_OID_LEN);
  pfx ← check_int (arg args 3);
  if_id ← check_int (arg args 4);
  '(_, b, w) ← lift (l_session_add_ip (synch st session) ip pfx if_id);
  mret (with_net st w, announced args b).

Definition session_del_ip (args : list value) (st : world) : out (world * list value) :=
  session ← check_session st (arg args 1);
  ip ← check (check_string (arg args 2));
  '(_, b, w) ← lift (l_session_del_ip (synch st session) ip);
  mret (with_net st w, announced args b).

(** The pointer stays in the userdata. *)
Definition l_session_close (args : list value) (st : world) : out (world * list value) :=
  session ← check_session st (arg args 1);
  let '(r, w) := snmp_close (net st) session in
  mret (with_net st w, announced args (r =? 1)).

Definition invoke (f : cfun) : list value -> world -> out (world * list value) :=
  match f with
  | F_session_close => l_session_close
  | F_session_get => session_get
  | F_session_set => l_session_set
  | F_session_delete_route_entry => session_delete_route_entry
  | F_session_add_route_entry => session_add_route_entry
  | F_session_add_ip => session_add_ip
  | F_session_del_ip => session_del_ip
  | F_session_open => l_session_open
  end.

(** ** Scripts *)

(** What a script and the garbage collector do: open a session, call a method
    of a session, finalise a session that is no longer used. *)
Inductive action :=
| Session (args : list value)
| Method (u : nat) (name : string) (args : list value)
| Collect (u : nat).

(** The module and the sessions the script holds, and the userdata that wait
    for their finaliser. *)
Record script := Script { st : world; module : value; held : gset nat; waiting : gset nat }.

Definition call (x : script) (f : option value) (args : list value) : res (world * list value) :=
  match f with
  | Some (VFunction f) =>
      match invoke f args (st x) with
      | Ret r => Ok r
      | Raise => Ok (st x, [])
      | Fault u => UB u
      end
  | _ => Ok (st x, []) (* Lua: attempt to call a nil value *)
  end.

Definition userdata (vs : list value) : gset nat :=
  list_to_set (omap (fun v => match v with VUserdata u => Some u | _ => None end) vs).

Definition with_world (x : script) (w : world) : script := Script w (module x) (held x) (waiting x).

(** A session that is not held cannot be used; one that is collected no longer
    is. *)
Definition act (x : script) (a : action) : res script :=
  let v := view (lstate (st x)) in
  match a with
  | Session args =>
      '(w, vs) ← call x (lua_index v (module x) "session") args;
      mret (Script w (module x) (held x ∪ userdata vs)
              (waiting x ∪ (dom (cells w) ∖ dom (cells (st x)))))
  | Method u name args =>
      if decide (u ∈ held x) then
        '(w, _) ← call x (lua_index v (VUserdata u) name) (VUserdata u :: args);
        mret (with_world x w)
      else mret x
  | Collect u =>
      if decide (u ∈ waiting x) then
        '(w, _) ← call x (metafield v u "__gc") [VUserdata u];
        mret (Script w (module x) (held x ∖ {[u]}) (waiting x ∖ {[u]}))
      else mret x
  end.

Fixpoint acts (x : script) (l : list action) : res script :=
  match l with
  | [] => mret x
  | a :: l => x ← act x a; acts x l
  end.

End Module.
Arguments world L W SE : clear implicits.
Arguments script L W SE : clear implicits.

(** ** Running interface functions *)

Section Running.
Context `{LA : LuaApi L}.

Fixpoint manual_run (os : list lua_op) (v : lua_view) : option lua_view :=
  match os with
  | [] => Some v
  | o :: os => v ← manual o v; manual_run os v
  end.

Lemma manual_run_app os os' v : manual_run (os ++ os') v = (v ← manual_run os v; manual_run os' v).
Proof. revert v. induction os as [|o os IH]; intros v; [done|]. cbn. destruct (manual o v); [apply IH|done]. Qed.

Lemma lua_run_manual os : forall l v, manual_run os (view l) = Some v ->
  exists l', lua_run os l = Ret l' /\ view l' = v.
Proof.
  induction os as [|o os IH]; intros l v H; cbn in H; [injection H as <-; by exists l|].
  pose proof (lua_exec_manual o l) as Ho. cbn [lua_run].
  destruct (lua_exec o l) as [l1|]; cbn in Ho; rewrite <- Ho in H; [|done].
  by apply IH.
Qed.

Lemma at_index_1 v : at_index v (-1) = stack v !! 0%nat.
Proof. done. Qed.
Lemma at_index_2 v : at_index v (-2) = stack v !! 1%nat.
Proof. done. Qed.
Lemma at_index_3 v : at_index v (-3) = stack v !! 2%nat.
Proof. done. Qed.

(** The rows pushed into a new table, the last of equal names wins. *)
Definition rows_table (m : gmap string value) (rows : list (string * string)) : gmap string value :=
  foldl (fun m row => <[fst row := VString (snd row)]> m) m rows.

Lemma run_rows rows : forall v t m st, stack v = VTable t :: st -> tables v !! t = Some m ->
  manual_run (mjoin (push_row <$> rows)) v =
    Some (match rows with [] => v | _ => set_table v t (rows_table m rows) end).
Proof.
  induction rows as [|[k x] rows IH]; intros v t m st Hs Ht; [done|].
  cbn [fmap list_fmap mjoin list_join]. rewrite manual_run_app.
  assert (manual_run (push_row (k, x)) v = Some (set_table v t (<[k := VString x]> m))) as ->.
  { unfold push_row. cbn. unfold table_at. rewrite at_index_3. cbn. rewrite Hs. cbn. rewrite Ht. cbn.
    unfold set_table, set_stack. cbn. by rewrite Hs. }
  cbn [mbind option_bind]. rewrite (IH _ t (<[k := VString x]> m) st); [|done|cbn; by rewrite lookup_insert_eq].
  unfold set_table. cbn. destruct rows; [done|]. cbn. by rewrite insert_insert_eq.
Qed.

Lemma run_get rows v :
  manual_run (lua_newtable :: mjoin (push_row <$> rows)) v = Some (new_table v (rows_table ∅ rows)).
Proof.
  cbn [manual_run manual mbind option_bind].
  rewrite (run_rows rows _ (next_ref v) ∅ (stack v)); [|done|cbn; by rewrite lookup_insert_eq].
  destruct rows; [done|]. unfold set_table, new_table. cbn. by rewrite insert_insert_eq.
Qed.

End Running.

(** ** The registered module *)

Definition session_meta (mt : nat) : gmap string value :=
  of_funcs {["__index" := VTable mt]} session_functions.

#[local] Ltac run_ops :=
  unfold table_at, at_index; cbn;
  change (Z.to_nat (- (-1) - 1)) with 0%nat; change (Z.to_nat (- (-2) - 1)) with 1%nat; cbn;
  repeat (rewrite lookup_insert_eq; cbn).

Section Installed.
Context `{NS : NetSnmp}.

Definition module_table (types : nat) : gmap string value :=
  <["version3" := VInteger SNMP_VERSION_3]> (<["version2c" := VInteger SNMP_VERSION_2c]>
  (<["version1" := VInteger SNMP_VERSION_1]> (<["types" := VTable types]> (of_funcs ∅ snmp_functions)))).

(** The module [m] and the metatable [mt] of the sessions are in place. *)
Record installed (v : lua_view) (m mt : nat) : Prop := {
  in_registry : registry v !! "snmpSession" = Some mt;
  in_meta : tables v !! mt = Some (session_meta mt);
  in_module : exists types, tables v !! m = Some (module_table types) /\ (types < next_ref v)%nat;
  in_fresh : (mt < next_ref v /\ m < next_ref v)%nat
}.

Definition first_half : list lua_op :=
  [luaL_newmetatable "snmpSession"; lua_pushvalue (-1); lua_setfield (-2) "__index";
   luaL_setfuncs session_functions].

Lemma run_first_half v : registry v !! "snmpSession" = None ->
  manual_run first_half v =
    Some (LuaView (VTable (next_ref v) :: stack v) (<[next_ref v := session_meta (next_ref v)]> (tables v))
      (<["snmpSession" := next_ref v]> (registry v)) (metatables v) (S (next_ref v))).
Proof.
  intros Hr. cbn [manual_run first_half manual]. rewrite Hr. run_ops.
  unfold set_table. cbn. by rewrite !insert_insert_eq, insert_empty.
Qed.

Definition second_half : list lua_op :=
  [luaL_newlib snmp_functions] ++ push_asn_types_table ++
  [lua_setfield (-2) "types"; lua_pushinteger SNMP_VERSION_1; lua_setfield (-2) "version1";
   lua_pushinteger SNMP_VERSION_2c; lua_setfield (-2) "version2c";
   lua_pushinteger SNMP_VERSION_3; lua_setfield (-2) "version3"].

(** A field set to an integer. *)
Lemma run_integer n k os t st m T R M N :
  manual_run (lua_pushinteger n :: lua_setfield (-2) k :: os) (LuaView (VTable t :: st) (<[t := m]> T) R M N) =
  manual_run os (LuaView (VTable t :: st) (<[t := <[k := VInteger n]> m]> T) R M N).
Proof.
  cbn [manual_run manual mbind option_bind]. run_ops. unfold set_table. cbn. by rewrite insert_insert_eq.
Qed.

(** A new library with a field set to a new table. *)
Lemma run_lib l k os v :
  manual_run (luaL_newlib l :: lua_newtable :: lua_setfield (-2) k :: os) v =
  manual_run os (LuaView (VTable (next_ref v) :: stack v)
    (<[next_ref v := <[k := VTable (S (next_ref v))]> (of_funcs ∅ l)]> (<[S (next_ref v) := ∅]> (tables v)))
    (registry v) (metatables v) (S (S (next_ref v)))).
Proof.
  assert (S (next_ref v) <> next_ref v) as Hne by lia.
  cbn [manual_run manual mbind option_bind]. run_ops. rewrite lookup_insert_ne by done. run_ops.
  unfold set_table. cbn. by rewrite (insert_insert_ne (tables v)), insert_insert_eq by done.
Qed.

Lemma run_second_half v :
  manual_run second_half v =
    Some (LuaView (VTable (next_ref v) :: stack v)
      (<[next_ref v := module_table (S (next_ref v))]> (<[S (next_ref v) := ∅]> (tables v)))
      (registry v) (metatables v) (S (S (next_ref v)))).
Proof.
  unfold second_half, push_asn_types_table. cbn [app]. by rewrite run_lib, !run_integer.
Qed.

End Installed.

(** ** Methods of a session *)

Lemma meta_method mt name f : session_meta mt !! name = Some (VFunction f) -> (name, f) ∈ session_functions.
Proof.
  unfold session_meta, of_funcs, session_functions. cbn [foldl fst snd].
  rewrite !lookup_insert_Some, lookup_singleton_Some, !elem_of_cons. intros H.
  do 7 (destruct H as [[<- [= <-]]|[_ H]]; [tauto|]). by destruct H as [_ H].
Qed.

Lemma meta_self mt : session_meta mt !! "__index" = Some (VTable mt).
Proof. reflexivity. Qed.

Lemma meta_functions mt name f : (name, f) ∈ session_functions -> session_meta mt !! name = Some (VFunction f).
Proof.
  unfold session_functions. rewrite !elem_of_cons, elem_of_nil.
  intros H. destruct_or?; simplify_eq; done.
Qed.

Lemma method_plain name f : (name, f) ∈ session_functions -> name <> "__gc" ->
  f <> F_session_close /\ f <> F_session_open.
Proof.
  unfold session_functions. rewrite !elem_of_cons, elem_of_nil.
  intros H Hn. destruct_or?; simplify_eq; done.
Qed.

(** What a step of the client may do: return with a property, raise an error,
    or read an uninitialised buffer. *)
Definition okay {A} (P : A -> Prop) (r : res A) : Prop :=
  match r with Ok a => P a | UB u => u = Uninitialised end.
Definition fine {A} (P : A -> Prop) (o : out A) : Prop :=
  match o with Ret a => P a | Raise => True | Fault u => u = Uninitialised end.

Lemma okay_bind {A B} (Q : A -> Prop) (P : B -> Prop) (m : res A) k :
  okay Q m -> (forall a, Q a -> okay P (k a)) -> okay P (mbind k m).
Proof. destruct m; cbn; auto. Qed.
Lemma fine_bind {A B} (Q : A -> Prop) (P : B -> Prop) (m : out A) k :
  fine Q m -> (forall a, Q a -> fine P (k a)) -> fine P (mbind k m).
Proof. destruct m; cbn; auto. Qed.
Lemma fine_lift {A} (P : A -> Prop) (r : res A) : okay P r -> fine P (lift r).
Proof. by destruct r. Qed.
Lemma fine_check {A} (o : option A) : fine (fun _ => True) (check o).
Proof. by destruct o. Qed.

Create HintDb snmp discriminated.
#[export] Hint Resolve fine_check : snmp.

Section Calm.
Context `{NS : NetSnmp} {W : Type} (synch : pdu -> res (response * W)) (P : W -> Prop).
Context (Hsynch : forall p, okay (fun r => P (snd r)) (synch p)).

Lemma okay_filled o : okay (fun _ => True) (filled o).
Proof. by destruct o. Qed.

Lemma okay_ip2oid ip n : okay (fun _ => True) (ip2oid ip n).
Proof. unfold ip2oid. destruct (has_char "." ip); eapply okay_bind; try apply okay_filled; done. Qed.

Lemma okay_add_variable p o n v : okay (fun _ => True) (add_variable p o n v).
Proof. unfold add_variable, objid. eapply okay_bind; [apply okay_filled|done]. Qed.

#[local] Hint Resolve okay_ip2oid okay_add_variable Hsynch : snmp.

#[local] Ltac okay_step a :=
  eapply okay_bind; [solve [eauto with snmp]|intros a ?];
  lazymatch type of a with prod _ _ => destruct a | _ => idtac end; cbv beta iota.
#[local] Ltac okay_steps := repeat (let a := fresh in okay_step a); try done.

Lemma okay_add_route dst pfx next_hop iface type metric :
  okay (fun r => P (snd r)) (l_session_add_route_entry synch dst pfx next_hop iface type metric).
Proof. unfold l_session_add_route_entry. okay_steps. Qed.

Lemma okay_delete_route dst pfx next_hop :
  okay (fun r => P (snd r)) (l_session_delete_route_entry synch dst pfx next_hop).
Proof. unfold l_session_delete_route_entry. okay_steps. Qed.

Lemma okay_add_ip ip pfx if_id : okay (fun r => P (snd r)) (l_session_add_ip synch ip pfx if_id).
Proof. unfold l_session_add_ip. okay_steps. Qed.

Lemma okay_del_ip ip : okay (fun r => P (snd r)) (l_session_del_ip synch ip).
Proof. unfold l_session_del_ip. okay_steps. Qed.

Lemma okay_get oid_str :
  okay (fun r => match snd r with Some w => P w | None => True end) (l_session_get synch oid_str).
Proof. unfold l_session_get. case_match; [|done]. okay_steps. Qed.

End Calm.

(** ** Effects of the methods *)

Section Effects.
Context `{NS : NetSnmp} `{LA : LuaApi L} `{SS : SnmpSessions W SE}.
Implicit Types a b : world L W SE.

(** Nothing changes but new tables. *)
Record quiet (a b : world L W SE) : Prop := {
  q_cells : cells b = cells a;
  q_live : forall s, live (net b) s = live (net a) s;
  q_registry : registry (view (lstate b)) = registry (view (lstate a));
  q_meta : metatables (view (lstate b)) = metatables (view (lstate a));
  q_tables : forall t, (t < next_ref (view (lstate a)))%nat ->
    tables (view (lstate b)) !! t = tables (view (lstate a)) !! t;
  q_next : (next_ref (view (lstate a)) <= next_ref (view (lstate b)))%nat
}.

Definition same_live (w0 w : W) : Prop := forall s, live w s = live w0 s.

Lemma quiet_net (a : world L W SE) w : same_live (net a) w -> quiet a (with_net a w).
Proof. intros H. by split. Qed.

(** The pointer of a session object. *)
Definition points (a : world L W SE) (x : value) (s : SE) : Prop :=
  exists u, luaL_checkudata (lstate a) x "snmpSession" = Some u /\ cells a !! u = Some (Some s).

Lemma check_session_points a x s : points a x s -> check_session a x = Ret (Some s).
Proof. intros (u & H1 & H2). unfold check_session. rewrite H1. cbn. by rewrite H2. Qed.

Lemma synch_okay a s p : live (net a) s = true ->
  okay (fun r => same_live (net a) (snd r)) (synch a (Some s) p).
Proof. intros Hs. unfold synch. rewrite Hs. cbn. intros s'. apply synch_live. Qed.

Lemma fine_nonempty x : fine (fun _ => True) (check_nonempty x).
Proof. unfold check_nonempty. eapply fine_bind; [apply fine_check|]. intros s _. by case_bool_decide. Qed.
Lemma fine_int x : fine (fun _ => True) (check_int x).
Proof. unfold check_int. eapply fine_bind; [apply fine_check|done]. Qed.
Lemma fine_ip2oid ip n : fine (fun _ => True) (lift (ip2oid ip n)).
Proof. apply fine_lift, okay_ip2oid. Qed.

Definition quiet_result (a : world L W SE) (r : world L W SE * list value) : Prop := quiet a (fst r).

Lemma fine_request {A} a (r : res (A * bool * W)) args : okay (fun r => same_live (net a) (snd r)) r ->
  fine (quiet_result a) ('(_, b, w) ← lift r; mret (with_net a w, announced args b)).
Proof.
  intros H. eapply fine_bind; [apply fine_lift, H|]. intros [[vs b] w] Hw. by apply quiet_net.
Qed.

Lemma fine_table a args rows :
  fine (quiet_result a)
    (l ← lua_run (lua_newtable :: mjoin (push_row <$> rows)) (lua_frame args (lstate a));
     mret (with_lua a l, top l)).
Proof.
  destruct (lua_run_manual _ (lua_frame args (lstate a)) _ (run_get rows _)) as (l & -> & Hv).
  cbn. rewrite lua_frame_view in Hv. split; cbn; rewrite ?Hv; cbn; try done; [|lia].
  intros t Ht. rewrite lookup_insert_ne by lia. done.
Qed.

#[local] Hint Resolve fine_nonempty fine_int fine_ip2oid : snmp.

#[local] Ltac fine_steps := repeat (eapply fine_bind; [solve [eauto with snmp]|intros ? _]).

(** Every method but the finaliser, on a session that is open. *)
Lemma invoke_quiet f a args s :
  f <> F_session_close -> f <> F_session_open -> points a (arg args 1) s -> live (net a) s = true ->
  fine (quiet_result a) (invoke f args a).
Proof.
  intros H1 H2 Hp Hl. pose proof (synch_okay a s) as Hs. apply check_session_points in Hp.
  destruct f; try done; cbn [invoke].
  - unfold session_get. fine_steps. rewrite Hp. cbn [mbind out_bind].
    eapply fine_bind; [apply fine_lift, okay_get; intros p; by apply Hs|]. intros [g w] Hw.
    cbn [snd] in Hw. assert (quiet a (with_net a (default (net a) w))) as Hq
      by (apply quiet_net; destruct w; [exact Hw|done]).
    destruct g; [done| |exact Hq|exact Hq].
    pose proof (fine_table (with_net a (default (net a) w)) args rows) as Ht.
    destruct (lua_run _ _); cbn in *; try done. destruct Ht, Hq. by split.
  - unfold session_delete_route_entry. rewrite Hp. cbn [mbind out_bind]. fine_steps.
    apply fine_request, okay_delete_route. intros p. by apply Hs.
  - unfold session_add_route_entry. rewrite Hp. cbn [mbind out_bind]. fine_steps.
    apply fine_request, okay_add_route. intros p. by apply Hs.
  - unfold session_add_ip. rewrite Hp. cbn [mbind out_bind]. fine_steps.
    apply fine_request, okay_add_ip. intros p. by apply Hs.
  - unfold session_del_ip. rewrite Hp. cbn [mbind out_bind]. fine_steps.
    apply fine_request, okay_del_ip. intros p. by apply Hs.
Qed.

(** The finaliser closes the session of its argument. *)
Lemma close_effect a args p u : luaL_checkudata (lstate a) (arg args 1) "snmpSession" = Some u ->
  cells a !! u = Some p ->
  exists w vs, l_session_close args a = Ret (with_net a w, vs) /\
    forall s, live w s = live (net a) s && negb (bool_decide (p = Some s)).
Proof.
  intros Hu Hc. unfold l_session_close, check_session. rewrite Hu. cbn. rewrite Hc. cbn.
  destruct (snmp_close (net a) p) as [r w] eqn:E. apply close_spec in E as [_ E]. by eexists w, _.
Qed.

(** Opening adds one userdata with the session's metatable. *)
Record opened (mt : nat) (a b : world L W SE) (p : option SE) (u : nat) : Prop := {
  o_ref : u = next_ref (view (lstate a));
  o_cells : cells b = <[u := p]> (cells a);
  o_live : forall s, live (net b) s = bool_decide (p = Some s) || live (net a) s;
  o_new : forall s, p = Some s -> live (net a) s = false;
  o_registry : registry (view (lstate b)) = registry (view (lstate a));
  o_meta : metatables (view (lstate b)) = <[u := mt]> (metatables (view (lstate a)));
  o_tables : tables (view (lstate b)) = tables (view (lstate a));
  o_next : next_ref (view (lstate b)) = S (next_ref (view (lstate a)))
}.

Lemma new_cell_spec l : exists l', new_cell l = Ret (l', next_ref (view l)) /\
  view l' = LuaView (VUserdata (next_ref (view l)) :: stack (view l)) (tables (view l)) (registry (view l))
    (metatables (view l)) (S (next_ref (view l))).
Proof.
  destruct (lua_run_manual [lua_newuserdata] l _ eq_refl) as (l' & E & Hv).
  exists l'. unfold new_cell. rewrite E. cbn [mbind out_bind]. by rewrite Hv.
Qed.

Lemma set_session_meta l u st mt : stack (view l) = VUserdata u :: st ->
  registry (view l) !! "snmpSession" = Some mt ->
  exists l', lua_run [luaL_getmetatable "snmpSession"; lua_setmetatable (-2)] l = Ret l' /\
    view l' = LuaView (VUserdata u :: st) (tables (view l)) (registry (view l))
      (<[u := mt]> (metatables (view l))) (next_ref (view l)).
Proof.
  intros Hs Hr. apply lua_run_manual. cbn. rewrite Hr. unfold at_index. cbn.
  change (Z.to_nat (- (-2) - 1)) with 1%nat. cbn. by rewrite Hs.
Qed.

Lemma open_effect a args mt : registry (view (lstate a)) !! "snmpSession" = Some mt ->
  fine (fun r => exists p u, opened mt a (fst r) p u /\
          snd r = match p with Some _ => [VUserdata u] | None => [] end) (l_session_open args a).
Proof.
  intros Hr. unfold l_session_open.
  eapply fine_bind; [apply fine_nonempty|intros peername _].
  eapply fine_bind; [apply fine_int|intros version _]. destruct (version =? SNMP_VERSION_3); [done|].
  eapply fine_bind; [apply fine_nonempty|intros commstr _].
  destruct (new_cell_spec (lua_frame args (lstate a))) as (l1 & -> & E1). cbn [mbind out_bind].
  rewrite lua_frame_view in E1. cbn in E1.
  destruct (set_session_meta l1 (next_ref (view (lstate a))) (reverse args) mt) as (l2 & -> & E2);
    [by rewrite E1|by rewrite E1|]. cbn [mbind out_bind].
  rewrite E1 in E2. cbn in E2. rewrite lua_frame_view. cbn [set_stack next_ref].
  destruct (snmp_open (net a) peername version commstr) as [p w] eqn:E. cbn.
  exists p, (next_ref (view (lstate a))). unfold top. rewrite E2. split; [|done].
  split; cbn; rewrite ?E2; try done.
  - destruct p as [s|]; [apply open_some in E as [_ E]|by intros s; rewrite (open_none _ _ _ _ _ E)].
    intros s'. rewrite E. f_equal. apply bool_decide_ext. split; [by intros ->|by intros [= ->]].
  - intros s ->. by apply open_some in E as [E _].
Qed.

End Effects.

(** ** Scripts are safe *)

Section Safety.
Context `{NS : NetSnmp} `{LA : LuaApi L} `{SS : SnmpSessions W SE}.
Implicit Types x : script L W SE.

(** Sessions of net-snmp that were open before. *)
Variable w0 : W.

Record safe (m mt : nat) (x : script L W SE) : Prop := {
  s_module : module x = VTable m;
  s_installed : installed (view (lstate (st x))) m mt;
  s_held : held x ⊆ waiting x;
  s_waiting : forall u, u ∈ waiting x -> metatables (view (lstate (st x))) !! u = Some mt /\
    exists p, cells (st x) !! u = Some p /\
      (u ∈ held x -> p <> None) /\ (forall s, p = Some s -> live (net (st x)) s = true);
  s_fresh : forall u, u ∈ dom (cells (st x)) -> (u < next_ref (view (lstate (st x))))%nat;
  s_distinct : forall u u' s, u ∈ waiting x -> u' ∈ waiting x ->
    cells (st x) !! u = Some (Some s) -> cells (st x) !! u' = Some (Some s) -> u = u';
  s_owned : forall s, live (net (st x)) s = true ->
    live w0 s = true \/ exists u, u ∈ waiting x /\ cells (st x) !! u = Some (Some s)
}.

Lemma safe_quiet m mt x w : safe m mt x -> quiet (st x) w -> safe m mt (with_world x w).
Proof.
  intros [H1 [I1 I2 (ty & I3 & I3') [I4 I5]] H3 H4 H5 H6 H7] [Q1 Q2 Q3 Q4 Q5 Q6].
  split; cbn [with_world st module held waiting]; try done; rewrite ?Q1, ?Q4; try done.
  - split; rewrite ?Q3, ?Q5 by lia; try done; [|lia]. exists ty. split; [done|lia].
  - intros u Hu. destruct (H4 u Hu) as (E & p & Ep & Hh & Hl). split; [done|].
    exists p. split; [done|]. split; [done|]. intros s ->. rewrite Q2. by apply Hl.
  - intros u Hu. specialize (H5 u Hu). lia.
  - intros s. rewrite Q2. apply H7.
Qed.

Lemma safe_udata m mt x u tail : safe m mt x -> u ∈ waiting x ->
  luaL_checkudata (lstate (st x)) (arg (VUserdata u :: tail) 1) "snmpSession" = Some u.
Proof.
  intros Hs Hu. apply checkudata_spec. split; [done|].
  exists mt. split; [by apply (in_registry _ _ _ (s_installed _ _ _ Hs))|by apply (s_waiting _ _ _ Hs)].
Qed.

Lemma safe_method m mt x u name args : safe m mt x -> name <> "__gc" ->
  okay (safe m mt) (act x (Method u name args)).
Proof.
  intros Hs Hgc. cbn [act]. destruct (decide (u ∈ held x)) as [Hu|]; [|exact Hs].
  pose proof (s_held _ _ _ Hs u Hu) as Hw.
  destruct (s_waiting _ _ _ Hs u Hw) as (Em & [s|] & Ec & Hh & Hl); [|by destruct (Hh Hu)].
  destruct (s_installed _ _ _ Hs) as [_ Hmeta _ _].
  cbn [lua_index]. rewrite Em. cbn [mbind option_bind]. rewrite Hmeta. cbn [mbind option_bind].
  rewrite meta_self, Hmeta. cbn [mbind option_bind].
  assert (quiet (st x) (st x)) as Hrefl by by split.
  destruct (session_meta mt !! name) as [[]|] eqn:En; try (cbn; by apply safe_quiet).
  apply meta_method in En. destruct (method_plain name f En Hgc) as [Hc Ho]. unfold call.
  pose proof (invoke_quiet f (st x) (VUserdata u :: args) s Hc Ho) as Hi.
  assert (points (st x) (arg (VUserdata u :: args) 1) s) as Hp by (exists u; split; [by eapply safe_udata|done]).
  specialize (Hi Hp (Hl s eq_refl)).
  destruct (invoke f (VUserdata u :: args) (st x)) as [[w vs]| |u']; cbn; [|by apply safe_quiet|exact Hi].
  apply safe_quiet; [exact Hs|exact Hi].
Qed.

Lemma safe_collect m mt x u : safe m mt x -> okay (safe m mt) (act x (Collect u)).
Proof.
  intros Hs. cbn [act]. destruct (decide (u ∈ waiting x)) as [Hu|]; [|exact Hs].
  destruct (s_waiting _ _ _ Hs u Hu) as (Em & p & Ec & Hh & Hl).
  pose proof (s_installed _ _ _ Hs) as [_ Hmeta _ _]. unfold metafield.
  rewrite Em. cbn [mbind option_bind]. rewrite Hmeta. cbn [mbind option_bind].
  rewrite (meta_functions mt "__gc" F_session_close) by (unfold session_functions; set_solver).
  unfold call, invoke.
  destruct (close_effect (st x) [VUserdata u] p u) as (w & vs & -> & Hw); [by eapply safe_udata|done|].
  cbn. destruct Hs as [H1 H2 H3 H4 H5 H6 H7]. split; cbn; try done.
  - set_solver + H3.
  - intros u' Hu'. destruct (H4 u') as (E' & p' & Ep & Hh' & Hl'); [set_solver + Hu'|]. split; [done|].
    exists p'. split; [done|]. split; [intros Hin; apply Hh'; set_solver + Hin|]. intros s ->. rewrite Hw, (Hl' s eq_refl).
    rewrite bool_decide_eq_false_2; [done|]. intros ->. assert (u' = u) as -> by (apply (H6 u' u s); [set_solver + Hu'|done..]). set_solver + Hu'.
  - intros u1 u2 s Hu1 Hu2. apply H6; [set_solver + Hu1|set_solver + Hu2].
  - intros s. rewrite Hw, andb_true_iff, negb_true_iff, bool_decide_eq_false. intros [Hs Hne].
    destruct (H7 s Hs) as [|(u' & Hu' & Ec')]; [by left|]. right. exists u'. split; [|done].
    destruct (decide (u' = u)) as [->|]; [|by apply elem_of_difference; rewrite elem_of_singleton]. rewrite Ec in Ec'. by injection Ec' as ->.
Qed.

Lemma safe_open m mt x w p u : safe m mt x -> opened mt (st x) w p u ->
  safe m mt (Script w (VTable m) (held x ∪ userdata (match p with Some _ => [VUserdata u] | None => [] end))
    (waiting x ∪ (dom (cells w) ∖ dom (cells (st x))))).
Proof.
  intros [H1 [I1 I2 (ty & I3 & I3') [I4 I5]] H3 H4 H5 H6 H7] [-> O2 O3 O4 O5 O6 O7 O8].
  set (n := next_ref (view (lstate (st x)))) in *.
  assert (n ∉ dom (cells (st x))) as Hn by (intros Hn; specialize (H5 n Hn); lia).
  assert (forall u, u ∈ waiting x -> u <> n) as Hw.
  { intros u Hu ->. destruct (H4 n Hu) as (_ & p' & E & _). apply Hn. by apply elem_of_dom. }
  assert (dom (cells w) ∖ dom (cells (st x)) = {[n]}) as -> by (rewrite O2; set_solver + Hn).
  split; cbn [st module held waiting]; rewrite ?O2, ?O8; try done.
  - split; rewrite ?O5, ?O7; try done; [|lia]. exists ty. split; [done|lia].
  - destruct p; unfold userdata; cbn; set_solver + H3.
  - intros u Hu. destruct (decide (u = n)) as [->|Hne].
    + rewrite O6, !lookup_insert_eq. split; [done|]. exists p. split; [done|]. split.
      * intros Hin ->. apply elem_of_union in Hin as [Hin|Hin]; [|by apply elem_of_empty in Hin].
        by apply (Hw n); [apply H3|].
      * intros s ->. rewrite O3. by rewrite bool_decide_true.
    + rewrite O6, !lookup_insert_ne by done. destruct (H4 u) as (E & p' & Ep & Hh & Hl); [set_solver + Hu Hne|].
      split; [done|]. exists p'. split; [done|]. split; [intros Hin; apply Hh; destruct p; unfold userdata in *; cbn in Hin; set_solver + Hin Hne|].
      intros s ->. rewrite O3, (Hl s eq_refl). apply orb_true_r.
  - intros u Hu. rewrite dom_insert_L in Hu. apply elem_of_union in Hu as [Hu|Hu]; [apply elem_of_singleton in Hu; lia|].
    specialize (H5 u Hu). lia.
  - intros u u' s Hu Hu'. rewrite !lookup_insert_Some. intros [[<- ->]|[Hne E]] [[<- E']|[Hne' E']]; try done.
    + exfalso. destruct (H4 u') as (_ & p' & Ep & _ & Hl); [set_solver + Hu' Hne'|]. rewrite E' in Ep. injection Ep as <-.
      pose proof (Hl s eq_refl) as Hs. by rewrite (O4 s eq_refl) in Hs.
    + exfalso. subst p. destruct (H4 u) as (_ & p' & Ep & _ & Hl); [set_solver + Hu Hne|]. rewrite E in Ep.
      injection Ep as <-. pose proof (Hl s eq_refl) as Hs. by rewrite (O4 s eq_refl) in Hs.
    + apply (H6 u u' s); [set_solver + Hu Hne|set_solver + Hu' Hne'|done|done].
  - intros s. rewrite O3, orb_true_iff, bool_decide_eq_true. intros [->|Hs].
    + right. exists n. rewrite lookup_insert_eq. split; [set_solver +|done].
    + destruct (H7 s Hs) as [|(u & Hu & E)]; [by left|]. right. exists u.
      rewrite lookup_insert_ne by (intros <-; by apply (Hw n)). split; [set_solver + Hu|done].
Qed.

Lemma safe_session m mt x args : safe m mt x -> okay (safe m mt) (act x (Session args)).
Proof.
  intros Hs. cbn [act]. rewrite (s_module _ _ _ Hs). cbn [lua_index].
  destruct (s_installed _ _ _ Hs) as [Hreg _ (ty & Hm & _) _]. rewrite Hm. cbn [mbind option_bind].
  change (module_table ty !! "session") with (Some (VFunction F_session_open)). unfold call, invoke.
  pose proof (open_effect (st x) args mt Hreg) as Ho.
  destruct (l_session_open args (st x)) as [[w vs]| |u']; cbn in Ho |- *; [|..|done].
  - destruct Ho as (p & u & Ho & ->). apply (safe_open m mt x w p u Hs Ho).
  - destruct Hs. split; cbn; rewrite ?difference_diag_L, ?(right_id_L ∅ (∪)); try done.
Qed.

End Safety.

Section Theorems.
Context `{NS : NetSnmp} `{LA : LuaApi L} `{SS : SnmpSessions W SE}.

(** Registering the module, unless it is registered already. *)
Lemma luaopen_snmp_installs (a : world L W SE) : registry (view (lstate a)) !! "snmpSession" = None ->
  exists b m mt, luaopen_snmp a = Ret b /\ top (lstate b) = [VTable m] /\
    installed (view (lstate b)) m mt /\ cells b = cells a /\ same_live (net a) (net b).
Proof.
  intros Hr. set (v := view (lstate a)) in *. unfold luaopen_snmp.
  destruct (lua_run_manual _ (lstate a) _ (run_first_half v Hr)) as (l1 & E1 & V1).
  unfold first_half in E1. rewrite E1. cbn [mbind out_bind].
  destruct (lua_run_manual _ l1 _ (run_second_half (view l1))) as (l2 & E2 & V2).
  unfold second_half in E2. rewrite E2. cbn [mbind out_bind].
  eexists _, (S (next_ref v)), (next_ref v). split; [reflexivity|].
  rewrite V1 in V2. cbn in V2. cbn [lstate cells net]. unfold top. rewrite V2. split; [done|].
  split; [|split; [done|intros s; apply init_live]]. split; cbn.
  - by rewrite lookup_insert_eq.
  - rewrite !lookup_insert_ne, lookup_insert_eq by lia. done.
  - exists (S (S (next_ref v))). rewrite lookup_insert_eq. split; [done|lia].
  - lia.
Qed.

(** Methods of a session by name. *)
Lemma session_methods v m mt u name f : installed v m mt -> metatables v !! u = Some mt ->
  (name, f) ∈ session_functions -> lua_index v (VUserdata u) name = Some (VFunction f).
Proof.
  intros [_ Hm _ _] Hu Hf. unfold lua_index. rewrite Hu. cbn. rewrite Hm. cbn [mbind option_bind].
  rewrite meta_self, Hm. cbn [mbind option_bind]. by apply meta_functions.
Qed.

Definition no_explicit_gc (a : action) : Prop :=
  match a with Method _ name _ => name <> "__gc" | _ => True end.

Lemma safe_acts w0 m mt l : forall x : script L W SE, safe w0 m mt x -> Forall no_explicit_gc l ->
  okay (safe w0 m mt) (acts x l).
Proof.
  induction l as [|a l IH]; intros x Hx Hl; [exact Hx|]. apply Forall_cons in Hl as [Ha Hl]. cbn [acts].
  eapply okay_bind; [|intros y Hy; by apply IH].
  destruct a; [by apply safe_session|by apply safe_method|by apply safe_collect].
Qed.

(** The state of a script that has just loaded the module. *)
Definition loaded (b : world L W SE) (m : nat) : script L W SE := Script b (VTable m) ∅ ∅.

Lemma safe_loaded b m mt : installed (view (lstate b)) m mt -> cells b = ∅ ->
  safe (net b) m mt (loaded b m).
Proof.
  intros Hi Hc. split; cbn; rewrite ?Hc; try done; set_solver.
Qed.


Lemma call_gc w0 m mt (x : script L W SE) u s : safe w0 m mt x -> u ∈ held x ->
  cells (st x) !! u = Some (Some s) ->
  exists w, act x (Method u "__gc" []) = Ok (with_world x (with_net (st x) w)) /\ live w s = false.
Proof.
  intros Hs Hu Hc. pose proof (s_held _ _ _ _ Hs u Hu) as Hw.
  destruct (s_waiting _ _ _ _ Hs u Hw) as (Em & _). cbn [act]. rewrite decide_True by done.
  rewrite (session_methods _ m mt u _ F_session_close (s_installed _ _ _ _ Hs) Em) by (unfold session_functions; set_solver +).
  unfold call, invoke.
  destruct (close_effect (st x) [VUserdata u] (Some s) u) as (w & vs & -> & Hl); [by eapply safe_udata|done|].
  exists w. split; [done|]. rewrite Hl, bool_decide_true by done. apply andb_false_r.
Qed.

(** C40: The finaliser is exposed as a method.  The metatable of the sessions is
    its own [__index], so a script can call [__gc] on a session it holds; the
    session is closed, the pointer stays in the userdata, and the next request
    the script makes with it (here [delIp], for any address and identifier that
    are accepted) uses freed memory. *)
Theorem explicit_gc_use_after_free (a : world L W SE) l b m x u ip ip_buf o
    (Hreg : registry (view (lstate a)) !! "snmpSession" = None) (Hcells : cells a = ∅)
    (Hgc : Forall no_explicit_gc l) (Hopen : luaopen_snmp a = Ret b) (Htop : top (lstate b) = [VTable m])
    (Hrun : acts (loaded b m) l = Ok x) (Hu : u ∈ held x)
    (Hip : ip2oid ip MAX_IP_OID_LEN = Ok ip_buf)
    (Hoid : read_objid (addr_oid "iAddressRowStatus" ip_buf) MAX_OID_LEN = Some o) :
  exists x', act x (Method u "__gc" []) = Ok x' /\ u ∈ held x' /\
    act x' (Method u "delIp" [VString ip]) = UB UseAfterFree.
Proof.
  destruct (luaopen_snmp_installs a Hreg) as (b' & m' & mt & E & Et & Hi & Hc & Hn).
  rewrite Hopen in E. injection E as <-. rewrite Htop in Et. injection Et as <-. rewrite Hcells in Hc.
  pose proof (safe_acts (net b) m mt l _ (safe_loaded b m mt Hi Hc) Hgc) as Hs. rewrite Hrun in Hs. cbn in Hs.
  pose proof (s_held _ _ _ _ Hs u Hu) as Hw.
  destruct (s_waiting _ _ _ _ Hs u Hw) as (Em & [s|] & Ec & Hh & _); [|by destruct (Hh Hu)].
  destruct (call_gc _ _ _ x u s Hs Hu Ec) as (w & E1 & Hl). eexists. split; [exact E1|].
  split; [exact Hu|]. cbn [act with_world held st with_net lstate]. rewrite decide_True by done.
  rewrite (session_methods _ m mt u _ F_session_del_ip (s_installed _ _ _ _ Hs) Em)
    by (unfold session_functions; set_solver +).
  unfold call, invoke, session_del_ip, check_session. cbn [with_world st with_net lstate cells net].
  rewrite (safe_udata _ _ _ _ _ _ Hs Hw). cbn [check mbind out_bind]. rewrite Ec. cbn [mbind out_bind mret out_ret].
  change (arg [VUserdata u; VString ip] 2) with (VString ip). rewrite check_string_string. cbn [check mbind out_bind].
  unfold l_session_del_ip. rewrite Hip. cbn [mbind res_bind]. unfold add_variable, objid. rewrite Hoid.
  cbn [filled mbind res_bind mret res_ret]. unfold synch. cbn [net with_net]. by rewrite Hl.
Qed.

End Theorems.

(** ** Evaluation *)

Section Witnesses.
#[local] Existing Instance sample_net.

(** Lua as the manual describes it. *)
#[refine] Definition sample_lua : LuaApi lua_view := {|
  view v := v;
  lua_exec := manual;
  lua_frame args v := set_stack v (reverse args);
  luaL_checkudata v x tname :=
    match x with
    | VUserdata u =>
        if bool_decide (is_Some (registry v !! tname) /\ metatables v !! u = registry v !! tname)
        then Some u else None
    | _ => None
    end;
  check_string x := match x with VString s => Some s | _ => None end;
  check_integer x := match x with VInteger n => Some n | _ => None end;
  to_integer x := match x with VInteger n => Some n | _ => None end |}.
Proof.
  - intros o v. by destruct (manual o v).
  - done.
  - intros v x tname u. split.
    + destruct x as [| | | | |u']; try done. case_bool_decide as H; [|done]. intros [= <-].
      destruct H as [[t Ht] Hm]. split; [done|]. exists t. by rewrite Hm, Ht.
    + intros (-> & t & Ht & Hm). rewrite bool_decide_true; [done|]. rewrite Ht, Hm. by split.
  - done.
  - done.
Defined.
#[local] Existing Instance sample_lua.

(** A library that gives out numbers as sessions and a device that answers
    every request; the state is the set of open sessions and the next number. *)
#[refine] Definition sample_sessions : SnmpSessions (gset nat * nat) nat := {|
  init_snmp w := w;
  snmp_open w p v c :=
    let n := fresh (w.1) in if bool_decide (p = "unknown") then (None, w) else (Some n, ({[n]} ∪ w.1, S w.2));
  snmp_close w p :=
    match p with
    | Some s => if bool_decide (s ∈ w.1) then (1, (w.1 ∖ {[s]}, w.2)) else (0, w)
    | None => (0, w)
    end;
  snmp_synch_response w s p := (Response 0 0 [("sysName", "router")], (w.1, S w.2));
  live w s := bool_decide (s ∈ w.1) |}.
Proof.
  - done.
  - intros w p v c s w'. case_bool_decide; [done|]. intros [= <- <-]. split.
    + apply bool_decide_false, is_fresh.
    + intros s'. rewrite <- bool_decide_or. apply bool_decide_ext. cbn. set_solver +.
  - intros w p v c w'. case_bool_decide; [|done]. by intros [= <-].
  - intros w [s|] r w'.
    + case_bool_decide as Hs; intros [= <- <-]; (split; [done|]); intros s'.
      * rewrite <- bool_decide_not, <- bool_decide_and. apply bool_decide_ext. cbn. set_solver +.
      * rewrite <- bool_decide_not, <- bool_decide_and. apply bool_decide_ext. set_solver + Hs.
    + intros [= <- <-]. split; [done|]. intros s'. cbn. by rewrite andb_true_r.
  - done.
Defined.
#[local] Existing Instance sample_sessions.

Definition sample_world : world lua_view (gset nat * nat) nat := World (LuaView [] ∅ ∅ ∅ 5) (∅, 0%nat) ∅.

(** Two sessions, one of which fails to open; both are collected in the end. *)
Definition sample_script : list action :=
  [Session [VString "10.0.0.9"; VInteger 1; VString "public"];
   Session [VString "unknown"; VInteger 1; VString "public"];
   Method 8 "get" [VString "sysName.0"]; Method 8 "delIp" [VString "10.0.0.1"];
   Method 9 "get" [VString "sysName.0"]; Method 8 "set" []; Collect 9].

(** The module is table 6, the first session userdata 8. *)
Definition sample_start : out (world lua_view (gset nat * nat) nat) := luaopen_snmp sample_world.
Definition module_is_6 : bool :=
  match sample_start with Ret b => bool_decide (stack (view (lstate b)) !! 0%nat = Some (VTable 6)) | _ => false end.
Definition holds_8 (l : list action) : bool :=
  match sample_start with
  | Ret b => match acts (loaded b 6) l with Ok x => bool_decide (held x = {[8%nat]}) | UB _ => false end
  | _ => false
  end.


Lemma explicit_gc_use_after_free_witness :
  exists b x x', luaopen_snmp sample_world = Ret b /\
    acts (loaded b 6) [Session [VString "10.0.0.9"; VInteger 1; VString "public"]] = Ok x /\
    act x (Method 8 "__gc" []) = Ok x' /\ act x' (Method 8 "delIp" [VString "10.0.0.1"]) = UB UseAfterFree.
Proof.
  assert (module_is_6 = true) as Hm by (vm_compute; reflexivity).
  assert (holds_8 [Session [VString "10.0.0.9"; VInteger 1; VString "public"]] = true) as Hh
    by (vm_compute; reflexivity).
  unfold module_is_6, holds_8, sample_start in Hm, Hh.
  destruct (luaopen_snmp sample_world) as [b| |] eqn:E; [|discriminate Hm..]. apply bool_decide_eq_true in Hm.
  destruct (acts (loaded b 6) [Session [VString "10.0.0.9"; VInteger 1; VString "public"]]) as [x|] eqn:Ex;
    [|discriminate Hh]. apply bool_decide_eq_true in Hh.
  destruct (explicit_gc_use_after_free (LA := sample_lua) (SS := sample_sessions) sample_world
    [Session [VString "10.0.0.9"; VInteger 1; VString "public"]] b 6 x 8 "10.0.0.1" "1.4.10.0.0.1" (replicate 7 1))
    as (x' & H1 & _ & H2).
  - vm_compute. reflexivity.
  - reflexivity.
  - by repeat constructor.
  - exact E.
  - unfold top. destruct (stack _); [discriminate Hm|]. cbn in *. by injection Hm as ->.
  - exact Ex.
  - rewrite Hh. by apply elem_of_singleton.
  - vm_compute. reflexivity.
  - vm_compute. reflexivity.
  - exists b, x, x'. split; [reflexivity|]. split; [exact Ex|]. split; [exact H1|exact H2].
Defined.

End Witnesses.
